(** * Semeru memory server: free-region lists and the concurrent mark driver

    A shallow embedding of
    - [SemeruHeapRegionSet.hpp] / [SemeruHeapRegionSet.cpp]
      (module [RegionSet]), and
    - [g1SemeruConcurrentMark.cpp] / [g1SemeruConcurrentMark.inline.hpp]
      (module [Marking]).

    Conventions.
    - A C++ pointer is an [option] of an address; [None] is [NULL].
      Reading or writing a field through [NULL] (or through an address that
      holds no object) is a [Crash].
    - [assert(...)] and [DEBUG_ONLY(...)] are compiled in only when the build
      flag [ASSERT] is set; [guarantee(...)] is always compiled in.  A
      condition that reads state kept outside these files is a parameter of
      the embedding ([RegionChecks], [Setting]).
    - A [while] loop is a [Fixpoint] on a fuel argument, one unit of fuel per
      execution of the loop body; [OutOfFuel] is not a result of the program.
    - [uint] and [size_t] values are [Z] with the wrap-around written out. *)

From Stdlib Require Import ZArith Floats.PrimFloat.
From stdpp Require Import base numbers option list sorting gmap sets strings.

Local Open Scope Z_scope.

(** ** Results of running a piece of code *)

Inductive failure : Type :=
| NullDereference
| GuaranteeFailed (site : string)
| AssertFailed (site : string).

Inductive outcome (A : Type) : Type :=
| Done (a : A)
| Crash (e : failure)
| OutOfFuel.

Arguments Done {A} a.
Arguments Crash {A} e.
Arguments OutOfFuel {A}.

#[export] Instance outcome_ret : MRet outcome := fun A a => Done a.
#[export] Instance outcome_bind : MBind outcome := fun A B k m =>
  match m with
  | Done a => k a
  | Crash e => Crash e
  | OutOfFuel => OutOfFuel
  end.

(** [guarantee(c, site)]: checked in every build. *)
Definition guarantee (c : bool) (site : string) : outcome unit :=
  if c then Done tt else Crash (GuaranteeFailed site).

(** [assert(c, site)]: checked only when the build defines [ASSERT]. *)
Definition assert_ (ASSERT : bool) (c : bool) (site : string) : outcome unit :=
  if ASSERT && negb c then Crash (AssertFailed site) else Done tt.

(** [uint] arithmetic. *)
Definition uint_modulus : Z := 2 ^ 32.
Definition uint_add (a b : Z) : Z := (a + b) mod uint_modulus.
Definition uint_sub (a b : Z) : Z := (a - b) mod uint_modulus.

(** [size_t] arithmetic (LP64). *)
Definition size_t_modulus : Z := 2 ^ 64.
Definition size_t_add (a b : Z) : Z := (a + b) mod size_t_modulus.

(** * Free region lists ([SemeruHeapRegionSet.cpp]) *)

Module RegionSet.

(** Address of a [SemeruHeapRegion], of a [SemeruHeapRegionSetBase]. *)
Definition region_ptr : Type := positive.
Definition set_ptr : Type := positive.

(** Modelled from the spec: the part of [SemeruHeapRegion] (declared in
    SemeruHeapRegion.hpp) that the list code reads and writes: the region
    index, the two list links and the containing-set back-reference. *)
Record SemeruHeapRegion : Type := mkRegion {
  hrm_index : Z;
  _next : option region_ptr;
  _prev : option region_ptr;
  _containing_set : option set_ptr
}.

Abbreviation region_store := (gmap region_ptr SemeruHeapRegion).

(** [FreeSemeruRegionList] with the fields of its base class; [self] is the
    address of the list object ([this]). *)
Record FreeSemeruRegionList : Type := mkList {
  self : set_ptr;
  _length : Z;
  _verify_in_progress : bool;
  _head : option region_ptr;
  _tail : option region_ptr;
  _last : option region_ptr
}.

Definition length (l : FreeSemeruRegionList) : Z := _length l.
Definition is_empty (l : FreeSemeruRegionList) : bool := _length l =? 0.

Definition set_length (l : FreeSemeruRegionList) (n : Z) : FreeSemeruRegionList :=
  mkList (self l) n (_verify_in_progress l) (_head l) (_tail l) (_last l).
Definition set_verify_in_progress (l : FreeSemeruRegionList) (b : bool) : FreeSemeruRegionList :=
  mkList (self l) (_length l) b (_head l) (_tail l) (_last l).
Definition set_head (l : FreeSemeruRegionList) (p : option region_ptr) : FreeSemeruRegionList :=
  mkList (self l) (_length l) (_verify_in_progress l) p (_tail l) (_last l).
Definition set_tail (l : FreeSemeruRegionList) (p : option region_ptr) : FreeSemeruRegionList :=
  mkList (self l) (_length l) (_verify_in_progress l) (_head l) p (_last l).
Definition set_last (l : FreeSemeruRegionList) (p : option region_ptr) : FreeSemeruRegionList :=
  mkList (self l) (_length l) (_verify_in_progress l) (_head l) (_tail l) p.

(** [FreeSemeruRegionList::clear]. *)
Definition clear (l : FreeSemeruRegionList) : FreeSemeruRegionList :=
  mkList (self l) 0 (_verify_in_progress l) None None None.

(** *** Access to region objects *)

Definition deref (h : region_store) (p : option region_ptr) : outcome SemeruHeapRegion :=
  match p with
  | None => Crash NullDereference
  | Some a => match h !! a with
              | Some r => Done r
              | None => Crash NullDereference
              end
  end.

Definition next (h : region_store) (p : option region_ptr) : outcome (option region_ptr) :=
  r ← deref h p; Done (_next r).
Definition prev (h : region_store) (p : option region_ptr) : outcome (option region_ptr) :=
  r ← deref h p; Done (_prev r).
Definition index_of (h : region_store) (p : option region_ptr) : outcome Z :=
  r ← deref h p; Done (hrm_index r).
Definition containing_set (h : region_store) (p : option region_ptr) : outcome (option set_ptr) :=
  r ← deref h p; Done (_containing_set r).

Definition write (h : region_store) (p : option region_ptr)
    (f : SemeruHeapRegion -> SemeruHeapRegion) : outcome region_store :=
  match p with
  | None => Crash NullDereference
  | Some a => match h !! a with
              | Some r => Done (<[a := f r]> h)
              | None => Crash NullDereference
              end
  end.

Definition set_next (h : region_store) (p v : option region_ptr) : outcome region_store :=
  write h p (fun r => mkRegion (hrm_index r) v (_prev r) (_containing_set r)).
Definition set_prev (h : region_store) (p v : option region_ptr) : outcome region_store :=
  write h p (fun r => mkRegion (hrm_index r) (_next r) v (_containing_set r)).

(** Modelled from the spec: what the list code asks of a region and of a
    set through code outside this file.  [verify_region] asserts on the type
    and the contents of the region ([is_young], [is_free], [is_empty],
    [is_archive], declared in SemeruHeapRegion.hpp) and asks the set's
    checker for [is_correct_type]; [check_mt_safety] hands over to the
    checker, whose check is a [guarantee] on the locking protocol.
    [is_correct_type s p] stands for
    [_checker == NULL || _checker->is_correct_type(hr)] on the set [s], and
    [mt_safe s] for that guarantee (it holds when [s] has no checker).  The
    list code changes none of these. *)
Record RegionChecks : Type := mkRegionChecks {
  is_young : region_ptr -> bool;
  is_correct_type : set_ptr -> region_ptr -> bool;
  is_free : region_ptr -> bool;
  region_is_empty : region_ptr -> bool;
  is_archive : region_ptr -> bool;
  mt_safe : set_ptr -> bool
}.

Section Build.

(** The build flag, the static [_unrealistically_long_length], and the
    checks made through code outside this file. *)
Variable ASSERT : bool.
Variable _unrealistically_long_length : Z.
Variable checks : RegionChecks.

(** [check_mt_safety]. *)
Definition check_mt_safety (this : FreeSemeruRegionList) : outcome unit :=
  guarantee (mt_safe checks (self this)) "check_mt_safety: MT safety protocol".

(** [set_containing_set]: the field exists in debug builds only, and the
    setter asserts that the value goes from NULL to non-NULL or back (see the
    comment in [add_ordered]). *)
Definition set_containing_set (h : region_store) (p : option region_ptr)
    (v : option set_ptr) : outcome region_store :=
  if ASSERT then
    r ← deref h p;
    _ ← assert_ ASSERT (negb (bool_decide (is_Some (_containing_set r) <-> is_Some v)))
          "set_containing_set: NULL to non-NULL or back";
    write h p (fun r => mkRegion (hrm_index r) (_next r) (_prev r) v)
  else Done h.

(** [SemeruHeapRegionSetBase::verify_region] (empty in a build without
    [ASSERT]). *)
Definition verify_region (this : FreeSemeruRegionList) (h : region_store)
    (hr : option region_ptr) : outcome unit :=
  if ASSERT then
    c ← containing_set h hr;
    _ ← assert_ ASSERT (bool_decide (c = Some (self this)))
          "verify_region: Inconsistent containing set";
    match hr with
    | None => Crash NullDereference
    | Some a =>
      _ ← assert_ ASSERT (negb (is_young checks a)) "verify_region: Adding young region";
      _ ← assert_ ASSERT (is_correct_type checks (self this) a)
            "verify_region: Wrong type of region";
      _ ← assert_ ASSERT (negb (is_free checks a) || region_is_empty checks a)
            "verify_region: Free region is not empty";
      assert_ ASSERT (negb (region_is_empty checks a) || is_free checks a || is_archive checks a)
        "verify_region: Empty region is not free or archive"
    end
  else Done tt.

(** [SemeruHeapRegionSetBase::verify]. *)
Definition verify_base (this : FreeSemeruRegionList) : outcome unit :=
  _ ← check_mt_safety this;
  guarantee ((is_empty this && (length this =? 0)) || (negb (is_empty this) && (0 <? length this)))
    "verify: invariant".

Definition verify_start (this : FreeSemeruRegionList) : outcome FreeSemeruRegionList :=
  _ ← check_mt_safety this;
  _ ← assert_ ASSERT (negb (_verify_in_progress this))
        "verify_start: verification should not be in progress";
  _ ← verify_base this;
  Done (set_verify_in_progress this true).

Definition verify_end (this : FreeSemeruRegionList) : outcome FreeSemeruRegionList :=
  _ ← check_mt_safety this;
  _ ← assert_ ASSERT (_verify_in_progress this)
        "verify_end: verification should be in progress";
  Done (set_verify_in_progress this false).

(** The loop of [FreeSemeruRegionList::verify_list]; returns [prev0] and
    [count] at loop exit. *)
Fixpoint verify_list_loop (fuel : nat) (this : FreeSemeruRegionList) (h : region_store)
    (curr prev0 : option region_ptr) (count last_index : Z)
    : outcome (option region_ptr * Z) :=
  match curr with
  | None => Done (prev0, count)
  | Some _ =>
    match fuel with
    | O => OutOfFuel
    | S fuel' =>
      _ ← verify_region this h curr;
      let count := uint_add count 1 in
      _ ← guarantee (count <? _unrealistically_long_length) "verify_list: length seems very long";
      nxt ← next h curr;
      _ ← (if bool_decide (nxt ≠ None)
           then p ← prev h nxt;
                guarantee (bool_decide (p = curr)) "verify_list: next or prev pointers messed up"
           else Done tt);
      i ← index_of h curr;
      _ ← guarantee ((i =? 0) || (last_index <? i)) "verify_list: list should be sorted";
      verify_list_loop fuel' this h nxt curr count i
    end
  end.

(** [FreeSemeruRegionList::verify_list]. *)
Definition verify_list (fuel : nat) (this : FreeSemeruRegionList) (h : region_store)
    : outcome unit :=
  _ ← (if bool_decide (_head this = None) then Done tt
       else p ← prev h (_head this);
            guarantee (bool_decide (p = None)) "verify_list: _head should not have a prev");
  '(prev0, count) ← verify_list_loop fuel this h (_head this) None 0 0;
  _ ← guarantee (bool_decide (_tail this = prev0)) "verify_list: unexpected end";
  _ ← (if bool_decide (_tail this = None) then Done tt
       else n ← next h (_tail this);
            guarantee (bool_decide (n = None)) "verify_list: _tail should not have a next");
  guarantee (length this =? count) "verify_list: count mismatch".

(** [FreeSemeruRegionList::verify]. *)
Definition verify (fuel : nat) (this : FreeSemeruRegionList) (h : region_store)
    : outcome FreeSemeruRegionList :=
  _ ← check_mt_safety this;
  this ← verify_start this;
  _ ← verify_list fuel this h;
  verify_end this.

(** [verify_optional() { DEBUG_ONLY(verify();) }]. *)
Definition verify_optional (fuel : nat) (this : FreeSemeruRegionList) (h : region_store)
    : outcome FreeSemeruRegionList :=
  if ASSERT then verify fuel this h else Done this.

(** The [#ifdef ASSERT] block of [add_ordered]: every region of [from_list]
    is retagged, through NULL, as a member of [this]. *)
Fixpoint retag_loop (fuel : nat) (this from_list : FreeSemeruRegionList)
    (h : region_store) (curr : option region_ptr) : outcome region_store :=
  match curr with
  | None => Done h
  | Some _ =>
    match fuel with
    | O => OutOfFuel
    | S fuel' =>
      _ ← verify_region from_list h curr;
      nxt ← next h curr;
      h ← set_containing_set h curr None;
      h ← set_containing_set h curr (Some (self this));
      retag_loop fuel' this from_list h nxt
    end
  end.

(** The merging loop of [add_ordered].  One unit of fuel pays for one
    execution of a loop body: either one step of the inner loop
    ([curr_to = curr_to->next()]) or the rest of one round of the outer loop
    (placing [curr_from]).  The inner loop does not change [curr_from], so
    the outer test is simply repeated after an inner step. *)
Fixpoint merge_walk (fuel : nat) (h : region_store) (this : FreeSemeruRegionList)
    (curr_to curr_from : option region_ptr)
    : outcome (region_store * FreeSemeruRegionList) :=
  match curr_from with
  | None => Done (h, this)
  | Some _ =>
    match fuel with
    | O => OutOfFuel
    | S fuel' =>
      advance ← (match curr_to with
                 | None => Done false
                 | Some _ => i_to ← index_of h curr_to;
                             i_from ← index_of h curr_from;
                             Done (i_to <? i_from)
                 end);
      if (advance : bool) then
        nxt ← next h curr_to;
        merge_walk fuel' h this nxt curr_from
      else
        match curr_to with
        | None =>
          (* The rest of the from list should be added as tail *)
          h ← set_next h (_tail this) curr_from;
          h ← set_prev h curr_from (_tail this);
          merge_walk fuel' h this curr_to None
        | Some _ =>
          next_from ← next h curr_from;
          h ← set_next h curr_from curr_to;
          p ← prev h curr_to;
          h ← set_prev h curr_from p;
          p ← prev h curr_to;
          '(h, this) ← (if bool_decide (p = None)
                        then Done (h, set_head this curr_from)
                        else p ← prev h curr_to;
                             h ← set_next h p curr_from;
                             Done (h, this));
          h ← set_prev h curr_to curr_from;
          merge_walk fuel' h this curr_to next_from
        end
    end
  end.

(** [FreeSemeruRegionList::add_ordered(FreeSemeruRegionList* from_list)]. *)
Definition add_ordered (fuel : nat) (h : region_store)
    (this from_list : FreeSemeruRegionList)
    : outcome (region_store * FreeSemeruRegionList * FreeSemeruRegionList) :=
  _ ← check_mt_safety this;
  _ ← check_mt_safety from_list;
  this ← verify_optional fuel this h;
  from_list ← verify_optional fuel from_list h;
  if is_empty from_list then Done (h, this, from_list)
  else
    h ← (if ASSERT then retag_loop fuel this from_list h (_head from_list) else Done h);
    '(h, this) ←
      (if is_empty this then
         _ ← assert_ ASSERT ((length this =? 0) && bool_decide (_tail this = None))
               "add_ordered: invariant";
         Done (h, set_tail (set_head this (_head from_list)) (_tail from_list))
       else
         '(h, this) ← merge_walk fuel h this (_head this) (_head from_list);
         i_tail ← index_of h (_tail this);
         i_from_tail ← index_of h (_tail from_list);
         Done (h, if i_tail <? i_from_tail then set_tail this (_tail from_list) else this));
    let this := set_length this (uint_add (_length this) (length from_list)) in
    let from_list := clear from_list in
    this ← verify_optional fuel this h;
    from_list ← verify_optional fuel from_list h;
    Done (h, this, from_list).

(** The loop of [FreeSemeruRegionList::remove_all]. *)
Fixpoint remove_all_loop (fuel : nat) (this : FreeSemeruRegionList) (h : region_store)
    (curr : option region_ptr) : outcome region_store :=
  match curr with
  | None => Done h
  | Some _ =>
    match fuel with
    | O => OutOfFuel
    | S fuel' =>
      _ ← verify_region this h curr;
      nxt ← next h curr;
      h ← set_next h curr None;
      h ← set_prev h curr None;
      h ← set_containing_set h curr None;
      remove_all_loop fuel' this h nxt
    end
  end.

(** [FreeSemeruRegionList::remove_all]. *)
Definition remove_all (fuel : nat) (h : region_store) (this : FreeSemeruRegionList)
    : outcome (region_store * FreeSemeruRegionList) :=
  _ ← check_mt_safety this;
  this ← verify_optional fuel this h;
  h ← remove_all_loop fuel this h (_head this);
  let this := clear this in
  this ← verify_optional fuel this h;
  Done (h, this).

(** Modelled from the spec: [SemeruHeapRegionSetBase::remove(hr)], defined in
    SemeruHeapRegionSet.inline.hpp: the region, already unlinked, has its
    containing set cleared and the set is one region shorter.  In a debug
    build the region is verified first and it is asserted that both links
    are NULL and that the set is not empty. *)
Definition remove (this : FreeSemeruRegionList) (h : region_store)
    (hr : option region_ptr) : outcome (region_store * FreeSemeruRegionList) :=
  _ ← check_mt_safety this;
  _ ← verify_region this h hr;
  _ ← (if ASSERT then
         n ← next h hr;
         _ ← assert_ ASSERT (bool_decide (n = None)) "remove: should already be unlinked";
         p ← prev h hr;
         assert_ ASSERT (bool_decide (p = None)) "remove: should already be unlinked"
       else Done tt);
  h ← set_containing_set h hr None;
  _ ← assert_ ASSERT (0 <? _length this) "remove: pre-condition";
  Done (h, set_length this (uint_sub (_length this) 1)).

(** The loop of [FreeSemeruRegionList::remove_starting_at]; returns [count]
    at loop exit. *)
Fixpoint remove_starting_at_loop (fuel : nat) (h : region_store)
    (this : FreeSemeruRegionList) (curr : option region_ptr) (count num_regions : Z)
    : outcome (region_store * FreeSemeruRegionList * Z) :=
  if count <? num_regions then
    match fuel with
    | O => OutOfFuel
    | S fuel' =>
      _ ← verify_region this h curr;
      nxt ← next h curr;
      prv ← prev h curr;
      _ ← assert_ ASSERT (count <? num_regions)
            "remove_starting_at: more regions pending for removal than num_regions";
      '(h, this) ← (match prv with
                    | None =>
                      _ ← assert_ ASSERT (bool_decide (_head this = curr))
                            "remove_starting_at: invariant";
                      Done (h, set_head this nxt)
                    | Some _ =>
                      _ ← assert_ ASSERT (negb (bool_decide (_head this = curr)))
                            "remove_starting_at: invariant";
                      h ← set_next h prv nxt;
                      Done (h, this)
                    end);
      '(h, this) ← (match nxt with
                    | None =>
                      _ ← assert_ ASSERT (bool_decide (_tail this = curr))
                            "remove_starting_at: invariant";
                      Done (h, set_tail this prv)
                    | Some _ =>
                      _ ← assert_ ASSERT (negb (bool_decide (_tail this = curr)))
                            "remove_starting_at: invariant";
                      h ← set_prev h nxt prv;
                      Done (h, this)
                    end);
      let this := if bool_decide (_last this = curr) then set_last this None else this in
      h ← set_next h curr None;
      h ← set_prev h curr None;
      '(h, this) ← remove this h curr;
      remove_starting_at_loop fuel' h this nxt (uint_add count 1) num_regions
    end
  else Done (h, this, count).

(** [FreeSemeruRegionList::remove_starting_at(first, num_regions)]. *)
Definition remove_starting_at (fuel : nat) (h : region_store)
    (this : FreeSemeruRegionList) (first : option region_ptr) (num_regions : Z)
    : outcome (region_store * FreeSemeruRegionList) :=
  _ ← check_mt_safety this;
  _ ← assert_ ASSERT (1 <=? num_regions) "remove_starting_at: pre-condition";
  _ ← assert_ ASSERT (negb (is_empty this)) "remove_starting_at: pre-condition";
  this ← verify_optional fuel this h;
  let old_length := length this in
  '(h, this, count) ← remove_starting_at_loop fuel h this first 0 num_regions;
  _ ← assert_ ASSERT (count =? num_regions) "remove_starting_at: count should be == num_regions";
  _ ← assert_ ASSERT (uint_add (length this) num_regions =? old_length)
        "remove_starting_at: new length should be consistent";
  this ← verify_optional fuel this h;
  Done (h, this).

(** The loop of [FreeSemeruRegionList::num_of_regions_in_range]. *)
Fixpoint num_of_regions_in_range_loop (fuel : nat) (h : region_store)
    (start end_ : Z) (cur : option region_ptr) (num : Z) : outcome Z :=
  match cur with
  | None => Done num
  | Some _ =>
    match fuel with
    | O => OutOfFuel
    | S fuel' =>
      index ← index_of h cur;
      if end_ <? index then Done num
      else
        let num := if start <=? index then uint_add num 1 else num in
        cur ← next h cur;
        num_of_regions_in_range_loop fuel' h start end_ cur num
    end
  end.

(** [FreeSemeruRegionList::num_of_regions_in_range(start, end)]. *)
Definition num_of_regions_in_range (fuel : nat) (h : region_store)
    (this : FreeSemeruRegionList) (start end_ : Z) : outcome Z :=
  num_of_regions_in_range_loop fuel h start end_ (_head this) 0.

End Build.

End RegionSet.

(** * The concurrent mark driver ([g1SemeruConcurrentMark.cpp]) *)

Module Marking.

(** ** Data *)

(** A heap address, in words; [NULL] is 0. *)
Definition HeapWord : Type := Z.
Definition oop : Type := Z.
Definition NULL : Z := 0.

(** Modelled from the spec: [G1SemeruTaskQueueEntry] (declared in
    g1SemeruConcurrentMark.hpp) is a tagged one-word value, either an object
    reference or an array slice; the default-constructed entry is null. *)
Inductive G1SemeruTaskQueueEntry : Type :=
| null_entry
| oop_entry (obj : oop)
| slice_entry (slice : HeapWord).

#[export] Instance G1SemeruTaskQueueEntry_eq_dec : EqDecision G1SemeruTaskQueueEntry.
Proof. solve_decision. Defined.

Definition from_oop (obj : oop) : G1SemeruTaskQueueEntry := oop_entry obj.
Definition is_null (e : G1SemeruTaskQueueEntry) : bool :=
  match e with null_entry => true | _ => false end.
Definition is_array_slice (e : G1SemeruTaskQueueEntry) : bool :=
  match e with slice_entry _ => true | _ => false end.
(** [obj()]: the word that the entry holds, read as an object. *)
Definition obj_of (e : G1SemeruTaskQueueEntry) : oop :=
  match e with
  | null_entry => NULL
  | oop_entry obj => obj
  | slice_entry slice => slice
  end.

(** Modelled from the spec: a [StarTask] of a target-object queue is the
    address of a reference slot, tagged when the slot holds a narrow oop. *)
Inductive StarTask : Type :=
| oop_ref (p : HeapWord)
| narrow_ref (p : HeapWord).

Definition is_narrow (r : StarTask) : bool :=
  match r with narrow_ref _ => true | oop_ref _ => false end.

(** Modelled from the spec: the per-region target-object queue, an
    [OverflowTaskQueue<StarTask>]: a bounded local queue and an unbounded
    overflow stack (both with the most recent element first). *)
Record TargetObjQueue : Type := mkTargetObjQueue {
  tq_local : list StarTask;
  tq_overflow : list StarTask
}.

(** Address of a [HeapRegion] (its index in the region table), of a bitmap. *)
Definition region_ptr : Type := nat.
Definition bitmap_ptr : Type := nat.

(** Modelled from the spec: the part of [HeapRegion] that the marker reads. *)
Record HeapRegion : Type := mkHeapRegion {
  hrm_index : nat;
  bottom : HeapWord;
  end_ : HeapWord;
  top : HeapWord;
  next_top_at_mark_start : HeapWord;
  alive_bitmap : option bitmap_ptr;
  dest_bitmap : option bitmap_ptr;
  mem_server_cset_next : option region_ptr;
  is_starts_humongous : bool;
  is_continues_humongous : bool;
  target_obj_queue : TargetObjQueue
}.

Definition is_humongous (r : HeapRegion) : bool :=
  is_starts_humongous r || is_continues_humongous r.
Definition is_in_reserved (r : HeapRegion) (p : HeapWord) : bool :=
  (bottom r <=? p) && (p <? end_ r).
Definition used (r : HeapRegion) : Z := top r - bottom r.
(** Objects at or above NTAMS were allocated since marking started. *)
Definition obj_allocated_since_next_marking (r : HeapRegion) (obj : oop) : bool :=
  next_top_at_mark_start r <=? obj.
Definition set_target_obj_queue (r : HeapRegion) (q : TargetObjQueue) : HeapRegion :=
  mkHeapRegion (hrm_index r) (bottom r) (end_ r) (top r) (next_top_at_mark_start r)
    (alive_bitmap r) (dest_bitmap r) (mem_server_cset_next r)
    (is_starts_humongous r) (is_continues_humongous r) q.

(** The heap: the region table, the mark bitmaps (a bitmap is the set of
    marked addresses), and the geometry that maps an address to its region. *)
Record G1SemeruCollectedHeap : Type := mkHeap {
  regions : gmap region_ptr HeapRegion;
  bitmaps : gmap bitmap_ptr (gset Z);
  heap_start : HeapWord;
  GrainWords : Z
}.

Definition set_regions (h : G1SemeruCollectedHeap) (r : gmap region_ptr HeapRegion)
    : G1SemeruCollectedHeap :=
  mkHeap r (bitmaps h) (heap_start h) (GrainWords h).
Definition set_bitmaps (h : G1SemeruCollectedHeap) (b : gmap bitmap_ptr (gset Z))
    : G1SemeruCollectedHeap :=
  mkHeap (regions h) b (heap_start h) (GrainWords h).

(** Modelled from the spec: [addr_to_region] and [heap_region_containing] of
    [G1SemeruCollectedHeap]: regions are [GrainWords] words each, laid out
    from [heap_start] in index order; an address in no committed region has
    no region. *)
Definition addr_to_region (h : G1SemeruCollectedHeap) (p : HeapWord) : region_ptr :=
  Z.to_nat ((p - heap_start h) / GrainWords h).
Definition heap_region_containing (h : G1SemeruCollectedHeap) (p : HeapWord)
    : option region_ptr :=
  match regions h !! addr_to_region h p with
  | Some _ => Some (addr_to_region h p)
  | None => None
  end.

(** [G1SemeruCMMarkStack]: the chunk list holds the data of each full chunk,
    most recently pushed first; the free list and the backing array are
    represented by the indices of their chunks. *)
Record TaskQueueEntryChunk : Type := mkChunk {
  chunk_index : Z;
  data : list G1SemeruTaskQueueEntry
}.

Record G1SemeruCMMarkStack : Type := mkMarkStack {
  _max_chunk_capacity : Z;
  _chunk_capacity : Z;
  _chunk_list : list TaskQueueEntryChunk;
  _chunks_in_chunk_list : Z;
  _free_list : list Z;
  _hwm : Z
}.

(** Modelled from the spec: an overflow barrier is a counter of the workers
    that have entered, and can be aborted. *)
Record WorkGangBarrierSync : Type := mkBarrier {
  _n_workers : Z;
  _n_completed : Z;
  _aborted : bool
}.

(** [G1SemeruConcurrentMark]: the global marking state.  [_task_queues] maps
    a worker id to that worker's queue (most recent element first);
    [_mark_stats_caches] holds, per worker and region, the live words in that
    worker's [_mark_stats_cache]; [_offered_termination] is the terminator's
    count of workers that have offered termination. *)
Record G1SemeruConcurrentMark : Type := mkCM {
  cm_finger : HeapWord;
  _has_overflown : bool;
  cm_has_aborted : bool;
  _concurrent : bool;
  _global_mark_stack : G1SemeruCMMarkStack;
  _task_queues : gmap nat (list G1SemeruTaskQueueEntry);
  _max_num_tasks : nat;
  _offered_termination : Z;
  _first_overflow_barrier_sync : WorkGangBarrierSync;
  _second_overflow_barrier_sync : WorkGangBarrierSync;
  _mark_stats_caches : gmap (nat * nat) Z;
  _region_mark_stats : gmap nat Z
}.

(** [G1SemeruCMTask]: the state of one marking worker.  Its queue is
    [_task_queues] at [_worker_id] and its statistics cache is
    [_mark_stats_caches] at [_worker_id]; [_semeru_cm_oop_closure] tells
    whether the closure pointer is set. *)
Record G1SemeruCMTask : Type := mkTask {
  _worker_id : nat;
  _curr_region : option region_ptr;
  _alive_bitmap : option bitmap_ptr;
  _dest_bitmap : option bitmap_ptr;
  _finger : HeapWord;
  _region_limit : HeapWord;
  _words_scanned : Z;
  _words_scanned_limit : Z;
  _real_words_scanned_limit : Z;
  _refs_reached : Z;
  _refs_reached_limit : Z;
  _real_refs_reached_limit : Z;
  _has_aborted : bool;
  _has_timed_out : bool;
  _draining_satb_buffers : bool;
  _start_time_ms : float;
  _time_target_ms : float;
  _calls : Z;
  _semeru_cm_oop_closure : bool;
  _step_times_ms : list float;
  _marking_step_diffs_ms : list float
}.


(** The state a marking step runs in: the worker, the global marking state,
    the heap, and the logical time [now] at which the outside world (the
    clock, yield requests, SATB buffers) is observed next. *)
Record state : Type := mkState {
  task : G1SemeruCMTask;
  cm : G1SemeruConcurrentMark;
  heap : G1SemeruCollectedHeap;
  now : nat
}.


(** Field updates. *)

Definition upd_chunk_capacity (r : G1SemeruCMMarkStack) v : G1SemeruCMMarkStack :=
  mkMarkStack (_max_chunk_capacity r) v (_chunk_list r) (_chunks_in_chunk_list r) (_free_list r) (_hwm r).
Definition upd_chunk_list (r : G1SemeruCMMarkStack) v : G1SemeruCMMarkStack :=
  mkMarkStack (_max_chunk_capacity r) (_chunk_capacity r) v (_chunks_in_chunk_list r) (_free_list r) (_hwm r).
Definition upd_chunks_in_chunk_list (r : G1SemeruCMMarkStack) v : G1SemeruCMMarkStack :=
  mkMarkStack (_max_chunk_capacity r) (_chunk_capacity r) (_chunk_list r) v (_free_list r) (_hwm r).
Definition upd_free_list (r : G1SemeruCMMarkStack) v : G1SemeruCMMarkStack :=
  mkMarkStack (_max_chunk_capacity r) (_chunk_capacity r) (_chunk_list r) (_chunks_in_chunk_list r) v (_hwm r).
Definition upd_hwm (r : G1SemeruCMMarkStack) v : G1SemeruCMMarkStack :=
  mkMarkStack (_max_chunk_capacity r) (_chunk_capacity r) (_chunk_list r) (_chunks_in_chunk_list r) (_free_list r) v.
Definition upd_n_completed (r : WorkGangBarrierSync) v : WorkGangBarrierSync :=
  mkBarrier (_n_workers r) v (_aborted r).
Definition upd_aborted (r : WorkGangBarrierSync) v : WorkGangBarrierSync :=
  mkBarrier (_n_workers r) (_n_completed r) v.
Definition upd_cm_finger (r : G1SemeruConcurrentMark) v : G1SemeruConcurrentMark :=
  mkCM v (_has_overflown r) (cm_has_aborted r) (_concurrent r) (_global_mark_stack r) (_task_queues r) (_max_num_tasks r) (_offered_termination r) (_first_overflow_barrier_sync r) (_second_overflow_barrier_sync r) (_mark_stats_caches r) (_region_mark_stats r).
Definition upd_has_overflown (r : G1SemeruConcurrentMark) v : G1SemeruConcurrentMark :=
  mkCM (cm_finger r) v (cm_has_aborted r) (_concurrent r) (_global_mark_stack r) (_task_queues r) (_max_num_tasks r) (_offered_termination r) (_first_overflow_barrier_sync r) (_second_overflow_barrier_sync r) (_mark_stats_caches r) (_region_mark_stats r).
Definition upd_cm_has_aborted (r : G1SemeruConcurrentMark) v : G1SemeruConcurrentMark :=
  mkCM (cm_finger r) (_has_overflown r) v (_concurrent r) (_global_mark_stack r) (_task_queues r) (_max_num_tasks r) (_offered_termination r) (_first_overflow_barrier_sync r) (_second_overflow_barrier_sync r) (_mark_stats_caches r) (_region_mark_stats r).
Definition upd_concurrent (r : G1SemeruConcurrentMark) v : G1SemeruConcurrentMark :=
  mkCM (cm_finger r) (_has_overflown r) (cm_has_aborted r) v (_global_mark_stack r) (_task_queues r) (_max_num_tasks r) (_offered_termination r) (_first_overflow_barrier_sync r) (_second_overflow_barrier_sync r) (_mark_stats_caches r) (_region_mark_stats r).
Definition upd_global_mark_stack (r : G1SemeruConcurrentMark) v : G1SemeruConcurrentMark :=
  mkCM (cm_finger r) (_has_overflown r) (cm_has_aborted r) (_concurrent r) v (_task_queues r) (_max_num_tasks r) (_offered_termination r) (_first_overflow_barrier_sync r) (_second_overflow_barrier_sync r) (_mark_stats_caches r) (_region_mark_stats r).
Definition upd_task_queues (r : G1SemeruConcurrentMark) v : G1SemeruConcurrentMark :=
  mkCM (cm_finger r) (_has_overflown r) (cm_has_aborted r) (_concurrent r) (_global_mark_stack r) v (_max_num_tasks r) (_offered_termination r) (_first_overflow_barrier_sync r) (_second_overflow_barrier_sync r) (_mark_stats_caches r) (_region_mark_stats r).
Definition upd_offered_termination (r : G1SemeruConcurrentMark) v : G1SemeruConcurrentMark :=
  mkCM (cm_finger r) (_has_overflown r) (cm_has_aborted r) (_concurrent r) (_global_mark_stack r) (_task_queues r) (_max_num_tasks r) v (_first_overflow_barrier_sync r) (_second_overflow_barrier_sync r) (_mark_stats_caches r) (_region_mark_stats r).
Definition upd_first_overflow_barrier_sync (r : G1SemeruConcurrentMark) v : G1SemeruConcurrentMark :=
  mkCM (cm_finger r) (_has_overflown r) (cm_has_aborted r) (_concurrent r) (_global_mark_stack r) (_task_queues r) (_max_num_tasks r) (_offered_termination r) v (_second_overflow_barrier_sync r) (_mark_stats_caches r) (_region_mark_stats r).
Definition upd_second_overflow_barrier_sync (r : G1SemeruConcurrentMark) v : G1SemeruConcurrentMark :=
  mkCM (cm_finger r) (_has_overflown r) (cm_has_aborted r) (_concurrent r) (_global_mark_stack r) (_task_queues r) (_max_num_tasks r) (_offered_termination r) (_first_overflow_barrier_sync r) v (_mark_stats_caches r) (_region_mark_stats r).
Definition upd_mark_stats_caches (r : G1SemeruConcurrentMark) v : G1SemeruConcurrentMark :=
  mkCM (cm_finger r) (_has_overflown r) (cm_has_aborted r) (_concurrent r) (_global_mark_stack r) (_task_queues r) (_max_num_tasks r) (_offered_termination r) (_first_overflow_barrier_sync r) (_second_overflow_barrier_sync r) v (_region_mark_stats r).
Definition upd_region_mark_stats (r : G1SemeruConcurrentMark) v : G1SemeruConcurrentMark :=
  mkCM (cm_finger r) (_has_overflown r) (cm_has_aborted r) (_concurrent r) (_global_mark_stack r) (_task_queues r) (_max_num_tasks r) (_offered_termination r) (_first_overflow_barrier_sync r) (_second_overflow_barrier_sync r) (_mark_stats_caches r) v.
Definition upd_curr_region (r : G1SemeruCMTask) v : G1SemeruCMTask :=
  mkTask (_worker_id r) v (_alive_bitmap r) (_dest_bitmap r) (_finger r) (_region_limit r) (_words_scanned r) (_words_scanned_limit r) (_real_words_scanned_limit r) (_refs_reached r) (_refs_reached_limit r) (_real_refs_reached_limit r) (_has_aborted r) (_has_timed_out r) (_draining_satb_buffers r) (_start_time_ms r) (_time_target_ms r) (_calls r) (_semeru_cm_oop_closure r) (_step_times_ms r) (_marking_step_diffs_ms r).
Definition upd_alive_bitmap (r : G1SemeruCMTask) v : G1SemeruCMTask :=
  mkTask (_worker_id r) (_curr_region r) v (_dest_bitmap r) (_finger r) (_region_limit r) (_words_scanned r) (_words_scanned_limit r) (_real_words_scanned_limit r) (_refs_reached r) (_refs_reached_limit r) (_real_refs_reached_limit r) (_has_aborted r) (_has_timed_out r) (_draining_satb_buffers r) (_start_time_ms r) (_time_target_ms r) (_calls r) (_semeru_cm_oop_closure r) (_step_times_ms r) (_marking_step_diffs_ms r).
Definition upd_dest_bitmap (r : G1SemeruCMTask) v : G1SemeruCMTask :=
  mkTask (_worker_id r) (_curr_region r) (_alive_bitmap r) v (_finger r) (_region_limit r) (_words_scanned r) (_words_scanned_limit r) (_real_words_scanned_limit r) (_refs_reached r) (_refs_reached_limit r) (_real_refs_reached_limit r) (_has_aborted r) (_has_timed_out r) (_draining_satb_buffers r) (_start_time_ms r) (_time_target_ms r) (_calls r) (_semeru_cm_oop_closure r) (_step_times_ms r) (_marking_step_diffs_ms r).
Definition upd_finger (r : G1SemeruCMTask) v : G1SemeruCMTask :=
  mkTask (_worker_id r) (_curr_region r) (_alive_bitmap r) (_dest_bitmap r) v (_region_limit r) (_words_scanned r) (_words_scanned_limit r) (_real_words_scanned_limit r) (_refs_reached r) (_refs_reached_limit r) (_real_refs_reached_limit r) (_has_aborted r) (_has_timed_out r) (_draining_satb_buffers r) (_start_time_ms r) (_time_target_ms r) (_calls r) (_semeru_cm_oop_closure r) (_step_times_ms r) (_marking_step_diffs_ms r).
Definition upd_region_limit (r : G1SemeruCMTask) v : G1SemeruCMTask :=
  mkTask (_worker_id r) (_curr_region r) (_alive_bitmap r) (_dest_bitmap r) (_finger r) v (_words_scanned r) (_words_scanned_limit r) (_real_words_scanned_limit r) (_refs_reached r) (_refs_reached_limit r) (_real_refs_reached_limit r) (_has_aborted r) (_has_timed_out r) (_draining_satb_buffers r) (_start_time_ms r) (_time_target_ms r) (_calls r) (_semeru_cm_oop_closure r) (_step_times_ms r) (_marking_step_diffs_ms r).
Definition upd_words_scanned (r : G1SemeruCMTask) v : G1SemeruCMTask :=
  mkTask (_worker_id r) (_curr_region r) (_alive_bitmap r) (_dest_bitmap r) (_finger r) (_region_limit r) v (_words_scanned_limit r) (_real_words_scanned_limit r) (_refs_reached r) (_refs_reached_limit r) (_real_refs_reached_limit r) (_has_aborted r) (_has_timed_out r) (_draining_satb_buffers r) (_start_time_ms r) (_time_target_ms r) (_calls r) (_semeru_cm_oop_closure r) (_step_times_ms r) (_marking_step_diffs_ms r).
Definition upd_words_scanned_limit (r : G1SemeruCMTask) v : G1SemeruCMTask :=
  mkTask (_worker_id r) (_curr_region r) (_alive_bitmap r) (_dest_bitmap r) (_finger r) (_region_limit r) (_words_scanned r) v (_real_words_scanned_limit r) (_refs_reached r) (_refs_reached_limit r) (_real_refs_reached_limit r) (_has_aborted r) (_has_timed_out r) (_draining_satb_buffers r) (_start_time_ms r) (_time_target_ms r) (_calls r) (_semeru_cm_oop_closure r) (_step_times_ms r) (_marking_step_diffs_ms r).
Definition upd_real_words_scanned_limit (r : G1SemeruCMTask) v : G1SemeruCMTask :=
  mkTask (_worker_id r) (_curr_region r) (_alive_bitmap r) (_dest_bitmap r) (_finger r) (_region_limit r) (_words_scanned r) (_words_scanned_limit r) v (_refs_reached r) (_refs_reached_limit r) (_real_refs_reached_limit r) (_has_aborted r) (_has_timed_out r) (_draining_satb_buffers r) (_start_time_ms r) (_time_target_ms r) (_calls r) (_semeru_cm_oop_closure r) (_step_times_ms r) (_marking_step_diffs_ms r).
Definition upd_refs_reached (r : G1SemeruCMTask) v : G1SemeruCMTask :=
  mkTask (_worker_id r) (_curr_region r) (_alive_bitmap r) (_dest_bitmap r) (_finger r) (_region_limit r) (_words_scanned r) (_words_scanned_limit r) (_real_words_scanned_limit r) v (_refs_reached_limit r) (_real_refs_reached_limit r) (_has_aborted r) (_has_timed_out r) (_draining_satb_buffers r) (_start_time_ms r) (_time_target_ms r) (_calls r) (_semeru_cm_oop_closure r) (_step_times_ms r) (_marking_step_diffs_ms r).
Definition upd_refs_reached_limit (r : G1SemeruCMTask) v : G1SemeruCMTask :=
  mkTask (_worker_id r) (_curr_region r) (_alive_bitmap r) (_dest_bitmap r) (_finger r) (_region_limit r) (_words_scanned r) (_words_scanned_limit r) (_real_words_scanned_limit r) (_refs_reached r) v (_real_refs_reached_limit r) (_has_aborted r) (_has_timed_out r) (_draining_satb_buffers r) (_start_time_ms r) (_time_target_ms r) (_calls r) (_semeru_cm_oop_closure r) (_step_times_ms r) (_marking_step_diffs_ms r).
Definition upd_real_refs_reached_limit (r : G1SemeruCMTask) v : G1SemeruCMTask :=
  mkTask (_worker_id r) (_curr_region r) (_alive_bitmap r) (_dest_bitmap r) (_finger r) (_region_limit r) (_words_scanned r) (_words_scanned_limit r) (_real_words_scanned_limit r) (_refs_reached r) (_refs_reached_limit r) v (_has_aborted r) (_has_timed_out r) (_draining_satb_buffers r) (_start_time_ms r) (_time_target_ms r) (_calls r) (_semeru_cm_oop_closure r) (_step_times_ms r) (_marking_step_diffs_ms r).
Definition upd_has_aborted (r : G1SemeruCMTask) v : G1SemeruCMTask :=
  mkTask (_worker_id r) (_curr_region r) (_alive_bitmap r) (_dest_bitmap r) (_finger r) (_region_limit r) (_words_scanned r) (_words_scanned_limit r) (_real_words_scanned_limit r) (_refs_reached r) (_refs_reached_limit r) (_real_refs_reached_limit r) v (_has_timed_out r) (_draining_satb_buffers r) (_start_time_ms r) (_time_target_ms r) (_calls r) (_semeru_cm_oop_closure r) (_step_times_ms r) (_marking_step_diffs_ms r).
Definition upd_has_timed_out (r : G1SemeruCMTask) v : G1SemeruCMTask :=
  mkTask (_worker_id r) (_curr_region r) (_alive_bitmap r) (_dest_bitmap r) (_finger r) (_region_limit r) (_words_scanned r) (_words_scanned_limit r) (_real_words_scanned_limit r) (_refs_reached r) (_refs_reached_limit r) (_real_refs_reached_limit r) (_has_aborted r) v (_draining_satb_buffers r) (_start_time_ms r) (_time_target_ms r) (_calls r) (_semeru_cm_oop_closure r) (_step_times_ms r) (_marking_step_diffs_ms r).
Definition upd_draining_satb_buffers (r : G1SemeruCMTask) v : G1SemeruCMTask :=
  mkTask (_worker_id r) (_curr_region r) (_alive_bitmap r) (_dest_bitmap r) (_finger r) (_region_limit r) (_words_scanned r) (_words_scanned_limit r) (_real_words_scanned_limit r) (_refs_reached r) (_refs_reached_limit r) (_real_refs_reached_limit r) (_has_aborted r) (_has_timed_out r) v (_start_time_ms r) (_time_target_ms r) (_calls r) (_semeru_cm_oop_closure r) (_step_times_ms r) (_marking_step_diffs_ms r).
Definition upd_start_time_ms (r : G1SemeruCMTask) v : G1SemeruCMTask :=
  mkTask (_worker_id r) (_curr_region r) (_alive_bitmap r) (_dest_bitmap r) (_finger r) (_region_limit r) (_words_scanned r) (_words_scanned_limit r) (_real_words_scanned_limit r) (_refs_reached r) (_refs_reached_limit r) (_real_refs_reached_limit r) (_has_aborted r) (_has_timed_out r) (_draining_satb_buffers r) v (_time_target_ms r) (_calls r) (_semeru_cm_oop_closure r) (_step_times_ms r) (_marking_step_diffs_ms r).
Definition upd_time_target_ms (r : G1SemeruCMTask) v : G1SemeruCMTask :=
  mkTask (_worker_id r) (_curr_region r) (_alive_bitmap r) (_dest_bitmap r) (_finger r) (_region_limit r) (_words_scanned r) (_words_scanned_limit r) (_real_words_scanned_limit r) (_refs_reached r) (_refs_reached_limit r) (_real_refs_reached_limit r) (_has_aborted r) (_has_timed_out r) (_draining_satb_buffers r) (_start_time_ms r) v (_calls r) (_semeru_cm_oop_closure r) (_step_times_ms r) (_marking_step_diffs_ms r).
Definition upd_calls (r : G1SemeruCMTask) v : G1SemeruCMTask :=
  mkTask (_worker_id r) (_curr_region r) (_alive_bitmap r) (_dest_bitmap r) (_finger r) (_region_limit r) (_words_scanned r) (_words_scanned_limit r) (_real_words_scanned_limit r) (_refs_reached r) (_refs_reached_limit r) (_real_refs_reached_limit r) (_has_aborted r) (_has_timed_out r) (_draining_satb_buffers r) (_start_time_ms r) (_time_target_ms r) v (_semeru_cm_oop_closure r) (_step_times_ms r) (_marking_step_diffs_ms r).
Definition upd_semeru_cm_oop_closure (r : G1SemeruCMTask) v : G1SemeruCMTask :=
  mkTask (_worker_id r) (_curr_region r) (_alive_bitmap r) (_dest_bitmap r) (_finger r) (_region_limit r) (_words_scanned r) (_words_scanned_limit r) (_real_words_scanned_limit r) (_refs_reached r) (_refs_reached_limit r) (_real_refs_reached_limit r) (_has_aborted r) (_has_timed_out r) (_draining_satb_buffers r) (_start_time_ms r) (_time_target_ms r) (_calls r) v (_step_times_ms r) (_marking_step_diffs_ms r).
Definition upd_step_times_ms (r : G1SemeruCMTask) v : G1SemeruCMTask :=
  mkTask (_worker_id r) (_curr_region r) (_alive_bitmap r) (_dest_bitmap r) (_finger r) (_region_limit r) (_words_scanned r) (_words_scanned_limit r) (_real_words_scanned_limit r) (_refs_reached r) (_refs_reached_limit r) (_real_refs_reached_limit r) (_has_aborted r) (_has_timed_out r) (_draining_satb_buffers r) (_start_time_ms r) (_time_target_ms r) (_calls r) (_semeru_cm_oop_closure r) v (_marking_step_diffs_ms r).
Definition upd_marking_step_diffs_ms (r : G1SemeruCMTask) v : G1SemeruCMTask :=
  mkTask (_worker_id r) (_curr_region r) (_alive_bitmap r) (_dest_bitmap r) (_finger r) (_region_limit r) (_words_scanned r) (_words_scanned_limit r) (_real_words_scanned_limit r) (_refs_reached r) (_refs_reached_limit r) (_real_refs_reached_limit r) (_has_aborted r) (_has_timed_out r) (_draining_satb_buffers r) (_start_time_ms r) (_time_target_ms r) (_calls r) (_semeru_cm_oop_closure r) (_step_times_ms r) v.
Definition upd_task (r : state) v : state :=
  mkState v (cm r) (heap r) (now r).
Definition upd_cm (r : state) v : state :=
  mkState (task r) v (heap r) (now r).
Definition upd_heap (r : state) v : state :=
  mkState (task r) (cm r) v (now r).
Definition upd_now (r : state) v : state :=
  mkState (task r) (cm r) (heap r) v.

(** ** The monad of the marker: state, crashes and fuel *)

Definition M (A : Type) : Type := state -> outcome (A * state).

#[export] Instance M_ret : MRet M := fun A a s => Done (a, s).
#[export] Instance M_bind : MBind M := fun A B k m s =>
  match m s with
  | Done (a, s') => k a s'
  | Crash e => Crash e
  | OutOfFuel => OutOfFuel
  end.

Definition gets {A} (f : state -> A) : M A := fun s => Done (f s, s).
Definition modify (f : state -> state) : M unit := fun s => Done (tt, f s).
Definition crash {A} (e : failure) : M A := fun _ => Crash e.
Definition out_of_fuel {A} : M A := fun _ => OutOfFuel.

(** [if (c) { m }]. *)
Definition when_ (c : bool) (m : M unit) : M unit := if c then m else mret tt.

Definition modify_task (f : G1SemeruCMTask -> G1SemeruCMTask) : M unit :=
  modify (fun s => upd_task s (f (task s))).
Definition modify_cm (f : G1SemeruConcurrentMark -> G1SemeruConcurrentMark) : M unit :=
  modify (fun s => upd_cm s (f (cm s))).
Definition modify_heap (f : G1SemeruCollectedHeap -> G1SemeruCollectedHeap) : M unit :=
  modify (fun s => upd_heap s (f (heap s))).

(** [p->...] for a region pointer [p]. *)
Definition region_at (p : option region_ptr) : M HeapRegion := fun s =>
  match p with
  | None => Crash NullDereference
  | Some a => match regions (heap s) !! a with
              | Some r => Done (r, s)
              | None => Crash NullDereference
              end
  end.

(** [p->...] for a bitmap pointer [p]. *)
Definition bitmap_at (p : option bitmap_ptr) : M (gset Z) := fun s =>
  match p with
  | None => Crash NullDereference
  | Some a => match bitmaps (heap s) !! a with
              | Some b => Done (b, s)
              | None => Crash NullDereference
              end
  end.

(** The queue of worker [w] in [_task_queues]. *)
Definition queue_of (w : nat) : M (list G1SemeruTaskQueueEntry) := fun s =>
  match _task_queues (cm s) !! w with
  | Some q => Done (q, s)
  | None => Crash NullDereference
  end.
Definition set_queue_of (w : nat) (q : list G1SemeruTaskQueueEntry) : M unit :=
  modify_cm (fun c => upd_task_queues c (<[w := q]> (_task_queues c))).

(** ** What the embedding takes from outside the five source files *)

Class Setting : Type := {
  (** The build flag. *)
  ASSERT : bool;
  (** [G1SemeruCMMarkStack::EntriesPerChunk] and the capacity [max_elems()]
      of a worker's task queue and of a target-object queue. *)
  EntriesPerChunk : nat;
  max_elems : nat;
  target_queue_max_elems : nat;
  (** The flag [GCDrainStackTargetSize] and the two clock periods of
      [G1SemeruCMTask]. *)
  GCDrainStackTargetSize : Z;
  words_scanned_period : Z;
  refs_reached_period : Z;
  (** The object model: an object has a size in words and reference fields
      (the addresses of its slots); a slot holds an oop. *)
  obj_size : oop -> Z;
  obj_ref_fields : oop -> list HeapWord;
  oop_load : HeapWord -> oop;
  is_typeArray : oop -> bool;
  should_be_sliced : oop -> bool;
  (** The outside world at logical time [t]: [os::elapsedVTime()],
      [SuspendibleThreadSet::should_yield()],
      [satb_mq_set.process_completed_buffers()]; the policy's prediction
      from the recorded step differences; whether the OS maps a backing
      array of the given number of chunks. *)
  os_elapsedVTime : nat -> float;
  sts_should_yield : nat -> bool;
  satb_process_completed_buffers : nat -> bool;
  get_new_prediction : list float -> float;
  mmap_allocate_ok : Z -> bool;
  (** What the assertions of [push], [process_grey_task_entry],
      [get_entries_from_global_stack] and [claim_region] ask of an address.
      The checks read the reserved heap, the master free list (for the
      region that contains the object), the liveness of the object under the
      previous marking, the next mark bitmap and the object header
      ([oopDesc::is_oop]); a marking step writes none of them. *)
  is_oop : oop -> bool;
  is_in_g1_reserved : oop -> bool;
  is_on_master_free_list : oop -> bool;
  is_obj_ill : oop -> bool;
  next_mark_bitmap_is_marked : oop -> bool;
  (** [size()] of the overflow stack and the marker's
      [partial_mark_stack_size_target()], both declared in
      g1SemeruConcurrentMark.hpp. *)
  mark_stack_size : G1SemeruCMMarkStack -> Z;
  partial_mark_stack_size_target : G1SemeruCMMarkStack -> Z
}.

Section Program.

Context `{Setting}.

(** One observation of the outside world; logical time advances. *)
Definition observe {A} (f : nat -> A) : M A := fun s =>
  Done (f (now s), upd_now s (S (now s))).

Definition assert_M (c : bool) (site : string) : M unit := fun s =>
  match assert_ ASSERT c site with
  | Done _ => Done (tt, s)
  | Crash e => Crash e
  | OutOfFuel => OutOfFuel
  end.

(** [assert(c, site)] where evaluating [c] reads through pointers: in a build
    without [ASSERT] the condition is not evaluated at all. *)
Definition assert_eval (c : M bool) (site : string) : M unit :=
  if ASSERT then b ← c; assert_M b site else mret tt.

Definition guarantee_M (c : bool) (site : string) : M unit := fun s =>
  match guarantee c site with
  | Done _ => Done (tt, s)
  | Crash e => Crash e
  | OutOfFuel => OutOfFuel
  end.

(** *** Task queues *)

(** Modelled from the spec: the per-worker deque is bounded; [push] reports
    a full deque by returning false, [pop_local] takes the most recent
    element, [pop_steal] the oldest. *)
Definition queue_push (q : list G1SemeruTaskQueueEntry) (e : G1SemeruTaskQueueEntry)
    : option (list G1SemeruTaskQueueEntry) :=
  if decide (List.length q < max_elems)%nat then Some (e :: q) else None.
Definition queue_pop_local (q : list G1SemeruTaskQueueEntry)
    : option (G1SemeruTaskQueueEntry * list G1SemeruTaskQueueEntry) :=
  match q with
  | [] => None
  | e :: q' => Some (e, q')
  end.
Definition queue_pop_steal (q : list G1SemeruTaskQueueEntry)
    : option (G1SemeruTaskQueueEntry * list G1SemeruTaskQueueEntry) :=
  match last q with
  | None => None
  | Some e => Some (e, removelast q)
  end.

(** [_semeru_task_queue->push(e)], [->pop_local(e)], [->size()] on the
    worker's own queue. *)
Definition task_queue_push (e : G1SemeruTaskQueueEntry) : M bool :=
  w ← gets (fun s => _worker_id (task s));
  q ← queue_of w;
  match queue_push q e with
  | Some q' => _ ← set_queue_of w q'; mret true
  | None => mret false
  end.
Definition task_queue_pop_local : M (option G1SemeruTaskQueueEntry) :=
  w ← gets (fun s => _worker_id (task s));
  q ← queue_of w;
  match queue_pop_local q with
  | Some (e, q') => _ ← set_queue_of w q'; mret (Some e)
  | None => mret None
  end.
Definition task_queue_size : M Z :=
  w ← gets (fun s => _worker_id (task s));
  q ← queue_of w;
  mret (Z.of_nat (List.length q)).

(** *** [G1SemeruCMMarkStack] *)

Definition size_t_sub (a b : Z) : Z := (a - b) mod size_t_modulus.
Definition size_t_mul (a b : Z) : Z := (a * b) mod size_t_modulus.

Definition remove_chunk_from_free_list (st : G1SemeruCMMarkStack)
    : option Z * G1SemeruCMMarkStack :=
  match _free_list st with
  | [] => (None, st)
  | c :: rest => (Some c, upd_free_list st rest)
  end.

Definition allocate_new_chunk (st : G1SemeruCMMarkStack) : option Z * G1SemeruCMMarkStack :=
  if _chunk_capacity st <=? _hwm st then (None, st)
  else
    let cur_idx := _hwm st in
    let st := upd_hwm st (size_t_add (_hwm st) 1) in
    if _chunk_capacity st <=? cur_idx then (None, st)
    else (Some cur_idx, st).

Definition add_chunk_to_chunk_list (st : G1SemeruCMMarkStack) (elem : TaskQueueEntryChunk)
    : G1SemeruCMMarkStack :=
  upd_chunks_in_chunk_list (upd_chunk_list st (elem :: _chunk_list st))
    (size_t_add (_chunks_in_chunk_list st) 1).

Definition add_chunk_to_free_list (st : G1SemeruCMMarkStack) (elem : Z) : G1SemeruCMMarkStack :=
  upd_free_list st (elem :: _free_list st).

Definition remove_chunk_from_chunk_list (st : G1SemeruCMMarkStack)
    : option TaskQueueEntryChunk * G1SemeruCMMarkStack :=
  match _chunk_list st with
  | [] => (None, st)
  | c :: rest =>
    (Some c, upd_chunks_in_chunk_list (upd_chunk_list st rest)
               (size_t_sub (_chunks_in_chunk_list st) 1))
  end.

(** [par_push_chunk]: false when neither the free list nor the backing
    array has a chunk; else the first [EntriesPerChunk] entries of [ptr_arr]
    are copied into the chunk, which goes onto the chunk list. *)
Definition par_push_chunk (st : G1SemeruCMMarkStack) (ptr_arr : list G1SemeruTaskQueueEntry)
    : bool * G1SemeruCMMarkStack :=
  let '(new_chunk, st) := remove_chunk_from_free_list st in
  let '(new_chunk, st) :=
    match new_chunk with
    | Some c => (Some c, st)
    | None => allocate_new_chunk st
    end in
  match new_chunk with
  | None => (false, st)
  | Some c => (true, add_chunk_to_chunk_list st (mkChunk c (take EntriesPerChunk ptr_arr)))
  end.

Definition par_pop_chunk (st : G1SemeruCMMarkStack)
    : option (list G1SemeruTaskQueueEntry) * G1SemeruCMMarkStack :=
  let '(cur, st) := remove_chunk_from_chunk_list st in
  match cur with
  | None => (None, st)
  | Some c => (Some (data c), add_chunk_to_free_list st (chunk_index c))
  end.

Definition set_empty (st : G1SemeruCMMarkStack) : G1SemeruCMMarkStack :=
  mkMarkStack (_max_chunk_capacity st) (_chunk_capacity st) [] 0 [] 0.

(** Modelled from the spec: [is_empty()] of the mark stack (declared in
    g1SemeruConcurrentMark.hpp) is [_chunk_list == NULL]. *)
Definition mark_stack_is_empty (st : G1SemeruCMMarkStack) : bool :=
  match _chunk_list st with
  | [] => true
  | _ :: _ => false
  end.

Definition resize (st : G1SemeruCMMarkStack) (new_capacity : Z)
    : outcome (bool * G1SemeruCMMarkStack) :=
  _ ← assert_ ASSERT (mark_stack_is_empty st) "resize: Only resize when stack is empty.";
  _ ← assert_ ASSERT (new_capacity <=? _max_chunk_capacity st)
        "resize: Trying to resize stack beyond the maximum";
  if mmap_allocate_ok new_capacity
  then Done (true, set_empty (upd_chunk_capacity st new_capacity))
  else Done (false, st).

Definition expand (st : G1SemeruCMMarkStack) : outcome G1SemeruCMMarkStack :=
  if _chunk_capacity st =? _max_chunk_capacity st then Done st
  else
    let old_capacity := _chunk_capacity st in
    (* Double capacity if possible *)
    let new_capacity := Z.min (size_t_mul old_capacity 2) (_max_chunk_capacity st) in
    '(_, st) ← resize st new_capacity;
    Done st.

(** A call on [_global_mark_stack] that may fail an assertion. *)
Definition on_global_mark_stack
    (f : G1SemeruCMMarkStack -> outcome G1SemeruCMMarkStack) : M unit := fun s =>
  match f (_global_mark_stack (cm s)) with
  | Done st => Done (tt, upd_cm s (upd_global_mark_stack (cm s) st))
  | Crash e => Crash e
  | OutOfFuel => OutOfFuel
  end.

(** *** [G1SemeruConcurrentMark] *)

Definition has_overflown : M bool := gets (fun s => _has_overflown (cm s)).
Definition set_has_overflown : M unit := modify_cm (fun c => upd_has_overflown c true).
Definition clear_has_overflown : M unit := modify_cm (fun c => upd_has_overflown c false).
Definition concurrent : M bool := gets (fun s => _concurrent (cm s)).

(** Modelled from the spec: [mark_stack_push] (declared in
    g1SemeruConcurrentMark.hpp) pushes a chunk and, when that fails, sets the
    global overflow flag; [mark_stack_pop] pops a chunk. *)
Definition mark_stack_push (arr : list G1SemeruTaskQueueEntry) : M bool :=
  st ← gets (fun s => _global_mark_stack (cm s));
  let '(ok, st) := par_push_chunk st arr in
  _ ← modify_cm (fun c => upd_global_mark_stack c st);
  if ok then mret true
  else _ ← set_has_overflown; mret false.

Definition mark_stack_pop : M (option (list G1SemeruTaskQueueEntry)) :=
  st ← gets (fun s => _global_mark_stack (cm s));
  let '(r, st) := par_pop_chunk st in
  _ ← modify_cm (fun c => upd_global_mark_stack c st);
  mret r.

(** Modelled from the spec: the collection-set cursor is exhausted when
    [_finger] is NULL ([out_of_memory_server_cset], declared in
    g1SemeruConcurrentMark.hpp). *)
Definition out_of_memory_server_cset : M bool := gets (fun s => cm_finger (cm s) =? NULL).

(** [Atomic::cmpxchg(exchange_value, &_finger, compare_value)]. *)
Definition cmpxchg_finger (exchange_value compare_value : HeapWord) : M HeapWord :=
  old ← gets (fun s => cm_finger (cm s));
  _ ← when_ (old =? compare_value) (modify_cm (fun c => upd_cm_finger c exchange_value));
  mret old.

(** [G1SemeruConcurrentMark::claim_region], from the checkpoint
    [old_finger] on.  Every path through the body of the [while] leaves the
    function, so the loop is its first round. *)
Definition claim_region_from (old_finger : HeapWord) (worker_id : nat)
    : M (option region_ptr) :=
  finger ← gets (fun s => cm_finger (cm s));
  if negb (finger =? NULL) then
    _ ← assert_M (is_in_g1_reserved old_finger) "claim_region: invariant";
    h ← gets heap;
    let curr_region := heap_region_containing h old_finger in
    _ ← assert_M (bool_decide (curr_region ≠ None)) "claim_region: curr_region can't be NULL";
    r ← region_at curr_region;
    end_ ← match mem_server_cset_next r with
           | Some n => rn ← region_at (Some n); mret (bottom rn)
           | None => mret NULL
           end;
    res ← cmpxchg_finger end_ old_finger;
    if res =? old_finger then
      let bottom := bottom r in
      let limit := next_top_at_mark_start r in
      if bottom <? limit then mret curr_region
      else
        _ ← assert_M (limit =? bottom) "claim_region: the region limit should be at bottom";
        mret None
    else
      _ ← guarantee_M false "claim_region: not possible to reach here in a sequential mode";
      mret None
  else mret None.

(** [claim_region]: the finger is checkpointed on entry. *)
Definition claim_region (worker_id : nat) : M (option region_ptr) :=
  old_finger ← gets (fun s => cm_finger (cm s));
  claim_region_from old_finger worker_id.

(** [add_to_liveness] / [update_liveness]: the live words go to the
    statistics cache of worker [worker_id], under the region of [obj].
    Modelled from the spec: the cache is kept as one counter per region;
    its fixed associativity, which moves a counter to the shared array on a
    conflict, is not represented. *)
Definition add_to_liveness (worker_id : nat) (obj : oop) (size : Z) : M unit :=
  h ← gets heap;
  let region := addr_to_region h obj in
  modify_cm (fun c =>
    upd_mark_stats_caches c
      (<[(worker_id, region) :=
           size_t_add (default 0 (_mark_stats_caches c !! (worker_id, region))) size]>
         (_mark_stats_caches c))).

(** Modelled from the spec: entering a barrier counts the worker in and
    reports whether the barrier was aborted; the wait for the other workers
    is scheduling, which a run of one worker does not show. *)
Definition barrier_enter (b : WorkGangBarrierSync) : bool * WorkGangBarrierSync :=
  (negb (_aborted b), upd_n_completed b (_n_completed b + 1)).

Definition enter_first_sync_barrier (worker_id : nat) : M unit :=
  b ← gets (fun s => _first_overflow_barrier_sync (cm s));
  let '(ok, b) := barrier_enter b in
  _ ← modify_cm (fun c => upd_first_overflow_barrier_sync c b);
  let barrier_aborted := negb ok in
  if barrier_aborted then mret tt else mret tt.

Definition enter_second_sync_barrier (worker_id : nat) : M unit :=
  b ← gets (fun s => _second_overflow_barrier_sync (cm s));
  let '(_, b) := barrier_enter b in
  modify_cm (fun c => upd_second_overflow_barrier_sync c b).

(** The loop of [reset_marking_for_restart] over the queues of the tasks
    [0 .. n-1]. *)
Fixpoint set_queues_empty (n : nat) : M unit :=
  match n with
  | O => mret tt
  | S i =>
    _ ← set_queues_empty i;
    _ ← queue_of i;
    set_queue_of i []
  end.

(** [reset_marking_for_restart].  Modelled from the spec:
    [clear_during_overflow] zeroes a region's shared live-word counter, and
    [set_empty] on a task queue drops its entries. *)
Definition reset_marking_for_restart : M unit :=
  _ ← modify_cm (fun c => upd_global_mark_stack c (set_empty (_global_mark_stack c)));
  (* Expand the marking stack, if we have to and if we can. *)
  ov ← has_overflown;
  _ ← when_ ov (
         _ ← on_global_mark_stack expand;
         modify_cm (fun c => upd_region_mark_stats c ((fun _ => 0) <$> _region_mark_stats c)));
  _ ← clear_has_overflown;
  start ← gets (fun s => heap_start (heap s));
  _ ← modify_cm (fun c => upd_cm_finger c start);
  n ← gets (fun s => _max_num_tasks (cm s));
  set_queues_empty n.

(** *** [G1SemeruCMTask]: region fields, limits and the clock *)

Definition has_aborted : M bool := gets (fun s => _has_aborted (task s)).
Definition set_has_aborted : M unit := modify_task (fun t => upd_has_aborted t true).
Definition clear_has_aborted : M unit := modify_task (fun t => upd_has_aborted t false).

Definition setup_for_region (hr : option region_ptr) : M unit :=
  _ ← assert_M (bool_decide (hr ≠ None))
        "setup_for_region: claim_region() should have filtered out NULL regions";
  _ ← modify_task (fun t => upd_curr_region t hr);
  r ← region_at hr;
  _ ← modify_task (fun t => upd_alive_bitmap t (alive_bitmap r));
  modify_task (fun t => upd_dest_bitmap t (dest_bitmap r)).

Definition clear_region_fields : M unit :=
  _ ← modify_task (fun t => upd_curr_region t None);
  _ ← modify_task (fun t => upd_finger t NULL);
  modify_task (fun t => upd_region_limit t NULL).

Definition giveup_current_region : M unit :=
  cr ← gets (fun s => _curr_region (task s));
  _ ← assert_M (bool_decide (cr ≠ None)) "giveup_current_region: invariant";
  clear_region_fields.

(** [set_cm_oop_closure(c)]; [c] is [true] for a closure, [false] for NULL. *)
Definition set_cm_oop_closure (semeru_cm_oop_closure : bool) : M unit :=
  old ← gets (fun s => _semeru_cm_oop_closure (task s));
  _ ← (if negb semeru_cm_oop_closure
       then assert_M old "set_cm_oop_closure: invariant"
       else assert_M (negb old) "set_cm_oop_closure: invariant");
  modify_task (fun t => upd_semeru_cm_oop_closure t semeru_cm_oop_closure).

Definition recalculate_limits : M unit :=
  _ ← modify_task (fun t =>
        upd_real_words_scanned_limit t (size_t_add (_words_scanned t) words_scanned_period));
  _ ← modify_task (fun t => upd_words_scanned_limit t (_real_words_scanned_limit t));
  _ ← modify_task (fun t =>
        upd_real_refs_reached_limit t (size_t_add (_refs_reached t) refs_reached_period));
  modify_task (fun t => upd_refs_reached_limit t (_real_refs_reached_limit t)).

Definition decrease_limits : M unit :=
  _ ← modify_task (fun t =>
        upd_words_scanned_limit t
          (size_t_sub (_real_words_scanned_limit t) (size_t_mul 3 words_scanned_period / 4)));
  modify_task (fun t =>
    upd_refs_reached_limit t
      (size_t_sub (_real_refs_reached_limit t) (size_t_mul 3 refs_reached_period / 4))).

(** [G1SemeruCMTask::regular_clock_call]. *)
Definition regular_clock_call : M bool :=
  ab ← has_aborted;
  if (ab : bool) then mret false
  else
    (* First, we need to recalculate the words scanned and refs reached
       limits for the next clock call. *)
    _ ← recalculate_limits;
    (* (1) If an overflow has been flagged, then we abort. *)
    ov ← has_overflown;
    if (ov : bool) then mret false
    else
      (* If we are not concurrent (i.e. we're doing remark) we don't need
         to check anything else. *)
      conc ← concurrent;
      if negb conc then mret true
      else
        (* (2) If marking has been aborted for Full GC, then we also abort. *)
        cm_ab ← gets (fun s => cm_has_aborted (cm s));
        if (cm_ab : bool) then mret false
        else
          t ← observe os_elapsedVTime;
          let curr_time_ms := PrimFloat.mul t 1000%float in
          (* (4) We check whether we should yield. *)
          y ← observe sts_should_yield;
          if (y : bool) then mret false
          else
            (* (5) We check whether we've reached our time quota. *)
            start ← gets (fun s => _start_time_ms (task s));
            target ← gets (fun s => _time_target_ms (task s));
            let elapsed_time_ms := PrimFloat.sub curr_time_ms start in
            if PrimFloat.ltb target elapsed_time_ms then
              _ ← modify_task (fun t => upd_has_timed_out t true);
              mret false
            else
              (* (6) Finally, we check whether there are enough completed
                 SATB buffers available for processing. *)
              draining ← gets (fun s => _draining_satb_buffers (task s));
              if (draining : bool) then mret true
              else
                pending ← observe satb_process_completed_buffers;
                if (pending : bool) then mret false else mret true.

Definition abort_marking_if_regular_check_fail : M unit :=
  ok ← regular_clock_call;
  when_ (negb ok) set_has_aborted.

(** *** Moving entries between the local queue and the global stack *)

(** The popping loop of [move_entries_to_global_stack]; [room] is
    [EntriesPerChunk - n], so [n < EntriesPerChunk] is [room ≠ 0]. *)
Fixpoint move_entries_pop (room : nat) (n : nat) (buffer : list G1SemeruTaskQueueEntry)
    : M (nat * list G1SemeruTaskQueueEntry) :=
  match room with
  | O => mret (n, buffer)
  | S room' =>
    popped ← task_queue_pop_local;
    match popped with
    | None => mret (n, buffer)
    | Some task_entry => move_entries_pop room' (S n) (<[n := task_entry]> buffer)
    end
  end.

(** [G1SemeruCMTask::move_entries_to_global_stack].  The local array
    [buffer] is default-constructed: every slot starts as the null entry. *)
Definition move_entries_to_global_stack : M unit :=
  let buffer := replicate EntriesPerChunk null_entry in
  '(n, buffer) ← move_entries_pop EntriesPerChunk 0 buffer;
  let buffer := if decide (n < EntriesPerChunk)%nat
                then <[n := null_entry]> buffer else buffer in
  _ ← when_ (bool_decide (0 < n)%nat) (
        ok ← mark_stack_push buffer;
        when_ (negb ok) set_has_aborted);
  (* This operation was quite expensive, so decrease the limits. *)
  decrease_limits.

(** The pushing loop of [get_entries_from_global_stack]. *)
Fixpoint get_entries_push (buffer : list G1SemeruTaskQueueEntry) : M unit :=
  match buffer with
  | [] => mret tt
  | task_entry :: rest =>
    if is_null task_entry then mret tt
    else
      _ ← assert_M (is_array_slice task_entry || is_oop (obj_of task_entry))
            "get_entries_from_global_stack: Element must be an array slice or oop";
      success ← task_queue_push task_entry;
      _ ← assert_M success "get_entries_from_global_stack: invariant";
      get_entries_push rest
  end.

Definition get_entries_from_global_stack : M bool :=
  popped ← mark_stack_pop;
  match popped with
  | None => mret false
  | Some buffer =>
    _ ← get_entries_push (take EntriesPerChunk buffer);
    _ ← decrease_limits;
    mret true
  end.

(** [G1SemeruCMTask::push]. *)
Definition push (task_entry : G1SemeruTaskQueueEntry) : M unit :=
  _ ← assert_M (is_array_slice task_entry || is_in_g1_reserved (obj_of task_entry))
        "push: invariant";
  _ ← assert_M (is_array_slice task_entry
                || negb (is_on_master_free_list (obj_of task_entry)))
        "push: invariant";
  _ ← assert_M (is_array_slice task_entry || negb (is_obj_ill (obj_of task_entry)))
        "push: invariant";
  _ ← assert_M (is_array_slice task_entry || next_mark_bitmap_is_marked (obj_of task_entry))
        "push: invariant";
  ok ← task_queue_push task_entry;
  when_ (negb ok) (
    (* The local task queue looks full. We need to push some entries
       to the global stack. *)
    _ ← move_entries_to_global_stack;
    (* this should succeed since, even if we overflow the global
       stack, we should have definitely removed some entries from the
       local queue. So, there must be space on it. *)
    success ← task_queue_push task_entry;
    assert_M success "push: invariant").

(** *** Marking one reference *)

(** Modelled from the spec: [par_mark(addr)] sets the bit of [addr] and
    returns true iff this call flipped it from 0 to 1. *)
Definition par_mark (bm : option bitmap_ptr) (addr : HeapWord) : M bool :=
  marks ← bitmap_at bm;
  if bool_decide (addr ∈ marks) then mret false
  else
    _ ← modify_heap (fun h =>
          match bm with
          | Some a => set_bitmaps h (<[a := {[addr]} ∪ marks]> (bitmaps h))
          | None => h
          end);
    mret true.

Definition is_marked (bm : option bitmap_ptr) (addr : HeapWord) : M bool :=
  marks ← bitmap_at bm;
  mret (bool_decide (addr ∈ marks)).

(** [G1SemeruCMTask::mark_in_alive_bitmap]. *)
Definition mark_in_alive_bitmap (worker_id : nat) (obj : oop) : M bool :=
  cr ← gets (fun s => _curr_region (task s));
  _ ← assert_M (bool_decide (cr ≠ None)) "mark_in_alive_bitmap: just checking";
  r ← region_at cr;
  _ ← assert_M (is_in_reserved r obj)
        "mark_in_alive_bitmap: object not contained in the given region";
  (* if ture, skip the marking for current oop. *)
  if obj_allocated_since_next_marking r obj then mret false
  else
    _ ← assert_M (negb (is_continues_humongous r))
          "mark_in_alive_bitmap: Humongous continues region";
    let obj_addr := obj in
    ab ← gets (fun s => _alive_bitmap (task s));
    _ ← assert_M (bool_decide (alive_bitmap r = ab))
          "mark_in_alive_bitmap: Not marking at the corrent alive_bitmap";
    success ← par_mark ab obj_addr;
    _ ← when_ success (add_to_liveness worker_id obj (obj_size obj));
    mret success.

(** [process_grey_task_entry<scan>] for [scan = false]: only the two
    assertions are left ([check_limits()] is commented out). *)
Definition process_grey_task_entry_noscan (task_entry : G1SemeruTaskQueueEntry) : M unit :=
  _ ← assert_M (match task_entry with oop_entry obj => is_typeArray obj | _ => false end)
        "process_grey_task_entry: Skipping scan of grey non-typeArray";
  assert_M (is_array_slice task_entry || next_mark_bitmap_is_marked (obj_of task_entry))
    "process_grey_task_entry: Any stolen object should be a slice or marked".

(** [G1SemeruCMTask::make_reference_alive]. *)
Definition make_reference_alive (obj : oop) : M bool :=
  w ← gets (fun s => _worker_id (task s));
  marked ← mark_in_alive_bitmap w obj;
  if negb marked then mret false
  else
    let entry := from_oop obj in
    _ ← (if is_typeArray obj
         then process_grey_task_entry_noscan entry
         else push entry);
    mret true.

(** [G1SemeruCMTask::deal_with_reference]; [p] is the address of the slot. *)
Definition deal_with_reference (p : HeapWord) : M bool :=
  let obj := oop_load p in
  if obj =? NULL then mret false
  else
    cr ← gets (fun s => _curr_region (task s));
    r ← region_at cr;
    (* Check if this object is in current Region, if not, skip it. *)
    if negb (is_in_reserved r obj) then mret false
    else make_reference_alive obj.

(** Modelled from the spec: [obj->oop_iterate_size(closure)] applies the
    closure to every reference field of [obj] and returns the object's size;
    [G1SemeruCMOopClosure::do_oop] (defined in g1OopClosures.inline.hpp) hands
    the field to [deal_with_reference]. *)
Fixpoint oop_iterate (fields : list HeapWord) : M unit :=
  match fields with
  | [] => mret tt
  | p :: rest => _ ← deal_with_reference p; oop_iterate rest
  end.
Definition oop_iterate_size (obj : oop) : M Z :=
  _ ← oop_iterate (obj_ref_fields obj);
  mret (obj_size obj).

(** [process_grey_task_entry<scan>] for [scan = true]. *)
Definition process_grey_task_entry_scan (task_entry : G1SemeruTaskQueueEntry) : M unit :=
  _ ← assert_M (is_array_slice task_entry || next_mark_bitmap_is_marked (obj_of task_entry))
        "process_grey_task_entry: Any stolen object should be a slice or marked";
  match task_entry with
  | slice_entry _ =>
    assert_M false "process_grey_task_entry: object array slice tracing Not finished yet"
  | oop_entry obj =>
    if should_be_sliced obj then
      assert_M false "process_grey_task_entry: object array tracing Not finished yet"
    else
      sz ← oop_iterate_size obj;
      modify_task (fun t => upd_words_scanned t (size_t_add (_words_scanned t) sz))
  | null_entry =>
    (* [obj()] of the null entry is NULL; reading its class crashes *)
    crash NullDereference
  end.

Definition scan_task_entry (task_entry : G1SemeruTaskQueueEntry) : M unit :=
  process_grey_task_entry_scan task_entry.

(** *** Draining *)

(** The loop of [drain_local_queue]; [ret] is the entry just popped, or
    [None] when [ret] is false. *)
Fixpoint drain_local_loop (fuel : nat) (target_size : Z)
    (ret : option G1SemeruTaskQueueEntry) : M unit :=
  match ret with
  | None => mret tt
  | Some entry =>
    match fuel with
    | O => out_of_fuel
    | S fuel' =>
      _ ← scan_task_entry entry;
      sz ← task_queue_size;
      ab ← has_aborted;
      if (sz <=? target_size) || ab then mret tt
      else
        ret ← task_queue_pop_local;
        drain_local_loop fuel' target_size ret
    end
  end.

(** [G1SemeruCMTask::drain_local_queue]. *)
Definition drain_local_queue (fuel : nat) (partially : bool) : M unit :=
  ab ← has_aborted;
  if (ab : bool) then mret tt
  else
    let target_size :=
      if partially
      then Z.min (Z.of_nat max_elems / 3) GCDrainStackTargetSize
      else 0 in
    sz ← task_queue_size;
    when_ (target_size <? sz) (
      ret ← task_queue_pop_local;
      drain_local_loop fuel target_size ret).

(** The two loops of [drain_global_stack]. *)
Fixpoint drain_global_partial_loop (fuel : nat) (target_size : Z) : M unit :=
  ab ← has_aborted;
  sz ← gets (fun s => mark_stack_size (_global_mark_stack (cm s)));
  if negb ab && (target_size <? sz) then
    match fuel with
    | O => out_of_fuel
    | S fuel' =>
      got ← get_entries_from_global_stack;
      _ ← when_ got (drain_local_queue fuel' true);
      drain_global_partial_loop fuel' target_size
    end
  else mret tt.

Fixpoint drain_global_total_loop (fuel : nat) : M unit :=
  ab ← has_aborted;
  if (ab : bool) then mret tt
  else
    got ← get_entries_from_global_stack;
    if (got : bool) then
      match fuel with
      | O => out_of_fuel
      | S fuel' =>
        _ ← drain_local_queue fuel' false;
        drain_global_total_loop fuel'
      end
    else mret tt.

(** [G1SemeruCMTask::drain_global_stack]. *)
Definition drain_global_stack (fuel : nat) (partially : bool) : M unit :=
  ab ← has_aborted;
  if (ab : bool) then mret tt
  else
    (* We have a policy to drain the local queue before we attempt to
       drain the global stack. *)
    _ ← assert_eval (if partially then mret true
                     else sz ← task_queue_size; mret (sz =? 0))
          "drain_global_stack: invariant";
    if partially then
      target_size ← gets (fun s => partial_mark_stack_size_target (_global_mark_stack (cm s)));
      drain_global_partial_loop fuel target_size
    else
      drain_global_total_loop fuel.

(** [G1SemeruCMTask::semeru_cm_task_do_addr]. *)
Definition semeru_cm_task_do_addr (fuel : nat) (addr : HeapWord) : M bool :=
  _ ← assert_eval (cr ← gets (fun s => _curr_region (task s));
                   r ← region_at cr;
                   mret (is_in_reserved r addr))
        "semeru_cm_task_do_addr: oop's start address have to be in the current scanning Region";
  _ ← scan_task_entry (from_oop addr);
  (* we only partially drain the local queue and global stack *)
  _ ← drain_local_queue fuel true;
  _ ← drain_global_stack fuel true;
  ab ← has_aborted;
  mret (negb ab).

(** *** The target-object queue of a region *)

Definition target_queue_of (rp : option region_ptr) : M TargetObjQueue :=
  r ← region_at rp; mret (target_obj_queue r).
Definition set_target_queue_of (rp : option region_ptr) (q : TargetObjQueue) : M unit :=
  r ← region_at rp;
  modify_heap (fun h =>
    match rp with
    | Some a => set_regions h (<[a := set_target_obj_queue r q]> (regions h))
    | None => h
    end).

(** Modelled from the spec: [pop_overflow], [try_push_to_taskqueue],
    [pop_local(ref, threshold)] and [is_empty] of the target-object queue;
    [pop_local] does not take the queue down below [threshold] elements. *)
Definition tq_pop_overflow (rp : option region_ptr) : M (option StarTask) :=
  q ← target_queue_of rp;
  match tq_overflow q with
  | [] => mret None
  | ref :: rest => _ ← set_target_queue_of rp (mkTargetObjQueue (tq_local q) rest);
                   mret (Some ref)
  end.
Definition tq_try_push_to_taskqueue (rp : option region_ptr) (ref : StarTask) : M bool :=
  q ← target_queue_of rp;
  if decide (List.length (tq_local q) < target_queue_max_elems)%nat then
    _ ← set_target_queue_of rp (mkTargetObjQueue (ref :: tq_local q) (tq_overflow q));
    mret true
  else mret false.
Definition tq_pop_local (rp : option region_ptr) (threshold : nat) : M (option StarTask) :=
  q ← target_queue_of rp;
  match tq_local q with
  | [] => mret None
  | ref :: rest =>
    if decide (List.length (tq_local q) <= threshold)%nat then mret None
    else _ ← set_target_queue_of rp (mkTargetObjQueue rest (tq_overflow q));
         mret (Some ref)
  end.
Definition tq_is_empty (rp : option region_ptr) : M bool :=
  q ← target_queue_of rp;
  mret (bool_decide (tq_local q = [] /\ tq_overflow q = [])).

(** [G1SemeruCMTask::dispatch_reference]. *)
Definition dispatch_reference (ref : StarTask) : M unit :=
  match ref with
  | narrow_ref _ => assert_M false "dispatch_reference: Not support narrow oop yet"
  | oop_ref p => _ ← deal_with_reference p; mret tt
  end.

(** The two loops of [trim_target_object_queue_to_threshold]. *)
Fixpoint trim_overflow_loop (fuel : nat) (target_obj_queue : option region_ptr) : M unit :=
  popped ← tq_pop_overflow target_obj_queue;
  match popped with
  | None => mret tt
  | Some ref =>
    match fuel with
    | O => out_of_fuel
    | S fuel' =>
      pushed ← tq_try_push_to_taskqueue target_obj_queue ref;
      _ ← when_ (negb pushed) (dispatch_reference ref);
      trim_overflow_loop fuel' target_obj_queue
    end
  end.

Fixpoint trim_local_loop (fuel : nat) (target_obj_queue : option region_ptr)
    (threshold : nat) : M unit :=
  popped ← tq_pop_local target_obj_queue threshold;
  match popped with
  | None => mret tt
  | Some ref =>
    match fuel with
    | O => out_of_fuel
    | S fuel' =>
      _ ← dispatch_reference ref;
      trim_local_loop fuel' target_obj_queue threshold
    end
  end.

Definition trim_target_object_queue_to_threshold (fuel : nat)
    (target_obj_queue : option region_ptr) (threshold : nat) : M unit :=
  (* Drain the overflow stack first, so other threads can potentially steal. *)
  _ ← trim_overflow_loop fuel target_obj_queue;
  trim_local_loop fuel target_obj_queue threshold.

(** [G1SemeruCMTask::trim_target_object_queue]: a [do ... while] loop. *)
Fixpoint trim_target_object_queue (fuel : nat) (target_obj_queue : option region_ptr)
    : M unit :=
  match fuel with
  | O => out_of_fuel
  | S fuel' =>
    (* Fully drain the queue. *)
    _ ← trim_target_object_queue_to_threshold fuel' target_obj_queue 0;
    empty ← tq_is_empty target_obj_queue;
    if (empty : bool) then mret tt
    else trim_target_object_queue fuel' target_obj_queue
  end.

(** *** Stealing and the statistics cache *)

(** [G1SemeruConcurrentMark::try_stealing] is [_task_queues->steal].
    Modelled from the spec: a steal takes the oldest entry of another
    worker's queue; the embedding takes it from the first other worker, in
    the order of worker ids, that has one. *)
Definition try_stealing (worker_id : nat) : M (option G1SemeruTaskQueueEntry) :=
  queues ← gets (fun s => _task_queues (cm s));
  match List.filter (fun '(w, q) => negb (w =? worker_id)%nat && negb (bool_decide (q = [])))
          (map_to_list queues) with
  | [] => mret None
  | (w, q) :: _ =>
    match queue_pop_steal q with
    | Some (e, q') => _ ← set_queue_of w q'; mret (Some e)
    | None => mret None
    end
  end.

(** Modelled from the spec: [flush_mark_stats_cache] is [evict_all]: every
    counter of the worker's cache is added to the shared per-region array
    and the cache is left empty. *)
Definition evict_all (w : nat) (c : G1SemeruConcurrentMark) : G1SemeruConcurrentMark :=
  let mine := filter (fun kv => fst (fst kv) = w) (_mark_stats_caches c) in
  let shared :=
    map_fold (fun k v acc => <[snd k := size_t_add (default 0 (acc !! snd k)) v]> acc)
      (_region_mark_stats c) mine in
  upd_region_mark_stats
    (upd_mark_stats_caches c (filter (fun kv => fst (fst kv) ≠ w) (_mark_stats_caches c)))
    shared.

Definition flush_mark_stats_cache : M unit :=
  w ← gets (fun s => _worker_id (task s));
  modify_cm (evict_all w).

(** *** The marking step *)

(** The region-claiming loop of [do_semeru_marking_step]. *)
Fixpoint claim_loop (fuel : nat) : M unit :=
  ab ← has_aborted;
  out ← out_of_memory_server_cset;
  if negb ab && negb out then
    match fuel with
    | O => out_of_fuel
    | S fuel' =>
      f ← gets (fun s => _finger (task s));
      _ ← assert_M (f =? NULL) "do_semeru_marking_step: _finger invariant";
      l ← gets (fun s => _region_limit (task s));
      _ ← assert_M (l =? NULL) "do_semeru_marking_step: _region_limit invariant";
      w ← gets (fun s => _worker_id (task s));
      claimed_region ← claim_region w;
      _ ← when_ (bool_decide (claimed_region ≠ None)) (
            (* Yes, we managed to claim one *)
            _ ← setup_for_region claimed_region;
            cr ← gets (fun s => _curr_region (task s));
            assert_M (bool_decide (cr = claimed_region)) "do_semeru_marking_step: invariant");
      _ ← abort_marking_if_regular_check_fail;
      claim_loop fuel'
    end
  else mret tt.

(** The humongous branch of the loop body; the result is [true] when the
    function returns from inside it. *)
Definition scan_humongous_region (fuel : nat) (r : HeapRegion) : M bool :=
  _ ← assert_M (negb (used r =? 0)) "do_semeru_marking_step: Can't be empty humongous Region";
  marked ← (if is_starts_humongous r
            then ab ← gets (fun s => _alive_bitmap (task s)); is_marked ab (bottom r)
            else mret false);
  returned ← (if (marked : bool) then
                scanned ← semeru_cm_task_do_addr fuel (bottom r);
                if (scanned : bool) then
                  _ ← assert_M false "do_semeru_marking_step: process humongous Region error";
                  mret true
                else mret false
              else mret false);
  if (returned : bool) then mret true
  else
    (* Even if this task aborted while scanning the humongous object
       we can (and should) give up the current region. *)
    _ ← giveup_current_region;
    _ ← abort_marking_if_regular_check_fail;
    mret false.

(** The [do ... while] loop of [do_semeru_marking_step]; the result is
    [true] when the function has returned from inside the loop. *)
Fixpoint marking_loop (fuel : nat) : M bool :=
  match fuel with
  | O => out_of_fuel
  | S fuel' =>
    ab ← has_aborted;
    cr ← gets (fun s => _curr_region (task s));
    returned ← (if negb ab && bool_decide (cr ≠ None) then
                  (* This means that we're already holding on to a region. *)
                  r ← region_at cr;
                  if is_humongous r then scan_humongous_region fuel' r
                  else
                    _ ← trim_target_object_queue fuel' cr;
                    mret false
                else mret false);
    if (returned : bool) then mret true
    else
      (* We then partially drain the local queue and the global stack. *)
      _ ← drain_local_queue fuel' true;
      _ ← drain_global_stack fuel' true;
      _ ← claim_loop fuel';
      ab ← has_aborted;
      cr ← gets (fun s => _curr_region (task s));
      _ ← when_ (negb ab && bool_decide (cr = None)) (
            out ← out_of_memory_server_cset;
            assert_M out "do_semeru_marking_step: at this point we should be out of regions");
      ab ← has_aborted;
      cr ← gets (fun s => _curr_region (task s));
      if bool_decide (cr ≠ None) && negb ab then marking_loop fuel'
      else mret false
  end.

(** What [do_semeru_marking_step] does when the task has aborted. *)
Definition marking_step_aborted (is_serial : bool) (elapsed_time_ms : float) : M unit :=
  timed_out ← gets (fun s => _has_timed_out (task s));
  _ ← when_ timed_out (
        target ← gets (fun s => _time_target_ms (task s));
        let diff_ms := PrimFloat.sub elapsed_time_ms target in
        modify_task (fun t =>
          upd_marking_step_diffs_ms t (_marking_step_diffs_ms t ++ [diff_ms])));
  ov ← has_overflown;
  when_ ov (
    w ← gets (fun s => _worker_id (task s));
    _ ← when_ (negb is_serial) (enter_first_sync_barrier w);
    _ ← clear_region_fields;
    _ ← flush_mark_stats_cache;
    when_ (negb is_serial) (
      conc ← concurrent;
      _ ← when_ (conc && (w =? 0)%nat) reset_marking_for_restart;
      (* ...and enter the second barrier. *)
      enter_second_sync_barrier w)).

(** [G1SemeruCMTask::do_semeru_marking_step].  The stealing block and the
    termination block that follow the two total drains in the source are
    commented out there; [do_termination] is not read. *)
Definition do_semeru_marking_step (fuel : nat) (time_target_ms : float)
    (do_termination is_serial : bool) : M unit :=
  _ ← assert_M (PrimFloat.leb 1%float time_target_ms)
        "do_semeru_marking_step: minimum granularity is 1ms";
  t ← observe os_elapsedVTime;
  _ ← modify_task (fun t' => upd_start_time_ms t' (PrimFloat.mul t 1000%float));
  diffs ← gets (fun s => _marking_step_diffs_ms (task s));
  let diff_prediction_ms := get_new_prediction diffs in
  _ ← modify_task (fun t' =>
        upd_time_target_ms t' (PrimFloat.sub time_target_ms diff_prediction_ms));
  (* clear all flags *)
  _ ← clear_has_aborted;
  _ ← modify_task (fun t' => upd_has_timed_out t' false);
  _ ← modify_task (fun t' => upd_calls t' (uint_add (_calls t') 1));
  _ ← set_cm_oop_closure true;
  ov ← has_overflown;
  _ ← when_ ov set_has_aborted;
  returned ← marking_loop fuel;
  if (returned : bool) then mret tt
  else
    ab ← has_aborted;
    _ ← when_ (negb ab) (
          out ← out_of_memory_server_cset;
          assert_M out "do_semeru_marking_step: at this point we should be out of regions");
    (* Since we've done everything else, we can now totally drain the
       local queue and global stack. *)
    _ ← drain_local_queue fuel false;
    _ ← drain_global_stack fuel false;
    _ ← set_cm_oop_closure false;
    t ← observe os_elapsedVTime;
    let end_time_ms := PrimFloat.mul t 1000%float in
    start ← gets (fun s => _start_time_ms (task s));
    let elapsed_time_ms := PrimFloat.sub end_time_ms start in
    (* Update the step history. *)
    _ ← modify_task (fun t' => upd_step_times_ms t' (_step_times_ms t' ++ [elapsed_time_ms]));
    ab ← has_aborted;
    when_ ab (marking_step_aborted is_serial elapsed_time_ms).

End Program.

End Marking.

(** * Properties of the free region lists *)

Module RegionSetSpec.
Import RegionSet.

Lemma bind_Done {A B} (m : outcome A) (k : A -> outcome B) (b : B) :
  m ≫= k = Done b -> exists a, m = Done a /\ k a = Done b.
Proof. destruct m as [a| |]; simpl; [eauto | discriminate | discriminate]. Qed.


(** The index of the region at [p] (0 where [p] holds no region). *)
Definition idx (h : region_store) (p : region_ptr) : Z :=
  match h !! p with Some r => hrm_index r | None => 0 end.

(** The two links of the region at [p]. *)
Definition lnk (h : region_store) (p : region_ptr)
    : option (option region_ptr * option region_ptr) :=
  (fun r => (_prev r, _next r)) <$> h !! p.

Definition tag (h : region_store) (p : region_ptr) : option set_ptr :=
  h !! p ≫= _containing_set.

Definition hd_or (l : list region_ptr) (d : option region_ptr) : option region_ptr :=
  match l with [] => d | p :: _ => Some p end.
Definition last_or (l : list region_ptr) (d : option region_ptr) : option region_ptr :=
  match last l with Some p => Some p | None => d end.

(** [dlseg h pr l nx]: the regions [l] are linked, in this order, by their
    next and prev fields; [pr] precedes the first and [nx] follows the last. *)
Fixpoint dlseg (h : region_store) (pr : option region_ptr) (l : list region_ptr)
    (nx : option region_ptr) : Prop :=
  match l with
  | [] => True
  | p :: l' => lnk h p = Some (pr, hd_or l' nx) /\ dlseg h (Some p) l' nx
  end.

Definition ascending (h : region_store) (l : list region_ptr) : Prop :=
  StronglySorted (fun p q => idx h p < idx h q) l.

Lemma hd_or_app l1 l2 d : hd_or (l1 ++ l2) d = hd_or l1 (hd_or l2 d).
Proof. destruct l1; reflexivity. Qed.

Lemma last_or_app l1 l2 d : last_or (l1 ++ l2) d = last_or l2 (last_or l1 d).
Proof. unfold last_or. rewrite last_app. destruct (last l2); reflexivity. Qed.

Lemma last_or_cons p l d : last_or (p :: l) d = last_or l (Some p).
Proof. apply (last_or_app [p] l d). Qed.

Lemma hd_or_head l : hd_or l None = head l.
Proof. destruct l; reflexivity. Qed.

Lemma last_or_last l : last_or l None = last l.
Proof. unfold last_or. destruct (last l); reflexivity. Qed.

Lemma dlseg_app h pr l1 l2 nx :
  dlseg h pr (l1 ++ l2) nx <->
  dlseg h pr l1 (hd_or l2 nx) /\ dlseg h (last_or l1 pr) l2 nx.
Proof.
  revert pr. induction l1 as [|p l1 IH]; intros pr; simpl.
  - tauto.
  - rewrite IH, hd_or_app, last_or_cons. tauto.
Qed.

Lemma dlseg_frame h h' pr l nx :
  (forall p, p ∈ l -> lnk h' p = lnk h p) ->
  dlseg h pr l nx -> dlseg h' pr l nx.
Proof.
  revert pr. induction l as [|p l IH]; intros pr Hl; simpl; [done|].
  intros [H1 H2]. split.
  - rewrite Hl; [done | apply list_elem_of_here].
  - apply IH; [|done]. intros q Hq. apply Hl. by apply list_elem_of_further.
Qed.

Lemma dlseg_elem h pr l nx p : dlseg h pr l nx -> p ∈ l -> is_Some (h !! p).
Proof.
  revert pr. induction l as [|q l IH]; intros pr; simpl.
  - intros _ H. by apply elem_of_nil in H.
  - intros [H1 H2] Hp. apply elem_of_cons in Hp as [->|Hp]; [|eauto].
    unfold lnk in H1. destruct (h !! q); [eauto | discriminate].
Qed.

Lemma ascending_le_last h l p t :
  ascending h l -> p ∈ l -> last l = Some t -> idx h p <= idx h t.
Proof.
  intros Hs Hp Hl. apply last_Some in Hl as [l' ->].
  apply elem_of_app in Hp as [Hp|Hp].
  - apply Z.lt_le_incl.
    apply (StronglySorted_app_1_elem_of (fun p q => idx h p < idx h q) l' [t] p t Hs Hp).
    apply list_elem_of_singleton. reflexivity.
  - apply list_elem_of_singleton in Hp as ->. lia.
Qed.

Lemma ascending_ext h h' l :
  (forall p, idx h' p = idx h p) -> ascending h l -> ascending h' l.
Proof.
  intros He. unfold ascending. induction 1 as [|p l Hs IH Hf]; constructor; [done|].
  eapply Forall_impl; [exact Hf|]. intros q. simpl. by rewrite !He.
Qed.

Lemma ascending_NoDup h l : ascending h l -> NoDup l.
Proof.
  induction 1 as [|p l Hs IH Hf]; constructor; [|done].
  intros Hp. rewrite Forall_forall in Hf. specialize (Hf p Hp). simpl in Hf. lia.
Qed.


(** *** What the primitive reads and writes do *)

Lemma lnk_is_Some h p x : lnk h p = Some x -> is_Some (h !! p).
Proof. unfold lnk. destruct (h !! p); [eauto | discriminate]. Qed.

Lemma next_lnk h a pr nx : lnk h a = Some (pr, nx) -> next h (Some a) = Done nx.
Proof.
  unfold lnk, next, deref. destruct (h !! a) as [r|]; simpl; [|discriminate].
  intros [= _ <-]. reflexivity.
Qed.

Lemma prev_lnk h a pr nx : lnk h a = Some (pr, nx) -> prev h (Some a) = Done pr.
Proof.
  unfold lnk, prev, deref. destruct (h !! a) as [r|]; simpl; [|discriminate].
  intros [= <- _]. reflexivity.
Qed.

Lemma index_of_idx h a : is_Some (h !! a) -> index_of h (Some a) = Done (idx h a).
Proof. intros [r Hr]. unfold index_of, deref, idx. rewrite Hr. reflexivity. Qed.

Lemma containing_set_tag h a : is_Some (h !! a) -> containing_set h (Some a) = Done (tag h a).
Proof. intros [r Hr]. unfold containing_set, deref, tag. rewrite Hr. reflexivity. Qed.

(** [h'] differs from [h] at most in the links of [a]. *)
Definition relinked (h h' : region_store) (a : region_ptr) : Prop :=
  (forall p, p ≠ a -> h' !! p = h !! p) /\
  (forall p, idx h' p = idx h p) /\
  (forall p, tag h' p = tag h p).

Lemma set_next_spec h a v pr nx :
  lnk h a = Some (pr, nx) ->
  exists h', set_next h (Some a) v = Done h' /\ lnk h' a = Some (pr, v) /\ relinked h h' a.
Proof.
  unfold lnk, set_next, write. destruct (h !! a) as [r|] eqn:Hr; simpl; [|discriminate].
  intros [= <- <-]. eexists; split; [reflexivity|]. split; [|split; [|split]].
  - unfold lnk. rewrite lookup_insert_eq. reflexivity.
  - intros p Hp. by rewrite lookup_insert_ne.
  - intros p. unfold idx. destruct (decide (a = p)) as [->|Hn].
    + by rewrite lookup_insert_eq, Hr.
    + by rewrite lookup_insert_ne.
  - intros p. unfold tag. destruct (decide (a = p)) as [->|Hn].
    + by rewrite lookup_insert_eq, Hr.
    + by rewrite lookup_insert_ne.
Qed.

Lemma set_prev_spec h a v pr nx :
  lnk h a = Some (pr, nx) ->
  exists h', set_prev h (Some a) v = Done h' /\ lnk h' a = Some (v, nx) /\ relinked h h' a.
Proof.
  unfold lnk, set_prev, write. destruct (h !! a) as [r|] eqn:Hr; simpl; [|discriminate].
  intros [= <- <-]. eexists; split; [reflexivity|]. split; [|split; [|split]].
  - unfold lnk. rewrite lookup_insert_eq. reflexivity.
  - intros p Hp. by rewrite lookup_insert_ne.
  - intros p. unfold idx. destruct (decide (a = p)) as [->|Hn].
    + by rewrite lookup_insert_eq, Hr.
    + by rewrite lookup_insert_ne.
  - intros p. unfold tag. destruct (decide (a = p)) as [->|Hn].
    + by rewrite lookup_insert_eq, Hr.
    + by rewrite lookup_insert_ne.
Qed.

Lemma relinked_lnk h h' a p : relinked h h' a -> p ≠ a -> lnk h' p = lnk h p.
Proof. intros [H _] Hp. unfold lnk. by rewrite H. Qed.

Lemma set_head_id this p : _head this = p -> set_head this p = this.
Proof. destruct this; simpl; intros <-; reflexivity. Qed.


(** Membership in a list built with [++] and [::], as a propositional formula. *)
Ltac unfold_mem :=
  repeat first [rewrite elem_of_app | rewrite elem_of_cons | rewrite elem_of_nil].
Ltac unfold_mem_in H :=
  repeat first [rewrite elem_of_app in H | rewrite elem_of_cons in H
               | rewrite elem_of_nil in H].

Lemma Done_bind {A B} (a : A) (k : A -> outcome B) : Done a ≫= k = k a.
Proof. reflexivity. Qed.

Section Build.

Variable ASSERT : bool.
Variable ull : Z.
Variable checks : RegionChecks.


(** One step of the inner loop. *)
Lemma merge_walk_advance fuel h this b f pr nx :
  lnk h b = Some (pr, nx) -> is_Some (h !! f) -> idx h b < idx h f ->
  merge_walk (S fuel) h this (Some b) (Some f) = merge_walk fuel h this nx (Some f).
Proof.
  intros Hb Hf Hlt. cbn [RegionSet.merge_walk].
  rewrite (index_of_idx h b) by (eapply lnk_is_Some; exact Hb).
  rewrite Done_bind, (index_of_idx h f Hf), Done_bind, Done_bind.
  apply Z.ltb_lt in Hlt. rewrite Hlt.
  rewrite (next_lnk h b pr nx Hb), Done_bind. reflexivity.
Qed.

(** The rest of the from list is added as tail. *)
Lemma merge_walk_append fuel h this A f F' pf t :
  last A = Some t -> _tail this = Some t ->
  dlseg h None A None ->
  lnk h f = Some (pf, hd_or F' None) -> dlseg h (Some f) F' None ->
  NoDup (A ++ f :: F') ->
  exists h', merge_walk (S fuel) h this None (Some f) = Done (h', this) /\
    dlseg h' None (A ++ f :: F') None /\
    (forall p, idx h' p = idx h p) /\ (forall p, tag h' p = tag h p) /\
    (forall p, p ∉ A ++ f :: F' -> h' !! p = h !! p).
Proof.
  intros Ht Htail HA Hf HF Hnd.
  apply last_Some in Ht as [A0 ->].
  apply dlseg_app in HA as [HA0 Ht]. simpl in Ht. destruct Ht as [Ht _].
  rewrite <- (assoc_L (++)) in Hnd. simpl in Hnd.
  apply NoDup_app in Hnd as (HndA0 & HA0d & Hnd).
  apply NoDup_cons in Hnd as [Htn Hnd]. apply NoDup_cons in Hnd as [Hfn HndF].
  assert (Htf : t ≠ f) by (intros ->; apply Htn; apply list_elem_of_here).
  destruct (set_next_spec h t (Some f) _ _ Ht) as (h1 & E1 & L1 & R1).
  assert (Hf1 : lnk h1 f = Some (pf, hd_or F' None)).
  { rewrite (relinked_lnk h h1 t f R1); [done | congruence]. }
  destruct (set_prev_spec h1 f (Some t) _ _ Hf1) as (h2 & E2 & L2 & R2).
  exists h2. split; [|split; [|split; [|split]]].
  - cbn [RegionSet.merge_walk]. rewrite Done_bind. rewrite Htail, E1, Done_bind, E2, Done_bind.
    destruct fuel; reflexivity.
  - rewrite <- (assoc_L (++)). apply dlseg_app. simpl. split; [|split; [|split]].
    + eapply dlseg_frame; [|exact HA0]. intros p Hp.
      rewrite (relinked_lnk h1 h2 f p R2), (relinked_lnk h h1 t p R1); [done| |].
      * intros ->. apply (HA0d t Hp). apply list_elem_of_here.
      * intros ->. apply (HA0d f Hp). apply list_elem_of_further, list_elem_of_here.
    + rewrite (relinked_lnk h1 h2 f t R2 Htf). exact L1.
    + exact L2.
    + eapply dlseg_frame; [|exact HF]. intros p Hp.
      rewrite (relinked_lnk h1 h2 f p R2), (relinked_lnk h h1 t p R1); [done| |].
      * intros ->. apply Htn. by apply list_elem_of_further.
      * intros ->. by apply Hfn.
  - intros p. destruct R1 as (_ & I1 & _), R2 as (_ & I2 & _). by rewrite I2, I1.
  - intros p. destruct R1 as (_ & _ & I1), R2 as (_ & _ & I2). by rewrite I2, I1.
  - intros p Hp. destruct R1 as (I1 & _), R2 as (I2 & _).
    rewrite I2, I1; [done | |].
    + intros ->. apply Hp. apply elem_of_app. left. apply elem_of_app. right. apply list_elem_of_here.
    + intros ->. apply Hp. apply elem_of_app. right. apply list_elem_of_here.
Qed.


Lemma head_app_cons (A : list region_ptr) x y l :
  head (A ++ x :: l) = Some y -> head (A ++ [x]) = Some y.
Proof. destruct A; simpl; done. Qed.

(** [curr_from] is placed before [curr_to]. *)
Lemma merge_walk_place fuel h this A b B' f F' pf :
  dlseg h None (A ++ b :: B') None ->
  lnk h f = Some (pf, hd_or F' None) ->
  NoDup (A ++ b :: B') -> f ∉ A ++ b :: B' ->
  _head this = head (A ++ b :: B') ->
  ~ idx h b < idx h f ->
  exists h',
    merge_walk (S fuel) h this (Some b) (Some f)
      = merge_walk fuel h' (set_head this (head (A ++ f :: b :: B'))) (Some b) (hd_or F' None) /\
    dlseg h' None (A ++ f :: b :: B') None /\
    (forall p, idx h' p = idx h p) /\ (forall p, tag h' p = tag h p) /\
    (forall p, p ∉ f :: A ++ b :: B' -> h' !! p = h !! p).
Proof.
  intros HT Hf Hnd Hfn Hhead Hge.
  apply dlseg_app in HT as [HA HbB]. simpl in HA, HbB. destruct HbB as [Hb HB'].
  assert (Hbf : b ≠ f).
  { intros ->. apply Hfn. apply elem_of_app. right. apply list_elem_of_here. }
  apply NoDup_app in Hnd as (HndA & HAd & Hnd). apply NoDup_cons in Hnd as [HbB' HndB'].
  assert (HfA : f ∉ A) by (intros Hx; apply Hfn, elem_of_app; by left).
  assert (HfB' : f ∉ B').
  { intros Hx; apply Hfn, elem_of_app. right. by apply list_elem_of_further. }
  assert (HbA : b ∉ A) by (intros Hx; apply (HAd b Hx), list_elem_of_here).
  destruct (set_next_spec h f (Some b) _ _ Hf) as (h1 & E1 & L1 & R1).
  assert (Hb1 : lnk h1 b = Some (last_or A None, hd_or B' None)).
  { by rewrite (relinked_lnk h h1 f b R1 Hbf). }
  destruct (set_prev_spec h1 f (last_or A None) _ _ L1) as (h2 & E2 & L2 & R2).
  assert (Hb2 : lnk h2 b = Some (last_or A None, hd_or B' None)).
  { by rewrite (relinked_lnk h1 h2 f b R2 Hbf). }
  assert (Hstart :
    merge_walk (S fuel) h this (Some b) (Some f) =
    ('(h, this) ← (if bool_decide (last_or A None = None)
                   then Done (h2, set_head this (Some f))
                   else p ← prev h2 (Some b);
                        h ← set_next h2 p (Some f);
                        Done (h, this));
     h ← set_prev h (Some b) (Some f);
     merge_walk fuel h this (Some b) (hd_or F' None))).
  { cbn [RegionSet.merge_walk].
    rewrite (index_of_idx h b) by (eapply lnk_is_Some; exact Hb).
    rewrite Done_bind, (index_of_idx h f) by (eapply lnk_is_Some; exact Hf).
    rewrite !Done_bind.
    apply Z.ltb_nlt in Hge. rewrite Hge.
    rewrite (next_lnk h f _ _ Hf), Done_bind, E1, Done_bind.
    rewrite (prev_lnk h1 b _ _ Hb1), Done_bind, E2, Done_bind.
    rewrite (prev_lnk h2 b _ _ Hb2), Done_bind. reflexivity. }
  rewrite Hstart. clear Hstart.
  destruct (last A) as [t|] eqn:Hlast.
  - (* [curr_to] has a predecessor [t] *)
    assert (HlA : last_or A None = Some t) by (unfold last_or; by rewrite Hlast).
    rewrite HlA in *.
    apply last_Some in Hlast as [A0 ->].
    apply dlseg_app in HA as [HA0 Ht]. simpl in Ht. destruct Ht as [Ht _].
    apply NoDup_app in HndA as (HndA0 & HA0d & _).
    assert (Htf : t ≠ f).
    { intros ->. apply HfA, elem_of_app. right. apply list_elem_of_here. }
    assert (Htb : t ≠ b).
    { intros ->. apply HbA, elem_of_app. right. apply list_elem_of_here. }
    assert (Ht2 : lnk h2 t = Some (last_or A0 None, Some b)).
    { by rewrite (relinked_lnk h1 h2 f t R2 Htf), (relinked_lnk h h1 f t R1 Htf). }
    destruct (set_next_spec h2 t (Some f) _ _ Ht2) as (h3 & E3 & L3 & R3).
    assert (Hb3 : lnk h3 b = Some (Some t, hd_or B' None)).
    { by rewrite (relinked_lnk h2 h3 t b R3) by congruence. }
    destruct (set_prev_spec h3 b (Some f) _ _ Hb3) as (h4 & E4 & L4 & R4).
    exists h4. split; [|split; [|split; [|split]]].
    + rewrite bool_decide_eq_false_2 by discriminate.
      rewrite (prev_lnk h2 b _ _ Hb2), Done_bind, E3, !Done_bind, E4, Done_bind.
      rewrite set_head_id; [reflexivity|].
      rewrite Hhead. rewrite <- !(assoc_L (++)). destruct A0; reflexivity.
    + rewrite <- (assoc_L (++)). apply dlseg_app. simpl.
      split; [|split; [|split; [|split]]].
      * eapply dlseg_frame; [|exact HA0]. intros p Hp.
        assert (p ≠ t) by (intros ->; apply (HA0d t Hp), list_elem_of_here).
        assert (p ≠ f) by (intros ->; apply HfA, elem_of_app; by left).
        assert (p ≠ b) by (intros ->; apply HbA, elem_of_app; by left).
        by rewrite (relinked_lnk h3 h4 b p R4), (relinked_lnk h2 h3 t p R3),
          (relinked_lnk h1 h2 f p R2), (relinked_lnk h h1 f p R1).
      * by rewrite (relinked_lnk h3 h4 b t R4 Htb).
      * rewrite (relinked_lnk h3 h4 b f R4), (relinked_lnk h2 h3 t f R3) by congruence.
        exact L2.
      * exact L4.
      * eapply dlseg_frame; [|exact HB']. intros p Hp.
        assert (p ≠ t).
        { intros ->. apply (HAd t); [apply elem_of_app; right; apply list_elem_of_here|].
          by apply list_elem_of_further. }
        assert (p ≠ f) by (intros ->; by apply HfB').
        assert (p ≠ b) by (intros ->; by apply HbB').
        by rewrite (relinked_lnk h3 h4 b p R4), (relinked_lnk h2 h3 t p R3),
          (relinked_lnk h1 h2 f p R2), (relinked_lnk h h1 f p R1).
    + intros p. destruct R1 as (_ & I1 & _), R2 as (_ & I2 & _),
        R3 as (_ & I3 & _), R4 as (_ & I4 & _). by rewrite I4, I3, I2, I1.
    + intros p. destruct R1 as (_ & _ & I1), R2 as (_ & _ & I2),
        R3 as (_ & _ & I3), R4 as (_ & _ & I4). by rewrite I4, I3, I2, I1.
    + intros p Hp. destruct R1 as (I1 & _), R2 as (I2 & _), R3 as (I3 & _), R4 as (I4 & _).
      apply not_elem_of_cons in Hp as [Hpf Hp]. apply not_elem_of_app in Hp as [HpA Hp].
      apply not_elem_of_cons in Hp as [Hpb _].
      apply not_elem_of_app in HpA as [_ Hpt]. apply not_elem_of_cons in Hpt as [Hpt _].
      by rewrite I4, I3, I2, I1.
  - (* [curr_to] is the head *)
    assert (HlA : last_or A None = None) by (unfold last_or; by rewrite Hlast).
    rewrite HlA in *. apply last_None in Hlast as ->. cbn [app] in *.
    assert (Hb2' : lnk h2 b = Some (None, hd_or B' None)) by exact Hb2.
    destruct (set_prev_spec h2 b (Some f) _ _ Hb2') as (h4 & E4 & L4 & R4).
    exists h4. split; [|split; [|split; [|split]]].
    + rewrite ?bool_decide_eq_true_2 by reflexivity. rewrite ?Done_bind, E4, ?Done_bind.
      reflexivity.
    + split; [|split].
      * by rewrite (relinked_lnk h2 h4 b f R4) by congruence.
      * exact L4.
      * eapply dlseg_frame; [|exact HB']. intros p Hp.
        assert (p ≠ f) by (intros ->; by apply HfB').
        assert (p ≠ b) by (intros ->; by apply HbB').
        by rewrite (relinked_lnk h2 h4 b p R4), (relinked_lnk h1 h2 f p R2),
          (relinked_lnk h h1 f p R1).
    + intros p. destruct R1 as (_ & I1 & _), R2 as (_ & I2 & _), R4 as (_ & I4 & _).
      by rewrite I4, I2, I1.
    + intros p. destruct R1 as (_ & _ & I1), R2 as (_ & _ & I2), R4 as (_ & _ & I4).
      by rewrite I4, I2, I1.
    + intros p Hp. destruct R1 as (I1 & _), R2 as (I2 & _), R4 as (I4 & _).
      apply not_elem_of_cons in Hp as [Hpf Hp]. apply not_elem_of_cons in Hp as [Hpb _].
      by rewrite I4, I2, I1.
Qed.


Lemma set_head_set_head this p q : set_head (set_head this p) q = set_head this q.
Proof. reflexivity. Qed.

(** The merging loop, from any point of the walk: [A] is the part of the
    receiving list already passed, [B] the part from [curr_to] on, and [F]
    the part of the from list not placed yet. *)
Lemma merge_walk_spec fuel : forall A B F h this,
  A ++ B ≠ [] ->
  dlseg h None (A ++ B) None ->
  (exists pf, dlseg h pf F None) ->
  NoDup (A ++ B ++ F) ->
  _head this = head (A ++ B) ->
  _tail this = last (A ++ B) ->
  ascending h (A ++ B) -> ascending h F ->
  (forall a f, a ∈ A -> f ∈ F -> idx h a < idx h f) ->
  (forall b f, b ∈ B -> f ∈ F -> idx h b ≠ idx h f) ->
  (List.length B + List.length F <= fuel)%nat ->
  exists h' R,
    merge_walk fuel h this (hd_or B None) (hd_or F None) = Done (h', set_head this (head R)) /\
    dlseg h' None R None /\ R ≡ₚ A ++ B ++ F /\ ascending h' R /\
    (forall p, idx h' p = idx h p) /\ (forall p, tag h' p = tag h p) /\
    (forall p, p ∉ A ++ B ++ F -> h' !! p = h !! p) /\
    (last R = last (A ++ B) \/ (F ≠ [] /\ last R = last F)).
Proof.
  induction fuel as [|fuel IH]; intros A B F h this Hne HT HF Hnd Hhead Htail HsT HsF HAF HBF Hfuel.
  - (* no fuel: both [B] and [F] are empty *)
    destruct B; [|simpl in Hfuel; lia]. destruct F; [|simpl in Hfuel; lia].
    exists h, (A ++ []). rewrite set_head_id by done.
    split; [reflexivity|]. rewrite !(right_id_L [] (++)) in *.
    split; [done|]. split; [done|]. split; [done|]. split; [done|]. split; [done|].
    split; [done|]. by left.
  - destruct F as [|f F'].
    { exists h, (A ++ B). rewrite set_head_id by done.
      split; [reflexivity|]. rewrite !(right_id_L [] (++)).
      split; [done|]. split; [done|]. split; [done|]. split; [done|]. split; [done|].
      split; [done|]. by left. }
    destruct HF as [pf HF]. simpl in HF. destruct HF as [Hf HF'].
    assert (HfF' : forall x, x ∈ F' -> idx h f < idx h x).
    { apply StronglySorted_cons in HsF as [Hall _]. rewrite Forall_forall in Hall. exact Hall. }
    assert (HsF' : ascending h F') by (apply StronglySorted_cons in HsF as [_ ?]; done).
    destruct B as [|b B'].
    + (* [curr_to] is NULL: append the rest of the from list *)
      rewrite (right_id_L [] (++)) in *.
      destruct (last A) as [t|] eqn:Ht; [|by apply last_None in Ht].
      simpl in Hnd.
      destruct (merge_walk_append fuel h this A f F' pf t Ht Htail HT Hf HF' Hnd)
        as (h' & E & Hd & Hi & Hg & Hfr).
      exists h', (A ++ f :: F'). cbn [hd_or].
      rewrite set_head_id by (rewrite Hhead; destruct A; [done | reflexivity]).
      split; [exact E|]. split; [exact Hd|]. split; [reflexivity|].
      split.
      { apply (ascending_ext h h'); [done|].
        apply StronglySorted_app_2; [|done|done]. intros x1 x2 H1 H2. by apply HAF. }
      split; [done|]. split; [done|]. split; [done|].
      right. split; [done|]. by rewrite last_app_cons.
    + assert (Hb : lnk h b = Some (last_or A None, hd_or B' None)).
      { apply dlseg_app in HT as [_ HT]. simpl in HT. tauto. }
      destruct (decide (idx h b < idx h f)) as [Hlt|Hge].
      * (* inner loop: step over [b] *)
        cbn [hd_or].
        rewrite (merge_walk_advance fuel h this b f _ _ Hb);
          [|eapply lnk_is_Some; exact Hf|exact Hlt].
        destruct (IH (A ++ [b]) B' (f :: F') h this) as (h' & R & E & Hd & Hp & Hs & Hi & Hg & Hfr & Hl).
        { by destruct A. }
        { by rewrite <- (assoc_L (++)). }
        { exists pf. simpl. done. }
        { by rewrite <- (assoc_L (++)). }
        { by rewrite <- (assoc_L (++)). }
        { by rewrite <- (assoc_L (++)). }
        { by rewrite <- (assoc_L (++)). }
        { done. }
        { intros a x Ha Hx. apply elem_of_app in Ha as [Ha|Ha]; [by apply HAF|].
          apply list_elem_of_singleton in Ha as ->.
          apply elem_of_cons in Hx as [->|Hx]; [done|]. specialize (HfF' x Hx). lia. }
        { intros y x Hy Hx. apply HBF; [|done]. by apply list_elem_of_further. }
        { simpl in *. lia. }
        exists h', R. rewrite <- (assoc_L (++)) in Hp, Hfr, Hl. simpl in Hp, Hfr, Hl.
        split; [exact E|]. done.
      * (* place [f] before [b] *)
        assert (Hfb : idx h f < idx h b).
        { assert (idx h b ≠ idx h f); [|lia].
          apply HBF; apply list_elem_of_here. }
        assert (Hnd' : NoDup (A ++ b :: B') /\ (f ∉ A ++ b :: B') /\
                       (forall x, x ∈ F' -> x ∉ f :: A ++ b :: B') /\ NoDup F').
        { rewrite (assoc_L (++)) in Hnd. apply NoDup_app in Hnd as (H1 & H2 & H3).
          apply NoDup_cons in H3 as [H3 H4]. split; [done|]. split.
          - intros Hx. apply (H2 f Hx). apply list_elem_of_here.
          - split; [|done]. intros x Hx Hx'. apply elem_of_cons in Hx' as [->|Hx']; [done|].
            apply (H2 x Hx'). by apply list_elem_of_further. }
        destruct Hnd' as (HndT & HfT & HF'T & HndF').
        destruct (merge_walk_place fuel h this A b B' f F' pf HT Hf HndT HfT Hhead Hge)
          as (h1 & E1 & Hd1 & Hi1 & Hg1 & Hfr1).
        cbn [hd_or]. rewrite E1.
        destruct (IH (A ++ [f]) (b :: B') F' h1 (set_head this (head (A ++ f :: b :: B'))))
          as (h' & R & E & Hd & Hp & Hs & Hi & Hg & Hfr & Hl).
        { by destruct A. }
        { by rewrite <- (assoc_L (++)). }
        { exists (Some f). eapply dlseg_frame; [|exact HF']. intros p Hp.
          unfold lnk. rewrite Hfr1; [done|]. by apply HF'T. }
        { rewrite <- (assoc_L (++)). simpl.
          assert (Hperm : A ++ f :: b :: B' ++ F' ≡ₚ A ++ (b :: B') ++ f :: F').
          { apply Permutation_app_head. simpl. rewrite <- Permutation_middle.
            apply Permutation_swap. }
          by rewrite Hperm. }
        { rewrite <- (assoc_L (++)). reflexivity. }
        { rewrite <- (assoc_L (++)). simpl. rewrite !last_app_cons.
          cbn. rewrite Htail. by rewrite last_app_cons. }
        { rewrite <- (assoc_L (++)). simpl. apply (ascending_ext h h1); [done|].
          apply StronglySorted_app in HsT as (H1 & H2 & H3).
          apply StronglySorted_app_2; [|done|].
          - intros x1 x2 Hx1 Hx2. apply elem_of_cons in Hx2 as [->|Hx2].
            + apply HAF; [done | apply list_elem_of_here].
            + by apply H1.
          - constructor; [done|]. apply Forall_forall. intros x Hx.
            apply elem_of_cons in Hx as [->|Hx]; [done|].
            apply StronglySorted_cons in H3 as [H3 _]. rewrite Forall_forall in H3.
            specialize (H3 x Hx). simpl in H3. lia. }
        { by apply (ascending_ext h h1). }
        { intros a x Ha Hx. rewrite !Hi1. apply elem_of_app in Ha as [Ha|Ha].
          - apply HAF; [done | by apply list_elem_of_further].
          - apply list_elem_of_singleton in Ha as ->. by apply HfF'. }
        { intros y x Hy Hx. rewrite !Hi1. apply HBF; [done | by apply list_elem_of_further]. }
        { simpl in *. lia. }
        exists h', R. rewrite set_head_set_head in E.
        split; [exact E|]. split; [exact Hd|].
        split.
        { rewrite Hp. rewrite <- (assoc_L (++)). apply Permutation_app_head.
          simpl. rewrite <- Permutation_middle. apply Permutation_swap. }
        split; [exact Hs|].
        split; [intros p; by rewrite Hi, Hi1|].
        split; [intros p; by rewrite Hg, Hg1|].
        split.
        { intros p Hp'.
          assert (p ∉ f :: A ++ b :: B').
          { revert Hp'. unfold_mem. tauto. }
          assert (p ∉ (A ++ [f]) ++ (b :: B') ++ F').
          { revert Hp'. unfold_mem. tauto. }
          by rewrite Hfr, Hfr1. }
        destruct Hl as [Hl|[HF'ne Hl]].
        { left. rewrite Hl. rewrite <- (assoc_L (++)). simpl. by rewrite !last_app_cons. }
        { right. split; [done|]. rewrite Hl. destruct F'; [done | reflexivity]. }
Qed.


(** *** Well-formed lists *)

(** [is_list h this l]: [this] is the free list of the regions [l], in this
    order: linked both ways from [_head] to [_tail], of length [_length], and
    strictly ascending by region index. *)
Definition is_list (h : region_store) (this : FreeSemeruRegionList)
    (l : list region_ptr) : Prop :=
  dlseg h None l None /\
  _head this = head l /\ _tail this = last l /\
  _length this = Z.of_nat (List.length l) /\
  ascending h l /\
  (forall p, p ∈ l -> 0 <= idx h p).

(** The four assertions of [verify_region] on the type and the contents
    of a region. *)
Definition region_verifies (this : FreeSemeruRegionList) (p : region_ptr) : bool :=
  negb (is_young checks p) && is_correct_type checks (self this) p
  && (negb (is_free checks p) || region_is_empty checks p)
  && (negb (region_is_empty checks p) || is_free checks p || is_archive checks p).

(** What a debug build checks besides: no verification is running, every
    region names [this] as its containing set and is of a type and in a
    condition that [verify_region] accepts, and the list is shorter than
    [_unrealistically_long_length]. *)
Definition debug_ok (h : region_store) (this : FreeSemeruRegionList)
    (l : list region_ptr) : Prop :=
  _verify_in_progress this = false /\
  (forall p, p ∈ l -> tag h p = Some (self this)) /\
  Z.of_nat (List.length l) < ull /\
  (forall p, p ∈ l -> region_verifies this p = true).

Lemma assert_true (dbg : bool) c site : c = true -> assert_ dbg c site = Done tt.
Proof. intros ->. unfold assert_. by rewrite andb_false_r. Qed.

Lemma guarantee_true c site : c = true -> guarantee c site = Done tt.
Proof. by intros ->. Qed.

Lemma verify_region_ok this h p :
  is_Some (h !! p) ->
  (ASSERT = true -> tag h p = Some (self this) /\ region_verifies this p = true) ->
  verify_region ASSERT checks this h (Some p) = Done tt.
Proof.
  intros Hp Ht. unfold verify_region. destruct ASSERT; [|done].
  destruct (Ht eq_refl) as [Htag Hv]. unfold region_verifies in Hv.
  apply andb_true_iff in Hv as [Hv Harchive].
  apply andb_true_iff in Hv as [Hv Hfree].
  apply andb_true_iff in Hv as [Hyoung Htype].
  rewrite (containing_set_tag h p Hp), Done_bind, Htag.
  unfold assert_. rewrite bool_decide_eq_true_2 by done.
  rewrite Hyoung, Htype, Hfree, Harchive. reflexivity.
Qed.

Lemma check_mt_safety_ok this :
  mt_safe checks (self this) = true -> check_mt_safety checks this = Done tt.
Proof. intros Hs. unfold check_mt_safety. by apply guarantee_true. Qed.

Lemma verify_list_loop_ok this h : forall l fuel prev0 count last_index,
  dlseg h prev0 l None ->
  (ASSERT = true ->
   forall p, p ∈ l -> tag h p = Some (self this) /\ region_verifies this p = true) ->
  ascending h l ->
  match l with [] => True | p :: _ => idx h p = 0 \/ last_index < idx h p end ->
  0 <= count ->
  count + Z.of_nat (List.length l) < uint_modulus ->
  count + Z.of_nat (List.length l) < ull ->
  (List.length l <= fuel)%nat ->
  verify_list_loop ASSERT ull checks fuel this h (hd_or l None) prev0 count last_index
    = Done (last_or l prev0, count + Z.of_nat (List.length l)).
Proof.
  induction l as [|p l IH]; intros fuel prev0 count last_index Hd Ht Hs Hfirst Hc Hu Hl Hfuel.
  - simpl. rewrite Z.add_0_r. by destruct fuel.
  - destruct fuel as [|fuel]; [simpl in Hfuel; lia|].
    simpl in Hd. destruct Hd as [Hp Hd].
    cbn [hd_or RegionSet.verify_list_loop].
    rewrite verify_region_ok; [|by eapply lnk_is_Some|].
    2: { intros HA. apply Ht; [done | apply list_elem_of_here]. }
    rewrite Done_bind.
    assert (Hcount : uint_add count 1 = count + 1).
    { unfold uint_add. apply Z.mod_small. simpl List.length in Hu. lia. }
    rewrite Hcount.
    rewrite guarantee_true by (apply Z.ltb_lt; simpl List.length in Hl; lia).
    rewrite Done_bind, (next_lnk h p _ _ Hp), Done_bind.
    assert (Hnext : (if bool_decide (hd_or l None ≠ None)
                     then q ← prev h (hd_or l None);
                          guarantee (bool_decide (q = Some p))
                            "verify_list: next or prev pointers messed up"
                     else Done tt) = Done tt).
    { destruct l as [|q l']; simpl; [done|].
      simpl in Hd. destruct Hd as [Hq _].
      rewrite (prev_lnk h q _ _ Hq), Done_bind. apply guarantee_true.
      by apply bool_decide_eq_true_2. }
    rewrite Hnext, Done_bind. clear Hnext.
    rewrite (index_of_idx h p) by (by eapply lnk_is_Some). rewrite Done_bind.
    rewrite guarantee_true.
    2: { apply orb_true_iff. destruct Hfirst as [->|?]; [by left|right; by apply Z.ltb_lt]. }
    rewrite Done_bind.
    rewrite IH.
    + rewrite last_or_cons. f_equal. f_equal. simpl List.length. lia.
    + exact Hd.
    + intros HA q Hq. apply Ht; [done | by apply list_elem_of_further].
    + by apply StronglySorted_cons in Hs as [_ ?].
    + destruct l as [|q l']; [done|]. right.
      apply StronglySorted_cons in Hs as [Hs _]. rewrite Forall_forall in Hs.
      apply Hs, list_elem_of_here.
    + lia.
    + simpl List.length in Hu. lia.
    + simpl List.length in Hl. lia.
    + simpl in Hfuel. lia.
Qed.

Lemma verify_ok fuel h this l :
  ASSERT = true -> mt_safe checks (self this) = true ->
  is_list h this l -> debug_ok h this l ->
  Z.of_nat (List.length l) < uint_modulus ->
  (List.length l <= fuel)%nat ->
  verify ASSERT ull checks fuel this h = Done this.
Proof.
  intros HA Hsafe (Hd & Hhead & Htail & Hlen & Hs & Hnn) (Hvip & Htag & Hull & Hver) Hu Hfuel.
  unfold verify, verify_start, verify_base.
  rewrite !(check_mt_safety_ok this Hsafe), !Done_bind.
  rewrite assert_true by (by rewrite Hvip). rewrite Done_bind.
  rewrite guarantee_true.
  2: { unfold is_empty, length. destruct (_length this =? 0) eqn:E; simpl.
       - reflexivity.
       - apply Z.ltb_lt. apply Z.eqb_neq in E. lia. }
  rewrite !Done_bind. unfold verify_list.
  cbn [_head _tail set_verify_in_progress length _length].
  assert (Hh : (if bool_decide (_head this = None) then Done tt
               else p ← prev h (_head this);
                    guarantee (bool_decide (p = None))
                      "verify_list: _head should not have a prev") = Done tt).
  { rewrite Hhead. destruct l as [|p l']; simpl; [done|].
    simpl in Hd. destruct Hd as [Hp _]. rewrite (prev_lnk h p _ _ Hp), Done_bind.
    by apply guarantee_true. }
  rewrite Hh, Done_bind. clear Hh.
  rewrite Hhead, <- hd_or_head.
  rewrite (verify_list_loop_ok (set_verify_in_progress this true) h l fuel None 0 0);
    try done; try lia.
  2: { intros _ p Hp. split; [by apply Htag | by apply Hver]. }
  2: { destruct l as [|p l']; [done|]. specialize (Hnn p (list_elem_of_here _ _)). lia. }
  rewrite Done_bind. rewrite last_or_last. cbn beta iota.
  rewrite (guarantee_true (bool_decide _)) by (by apply bool_decide_eq_true_2).
  rewrite Done_bind.
  assert (Ht : (if bool_decide (_tail this = None) then Done tt
               else n ← next h (_tail this);
                    guarantee (bool_decide (n = None))
                      "verify_list: _tail should not have a next") = Done tt).
  { rewrite Htail. destruct (last l) as [t|] eqn:Hl; simpl; [|done].
    apply last_Some in Hl as [l' ->]. apply dlseg_app in Hd as [_ Hd]. simpl in Hd.
    destruct Hd as [Hp _]. rewrite (next_lnk h t _ _ Hp), Done_bind.
    by apply guarantee_true. }
  rewrite Ht, Done_bind. clear Ht.
  rewrite guarantee_true by (apply Z.eqb_eq; lia). rewrite Done_bind.
  unfold verify_end.
  rewrite (check_mt_safety_ok (set_verify_in_progress this true)) by exact Hsafe.
  rewrite Done_bind.
  rewrite assert_true by done. rewrite Done_bind.
  f_equal. destruct this; simpl in *. by subst.
Qed.

Lemma verify_optional_ok fuel h this l :
  is_list h this l ->
  (ASSERT = true -> mt_safe checks (self this) = true /\ debug_ok h this l) ->
  Z.of_nat (List.length l) < uint_modulus ->
  (List.length l <= fuel)%nat ->
  verify_optional ASSERT ull checks fuel this h = Done this.
Proof.
  intros Hl Hd Hu Hf. unfold verify_optional. destruct ASSERT eqn:HA; [|done].
  rewrite <- HA. destruct (Hd eq_refl). eapply verify_ok; eauto.
Qed.


Lemma set_containing_set_spec h a v :
  ASSERT = true -> is_Some (h !! a) ->
  (is_Some (tag h a) <-> ~ is_Some v) ->
  exists h', set_containing_set ASSERT h (Some a) v = Done h' /\
    tag h' a = v /\ (forall p, lnk h' p = lnk h p) /\ (forall p, idx h' p = idx h p) /\
    (forall p, p ≠ a -> h' !! p = h !! p).
Proof.
  intros HA [r Hr] Hx. unfold set_containing_set. rewrite HA.
  unfold deref, write. rewrite Hr, Done_bind.
  assert (Htag : tag h a = _containing_set r) by (unfold tag; by rewrite Hr).
  rewrite Htag in Hx.
  rewrite assert_true.
  2: { apply negb_true_iff, bool_decide_eq_false_2. tauto. }
  rewrite Done_bind. eexists. split; [reflexivity|].
  split; [|split; [|split]].
  - unfold tag. by rewrite lookup_insert_eq.
  - intros p. unfold lnk. destruct (decide (a = p)) as [->|Hn].
    + by rewrite lookup_insert_eq, Hr.
    + by rewrite lookup_insert_ne.
  - intros p. unfold idx. destruct (decide (a = p)) as [->|Hn].
    + by rewrite lookup_insert_eq, Hr.
    + by rewrite lookup_insert_ne.
  - intros p Hp. by rewrite lookup_insert_ne.
Qed.

Lemma lnk_tag_is_Some h p x : lnk h p = Some x -> is_Some (h !! p).
Proof. apply lnk_is_Some. Qed.

(** The debug-only block retags the regions of the from list and leaves
    every link and index alone. *)
Lemma retag_loop_ok this from_list :
  ASSERT = true ->
  forall l fuel h pr,
  dlseg h pr l None -> NoDup l ->
  (forall p, p ∈ l -> tag h p = Some (self from_list)) ->
  (forall p, p ∈ l -> region_verifies from_list p = true) ->
  (List.length l <= fuel)%nat ->
  exists h', retag_loop ASSERT checks fuel this from_list h (hd_or l None) = Done h' /\
    (forall p, lnk h' p = lnk h p) /\ (forall p, idx h' p = idx h p) /\
    (forall p, p ∈ l -> tag h' p = Some (self this)) /\
    (forall p, p ∉ l -> h' !! p = h !! p).
Proof.
  intros HA. induction l as [|a l IH]; intros fuel h pr Hd Hnd Ht Hv Hfuel.
  - exists h. split; [by destruct fuel|]. split; [done|]. split; [done|].
    split; [|done]. intros p Hp. by apply elem_of_nil in Hp.
  - destruct fuel as [|fuel]; [simpl in Hfuel; lia|].
    simpl in Hd. destruct Hd as [Ha Hd].
    apply NoDup_cons in Hnd as [Hal Hnd].
    assert (Hsa : is_Some (h !! a)) by (by eapply lnk_is_Some).
    cbn [hd_or RegionSet.retag_loop].
    rewrite verify_region_ok; [|done|].
    2: { intros _. split; [apply Ht | apply Hv]; apply list_elem_of_here. }
    rewrite Done_bind, (next_lnk h a _ _ Ha), Done_bind.
    destruct (set_containing_set_spec h a None HA Hsa) as (h1 & E1 & T1 & L1 & I1 & F1).
    { rewrite (Ht a (list_elem_of_here _ _)). split; [intros _ [? ?]; done | eauto]. }
    rewrite E1, Done_bind.
    assert (Hsa1 : is_Some (h1 !! a)).
    { apply (lnk_is_Some h1 a (pr, hd_or l None)). by rewrite L1. }
    destruct (set_containing_set_spec h1 a (Some (self this)) HA Hsa1)
      as (h2 & E2 & T2 & L2 & I2 & F2).
    { rewrite T1. split; [intros [? ?]; done | intros H; exfalso; apply H; eauto]. }
    rewrite E2, Done_bind.
    destruct (IH fuel h2 (Some a)) as (h' & E & L & I & T & F).
    { eapply dlseg_frame; [|exact Hd]. intros p _. by rewrite L2, L1. }
    { done. }
    { intros p Hp. unfold tag. rewrite F2, F1; [by apply Ht, list_elem_of_further| |];
        intros ->; done. }
    { intros p Hp. by apply Hv, list_elem_of_further. }
    { simpl in Hfuel. lia. }
    exists h'. split; [exact E|].
    split; [intros p; by rewrite L, L2, L1|].
    split; [intros p; by rewrite I, I2, I1|].
    split.
    + intros p Hp. apply elem_of_cons in Hp as [->|Hp]; [|by apply T].
      unfold tag. rewrite (F a Hal). exact T2.
    + intros p Hp. apply not_elem_of_cons in Hp as [Hpa Hpl].
      by rewrite (F p Hpl), F2, F1.
Qed.

Lemma is_list_nil_inv h this l :
  is_list h this l -> is_empty this = true -> l = [].
Proof.
  intros (_ & _ & _ & Hlen & _) He. unfold is_empty in He. apply Z.eqb_eq in He.
  destruct l; [done|]. simpl in Hlen. lia.
Qed.

Lemma is_list_cons_inv h this l :
  is_list h this l -> is_empty this = false -> l ≠ [].
Proof.
  intros (_ & _ & _ & Hlen & _) He. unfold is_empty in He. apply Z.eqb_neq in He.
  intros ->. simpl in Hlen. lia.
Qed.


Lemma retag_block_ok this from_list h M fuel :
  dlseg h None M None -> NoDup M ->
  (ASSERT = true -> forall p, p ∈ M -> tag h p = Some (self from_list)) ->
  (ASSERT = true -> forall p, p ∈ M -> region_verifies from_list p = true) ->
  (List.length M <= fuel)%nat ->
  exists h',
    (if ASSERT then retag_loop ASSERT checks fuel this from_list h (hd_or M None) else Done h)
      = Done h' /\
    (forall p, lnk h' p = lnk h p) /\ (forall p, idx h' p = idx h p) /\
    (ASSERT = true -> forall p, p ∈ M -> tag h' p = Some (self this)) /\
    (forall p, p ∉ M -> h' !! p = h !! p).
Proof.
  intros Hd Hnd Ht Hv Hfuel. destruct (decide (ASSERT = true)) as [HA|HA].
  - destruct (retag_loop_ok this from_list HA M fuel h None Hd Hnd (Ht HA) (Hv HA) Hfuel)
      as (h' & E & L & I & T & F).
    exists h'. split; [|done].
    rewrite <- E. rewrite HA at 1. reflexivity.
  - apply not_true_is_false in HA. exists h. split; [by rewrite HA|].
    split; [done|]. split; [done|]. split; [|done]. intros HA'. congruence.
Qed.

Lemma is_list_ext h h' this l :
  (forall p, lnk h' p = lnk h p) -> (forall p, idx h' p = idx h p) ->
  is_list h this l -> is_list h' this l.
Proof.
  intros HL HI (Hd & Hh & Ht & Hlen & Hs & Hnn).
  split; [|split; [|split; [|split; [|split]]]]; try done.
  - eapply dlseg_frame; [|exact Hd]. intros p _. apply HL.
  - by apply (ascending_ext h h').
  - intros p Hp. rewrite HI. by apply Hnn.
Qed.

Lemma uint_add_small a b : 0 <= a -> 0 <= b -> a + b < uint_modulus -> uint_add a b = a + b.
Proof. intros. unfold uint_add. apply Z.mod_small. lia. Qed.


(** The two branches of [add_ordered] that link the lists. *)
Lemma add_ordered_link h this from_list L M fuel :
  is_list h this L -> is_list h from_list M -> M ≠ [] ->
  (forall p q, p ∈ L -> q ∈ M -> idx h p ≠ idx h q) ->
  (List.length L + List.length M <= fuel)%nat ->
  exists h' this' R,
    (if is_empty this then
       _ ← assert_ ASSERT ((length this =? 0) && bool_decide (_tail this = None))
             "add_ordered: invariant";
       Done (h, set_tail (set_head this (_head from_list)) (_tail from_list))
     else
       '(h, this) ← merge_walk fuel h this (_head this) (_head from_list);
       i_tail ← index_of h (_tail this);
       i_from_tail ← index_of h (_tail from_list);
       Done (h, if i_tail <? i_from_tail then set_tail this (_tail from_list) else this))
    = Done (h', this') /\
    dlseg h' None R None /\ _head this' = head R /\ _tail this' = last R /\
    R ≡ₚ L ++ M /\ ascending h' R /\
    (forall p, idx h' p = idx h p) /\ (forall p, tag h' p = tag h p) /\
    _length this' = _length this /\ self this' = self this /\
    _verify_in_progress this' = _verify_in_progress this /\ _last this' = _last this.
Proof.
  intros HL HM HMne Hdisj Hfuel.
  destruct (is_empty this) eqn:He.
  - (* the receiving list is empty *)
    pose proof (is_list_nil_inv h this L HL He) as ->.
    destruct HL as (_ & _ & Htail & Hlen & _), HM as (HdM & HhM & HtM & _ & HsM & _).
    exists h, (set_tail (set_head this (_head from_list)) (_tail from_list)), M.
    rewrite assert_true.
    2: { unfold length. rewrite Hlen, Htail. reflexivity. }
    rewrite Done_bind. split; [reflexivity|]. simpl. repeat (split; [done|]). done.
  - pose proof (is_list_cons_inv h this L HL He) as HLne.
    destruct HL as (HdL & HhL & HtL & HlenL & HsL & HnnL),
      HM as (HdM & HhM & HtM & HlenM & HsM & HnnM).
    destruct (merge_walk_spec fuel [] L M h this) as (h' & R & E & Hd & Hp & Hs & Hi & Hg & Hfr & Hl);
      simpl; try done.
    { by exists None. }
    { apply NoDup_app. split; [by eapply ascending_NoDup|].
      split; [|by eapply ascending_NoDup]. intros x HxL HxM. by apply (Hdisj x x). }
    { intros a f Ha. by apply elem_of_nil in Ha. }
    simpl in Hp.
    rewrite HhL, HhM, <- !hd_or_head, E, Done_bind. cbn [_tail set_head].
    destruct (last L) as [t|] eqn:HlastL; [|by apply last_None in HlastL].
    destruct (last M) as [u|] eqn:HlastM; [|by apply last_None in HlastM].
    assert (HtR : t ∈ R) by (rewrite Hp; apply elem_of_app; left; by apply last_Some_elem_of).
    assert (HuR : u ∈ R) by (rewrite Hp; apply elem_of_app; right; by apply last_Some_elem_of).
    assert (is_Some (h' !! t)) by (by eapply dlseg_elem).
    assert (is_Some (h' !! u)) by (by eapply dlseg_elem).
    rewrite HtL, HtM, (index_of_idx h' t), Done_bind, (index_of_idx h' u), Done_bind by done.
    assert (Htu : idx h' t ≠ idx h' u).
    { rewrite !Hi. apply Hdisj; by apply last_Some_elem_of. }
    eexists h', _, R. split; [reflexivity|].
    split; [done|]. split; [by destruct (idx h' t <? idx h' u)|].
    split.
    { destruct (idx h' t <? idx h' u) eqn:Hc; cbn.
      - destruct Hl as [Hl|[_ Hl]]; [|congruence].
        apply Z.ltb_lt in Hc. simpl in Hl. rewrite ?HlastL in Hl.
        pose proof (ascending_le_last h' R u t Hs HuR Hl). lia.
      - destruct Hl as [Hl|[_ Hl]]; [simpl in Hl; congruence|].
        apply Z.ltb_ge in Hc. rewrite ?HlastM in Hl.
        pose proof (ascending_le_last h' R t u Hs HtR Hl). lia. }
    split; [done|]. split; [done|]. split; [done|]. split; [done|].
    by destruct (idx h' t <? idx h' u).
Qed.


(** A verification that passes hands the list back as it was. *)
Lemma verify_optional_Done fuel this h t :
  verify_optional ASSERT ull checks fuel this h = Done t -> t = this.
Proof.
  unfold verify_optional. destruct ASSERT eqn:HA; [|by intros [= <-]].
  unfold verify, verify_start, verify_end. intros H.
  apply bind_Done in H as ([] & _ & H).
  apply bind_Done in H as (t1 & H1 & H).
  apply bind_Done in H1 as ([] & _ & H1).
  apply bind_Done in H1 as ([] & Hvip & H1).
  apply bind_Done in H1 as ([] & _ & H1). injection H1 as <-.
  apply bind_Done in H as ([] & _ & H).
  apply bind_Done in H as ([] & _ & H).
  apply bind_Done in H as ([] & _ & H). injection H as <-.
  unfold assert_ in Hvip. simpl in Hvip.
  destruct this as [s n vip hd tl lst]. simpl in *.
  destruct vip; [discriminate | reflexivity].
Qed.

(** C10. [add_ordered] with an empty [from_list] returns at the
    [if (from_list->is_empty())] test: whenever it returns, the region
    store, the receiving list (head, tail, length and last-insertion hint
    included) and [from_list] are what they were.  It does return when the
    checks that come before the test pass: [check_mt_safety] on both lists
    and, in a build with [ASSERT], the verification of both. *)
Theorem add_ordered_empty_from_is_noop fuel h this from_list :
  is_empty from_list = true ->
  (forall r, add_ordered ASSERT ull checks fuel h this from_list = Done r ->
             r = (h, this, from_list)) /\
  (forall L,
     mt_safe checks (self this) = true -> mt_safe checks (self from_list) = true ->
     (ASSERT = true ->
      is_list h this L /\ debug_ok h this L /\
      is_list h from_list [] /\ debug_ok h from_list [] /\
      Z.of_nat (List.length L) < uint_modulus /\ (List.length L <= fuel)%nat) ->
     add_ordered ASSERT ull checks fuel h this from_list = Done (h, this, from_list)).
Proof.
  intros He. split.
  - intros r H. unfold add_ordered in H.
    apply bind_Done in H as ([] & _ & H).
    apply bind_Done in H as ([] & _ & H).
    apply bind_Done in H as (this1 & H1 & H).
    apply bind_Done in H as (from1 & H2 & H).
    apply verify_optional_Done in H1 as ->. apply verify_optional_Done in H2 as ->.
    rewrite He in H. by injection H as <-.
  - intros L Hsafe Hsafe' Hdbg. unfold add_ordered.
    rewrite (check_mt_safety_ok this Hsafe), (check_mt_safety_ok from_list Hsafe'), !Done_bind.
    destruct (decide (ASSERT = true)) as [HA|HA].
    + destruct (Hdbg HA) as (HL & HdL & HM & HdM & Hu & Hfuel).
      rewrite (verify_optional_ok fuel h this L) by done. rewrite Done_bind.
      rewrite (verify_optional_ok fuel h from_list []) by (done || simpl; lia).
      rewrite Done_bind, He. reflexivity.
    + apply not_true_is_false in HA. unfold verify_optional.
      rewrite HA, !Done_bind, He. reflexivity.
Qed.

(** C8. Merging two well-formed lists with disjoint region indices.
    With fuel [|L| + |M|] (one unit per loop-body execution, so the lists are
    walked once) [add_ordered] returns; the receiving list is then the
    well-formed list of some [R] which is a permutation of [L ++ M], strictly
    ascending by index; its length is [|L| + |M|]; its tail is the last
    region of [R], of maximal index; [from_list] is empty; no region index
    changed.  The checks made on the way are assumed to pass:
    [check_mt_safety] on both lists and, in a build with [ASSERT], what the
    verification asks of the two lists and of the regions of [from_list] as
    members of the receiving list. *)
Theorem add_ordered_merges h this from_list L M :
  is_list h this L -> is_list h from_list M ->
  (forall p q, p ∈ L -> q ∈ M -> idx h p ≠ idx h q) ->
  Z.of_nat (List.length L + List.length M) < uint_modulus ->
  mt_safe checks (self this) = true -> mt_safe checks (self from_list) = true ->
  (ASSERT = true ->
   debug_ok h this L /\ debug_ok h from_list M /\
   (forall p, p ∈ M -> region_verifies this p = true) /\
   Z.of_nat (List.length L + List.length M) < ull) ->
  exists h' this' from' R,
    add_ordered ASSERT ull checks (List.length L + List.length M) h this from_list
      = Done (h', this', from') /\
    is_list h' this' R /\ R ≡ₚ L ++ M /\
    length this' = Z.of_nat (List.length L) + Z.of_nat (List.length M) /\
    _tail this' = last R /\
    (forall p t, p ∈ R -> _tail this' = Some t -> idx h' p <= idx h' t) /\
    is_list h' from' [] /\ is_empty from' = true /\
    (forall p, idx h' p = idx h p) /\
    _last this' = _last this.
Proof.
  intros HL HM Hdisj Hu Hsafe Hsafe' Hdbg.
  set (fuel := (List.length L + List.length M)%nat).
  unfold add_ordered.
  rewrite (check_mt_safety_ok this Hsafe), (check_mt_safety_ok from_list Hsafe'), !Done_bind.
  rewrite (verify_optional_ok fuel h this L);
    [|done|intros HA; split; [done | by apply Hdbg]|lia|lia].
  rewrite Done_bind.
  rewrite (verify_optional_ok fuel h from_list M);
    [|done|intros HA; split; [done | by apply Hdbg]|lia|lia].
  rewrite Done_bind.
  destruct (is_empty from_list) eqn:He.
  - (* nothing to merge *)
    pose proof (is_list_nil_inv h from_list M HM He) as ->.
    exists h, this, from_list, L. split; [reflexivity|].
    rewrite (right_id_L [] (++)).
    destruct HL as (HdL & HhL & HtL & HlenL & HsL & HnnL).
    split; [done|]. split; [done|]. split; [unfold length; simpl; lia|].
    split; [done|]. split.
    { intros p t Hp Ht. rewrite HtL in Ht. by eapply ascending_le_last. }
    done.
  - pose proof (is_list_cons_inv h from_list M HM He) as HMne.
    assert (HsM := HM). destruct HsM as (HdM & HhM & HtM & HlenM & HsM & HnnM).
    destruct (retag_block_ok this from_list h M fuel) as (h1 & E1 & L1 & I1 & T1 & F1);
      [done | by eapply ascending_NoDup | | | unfold fuel; lia |].
    { intros HA. by apply Hdbg. }
    { intros HA. by apply Hdbg. }
    rewrite hd_or_head, <- HhM in E1. rewrite E1, Done_bind.
    destruct (add_ordered_link h1 this from_list L M fuel)
      as (h2 & this2 & R & E2 & Hd & Hh & Ht & Hp & Hs & I2 & G2 & Hlen & Hself & Hvip & Hlast).
    { by apply (is_list_ext h h1). }
    { by apply (is_list_ext h h1). }
    { done. }
    { intros p q Hp Hq. rewrite !I1. by apply Hdisj. }
    { done. }
    rewrite E2, Done_bind. cbn zeta.
    assert (HlenR : List.length R = (List.length L + List.length M)%nat).
    { by rewrite Hp, length_app. }
    destruct HL as (HdL & HhL & HtL & HlenL & HsL & HnnL).
    assert (Hsum : uint_add (_length this2) (length from_list)
                   = Z.of_nat (List.length L) + Z.of_nat (List.length M)).
    { unfold length. rewrite Hlen, HlenL, HlenM. apply uint_add_small; lia. }
    rewrite Hsum.
    set (this3 := set_length this2 _).
    assert (Hlist3 : is_list h2 this3 R).
    { split; [done|]. split; [done|]. split; [done|].
      split; [simpl; rewrite HlenR; lia|]. split; [done|].
      intros p Hp'. rewrite I2, I1. rewrite Hp in Hp'.
      apply elem_of_app in Hp' as [?|?]; [by apply HnnL | by apply HnnM]. }
    rewrite (verify_optional_ok fuel h2 this3 R); [|done| |lia|lia].
    2: { intros HA.
         destruct (Hdbg HA) as ((HvL & HtagL & _ & HverL) & (HvM & HtagM & _) & HverM & Hull).
         split; [simpl; by rewrite Hself|].
         split; [simpl; congruence|]. split; [|split; [lia|]].
         - intros p Hp'. rewrite G2. simpl. rewrite Hself. rewrite Hp in Hp'.
           apply elem_of_app in Hp' as [HpL|HpM]; [|by apply T1].
           unfold tag. rewrite F1; [by apply HtagL|]. intros HpM. by apply (Hdisj p p).
         - intros p Hp'. unfold region_verifies. simpl. rewrite Hself.
           rewrite Hp in Hp'.
           apply elem_of_app in Hp' as [HpL|HpM]; [by apply HverL | by apply HverM]. }
    rewrite Done_bind.
    assert (Hlistc : is_list h2 (clear from_list) []).
    { split; [done|]. split; [done|]. split; [done|]. split; [done|].
      split; [constructor|]. intros p Hp'. by apply elem_of_nil in Hp'. }
    rewrite (verify_optional_ok fuel h2 (clear from_list) []); [|done| |simpl; lia|simpl; lia].
    2: { intros HA. destruct (Hdbg HA) as (_ & (HvM & _) & _ & Hull).
         split; [done|].
         split; [done|]. split; [|split; [simpl; lia|]];
           intros p Hp'; by apply elem_of_nil in Hp'. }
    rewrite Done_bind.
    exists h2, this3, (clear from_list), R.
    split; [reflexivity|]. split; [done|]. split; [done|]. split; [done|].
    split; [done|]. split.
    { intros p t Hp' Ht'. simpl in Ht'. rewrite Ht in Ht'. by eapply ascending_le_last. }
    split; [done|]. split; [done|]. split; [intros p; by rewrite I2, I1|]. done.
Qed.



(** *** Counting the regions of an index range *)

(** The regions of [l] whose index lies in [[start, end_]]. *)
Definition in_range (h : region_store) (start end_ : Z) (l : list region_ptr)
    : list region_ptr :=
  filter (fun p => start <= idx h p /\ idx h p <= end_) l.

Lemma in_range_above h start end_ l :
  (forall p, p ∈ l -> end_ < idx h p) -> in_range h start end_ l = [].
Proof.
  induction l as [|p l IH]; intros Hl; [done|].
  unfold in_range. rewrite filter_cons.
  destruct (decide _) as [[_ Hle]|_].
  - specialize (Hl p (list_elem_of_here _ _)). lia.
  - apply IH. intros q Hq. by apply Hl, list_elem_of_further.
Qed.

Lemma num_of_regions_in_range_loop_spec h start end_ : forall l fuel pr num,
  dlseg h pr l None -> ascending h l ->
  0 <= num -> num + Z.of_nat (List.length l) < uint_modulus ->
  (List.length l <= fuel)%nat ->
  num_of_regions_in_range_loop fuel h start end_ (hd_or l None) num
    = Done (num + Z.of_nat (List.length (in_range h start end_ l))).
Proof.
  induction l as [|p l IH]; intros fuel pr num Hd Hs Hn Hu Hfuel.
  - simpl. rewrite Z.add_0_r. by destruct fuel.
  - destruct fuel as [|fuel]; [simpl in Hfuel; lia|].
    simpl in Hd. destruct Hd as [Hp Hd].
    cbn [hd_or num_of_regions_in_range_loop].
    rewrite (index_of_idx h p) by (by eapply lnk_is_Some). rewrite Done_bind.
    apply StronglySorted_cons in Hs as [Hall Hs'].
    rewrite Forall_forall in Hall.
    destruct (end_ <? idx h p) eqn:Hend.
    + apply Z.ltb_lt in Hend. rewrite in_range_above; [by rewrite Z.add_0_r|].
      intros q Hq. apply elem_of_cons in Hq as [->|Hq]; [done|].
      specialize (Hall q Hq). simpl in Hall. lia.
    + apply Z.ltb_ge in Hend.
      rewrite (next_lnk h p _ _ Hp), Done_bind.
      simpl List.length in Hu.
      unfold in_range. rewrite filter_cons. fold (in_range h start end_ l).
      destruct (start <=? idx h p) eqn:Hstart.
      * apply Z.leb_le in Hstart.
        rewrite uint_add_small by lia.
        rewrite (IH fuel (Some p)); [|done|done|lia|lia|simpl in Hfuel; lia].
        rewrite decide_True by done. simpl List.length. f_equal. lia.
      * apply Z.leb_gt in Hstart.
        rewrite (IH fuel (Some p)); [|done|done|lia|lia|simpl in Hfuel; lia].
        rewrite decide_False by lia. reflexivity.
Qed.

(** X1. On a well-formed list, walked with fuel for its length,
    [num_of_regions_in_range(start, end)] returns the number of regions of
    the list whose index lies in [[start, end]]: the walk may stop at the
    first index above [end] because the list ascends. *)
Theorem num_of_regions_in_range_counts h this l start end_ fuel :
  is_list h this l ->
  Z.of_nat (List.length l) < uint_modulus ->
  (List.length l <= fuel)%nat ->
  num_of_regions_in_range fuel h this start end_
    = Done (Z.of_nat (List.length (in_range h start end_ l))).
Proof.
  intros (Hd & Hh & _ & _ & Hs & _) Hu Hfuel.
  unfold num_of_regions_in_range. rewrite Hh, <- hd_or_head.
  by rewrite (num_of_regions_in_range_loop_spec h start end_ l fuel None 0).
Qed.

(** *** Emptying a list *)

(** Clearing the containing set of a region, in either build. *)
Lemma set_containing_set_clear h a :
  is_Some (h !! a) -> (ASSERT = true -> is_Some (tag h a)) ->
  exists h', set_containing_set ASSERT h (Some a) None = Done h' /\
    (ASSERT = true -> tag h' a = None) /\
    (forall p, lnk h' p = lnk h p) /\ (forall p, idx h' p = idx h p) /\
    (forall p, p ≠ a -> h' !! p = h !! p).
Proof.
  intros Hs Ht. destruct (decide (ASSERT = true)) as [HA|HA].
  - destruct (set_containing_set_spec h a None HA Hs) as (h' & E & T & L & I & F).
    { split; [intros _ [? ?]; done | intros _; by apply Ht]. }
    exists h'. by repeat split.
  - apply not_true_is_false in HA. exists h. unfold set_containing_set. rewrite HA.
    split; [done|]. split; [congruence|]. done.
Qed.

Lemma remove_all_loop_spec this : forall l fuel h pr,
  dlseg h pr l None -> NoDup l ->
  (ASSERT = true ->
   forall p, p ∈ l -> tag h p = Some (self this) /\ region_verifies this p = true) ->
  (List.length l <= fuel)%nat ->
  exists h', remove_all_loop ASSERT checks fuel this h (hd_or l None) = Done h' /\
    (forall p, p ∈ l -> lnk h' p = Some (None, None) /\ (ASSERT = true -> tag h' p = None)) /\
    (forall p, idx h' p = idx h p) /\
    (forall p, p ∉ l -> h' !! p = h !! p).
Proof.
  induction l as [|a l IH]; intros fuel h pr Hd Hnd Ht Hfuel.
  - exists h. split; [by destruct fuel|]. split; [|done].
    intros p Hp. by apply elem_of_nil in Hp.
  - destruct fuel as [|fuel]; [simpl in Hfuel; lia|].
    simpl in Hd. destruct Hd as [Ha Hd].
    apply NoDup_cons in Hnd as [Hal Hnd].
    assert (Hsa : is_Some (h !! a)) by (by eapply lnk_is_Some).
    cbn [hd_or RegionSet.remove_all_loop].
    rewrite verify_region_ok; [|done|].
    2: { intros HA. apply (Ht HA), list_elem_of_here. }
    rewrite Done_bind, (next_lnk h a _ _ Ha), Done_bind.
    destruct (set_next_spec h a None _ _ Ha) as (h1 & E1 & L1 & F1 & I1 & T1).
    rewrite E1, Done_bind.
    destruct (set_prev_spec h1 a None _ _ L1) as (h2 & E2 & L2 & F2 & I2 & T2).
    rewrite E2, Done_bind.
    destruct (set_containing_set_clear h2 a) as (h3 & E3 & T3 & L3 & I3 & F3).
    { by eapply lnk_is_Some. }
    { intros HA. rewrite T2, T1, (proj1 (Ht HA a (list_elem_of_here _ _))). eauto. }
    rewrite E3, Done_bind.
    destruct (IH fuel h3 (Some a)) as (h' & E & L & I & F).
    { eapply dlseg_frame; [|exact Hd]. intros p Hp.
      assert (p ≠ a) by (intros ->; done).
      rewrite L3. unfold lnk. by rewrite F2, F1. }
    { done. }
    { intros HA p Hp. assert (p ≠ a) by (intros ->; done).
      unfold tag. rewrite F3, F2, F1 by done. by apply (Ht HA), list_elem_of_further. }
    { simpl in Hfuel. lia. }
    exists h'. split; [exact E|]. split; [|split].
    + intros p Hp. apply elem_of_cons in Hp as [->|Hp]; [|by apply L].
      unfold lnk, tag. rewrite (F a Hal). fold (lnk h3 a) (tag h3 a).
      by rewrite L3.
    + intros p. by rewrite I, I3, I2, I1.
    + intros p Hp. apply not_elem_of_cons in Hp as [Hpa Hpl].
      by rewrite (F p Hpl), F3, F2, F1.
Qed.

Lemma is_list_nil_clear h this : is_list h (clear this) [].
Proof.
  split; [done|]. split; [done|]. split; [done|]. split; [done|].
  split; [constructor|]. intros p Hp. by apply elem_of_nil in Hp.
Qed.

(** X2. [remove_all] on a well-formed list, run with fuel for its length,
    returns: the list is then empty (length 0, no head, no tail, no
    last-insertion hint), every region that was on it has both links NULL
    and, in a build with [ASSERT], no containing set; no region index has
    changed and no other region has been touched.  The checks made on the
    way are assumed to pass: [check_mt_safety] and, in a build with [ASSERT],
    what the verification asks of the list. *)
Theorem remove_all_unlinks_every_region h this l fuel :
  is_list h this l ->
  Z.of_nat (List.length l) < uint_modulus ->
  (List.length l <= fuel)%nat ->
  mt_safe checks (self this) = true ->
  (ASSERT = true -> debug_ok h this l) ->
  exists h',
    remove_all ASSERT ull checks fuel h this = Done (h', clear this) /\
    is_list h' (clear this) [] /\
    (forall p, p ∈ l -> lnk h' p = Some (None, None) /\ (ASSERT = true -> tag h' p = None)) /\
    (forall p, idx h' p = idx h p) /\
    (forall p, p ∉ l -> h' !! p = h !! p).
Proof.
  intros Hl Hu Hfuel Hsafe Hdbg. unfold remove_all.
  rewrite (check_mt_safety_ok this Hsafe), Done_bind.
  rewrite (verify_optional_ok fuel h this l);
    [|done|intros HA; split; [done | by apply Hdbg]|done|done].
  rewrite Done_bind.
  destruct Hl as (Hd & Hh & Htl & Hlen & Hs & Hnn).
  destruct (remove_all_loop_spec this l fuel h None) as (h' & E & L & I & F);
    [done | by eapply ascending_NoDup | | done |].
  { intros HA p Hp. destruct (Hdbg HA) as (_ & Ht & _ & Hv). split; [by apply Ht | by apply Hv]. }
  rewrite Hh, <- hd_or_head, E, Done_bind.
  rewrite (verify_optional_ok fuel h' (clear this) []).
  - exists h'. split; [reflexivity|]. split; [apply is_list_nil_clear|]. done.
  - apply is_list_nil_clear.
  - intros HA. split; [done|]. destruct (Hdbg HA) as (Hvip & _ & Hull & _).
    split; [done|]. split; [intros p Hp; by apply elem_of_nil in Hp|].
    split; [simpl; lia|]. intros p Hp. by apply elem_of_nil in Hp.
  - simpl. unfold uint_modulus. lia.
  - simpl. lia.
Qed.

(** *** What a passing verification establishes *)

(** The order that [verify_list] checks: the index of a region is 0 or above
    the index of the region before it ([last] before the first). *)
Fixpoint zero_or_above (h : region_store) (last : Z) (l : list region_ptr) : Prop :=
  match l with
  | [] => True
  | p :: l' => (idx h p = 0 \/ last < idx h p) /\ zero_or_above h (idx h p) l'
  end.

Lemma guarantee_Done c site u : guarantee c site = Done u -> c = true.
Proof. by destruct c. Qed.

Lemma assert_true_Done c site u : assert_ true c site = Done u -> c = true.
Proof. by destruct c. Qed.

Lemma assert_Done c site u : ASSERT = true -> assert_ ASSERT c site = Done u -> c = true.
Proof. intros ->. apply assert_true_Done. Qed.

Lemma verify_region_Done this h a u :
  verify_region ASSERT checks this h (Some a) = Done u ->
  ASSERT = true -> tag h a = Some (self this) /\ region_verifies this a = true.
Proof.
  intros H HA. unfold verify_region in H. rewrite HA in H.
  apply bind_Done in H as (c & Hc & H).
  apply bind_Done in H as ([] & H0 & H).
  apply bind_Done in H as ([] & H1 & H).
  apply bind_Done in H as ([] & H2 & H).
  apply bind_Done in H as ([] & H3 & H).
  apply assert_true_Done in H0, H1, H2, H3, H.
  apply bool_decide_eq_true_1 in H0. subst c.
  split.
  - unfold containing_set, deref in Hc. unfold tag.
    destruct (h !! a) as [r|]; simpl in *; [by injection Hc | discriminate].
  - unfold region_verifies. by rewrite H1, H2, H3, H.
Qed.

Lemma next_Done h a n : next h (Some a) = Done n -> exists p, lnk h a = Some (p, n).
Proof.
  unfold next, deref, lnk. destruct (h !! a) as [r|]; simpl; [|discriminate].
  intros [= <-]. eauto.
Qed.

Lemma prev_Done h a p : prev h (Some a) = Done p -> exists n, lnk h a = Some (p, n).
Proof.
  unfold prev, deref, lnk. destruct (h !! a) as [r|]; simpl; [|discriminate].
  intros [= <-]. eauto.
Qed.

Lemma index_of_Done h a i : index_of h (Some a) = Done i -> i = idx h a.
Proof.
  unfold index_of, deref, idx. destruct (h !! a) as [r|]; simpl; [|discriminate].
  by intros [= <-].
Qed.

Lemma verify_list_loop_Done this h : forall fuel curr prev0 count last_index r c,
  ull < uint_modulus -> 0 <= count < uint_modulus - 1 ->
  match curr with Some a => exists n, lnk h a = Some (prev0, n) | None => True end ->
  verify_list_loop ASSERT ull checks fuel this h curr prev0 count last_index = Done (r, c) ->
  exists l, curr = hd_or l None /\ dlseg h prev0 l None /\ r = last_or l prev0 /\
    c = count + Z.of_nat (List.length l) /\ (l ≠ [] -> c < ull) /\
    zero_or_above h last_index l /\
    (ASSERT = true ->
     forall p, p ∈ l -> tag h p = Some (self this) /\ region_verifies this p = true).
Proof.
  induction fuel as [|fuel IH]; intros curr prev0 count last_index r c Hull Hc Hprev H.
  - destruct curr; [discriminate|]. injection H as <- <-.
    exists []. split; [done|]. split; [done|]. split; [done|].
    split; [simpl; lia|]. split; [done|]. split; [done|].
    intros _ p Hp. by apply elem_of_nil in Hp.
  - destruct curr as [a|].
    2: { injection H as <- <-.
         exists []. split; [done|]. split; [done|]. split; [done|].
         split; [simpl; lia|]. split; [done|]. split; [done|].
         intros _ p Hp. by apply elem_of_nil in Hp. }
    cbn [RegionSet.verify_list_loop] in H.
    apply bind_Done in H as ([] & Hv & H).
    apply bind_Done in H as ([] & Hlong & H).
    apply guarantee_Done, Z.ltb_lt in Hlong.
    assert (Hcount : uint_add count 1 = count + 1).
    { unfold uint_add. apply Z.mod_small. lia. }
    rewrite Hcount in Hlong, H.
    apply bind_Done in H as (nxt & Hn & H).
    apply bind_Done in H as ([] & Hlink & H).
    apply bind_Done in H as (i & Hi & H).
    apply index_of_Done in Hi as ->.
    apply bind_Done in H as ([] & Hsorted & H).
    apply guarantee_Done, orb_true_iff in Hsorted.
    destruct Hprev as [n Ha]. apply next_Done in Hn as [p Hn].
    assert (n = nxt) by congruence. subst n. clear p Hn.
    destruct (IH nxt (Some a) (count + 1) (idx h a) r c) as (l & E & Hd & Hr & Hcl & Hlt & Hz & Hdbg);
      [done | lia | | done |].
    { destruct nxt as [b|]; [|done].
      rewrite bool_decide_eq_true_2 in Hlink by done.
      apply bind_Done in Hlink as (q & Hq & Hg).
      apply guarantee_Done, bool_decide_eq_true_1 in Hg. subst q.
      by apply prev_Done in Hq. }
    exists (a :: l). split; [done|]. split; [simpl; by rewrite <- E|].
    split; [by rewrite last_or_cons|].
    split; [simpl List.length; lia|].
    split. { intros _. destruct l as [|b l']; [simpl in Hcl; lia | apply Hlt; done]. }
    split.
    { split; [|done]. destruct Hsorted as [H0|H1]; [left; by apply Z.eqb_eq | right; by apply Z.ltb_lt]. }
    intros HA q Hq. apply elem_of_cons in Hq as [->|Hq]; [|by apply Hdbg].
    by eapply verify_region_Done.
Qed.

Lemma zero_or_above_ascending h : forall l last,
  zero_or_above h last l -> (forall p, p ∈ l -> idx h p ≠ 0) ->
  ascending h l /\ (forall p, p ∈ l -> last < idx h p).
Proof.
  induction l as [|a l IH]; intros last Hz Hnz.
  - split; [constructor|]. intros p Hp. by apply elem_of_nil in Hp.
  - destruct Hz as [Ha Hz].
    assert (Hlast : last < idx h a).
    { destruct Ha as [H0|?]; [|done]. exfalso. apply (Hnz a); [apply list_elem_of_here | done]. }
    destruct (IH (idx h a) Hz) as [Hs Habove].
    { intros p Hp. by apply Hnz, list_elem_of_further. }
    split.
    + constructor; [done|]. apply Forall_forall. intros q Hq. by apply Habove.
    + intros p Hp. apply elem_of_cons in Hp as [->|Hp]; [done|].
      specialize (Habove p Hp). lia.
Qed.

(** X3. A list that passes [verify] is linked as its fields say: there is a
    sequence [l] of regions, linked both ways from [_head] to [_tail] and
    ending in NULL on both sides, with [_length] the number of its regions
    (below [_unrealistically_long_length] unless it is empty); [check_mt_safety]
    passed; in a build with [ASSERT] no verification was running and every
    region names the list as its containing set and is of an accepted type.
    The order established is weaker than ascending: the index of a region is
    above that of the region before it or it is 0.  Where no region but the
    first has index 0 the list is well-formed in the sense of [is_list]. *)
Theorem verify_accepts_only_linked_lists fuel this h t :
  ull < uint_modulus ->
  verify ASSERT ull checks fuel this h = Done t ->
  t = set_verify_in_progress this false /\
  mt_safe checks (self this) = true /\
  (ASSERT = true -> _verify_in_progress this = false) /\
  exists l,
    dlseg h None l None /\ _head this = head l /\ _tail this = last l /\
    _length this = Z.of_nat (List.length l) /\
    (l ≠ [] -> Z.of_nat (List.length l) < ull) /\
    zero_or_above h 0 l /\
    (ASSERT = true ->
     forall p, p ∈ l -> tag h p = Some (self this) /\ region_verifies this p = true) /\
    ((forall p, p ∈ tail l -> idx h p ≠ 0) -> is_list h this l).
Proof.
  intros Hull H. unfold verify in H.
  apply bind_Done in H as ([] & Hsafe & H).
  apply guarantee_Done in Hsafe.
  apply bind_Done in H as (this1 & Hstart & H).
  unfold verify_start in Hstart.
  apply bind_Done in Hstart as ([] & _ & Hstart).
  apply bind_Done in Hstart as ([] & Hvip & Hstart).
  apply bind_Done in Hstart as ([] & _ & Hstart). injection Hstart as <-.
  apply bind_Done in H as ([] & Hlist & H).
  unfold verify_end in H.
  apply bind_Done in H as ([] & _ & H).
  apply bind_Done in H as ([] & _ & H). injection H as <-.
  split; [by destruct this|]. split; [done|].
  split.
  { intros HA. apply (assert_Done _ _ _ HA) in Hvip. by apply negb_true_iff in Hvip. }
  unfold verify_list in Hlist.
  cbn [_head _tail length _length set_verify_in_progress] in Hlist.
  apply bind_Done in Hlist as ([] & Hhead & Hlist).
  apply bind_Done in Hlist as ([r c] & Hloop & Hlist).
  apply bind_Done in Hlist as ([] & Htail & Hlist).
  apply guarantee_Done, bool_decide_eq_true_1 in Htail.
  apply bind_Done in Hlist as ([] & _ & Hlen).
  apply guarantee_Done, Z.eqb_eq in Hlen.
  apply verify_list_loop_Done in Hloop as (l & E & Hd & Hr & Hc & Hlt & Hz & Hdbg);
    [|done|unfold uint_modulus; lia|].
  2: { destruct (_head this) as [a|] eqn:Hh; [|done].
       rewrite bool_decide_eq_false_2 in Hhead by done.
       apply bind_Done in Hhead as (p & Hp & Hg).
       apply guarantee_Done, bool_decide_eq_true_1 in Hg. subst p.
       by apply prev_Done in Hp. }
  rewrite hd_or_head in E. rewrite last_or_last in Hr.
  exists l. split; [done|]. split; [done|]. split; [congruence|].
  split; [lia|]. split; [intros Hne; specialize (Hlt Hne); lia|].
  split; [done|]. split; [exact Hdbg|].
  intros Hnz. split; [done|]. split; [done|]. split; [congruence|]. split; [lia|].
  destruct l as [|a l']; [split; [constructor | intros p Hp; by apply elem_of_nil in Hp]|].
  destruct Hz as [Ha Hz]. simpl in Hnz.
  destruct (zero_or_above_ascending h l' (idx h a) Hz Hnz) as [Hs Habove].
  split.
  - constructor; [done|]. apply Forall_forall. intros q Hq. by apply Habove.
  - intros p Hp. apply elem_of_cons in Hp as [->|Hp]; [lia|].
    specialize (Habove p Hp). lia.
Qed.

(** *** Removing a run of regions *)

(** [linked h this l]: [is_list] without the order of the indices. *)
Definition linked (h : region_store) (this : FreeSemeruRegionList)
    (l : list region_ptr) : Prop :=
  dlseg h None l None /\ _head this = head l /\ _tail this = last l /\
  _length this = Z.of_nat (List.length l).

(** The last-insertion hint once the regions [R] are gone. *)
Definition last_without (R : list region_ptr) (p : option region_ptr)
    : option region_ptr :=
  match p with
  | Some a => if bool_decide (a ∈ R) then None else Some a
  | None => None
  end.

Lemma uint_sub_small a b : 0 <= b <= a -> a < uint_modulus -> uint_sub a b = a - b.
Proof. intros. unfold uint_sub. apply Z.mod_small. lia. Qed.

Lemma dlseg_snoc h pr A p nx :
  dlseg h pr (A ++ [p]) nx <-> dlseg h pr A (Some p) /\ lnk h p = Some (last_or A pr, nx).
Proof. rewrite dlseg_app. simpl. tauto. Qed.

(** One round of the loop of [remove_starting_at]: the region [a], between
    [A] and [C], leaves the list. *)
Lemma remove_starting_at_round fuel h this A a C count num :
  linked h this (A ++ a :: C) -> NoDup (A ++ a :: C) ->
  _length this < uint_modulus ->
  mt_safe checks (self this) = true ->
  (ASSERT = true -> tag h a = Some (self this) /\ region_verifies this a = true) ->
  count < num ->
  exists h' this',
    remove_starting_at_loop ASSERT checks (S fuel) h this (Some a) count num
      = remove_starting_at_loop ASSERT checks fuel h' this' (hd_or C None)
          (uint_add count 1) num /\
    linked h' this' (A ++ C) /\
    self this' = self this /\ _verify_in_progress this' = _verify_in_progress this /\
    _last this' = (if bool_decide (_last this = Some a) then None else _last this) /\
    lnk h' a = Some (None, None) /\ (ASSERT = true -> tag h' a = None) /\
    (forall p, idx h' p = idx h p) /\
    (forall p, p ≠ a -> tag h' p = tag h p) /\
    (forall p, p ∉ A ++ a :: C -> h' !! p = h !! p).
Proof.
  intros (HT & Hhead & Htail & Hlen) Hnd Hu Hsafe Hdbg Hcount.
  apply dlseg_app in HT as [HA HaC]. simpl in HA, HaC. destruct HaC as [Ha HC].
  apply NoDup_app in Hnd as (HndA & HAd & Hnd). apply NoDup_cons in Hnd as [HaC HndC].
  assert (HaA : a ∉ A) by (intros Hx; apply (HAd a Hx), list_elem_of_here).
  assert (HAC : forall q, q ∈ A -> q ∉ C).
  { intros q Hq Hq'. apply (HAd q Hq). by apply list_elem_of_further. }
  (* the side of the region before [a] *)
  assert (H1 : exists h1,
    (match last_or A None with
     | None =>
       _ ← assert_ ASSERT (bool_decide (_head this = Some a)) "remove_starting_at: invariant";
       Done (h, set_head this (hd_or C None))
     | Some _ =>
       _ ← assert_ ASSERT (negb (bool_decide (_head this = Some a)))
             "remove_starting_at: invariant";
       h ← set_next h (last_or A None) (hd_or C None);
       Done (h, this)
     end) = Done (h1, set_head this (head (A ++ C))) /\
    dlseg h1 None A (hd_or C None) /\
    (forall q, q ∉ A -> h1 !! q = h !! q) /\
    (forall q, idx h1 q = idx h q) /\ (forall q, tag h1 q = tag h q)).
  { rewrite last_or_last. destruct (last A) as [p|] eqn:Hlast.
    - apply last_Some in Hlast as [A' ->].
      apply dlseg_snoc in HA as [HA' Hp].
      rewrite assert_true.
      2: { apply negb_true_iff, bool_decide_eq_false_2. rewrite Hhead.
           rewrite <- !hd_or_head, <- app_assoc, hd_or_app. simpl.
           destruct A' as [|x A'']; simpl; intros [= ->]; apply HaA;
             rewrite elem_of_app, elem_of_cons; auto. }
      rewrite Done_bind.
      destruct (set_next_spec h p (hd_or C None) _ _ Hp) as (h1 & E1 & L1 & F1 & I1 & T1).
      rewrite E1, Done_bind. exists h1. split.
      { f_equal. f_equal. symmetry. apply set_head_id. rewrite Hhead.
        rewrite <- !hd_or_head, <- !app_assoc, !hd_or_app. reflexivity. }
      split.
      { apply dlseg_snoc. split; [|done].
        eapply dlseg_frame; [|exact HA']. intros q Hq. unfold lnk. rewrite F1; [done|].
        intros ->. apply NoDup_app in HndA as (_ & Hx & _). apply (Hx p Hq), list_elem_of_here. }
      split; [|done]. intros q Hq. apply F1. intros ->. apply Hq.
      rewrite elem_of_app, elem_of_cons. auto.
    - apply last_None in Hlast as ->.
      rewrite assert_true by (apply bool_decide_eq_true_2; by rewrite Hhead).
      rewrite Done_bind. exists h. split; [by rewrite <- hd_or_head|]. done. }
  destruct H1 as (h1 & E1 & HA1 & F1 & I1 & T1).
  (* the side of the region after [a] *)
  set (this1 := set_head this (head (A ++ C))) in *.
  assert (H2 : exists h2,
    (match hd_or C None with
     | None =>
       _ ← assert_ ASSERT (bool_decide (_tail this1 = Some a)) "remove_starting_at: invariant";
       Done (h1, set_tail this1 (last_or A None))
     | Some _ =>
       _ ← assert_ ASSERT (negb (bool_decide (_tail this1 = Some a)))
             "remove_starting_at: invariant";
       h ← set_prev h1 (hd_or C None) (last_or A None);
       Done (h, this1)
     end) = Done (h2, set_tail this1 (last (A ++ C))) /\
    dlseg h2 (last_or A None) C None /\
    (forall q, q ∉ C -> h2 !! q = h1 !! q) /\
    (forall q, idx h2 q = idx h1 q) /\ (forall q, tag h2 q = tag h1 q)).
  { assert (Htail1 : _tail this1 = last (A ++ a :: C)) by exact Htail.
    destruct C as [|n C'].
    - cbn [hd_or]. rewrite assert_true.
      2: { apply bool_decide_eq_true_2. rewrite Htail1. apply last_snoc. }
      rewrite Done_bind. exists h1. split; [|done].
      by rewrite app_nil_r, last_or_last.
    - simpl in HC. destruct HC as [Hn HC'].
      assert (Hna : n ≠ a) by (intros ->; apply HaC, list_elem_of_here).
      assert (HnA : n ∉ A) by (intros Hx; apply (HAC n Hx), list_elem_of_here).
      cbn [hd_or]. rewrite assert_true.
      2: { apply negb_true_iff, bool_decide_eq_false_2. rewrite Htail1.
           rewrite (last_app_cons A (n :: C') a), last_cons_cons.
           destruct (last (n :: C')) as [t|] eqn:Hl; [|done].
           intros [= ->]. apply HaC. by apply last_Some_elem_of. }
      rewrite Done_bind.
      assert (Hn1 : lnk h1 n = Some (Some a, hd_or C' None)).
      { unfold lnk. by rewrite (F1 n HnA). }
      destruct (set_prev_spec h1 n (last_or A None) _ _ Hn1) as (h2 & E2 & L2 & F2 & I2 & T2).
      rewrite E2, Done_bind. exists h2. split.
      { f_equal. f_equal. unfold this1. symmetry.
        destruct this; simpl in *. f_equal. rewrite Htail.
        by rewrite (last_app_cons A (n :: C') a), last_cons_cons, last_app_cons. }
      split.
      { split; [done|]. eapply dlseg_frame; [|exact HC'].
        intros q Hq. unfold lnk. rewrite F2, F1; [done| |].
        - intros Hx. apply (HAC q Hx). by apply list_elem_of_further.
        - intros ->. apply NoDup_cons in HndC as [Hx _]. done. }
      split; [|done]. intros q Hq. apply F2. intros ->. apply Hq, list_elem_of_here. }
  destruct H2 as (h2 & E2 & HC2 & F2 & I2 & T2).
  set (this2 := set_tail this1 (last (A ++ C))) in *.
  set (this3 := if bool_decide (_last this2 = Some a) then set_last this2 None else this2).
  assert (Ha2 : lnk h2 a = Some (last_or A None, hd_or C None)).
  { unfold lnk. by rewrite (F2 a HaC), (F1 a HaA). }
  destruct (set_next_spec h2 a None _ _ Ha2) as (h3 & E3 & L3 & F3 & I3 & T3).
  destruct (set_prev_spec h3 a None _ _ L3) as (h4 & E4 & L4 & F4 & I4 & T4).
  assert (Hself : self this3 = self this).
  { unfold this3. destruct (bool_decide (_last this2 = Some a)); reflexivity. }
  assert (Hlen3 : _length this3 = _length this).
  { unfold this3. destruct (bool_decide (_last this2 = Some a)); reflexivity. }
  assert (Htag4 : tag h4 a = tag h a) by (by rewrite T4, T3, T2, T1).
  destruct (set_containing_set_clear h4 a) as (h5 & E5 & T5 & L5 & I5 & F5).
  { by eapply lnk_is_Some. }
  { intros HA'. rewrite Htag4, (proj1 (Hdbg HA')). eauto. }
  exists h5, (set_length this3 (_length this - 1)).
  split.
  { cbn [RegionSet.remove_starting_at_loop].
    apply Z.ltb_lt in Hcount. rewrite Hcount.
    rewrite verify_region_ok; [|by eapply lnk_is_Some|done].
    rewrite Done_bind, (next_lnk h a _ _ Ha), Done_bind, (prev_lnk h a _ _ Ha), Done_bind.
    rewrite (assert_true ASSERT true) by done. rewrite Done_bind.
    rewrite E1. cbn beta iota. rewrite Done_bind. cbn beta iota.
    fold this1. rewrite E2. rewrite Done_bind. cbn beta iota.
    fold this2. fold this3.
    rewrite E3, Done_bind, E4, Done_bind.
    unfold remove.
    rewrite check_mt_safety_ok by (by rewrite Hself). rewrite Done_bind.
    rewrite verify_region_ok; [|by eapply lnk_is_Some|].
    2: { intros HA'. destruct (Hdbg HA') as [Ht Hv].
         split; [by rewrite Hself, Htag4 | unfold region_verifies in *; by rewrite Hself]. }
    rewrite Done_bind.
    assert (Hunl : (if ASSERT then
                      n ← next h4 (Some a);
                      _ ← assert_ ASSERT (bool_decide (n = None))
                            "remove: should already be unlinked";
                      p ← prev h4 (Some a);
                      assert_ ASSERT (bool_decide (p = None))
                        "remove: should already be unlinked"
                    else Done tt) = Done tt).
    { destruct (decide (ASSERT = true)) as [HA'|HA'].
      - rewrite HA' at 1. rewrite (next_lnk h4 a _ _ L4), Done_bind.
        rewrite assert_true by done. rewrite Done_bind.
        rewrite (prev_lnk h4 a _ _ L4), Done_bind. by apply assert_true.
      - apply not_true_is_false in HA'. by rewrite HA'. }
    rewrite Hunl, Done_bind, E5, Done_bind. clear Hunl.
    rewrite Hlen3.
    rewrite assert_true.
    2: { apply Z.ltb_lt. rewrite Hlen, length_app. simpl. lia. }
    rewrite Done_bind, uint_sub_small; [reflexivity | | done].
    rewrite Hlen, length_app. simpl. lia. }
  assert (Hframe : forall q, q ∈ A ++ C -> lnk h5 q = lnk h2 q).
  { intros q Hq. assert (q ≠ a).
    { intros ->. apply elem_of_app in Hq as [?|?]; done. }
    rewrite L5. unfold lnk. by rewrite F4, F3. }
  split.
  { split; [|split; [|split]].
    - eapply dlseg_frame; [exact Hframe|]. apply dlseg_app. split; [|done].
      eapply dlseg_frame; [|exact HA1]. intros q Hq. unfold lnk.
      rewrite F2; [done|]. by apply HAC.
    - unfold this3. by destruct (bool_decide (_last this2 = Some a)).
    - unfold this3. by destruct (bool_decide (_last this2 = Some a)).
    - cbn [_length set_length]. rewrite Hlen, !length_app. simpl. lia. }
  split; [exact Hself|].
  split; [unfold this3; by destruct (bool_decide (_last this2 = Some a))|].
  split.
  { cbn [_last set_length]. unfold this3.
    assert (Hl2 : _last this2 = _last this) by reflexivity. rewrite Hl2.
    by destruct (bool_decide (_last this = Some a)). }
  split; [by rewrite L5|]. split; [exact T5|].
  split; [intros p; by rewrite I5, I4, I3, I2, I1|].
  split.
  { intros p Hp. unfold tag at 1. rewrite (F5 p Hp). fold (tag h4 p).
    by rewrite T4, T3, T2, T1. }
  intros p Hp. rewrite elem_of_app, elem_of_cons in Hp.
  assert (p ≠ a) by (intros ->; apply Hp; auto).
  rewrite F5, F4, F3, F2, F1; try done.
  - intros Hx. apply Hp. auto.
  - intros Hx. apply Hp. auto.
Qed.

Lemma last_without_cons a R p :
  last_without R (if bool_decide (p = Some a) then None else p) = last_without (a :: R) p.
Proof.
  destruct p as [b|]; [|by rewrite bool_decide_eq_false_2].
  destruct (decide (b = a)) as [->|Hn].
  - rewrite (bool_decide_eq_true_2 (Some a = Some a)) by done. unfold last_without.
    by rewrite bool_decide_eq_true_2 by apply list_elem_of_here.
  - rewrite (bool_decide_eq_false_2 (Some b = Some a)) by congruence. unfold last_without.
    destruct (decide (b ∈ R)) as [Hb|Hb].
    + rewrite !bool_decide_eq_true_2; [done | by apply list_elem_of_further | done].
    + rewrite !bool_decide_eq_false_2; [done | | done].
      rewrite elem_of_cons. tauto.
Qed.

Lemma remove_starting_at_loop_spec B : forall R fuel h this A count num,
  linked h this (A ++ R ++ B) -> NoDup (A ++ R ++ B) ->
  _length this < uint_modulus ->
  mt_safe checks (self this) = true ->
  (ASSERT = true ->
   forall p, p ∈ R -> tag h p = Some (self this) /\ region_verifies this p = true) ->
  0 <= count -> num = count + Z.of_nat (List.length R) -> num < uint_modulus ->
  (List.length R <= fuel)%nat ->
  exists h' this',
    remove_starting_at_loop ASSERT checks fuel h this (hd_or (R ++ B) None) count num
      = Done (h', this', num) /\
    linked h' this' (A ++ B) /\
    self this' = self this /\ _verify_in_progress this' = _verify_in_progress this /\
    _last this' = last_without R (_last this) /\
    (forall p, p ∈ R -> lnk h' p = Some (None, None) /\ (ASSERT = true -> tag h' p = None)) /\
    (forall p, idx h' p = idx h p) /\
    (forall p, p ∉ R -> tag h' p = tag h p) /\
    (forall p, p ∉ A ++ R ++ B -> h' !! p = h !! p).
Proof.
  induction R as [|a R IH]; intros fuel h this A count num Hl Hnd Hu Hsafe Hdbg Hc Hnum Hn Hfuel.
  - exists h, this. simpl in Hnum. split.
    { destruct fuel; simpl; rewrite (proj2 (Z.ltb_ge count num)) by lia;
        do 2 f_equal; lia. }
    split; [done|]. split; [done|]. split; [done|].
    split; [by destruct (_last this)|].
    split; [intros p Hp; by apply elem_of_nil in Hp|]. done.
  - destruct fuel as [|fuel]; [simpl in Hfuel; lia|].
    simpl List.length in Hnum.
    destruct (remove_starting_at_round fuel h this A a (R ++ B) count num)
      as (h1 & this1 & E1 & Hl1 & Hself1 & Hvip1 & Hlast1 & La & Ta & I1 & T1 & F1);
      [done | done | done | done | | lia |].
    { intros HA. apply (Hdbg HA), list_elem_of_here. }
    assert (HaR : a ∉ A ++ R ++ B).
    { apply NoDup_app in Hnd as (_ & HAd & Hnd). apply NoDup_cons in Hnd as [HaC _].
      intros Hx. apply elem_of_app in Hx as [Hx|Hx]; [|done].
      apply (HAd a Hx), list_elem_of_here. }
    destruct (IH fuel h1 this1 A (count + 1) num)
      as (h' & this' & E & Hl' & Hself & Hvip & Hlast & L & I & T & F).
    { done. }
    { apply NoDup_app in Hnd as (HndA & HAd & Hnd). apply NoDup_cons in Hnd as [_ HndC].
      apply NoDup_app. split; [done|]. split; [|done].
      intros x Hx Hx'. apply (HAd x Hx). by apply list_elem_of_further. }
    { destruct Hl1 as (_ & _ & _ & Hlen1). destruct Hl as (_ & _ & _ & Hlen).
      rewrite Hlen1. rewrite Hlen in Hu. rewrite !length_app in *. simpl in Hu. lia. }
    { by rewrite Hself1. }
    { intros HA p Hp. assert (p ≠ a).
      { intros ->. apply HaR. rewrite elem_of_app. right. rewrite elem_of_app. by left. }
      rewrite T1 by done. unfold region_verifies. rewrite Hself1.
      by apply (Hdbg HA), list_elem_of_further. }
    { lia. }
    { lia. }
    { done. }
    { simpl in Hfuel. lia. }
    exists h', this'. split.
    { change (hd_or ((a :: R) ++ B) None) with (Some a). rewrite E1.
      rewrite uint_add_small by lia. exact E. }
    split; [done|]. split; [congruence|]. split; [congruence|].
    split; [by rewrite Hlast, Hlast1, last_without_cons|].
    split.
    { intros p Hp. apply elem_of_cons in Hp as [->|Hp]; [|by apply L].
      unfold lnk, tag. rewrite (F a HaR). fold (lnk h1 a) (tag h1 a). done. }
    split; [intros p; by rewrite I, I1|].
    split.
    { intros p Hp. apply not_elem_of_cons in Hp as [Hpa HpR]. by rewrite T, T1. }
    intros p Hp. rewrite F, F1; [done|done|].
    intros Hx. apply Hp. rewrite !elem_of_app in *. rewrite elem_of_cons. tauto.
Qed.

(** X4. [remove_starting_at(first, num_regions)] on a well-formed list
    [A ++ R ++ B], where [first] is the first region of the non-empty run [R]
    and [num_regions] its length: with fuel for the length of the list the
    call returns, and the list is then the well-formed list [A ++ B] (so the
    head, the tail and the neighbours' links are right whether the run was
    at the head, at the tail, in the middle or the whole list).  Every
    region of [R] has both links NULL and, in a build with [ASSERT], no
    containing set; the last-insertion hint is reset if it named a region of
    [R] and kept otherwise; no region index changes and no region off the
    list is touched.  The checks made on the way are assumed to pass:
    [check_mt_safety] and, in a build with [ASSERT], what the verification
    asks of the list; it asks no more of the list that is left. *)
Theorem remove_starting_at_unlinks_run h this A R B fuel :
  is_list h this (A ++ R ++ B) -> R ≠ [] ->
  Z.of_nat (List.length (A ++ R ++ B)) < uint_modulus ->
  (List.length (A ++ R ++ B) <= fuel)%nat ->
  mt_safe checks (self this) = true ->
  (ASSERT = true -> debug_ok h this (A ++ R ++ B)) ->
  exists h' this',
    remove_starting_at ASSERT ull checks fuel h this (head R) (Z.of_nat (List.length R))
      = Done (h', this') /\
    is_list h' this' (A ++ B) /\
    (ASSERT = true -> debug_ok h' this' (A ++ B)) /\
    _last this' = last_without R (_last this) /\
    (forall p, p ∈ R -> lnk h' p = Some (None, None) /\ (ASSERT = true -> tag h' p = None)) /\
    (forall p, idx h' p = idx h p) /\
    (forall p, p ∉ A ++ R ++ B -> h' !! p = h !! p).
Proof.
  intros Hl Hne Hu Hfuel Hsafe Hdbg.
  assert (HlenR : 1 <= Z.of_nat (List.length R)) by (destruct R; [done | simpl; lia]).
  assert (Hlens : Z.of_nat (List.length (A ++ R ++ B))
                  = Z.of_nat (List.length (A ++ B)) + Z.of_nat (List.length R)).
  { rewrite !length_app. lia. }
  unfold remove_starting_at.
  rewrite (check_mt_safety_ok this Hsafe), Done_bind.
  rewrite (assert_true ASSERT (1 <=? _)) by (by apply Z.leb_le). rewrite Done_bind.
  destruct Hl as (Hd & Hh & Htl & Hlen & Hs & Hnn).
  rewrite (assert_true ASSERT (negb _)).
  2: { apply negb_true_iff. unfold is_empty. apply Z.eqb_neq. lia. }
  rewrite Done_bind.
  rewrite (verify_optional_ok fuel h this (A ++ R ++ B));
    [|done|intros HA; split; [done | by apply Hdbg]|done|done].
  rewrite Done_bind.
  destruct (remove_starting_at_loop_spec B R fuel h this A 0 (Z.of_nat (List.length R)))
    as (h' & this' & E & Hl' & Hself & Hvip & Hlast & L & I & T & F);
    [done | by eapply ascending_NoDup | lia | done | | lia | lia | lia | |].
  { intros HA p Hp. destruct (Hdbg HA) as (_ & Ht & _ & Hv).
    assert (p ∈ A ++ R ++ B) by (rewrite !elem_of_app; auto).
    split; [by apply Ht | by apply Hv]. }
  { rewrite !length_app in Hfuel. lia. }
  assert (Hhd : head R = hd_or (R ++ B) None) by (destruct R; done).
  rewrite Hhd, E, Done_bind. cbn beta iota.
  rewrite (assert_true ASSERT (Z.of_nat _ =? _)) by (by apply Z.eqb_eq). rewrite Done_bind.
  assert (Hl'' := Hl'). destruct Hl'' as (Hd' & Hh' & Htl' & Hlen').
  rewrite (assert_true ASSERT (uint_add _ _ =? _)).
  2: { apply Z.eqb_eq. unfold length. rewrite Hlen', uint_add_small; lia. }
  rewrite Done_bind.
  assert (His : is_list h' this' (A ++ B)).
  { split; [done|]. split; [done|]. split; [done|]. split; [done|]. split.
    - apply (ascending_ext h h'); [done|]. unfold ascending in *.
      apply StronglySorted_app in Hs as (H1 & H2 & H3).
      apply StronglySorted_app in H3 as (H4 & H5 & H6).
      apply StronglySorted_app. split; [|done].
      intros x y Hx Hy. apply H1; [done|]. rewrite elem_of_app. auto.
    - intros p Hp. rewrite I. apply Hnn. rewrite !elem_of_app in *. tauto. }
  assert (HAB : forall p, p ∈ A ++ B -> p ∈ A ++ R ++ B /\ p ∉ R).
  { intros p Hp. split; [rewrite !elem_of_app in *; tauto|].
    pose proof (ascending_NoDup h _ Hs) as Hnd.
    apply NoDup_app in Hnd as (_ & HAd & Hnd). apply NoDup_app in Hnd as (_ & HRd & _).
    intros HpR. apply elem_of_app in Hp as [Hp|Hp].
    - apply (HAd p Hp). rewrite elem_of_app. auto.
    - by apply (HRd p HpR). }
  assert (Hdbg' : ASSERT = true -> debug_ok h' this' (A ++ B)).
  { intros HA. destruct (Hdbg HA) as (Hvip0 & Ht & Hull & Hv).
    split; [congruence|]. split.
    { intros p Hp. destruct (HAB p Hp) as [Hin Hout]. rewrite T, Hself by done. by apply Ht. }
    split; [lia|].
    intros p Hp. destruct (HAB p Hp) as [Hin Hout].
    unfold region_verifies. rewrite Hself. by apply Hv. }
  rewrite (verify_optional_ok fuel h' this' (A ++ B));
    [|done|intros HA; split; [by rewrite Hself | by apply Hdbg']|lia|].
  2: { rewrite !length_app in *. lia. }
  exists h', this'. done.
Qed.

Lemma assert_passes c site : (ASSERT = true -> c = true) -> assert_ ASSERT c site = Done tt.
Proof.
  intros H. unfold assert_. destruct ASSERT; [|done]. by rewrite (H eq_refl).
Qed.

(** X14. [verify] accepts every well-formed list, in both builds: a list
    linked both ways from [_head] to [_tail], strictly ascending, of the
    length its [_length] field says and (unless empty) shorter than
    [_unrealistically_long_length], whose [check_mt_safety] passes and, in a
    build with [ASSERT], that is not being verified and whose regions name
    it as their containing set and are of an accepted type.  The list comes
    back with [_verify_in_progress] cleared and nothing else changed. *)
Theorem verify_accepts_well_formed_lists fuel h this l :
  is_list h this l ->
  mt_safe checks (self this) = true ->
  (l ≠ [] -> Z.of_nat (List.length l) < ull) ->
  (ASSERT = true ->
   _verify_in_progress this = false /\
   forall p, p ∈ l -> tag h p = Some (self this) /\ region_verifies this p = true) ->
  Z.of_nat (List.length l) < uint_modulus ->
  (List.length l <= fuel)%nat ->
  verify ASSERT ull checks fuel this h = Done (set_verify_in_progress this false).
Proof.
  intros (Hd & Hhead & Htail & Hlen & Hs & Hnn) Hsafe Hull Hdbg Hu Hfuel.
  unfold verify, verify_start, verify_base.
  rewrite !(check_mt_safety_ok this Hsafe), !Done_bind.
  rewrite assert_passes.
  2: { intros HA. destruct (Hdbg HA) as [-> _]. reflexivity. }
  rewrite Done_bind, guarantee_true.
  2: { unfold is_empty, length. destruct (_length this =? 0) eqn:E; simpl.
       - reflexivity.
       - apply Z.ltb_lt. apply Z.eqb_neq in E. lia. }
  rewrite !Done_bind. unfold verify_list.
  cbn [_head _tail set_verify_in_progress length _length].
  assert (Hh : (if bool_decide (_head this = None) then Done tt
               else p ← prev h (_head this);
                    guarantee (bool_decide (p = None))
                      "verify_list: _head should not have a prev") = Done tt).
  { rewrite Hhead. destruct l as [|p l']; simpl; [done|].
    simpl in Hd. destruct Hd as [Hp _]. rewrite (prev_lnk h p _ _ Hp), Done_bind.
    by apply guarantee_true. }
  rewrite Hh, Done_bind. clear Hh.
  rewrite Hhead, <- hd_or_head.
  assert (Hloop : verify_list_loop ASSERT ull checks fuel (set_verify_in_progress this true) h
                    (hd_or l None) None 0 0 = Done (last_or l None, 0 + Z.of_nat (List.length l))).
  { destruct l as [|p l'] eqn:El; [by destruct fuel|]. rewrite <- El in *.
    apply verify_list_loop_ok; try done; try lia.
    - intros HA q Hq. by apply (proj2 (Hdbg HA)).
    - subst l. specialize (Hnn p (list_elem_of_here _ _)). lia.
    - assert (l ≠ []) by (by subst l). specialize (Hull H). lia. }
  rewrite Hloop, Done_bind, last_or_last. cbn beta iota.
  rewrite (guarantee_true (bool_decide _)) by (by apply bool_decide_eq_true_2).
  rewrite Done_bind.
  assert (Ht : (if bool_decide (_tail this = None) then Done tt
               else n ← next h (_tail this);
                    guarantee (bool_decide (n = None))
                      "verify_list: _tail should not have a next") = Done tt).
  { rewrite Htail. destruct (last l) as [t|] eqn:Hl; simpl; [|done].
    apply last_Some in Hl as [l' ->]. apply dlseg_app in Hd as [_ Hd]. simpl in Hd.
    destruct Hd as [Hp _]. rewrite (next_lnk h t _ _ Hp), Done_bind.
    by apply guarantee_true. }
  rewrite Ht, Done_bind. clear Ht.
  rewrite guarantee_true by (apply Z.eqb_eq; lia). rewrite Done_bind.
  unfold verify_end.
  rewrite (check_mt_safety_ok (set_verify_in_progress this true)) by exact Hsafe.
  rewrite Done_bind.
  rewrite assert_passes by done. rewrite Done_bind.
  reflexivity.
Qed.

End Build.

(** *** The ordered-merge scenario: [L = [2;5;9]], [M = [1;7;10]] *)

Definition scenario_region (i : Z) (p n : option region_ptr) (c : set_ptr) : SemeruHeapRegion :=
  mkRegion i n p (Some c).

(** Regions 1, 2, 3 (indices 2, 5, 9) form list 100; regions 4, 5, 6
    (indices 1, 7, 10) form list 200. *)
Definition scenario_store : region_store :=
  list_to_map
    [ (1%positive, scenario_region 2 None (Some 2%positive) 100%positive);
      (2%positive, scenario_region 5 (Some 1%positive) (Some 3%positive) 100%positive);
      (3%positive, scenario_region 9 (Some 2%positive) None 100%positive);
      (4%positive, scenario_region 1 None (Some 5%positive) 200%positive);
      (5%positive, scenario_region 7 (Some 4%positive) (Some 6%positive) 200%positive);
      (6%positive, scenario_region 10 (Some 5%positive) None 200%positive) ].
Definition scenario_L : FreeSemeruRegionList :=
  mkList 100%positive 3 false (Some 1%positive) (Some 3%positive) None.
Definition scenario_M : FreeSemeruRegionList :=
  mkList 200%positive 3 false (Some 4%positive) (Some 6%positive) None.
Definition scenario_empty : FreeSemeruRegionList :=
  mkList 200%positive 0 false None None (Some 6%positive).

(** The region indices met from [p] on, following the next links. *)
Fixpoint indices_from (fuel : nat) (h : region_store) (p : option region_ptr) : list Z :=
  match fuel, p with
  | S fuel', Some a =>
    match h !! a with
    | Some r => hrm_index r :: indices_from fuel' h (_next r)
    | None => []
    end
  | _, _ => []
  end.

Lemma scenario_L_is_list : is_list scenario_store scenario_L [1; 2; 3]%positive.
Proof.
  split; [|split; [|split; [|split; [|split]]]]; try reflexivity.
  - repeat split.
  - repeat constructor.
  - intros p Hp. unfold_mem_in Hp. destruct Hp as [->|[->|[->|[]]]]; by vm_compute.
Qed.

Lemma scenario_M_is_list : is_list scenario_store scenario_M [4; 5; 6]%positive.
Proof.
  split; [|split; [|split; [|split; [|split]]]]; try reflexivity.
  - repeat split.
  - repeat constructor.
  - intros p Hp. unfold_mem_in Hp. destruct Hp as [->|[->|[->|[]]]]; by vm_compute.
Qed.

Lemma scenario_disjoint p q :
  p ∈ [1; 2; 3]%positive -> q ∈ [4; 5; 6]%positive ->
  idx scenario_store p ≠ idx scenario_store q.
Proof.
  intros Hp Hq. unfold_mem_in Hp. unfold_mem_in Hq.
  destruct Hp as [->|[->|[->|[]]]]; destruct Hq as [->|[->|[->|[]]]]; by vm_compute.
Qed.

(** Old regions that hold objects, in sets whose checkers accept them, with
    the locks held. *)
Definition scenario_checks : RegionChecks :=
  mkRegionChecks (fun _ => false) (fun _ _ => true) (fun _ => false) (fun _ => false)
    (fun _ => false) (fun _ => true).

Lemma scenario_debug_ok :
  debug_ok 7 scenario_checks scenario_store scenario_L [1; 2; 3]%positive /\
  debug_ok 7 scenario_checks scenario_store scenario_M [4; 5; 6]%positive /\
  (forall p, p ∈ [4; 5; 6]%positive -> region_verifies scenario_checks scenario_L p = true) /\
  Z.of_nat (3 + 3) < 7.
Proof.
  split; [|split; [|split; [done|done]]].
  - split; [done|]. split; [|done]. intros p Hp. unfold_mem_in Hp.
    destruct Hp as [->|[->|[->|[]]]]; by vm_compute.
  - split; [done|]. split; [|done]. intros p Hp. unfold_mem_in Hp.
    destruct Hp as [->|[->|[->|[]]]]; by vm_compute.
Qed.

(** The scenario run by the embedding, in a debug build: the merged list is
    [1, 2, 5, 7, 9, 10], of length 6, with region 6 (index 10) as tail; the
    from list is empty. *)
Example scenario_merge_runs :
  match add_ordered true 7 scenario_checks 6 scenario_store scenario_L scenario_M with
  | Done (h, this, from_list) =>
    indices_from 7 h (_head this) = [1; 2; 5; 7; 9; 10] /\
    this = mkList 100%positive 6 false (Some 4%positive) (Some 6%positive) None /\
    from_list = mkList 200%positive 0 false None None None
  | _ => False
  end.
Proof. vm_compute. done. Qed.

(** Five units of fuel are not enough for the six regions. *)
Example scenario_merge_needs_six :
  add_ordered false 7 scenario_checks 5 scenario_store scenario_L scenario_M = OutOfFuel.
Proof. vm_compute. reflexivity. Qed.

(** Witness of [add_ordered_merges]: the scenario. *)
Lemma add_ordered_merges_witness :
  exists h' this' from' R,
    add_ordered true 7 scenario_checks (3 + 3) scenario_store scenario_L scenario_M = Done (h', this', from') /\
    is_list scenario_store scenario_L [1; 2; 3]%positive /\
    is_list h' this' R /\ length this' = 6 /\ is_empty from' = true.
Proof.
  destruct (add_ordered_merges true 7 scenario_checks scenario_store scenario_L scenario_M
              [1; 2; 3]%positive [4; 5; 6]%positive
              scenario_L_is_list scenario_M_is_list scenario_disjoint
              ltac:(by vm_compute) eq_refl eq_refl (fun _ => scenario_debug_ok))
    as (h' & this' & from' & R & E & HR & _ & Hlen & _ & _ & _ & He & _).
  exists h', this', from', R. split; [exact E|]. split; [exact scenario_L_is_list|].
  split; [exact HR|]. split; [exact Hlen|exact He].
Defined.

(** Witness of [add_ordered_empty_from_is_noop]: in a debug build, an empty
    from list whose last-insertion hint is still set. *)
Lemma scenario_empty_is_list : is_list scenario_store scenario_empty [].
Proof.
  split; [|split; [|split; [|split; [|split]]]]; try reflexivity.
  - constructor.
  - intros p Hp. by apply elem_of_nil in Hp.
Qed.

Lemma scenario_empty_debug_ok : debug_ok 7 scenario_checks scenario_store scenario_empty [].
Proof.
  split; [done|]. split; [|split; [done|]]; intros p Hp; by apply elem_of_nil in Hp.
Qed.

Lemma add_ordered_empty_from_is_noop_witness :
  is_empty scenario_empty = true /\
  add_ordered true 7 scenario_checks 3 scenario_store scenario_L scenario_empty
    = Done (scenario_store, scenario_L, scenario_empty).
Proof.
  split; [reflexivity|].
  apply (proj2 (add_ordered_empty_from_is_noop true 7 scenario_checks 3 scenario_store
                  scenario_L scenario_empty eq_refl) [1; 2; 3]%positive eq_refl eq_refl).
  intros _. split; [exact scenario_L_is_list|].
  split; [exact (proj1 scenario_debug_ok)|].
  split; [exact scenario_empty_is_list|].
  split; [exact scenario_empty_debug_ok|].
  split; [by vm_compute | simpl; lia].
Defined.


(** *** The scenario lists counted, verified and taken apart *)

(** Witness of [num_of_regions_in_range_counts]: two regions of [L] have an
    index in [[3, 9]]. *)
Lemma num_of_regions_in_range_counts_witness :
  is_list scenario_store scenario_L [1; 2; 3]%positive /\
  num_of_regions_in_range 3 scenario_store scenario_L 3 9 = Done 2.
Proof.
  split; [exact scenario_L_is_list|].
  exact (num_of_regions_in_range_counts scenario_store scenario_L [1; 2; 3]%positive 3 9 3
           scenario_L_is_list ltac:(by vm_compute) ltac:(simpl; lia)).
Defined.

(** A walk that stops early: only index 2 is in [[0, 4]]. *)
Example scenario_range_stops_early :
  num_of_regions_in_range 2 scenario_store scenario_L 0 4 = Done 1.
Proof. vm_compute. reflexivity. Qed.

(** Witness of [remove_all_unlinks_every_region]: [L] emptied in a debug
    build. *)
Lemma remove_all_unlinks_every_region_witness :
  exists h',
    remove_all true 7 scenario_checks 3 scenario_store scenario_L
      = Done (h', clear scenario_L) /\
    lnk h' 2%positive = Some (None, None) /\ tag h' 2%positive = None.
Proof.
  destruct (remove_all_unlinks_every_region true 7 scenario_checks scenario_store scenario_L
              [1; 2; 3]%positive 3 scenario_L_is_list ltac:(by vm_compute) ltac:(simpl; lia)
              eq_refl (fun _ => proj1 scenario_debug_ok))
    as (h' & E & _ & L & _).
  exists h'. split; [exact E|].
  destruct (L 2%positive ltac:(unfold_mem; auto)) as [Hl Ht].
  split; [exact Hl | exact (Ht eq_refl)].
Defined.

(** Witness of [verify_accepts_only_linked_lists]: [L] passes. *)
Lemma verify_accepts_only_linked_lists_witness :
  verify true 7 scenario_checks 3 scenario_L scenario_store = Done scenario_L /\
  exists l, dlseg scenario_store None l None /\ _head scenario_L = head l /\
            _length scenario_L = Z.of_nat (List.length l).
Proof.
  assert (E : verify true 7 scenario_checks 3 scenario_L scenario_store = Done scenario_L)
    by (vm_compute; reflexivity).
  split; [exact E|].
  destruct (verify_accepts_only_linked_lists true 7 scenario_checks 3 scenario_L scenario_store
              scenario_L ltac:(by vm_compute) E)
    as (_ & _ & _ & l & Hd & Hh & _ & Hlen & _).
  exists l. split; [exact Hd|]. split; [exact Hh | exact Hlen].
Defined.

(** Region 0 passes the order check wherever it stands: the list of the
    regions with indices 5 and 0, in this order, is accepted. *)
Definition scenario_zero_store : region_store :=
  list_to_map
    [ (1%positive, scenario_region 5 None (Some 2%positive) 100%positive);
      (2%positive, scenario_region 0 (Some 1%positive) None 100%positive) ].
Definition scenario_zero_list : FreeSemeruRegionList :=
  mkList 100%positive 2 false (Some 1%positive) (Some 2%positive) None.

Example verify_accepts_region_0_out_of_place :
  verify true 7 scenario_checks 2 scenario_zero_list scenario_zero_store
    = Done scenario_zero_list /\
  indices_from 2 scenario_zero_store (_head scenario_zero_list) = [5; 0].
Proof. vm_compute. done. Qed.

(** Witness of [remove_starting_at_unlinks_run]: the middle region of [L]
    removed in a debug build. *)
Lemma remove_starting_at_unlinks_run_witness :
  exists h' this',
    remove_starting_at true 7 scenario_checks 3 scenario_store scenario_L (Some 2%positive) 1
      = Done (h', this') /\
    is_list h' this' [1; 3]%positive /\ lnk h' 2%positive = Some (None, None).
Proof.
  destruct (remove_starting_at_unlinks_run true 7 scenario_checks scenario_store scenario_L
              [1%positive] [2%positive] [3%positive] 3 scenario_L_is_list
              ltac:(done) ltac:(by vm_compute) ltac:(simpl; lia)
              eq_refl (fun _ => proj1 scenario_debug_ok))
    as (h' & this' & E & Hl & _ & _ & L & _).
  exists h', this'. split; [exact E|]. split; [exact Hl|].
  exact (proj1 (L 2%positive ltac:(unfold_mem; auto))).
Defined.

(** The run at the head, at the tail and the whole list. *)
Example scenario_remove_runs :
  match remove_starting_at true 7 scenario_checks 3 scenario_store scenario_L (Some 1%positive) 2,
        remove_starting_at true 7 scenario_checks 3 scenario_store scenario_L (Some 2%positive) 2,
        remove_starting_at true 7 scenario_checks 3 scenario_store scenario_L (Some 1%positive) 3
  with
  | Done (h1, l1), Done (h2, l2), Done (h3, l3) =>
    indices_from 3 h1 (_head l1) = [9] /\ _tail l1 = Some 3%positive /\
    indices_from 3 h2 (_head l2) = [2] /\ _tail l2 = Some 1%positive /\
    l3 = mkList 100%positive 0 false None None None
  | _, _, _ => False
  end.
Proof. vm_compute. done. Qed.

(** Asking for more regions than follow [first] runs off the end of the
    list. *)
Example scenario_remove_too_many :
  remove_starting_at false 7 scenario_checks 4 scenario_store scenario_L (Some 2%positive) 3
    = Crash NullDereference.
Proof. vm_compute. reflexivity. Qed.

(** Witness of [verify_accepts_well_formed_lists], in a build without
    [ASSERT] and during another verification of the list. *)
Lemma verify_accepts_well_formed_lists_witness :
  verify false 7 scenario_checks 3 (set_verify_in_progress scenario_L true) scenario_store
    = Done scenario_L.
Proof.
  apply (verify_accepts_well_formed_lists false 7 scenario_checks 3 scenario_store
           (set_verify_in_progress scenario_L true) [1; 2; 3]%positive).
  - exact scenario_L_is_list.
  - reflexivity.
  - intros _. vm_compute. reflexivity.
  - intros E. discriminate E.
  - vm_compute. reflexivity.
  - simpl. lia.
Defined.


End RegionSetSpec.


(** * Properties of the mark driver *)

Module MarkingSpec.
Import Marking.

(** Running a computation of the embedding written with [≫=]. *)
Lemma run_bind {A B} (m : M A) (k : A -> M B) (s : state) :
  (m ≫= k) s = match m s with
               | Done (a, s') => k a s'
               | Crash e => Crash e
               | OutOfFuel => OutOfFuel
               end.
Proof. reflexivity. Qed.

Lemma run_bind_Done {A B} (m : M A) (k : A -> M B) (s s' : state) (a : A) :
  m s = Done (a, s') -> (m ≫= k) s = k a s'.
Proof. intros E. rewrite run_bind, E. reflexivity. Qed.

Lemma run_ret {A} (a : A) (s : state) : (mret a : M A) s = Done (a, s).
Proof. reflexivity. Qed.

Lemma run_gets {A} (f : state -> A) (s : state) : gets f s = Done (f s, s).
Proof. reflexivity. Qed.

Lemma run_modify (f : state -> state) (s : state) : modify f s = Done (tt, f s).
Proof. reflexivity. Qed.

Lemma bind_inv {A B} (m : M A) (k : A -> M B) (s s' : state) (b : B) :
  (m ≫= k) s = Done (b, s') ->
  exists a s1, m s = Done (a, s1) /\ k a s1 = Done (b, s').
Proof.
  rewrite run_bind. destruct (m s) as [[a s1]| |]; [eauto | discriminate | discriminate].
Qed.

Section Program.

Context `{Setting}.

(** ** The regular clock (C6) *)

(** The task has not aborted: the checks of [regular_clock_call] in their
    order, each reached only when the ones before it let the call go on.
    [s1] is the state with the limits recalculated; the clock is observed at
    [now s], the yield request at [now s + 1], the SATB buffers at
    [now s + 2]. *)
Definition clock_checks_in_order (s : state) : Prop :=
  exists s1, recalculate_limits s = Done (tt, s1) /\
  let t := now s in
  let elapsed_time_ms :=
    PrimFloat.sub (PrimFloat.mul (os_elapsedVTime t) 1000%float) (_start_time_ms (task s)) in
  let timed_out := PrimFloat.ltb (_time_target_ms (task s)) elapsed_time_ms in
  (_has_overflown (cm s) = true -> regular_clock_call s = Done (false, s1)) /\
  (_has_overflown (cm s) = false -> _concurrent (cm s) = false ->
   regular_clock_call s = Done (true, s1)) /\
  (_has_overflown (cm s) = false -> _concurrent (cm s) = true ->
   (cm_has_aborted (cm s) = true -> regular_clock_call s = Done (false, s1)) /\
   (cm_has_aborted (cm s) = false ->
    (sts_should_yield (S t) = true ->
     regular_clock_call s = Done (false, upd_now s1 (S (S t)))) /\
    (sts_should_yield (S t) = false ->
     (timed_out = true ->
      regular_clock_call s
        = Done (false, upd_task (upd_now s1 (S (S t))) (upd_has_timed_out (task s1) true))) /\
     (timed_out = false ->
      (_draining_satb_buffers (task s) = true ->
       regular_clock_call s = Done (true, upd_now s1 (S (S t)))) /\
      (_draining_satb_buffers (task s) = false ->
       regular_clock_call s
         = Done (negb (satb_process_completed_buffers (S (S t))), upd_now s1 (S (S (S t))))))))).

Lemma clock_checks_when_not_aborted (s : state) :
  _has_aborted (task s) = false -> clock_checks_in_order s.
Proof.
  intros Hab. unfold clock_checks_in_order.
  eexists. split; [reflexivity|]. cbv zeta.
  unfold regular_clock_call.
  rewrite (run_bind_Done has_aborted _ s s false) by (unfold has_aborted; by rewrite run_gets, Hab).
  cbn beta iota.
  set (s1 := upd_task _ _).
  assert (Hrec : recalculate_limits s = Done (tt, s1)) by reflexivity.
  rewrite (run_bind_Done recalculate_limits _ s s1 tt Hrec).
  assert (Hov : has_overflown s1 = Done (_has_overflown (cm s), s1)) by reflexivity.
  rewrite (run_bind_Done _ _ _ _ _ Hov).
  split; [by intros ->|].
  split.
  { intros -> Hc. cbn beta iota.
    assert (Hconc : concurrent s1 = Done (false, s1)).
    { unfold concurrent. rewrite run_gets. simpl. by rewrite Hc. }
    by rewrite (run_bind_Done _ _ _ _ _ Hconc). }
  intros -> Hc. cbn beta iota.
  assert (Hconc : concurrent s1 = Done (true, s1)).
  { unfold concurrent. rewrite run_gets. simpl. by rewrite Hc. }
  rewrite (run_bind_Done _ _ _ _ _ Hconc). cbn [negb].
  rewrite (run_bind_Done (gets _) _ s1 s1 (cm_has_aborted (cm s))) by reflexivity.
  split; [by intros ->|].
  intros ->. cbn beta iota.
  rewrite (run_bind_Done (observe os_elapsedVTime) _ s1 (upd_now s1 (S (now s)))
             (os_elapsedVTime (now s))) by reflexivity.
  rewrite (run_bind_Done (observe sts_should_yield) _ _ (upd_now s1 (S (S (now s))))
             (sts_should_yield (S (now s)))) by reflexivity.
  split; [by intros ->|].
  intros ->. cbn beta iota.
  rewrite (run_bind_Done (gets _) _ _ _ (_start_time_ms (task s))) by reflexivity.
  rewrite (run_bind_Done (gets _) _ _ _ (_time_target_ms (task s))) by reflexivity.
  split.
  { intros ->. reflexivity. }
  intros ->.
  rewrite (run_bind_Done (gets _) _ _ _ (_draining_satb_buffers (task s))) by reflexivity.
  split; [by intros ->|].
  intros ->. cbn beta iota.
  rewrite (run_bind_Done (observe satb_process_completed_buffers) _ _
             (upd_now s1 (S (S (S (now s)))))
             (satb_process_completed_buffers (S (S (now s))))) by reflexivity.
  by destruct (satb_process_completed_buffers _).
Qed.

(** C6 (as amended). [regular_clock_call] first tests the task's own
    abort flag: when it is set the call returns false at once, with the
    limits not recalculated and nothing else tested.  When it is not set the
    call recalculates the limits and then tests, in this order: global
    overflow (false); not concurrent (true); global marking aborted (false);
    yield requested (false); elapsed time above the target (false, and
    [_has_timed_out] is set); completed SATB buffers pending while not
    draining them (false); otherwise true. *)
Theorem regular_clock_call_order (s : state) :
  (_has_aborted (task s) = true -> regular_clock_call s = Done (false, s)) /\
  (_has_aborted (task s) = false -> clock_checks_in_order s).
Proof.
  split.
  - intros Hab. unfold regular_clock_call.
    rewrite (run_bind_Done has_aborted _ s s true)
      by (unfold has_aborted; by rewrite run_gets, Hab).
    reflexivity.
  - apply clock_checks_when_not_aborted.
Qed.


(** ** The region-claim cursor (C2, C3) *)

(** The finger after the region [r] is claimed: the bottom of the next
    region of the collection set, or NULL after the last one. *)
Definition next_finger (h : G1SemeruCollectedHeap) (r : HeapRegion) : option HeapWord :=
  match mem_server_cset_next r with
  | None => Some NULL
  | Some n => bottom <$> regions h !! n
  end.

Definition with_finger (s : state) (f : HeapWord) : state :=
  upd_cm s (upd_cm_finger (cm s) f).

Lemma claim_region_from_exhausted old w s :
  cm_finger (cm s) = NULL -> claim_region_from old w s = Done (None, s).
Proof.
  intros Hf. unfold claim_region_from. rewrite run_bind, run_gets, Hf. reflexivity.
Qed.

Lemma assert_M_passes c site s :
  (ASSERT = true -> c = true) -> assert_M c site s = Done (tt, s).
Proof.
  intros Hc. unfold assert_M, assert_. destruct ASSERT; [|reflexivity].
  by rewrite Hc.
Qed.

Lemma assert_M_true c site s : c = true -> assert_M c site s = Done (tt, s).
Proof. intros ->. unfold assert_M, assert_. by rewrite andb_false_r. Qed.

Lemma region_at_Some s rp r :
  regions (heap s) !! rp = Some r -> region_at (Some rp) s = Done (r, s).
Proof. intros E. unfold region_at. by rewrite E. Qed.

Lemma claim_region_from_claims old w s rp r e :
  cm_finger (cm s) ≠ NULL ->
  (ASSERT = true -> is_in_g1_reserved old = true) ->
  heap_region_containing (heap s) old = Some rp ->
  regions (heap s) !! rp = Some r ->
  next_finger (heap s) r = Some e ->
  bottom r <= next_top_at_mark_start r ->
  claim_region_from old w s =
    if cm_finger (cm s) =? old
    then Done (if bottom r <? next_top_at_mark_start r then Some rp else None, with_finger s e)
    else Crash (GuaranteeFailed
                  "claim_region: not possible to reach here in a sequential mode").
Proof.
  intros Hf Hres Hrp Hr He Hle. unfold claim_region_from.
  rewrite run_bind, run_gets. cbn beta iota.
  replace (cm_finger (cm s) =? NULL) with false by (symmetry; by apply Z.eqb_neq).
  cbn [negb].
  rewrite (run_bind_Done (assert_M _ _) _ s s tt) by (by apply assert_M_passes).
  rewrite run_bind, run_gets. cbn beta iota. rewrite Hrp.
  rewrite (run_bind_Done (assert_M _ _) _ s s tt)
    by (apply assert_M_true; by apply bool_decide_eq_true_2).
  rewrite (run_bind_Done _ _ s s r (region_at_Some s rp r Hr)).
  assert (Hend : (match mem_server_cset_next r with
                  | Some n => rn ← region_at (Some n); mret (bottom rn)
                  | None => mret NULL
                  end) s = Done (e, s)).
  { unfold next_finger in He. destruct (mem_server_cset_next r) as [n|].
    - destruct (regions (heap s) !! n) as [rn|] eqn:Hn; [|discriminate].
      injection He as <-. by rewrite (run_bind_Done _ _ s s rn (region_at_Some s n rn Hn)).
    - injection He as <-. reflexivity. }
  rewrite (run_bind_Done _ _ s s e Hend).
  cbv [cmpxchg_finger when_ modify_cm modify gets mbind M_bind mret M_ret guarantee_M guarantee].
  destruct (cm_finger (cm s) =? old) eqn:Hcas; rewrite Hcas; [|reflexivity].
  destruct (bottom r <? next_top_at_mark_start r) eqn:Hlt; [reflexivity|].
  rewrite assert_M_true; [reflexivity|].
  apply Z.eqb_eq. apply Z.ltb_ge in Hlt. lia.
Qed.

(** C2. [claim_region] with an exhausted cursor returns NULL and leaves
    the state (the finger included) as it is; otherwise it moves the finger
    by compare-and-swap to the bottom of the next collection-set region (NULL
    after the last), and returns the claimed region exactly when its NTAMS is
    above its bottom, NULL when NTAMS equals bottom.  A compare-and-swap that
    finds the finger moved since the checkpoint does not return: the
    [guarantee] fails. *)
Theorem claim_region_spec (s : state) (w : nat) :
  (cm_finger (cm s) = NULL -> claim_region w s = Done (None, s)) /\
  (forall rp r e,
     cm_finger (cm s) ≠ NULL ->
     (ASSERT = true -> is_in_g1_reserved (cm_finger (cm s)) = true) ->
     heap_region_containing (heap s) (cm_finger (cm s)) = Some rp ->
     regions (heap s) !! rp = Some r ->
     next_finger (heap s) r = Some e ->
     (bottom r < next_top_at_mark_start r ->
      claim_region w s = Done (Some rp, with_finger s e)) /\
     (bottom r = next_top_at_mark_start r ->
      claim_region w s = Done (None, with_finger s e)) /\
     (forall old rp' r' e',
        old ≠ cm_finger (cm s) ->
        (ASSERT = true -> is_in_g1_reserved old = true) ->
        heap_region_containing (heap s) old = Some rp' ->
        regions (heap s) !! rp' = Some r' ->
        next_finger (heap s) r' = Some e' ->
        bottom r' <= next_top_at_mark_start r' ->
        claim_region_from old w s =
          Crash (GuaranteeFailed
                   "claim_region: not possible to reach here in a sequential mode"))).
Proof.
  split.
  - intros Hf. unfold claim_region. rewrite run_bind, run_gets. cbn beta iota.
    by apply claim_region_from_exhausted.
  - intros rp r e Hf Hres Hrp Hr He.
    assert (Hrun : claim_region w s = claim_region_from (cm_finger (cm s)) w s) by reflexivity.
    split; [|split].
    + intros Hlt. rewrite Hrun, (claim_region_from_claims _ w s rp r e) by (done || lia).
      rewrite Z.eqb_refl. by apply Z.ltb_lt in Hlt as ->.
    + intros Heq. rewrite Hrun, (claim_region_from_claims _ w s rp r e) by (done || lia).
      rewrite Z.eqb_refl. replace (bottom r <? next_top_at_mark_start r) with false; [done|].
      symmetry. apply Z.ltb_ge. lia.
    + intros old rp' r' e' Hold Hres' Hrp' Hr' He' Hle.
      rewrite (claim_region_from_claims old w s rp' r' e') by done.
      replace (cm_finger (cm s) =? old) with false; [done|].
      symmetry. apply Z.eqb_neq. congruence.
Qed.

(** [cset_distance h f n]: from the finger [f], the end of the collection
    set (the NULL finger) is [n] claims away.  The position of a finger on
    the chain is the length of the chain less this distance. *)
Inductive cset_distance (h : G1SemeruCollectedHeap) : HeapWord -> nat -> Prop :=
| cset_end : cset_distance h NULL 0
| cset_next f rp r f' n :
    f ≠ NULL ->
    (ASSERT = true -> is_in_g1_reserved f = true) ->
    heap_region_containing h f = Some rp ->
    regions h !! rp = Some r ->
    next_finger h r = Some f' ->
    cset_distance h f' n ->
    cset_distance h f (S n).

(** A sequence of [claim_region] calls, by the workers [ws] in turn; the
    result lists the finger observed after each call. *)
Fixpoint claim_regions (ws : list nat) : M (list HeapWord) :=
  match ws with
  | [] => mret []
  | w :: ws' =>
    _ ← claim_region w;
    f ← gets (fun s => cm_finger (cm s));
    fs ← claim_regions ws';
    mret (f :: fs)
  end.

(** Each distance is one less than the one before, until the end. *)
Fixpoint steps_down (n : nat) (ds : list nat) : Prop :=
  match ds with
  | [] => True
  | d :: ds' => d = Nat.pred n /\ steps_down d ds'
  end.

Lemma claim_region_advances s w res s' n :
  cset_distance (heap s) (cm_finger (cm s)) n ->
  claim_region w s = Done (res, s') ->
  heap s' = heap s /\ cset_distance (heap s') (cm_finger (cm s')) (Nat.pred n).
Proof.
  intros Hd Hrun. inversion Hd as [Hf|f rp r f' m Hf Hres Hrp Hr He Hd' Heq]; subst.
  - change (claim_region w s) with (claim_region_from (cm_finger (cm s)) w s) in Hrun.
    rewrite claim_region_from_exhausted in Hrun by done.
    injection Hrun as <- <-. split; [done|]. simpl. rewrite <- Hf. constructor.
  - assert (Hrun' : claim_region w s = claim_region_from (cm_finger (cm s)) w s) by reflexivity.
    rewrite Hrun' in Hrun. clear Hrun'.
    unfold claim_region_from in Hrun.
    rewrite run_bind, run_gets in Hrun. cbn beta iota in Hrun.
    replace (cm_finger (cm s) =? NULL) with false in Hrun by (symmetry; by apply Z.eqb_neq).
    cbn [negb] in Hrun.
    rewrite (run_bind_Done (assert_M _ _) _ s s tt) in Hrun by (by apply assert_M_passes).
    rewrite run_bind, run_gets in Hrun. cbn beta iota in Hrun.
    rewrite Hrp in Hrun.
    rewrite (run_bind_Done (assert_M _ _) _ s s tt) in Hrun
      by (apply assert_M_true; by apply bool_decide_eq_true_2).
    rewrite (run_bind_Done _ _ s s r (region_at_Some s rp r Hr)) in Hrun.
    assert (Hend : (match mem_server_cset_next r with
                    | Some n => rn ← region_at (Some n); mret (bottom rn)
                    | None => mret NULL
                    end) s = Done (f', s)).
    { unfold next_finger in He. destruct (mem_server_cset_next r) as [k|].
      - destruct (regions (heap s) !! k) as [rn|] eqn:Hn; [|discriminate].
        injection He as <-. by rewrite (run_bind_Done _ _ s s rn (region_at_Some s k rn Hn)).
      - injection He as <-. reflexivity. }
    rewrite (run_bind_Done _ _ s s f' Hend) in Hrun.
    cbv [cmpxchg_finger when_ modify_cm modify gets mbind M_bind mret M_ret] in Hrun.
    rewrite Z.eqb_refl in Hrun. rewrite Z.eqb_refl in Hrun.
    assert (Hs' : s' = with_finger s f').
    { destruct (bottom r <? next_top_at_mark_start r).
      - by injection Hrun as _ <-.
      - unfold assert_M in Hrun. destruct (assert_ _ _ _); [|discriminate|discriminate].
        by injection Hrun as _ <-. }
    subst s'. split; [reflexivity|]. exact Hd'.
Qed.

(** C3. On a collection-set chain that ends (the finger is [n] claims
    from the end), the fingers observed after each of any sequence of
    [claim_region] calls are at distances [n-1], [n-2], ... from the end and
    stay at the end once it is reached: every claim with a non-NULL finger
    moves the finger one region further along the chain, and the finger never
    moves back.  The heap is not changed. *)
Theorem finger_is_monotone (ws : list nat) : forall (s : state) (n : nat) fs s',
  cset_distance (heap s) (cm_finger (cm s)) n ->
  claim_regions ws s = Done (fs, s') ->
  heap s' = heap s /\
  exists ds, Forall2 (cset_distance (heap s)) fs ds /\ steps_down n ds.
Proof.
  induction ws as [|w ws IH]; intros s n fs s' Hd Hrun.
  - injection Hrun as <- <-. split; [done|]. exists []. split; [constructor | done].
  - cbn [claim_regions] in Hrun.
    apply bind_inv in Hrun as (res & s1 & Hc & Hrun).
    rewrite run_bind, run_gets in Hrun. cbn beta iota in Hrun.
    apply bind_inv in Hrun as (fs' & s2 & Hrest & Hrun).
    injection Hrun as <- <-.
    destruct (claim_region_advances s w res s1 n Hd Hc) as [Hh Hd1].
    destruct (IH s1 (Nat.pred n) fs' s2 Hd1 Hrest) as (Hh2 & ds & Hall & Hsteps).
    split; [congruence|]. exists (Nat.pred n :: ds). rewrite Hh in *.
    split; [by constructor | done].
Qed.


(** ** Moving entries to the global stack (C5, C7) *)

(** The worker's own queue, and the state with that queue replaced. *)
Definition my_queue (s : state) : option (list G1SemeruTaskQueueEntry) :=
  _task_queues (cm s) !! _worker_id (task s).
Definition with_queue (s : state) (q : list G1SemeruTaskQueueEntry) : state :=
  upd_cm s (upd_task_queues (cm s) (<[_worker_id (task s) := q]> (_task_queues (cm s)))).

Lemma my_queue_with_queue s q : my_queue (with_queue s q) = Some q.
Proof. unfold my_queue, with_queue. simpl. apply lookup_insert_eq. Qed.

Lemma with_queue_with_queue s q q' : with_queue (with_queue s q) q' = with_queue s q'.
Proof. unfold with_queue. simpl. by rewrite insert_insert_eq. Qed.

Lemma with_queue_id s q : my_queue s = Some q -> with_queue s q = s.
Proof.
  unfold my_queue, with_queue. intros Hq. rewrite insert_id by done.
  destruct s as [t c h n]. destruct c. reflexivity.
Qed.

Lemma task_queue_pop_local_run s q :
  my_queue s = Some q ->
  task_queue_pop_local s =
    match q with
    | [] => Done (None, s)
    | e :: q' => Done (Some e, with_queue s q')
    end.
Proof.
  unfold my_queue. intros Hq.
  cbv [task_queue_pop_local queue_of set_queue_of modify_cm modify gets mbind M_bind mret M_ret].
  rewrite Hq. by destruct q.
Qed.

Lemma task_queue_push_run s q e :
  my_queue s = Some q ->
  task_queue_push e s =
    if decide (List.length q < max_elems)%nat
    then Done (true, with_queue s (e :: q))
    else Done (false, s).
Proof.
  unfold my_queue. intros Hq.
  cbv [task_queue_push queue_of queue_push set_queue_of modify_cm modify gets
       mbind M_bind mret M_ret].
  rewrite Hq. by destruct (decide _).
Qed.

Lemma task_queue_size_run s q :
  my_queue s = Some q -> task_queue_size s = Done (Z.of_nat (List.length q), s).
Proof.
  unfold my_queue. intros Hq.
  cbv [task_queue_size queue_of gets mbind M_bind mret M_ret]. by rewrite Hq.
Qed.

(** The popping loop takes [min room |q|] entries, in the order popped, into
    the slots from [n] on. *)
Lemma move_entries_pop_run : forall room n pre q s,
  my_queue s = Some q -> List.length pre = n ->
  let k := Nat.min room (List.length q) in
  move_entries_pop room n (pre ++ replicate room null_entry) s =
    Done ((n + k, pre ++ take k q ++ replicate (room - k) null_entry)%nat,
          with_queue s (drop k q)).
Proof.
  induction room as [|room IH]; intros n pre q s Hq Hn k.
  - subst k. simpl. rewrite Nat.add_0_r, with_queue_id by done. reflexivity.
  - cbn [move_entries_pop]. rewrite run_bind, (task_queue_pop_local_run s q Hq).
    destruct q as [|e q'].
    + subst k. simpl. rewrite Nat.add_0_r, with_queue_id by done. reflexivity.
    + cbn beta iota.
      assert (Hbuf : <[n := e]> (pre ++ replicate (S room) null_entry)
                     = (pre ++ [e]) ++ replicate room null_entry).
      { rewrite <- (assoc_L (++)). simpl. subst n.
        rewrite insert_app_r_alt by lia. rewrite Nat.sub_diag. reflexivity. }
      rewrite Hbuf.
      rewrite (IH (S n) (pre ++ [e]) q' (with_queue s q')).
      * subst k. simpl. rewrite with_queue_with_queue, <- (assoc_L (++)). simpl.
        do 2 f_equal. f_equal. lia.
      * apply my_queue_with_queue.
      * rewrite length_app. simpl. lia.
Qed.

(** The batch that [move_entries_to_global_stack] builds from the queue [q]. *)
Definition batch_of (q : list G1SemeruTaskQueueEntry) : list G1SemeruTaskQueueEntry :=
  let n := Nat.min EntriesPerChunk (List.length q) in
  take n q ++ replicate (EntriesPerChunk - n) null_entry.

Lemma batch_of_length q : List.length (batch_of q) = EntriesPerChunk.
Proof.
  unfold batch_of. rewrite length_app, length_take, length_replicate. lia.
Qed.

(** [move_entries_to_global_stack] as a program without the loop. *)
Lemma move_entries_to_global_stack_run s q :
  my_queue s = Some q ->
  let n := Nat.min EntriesPerChunk (List.length q) in
  move_entries_to_global_stack s =
    (_ ← when_ (bool_decide (0 < n)%nat) (
         ok ← mark_stack_push (batch_of q);
         when_ (negb ok) set_has_aborted);
     decrease_limits) (with_queue s (drop n q)).
Proof.
  intros Hq n. unfold move_entries_to_global_stack.
  rewrite run_bind.
  pose proof (move_entries_pop_run EntriesPerChunk 0 [] q s Hq eq_refl) as Hpop.
  cbv zeta in Hpop. simpl app in Hpop. rewrite Hpop. clear Hpop. cbn beta iota.
  fold n. change (0 + n)%nat with n.
  assert (Hbatch : (if decide (n < EntriesPerChunk)%nat
                    then <[n := null_entry]>
                           (take n q ++ replicate (EntriesPerChunk - n) null_entry)
                    else take n q ++ replicate (EntriesPerChunk - n) null_entry)
                   = batch_of q).
  { unfold batch_of. fold n. destruct (decide _) as [Hlt|]; [|done].
    apply list_insert_id. rewrite lookup_app_r by (rewrite length_take; lia).
    rewrite length_take. apply lookup_replicate_2. lia. }
  rewrite Hbatch. reflexivity.
Qed.


Lemma par_push_chunk_chunk_list st arr :
  List.length arr = EntriesPerChunk ->
  match par_push_chunk st arr with
  | (true, st') => exists c, _chunk_list st' = mkChunk c arr :: _chunk_list st
  | (false, st') => _chunk_list st' = _chunk_list st
  end.
Proof.
  intros Hlen. unfold par_push_chunk, remove_chunk_from_free_list, allocate_new_chunk.
  rewrite take_ge by lia.
  destruct (_free_list st) as [|c rest]; simpl.
  - destruct (_chunk_capacity st <=? _hwm st) eqn:E; simpl; [done|].
    rewrite ?E; simpl. by eexists.
  - by eexists.
Qed.

(** What [move_entries_to_global_stack] leaves behind: the queue without
    its [n] most recent entries, the overflow stack after the push of the
    batch (when there was something to move), and the two flags set when
    that push has failed; the heap, the statistics and the task's region
    are as before. *)
Definition same_marking (s s' : state) : Prop :=
  heap s' = heap s /\
  _mark_stats_caches (cm s') = _mark_stats_caches (cm s) /\
  _worker_id (task s') = _worker_id (task s) /\
  _curr_region (task s') = _curr_region (task s) /\
  _alive_bitmap (task s') = _alive_bitmap (task s).

Lemma same_marking_refl s : same_marking s s.
Proof. by repeat split. Qed.

Lemma same_marking_trans s1 s2 s3 :
  same_marking s1 s2 -> same_marking s2 s3 -> same_marking s1 s3.
Proof.
  intros (?&?&?&?&?) (?&?&?&?&?). repeat split; congruence.
Qed.

Lemma same_marking_with_queue s q : same_marking s (with_queue s q).
Proof. by repeat split. Qed.

Lemma move_entries_to_global_stack_effect (s : state) (q : list G1SemeruTaskQueueEntry) :
  my_queue s = Some q ->
  let n := Nat.min EntriesPerChunk (List.length q) in
  let pushed := par_push_chunk (_global_mark_stack (cm s)) (batch_of q) in
  exists s',
    move_entries_to_global_stack s = Done (tt, s') /\
    my_queue s' = Some (drop n q) /\
    same_marking s s' /\
    if bool_decide (0 < n)%nat then
      _global_mark_stack (cm s') = snd pushed /\
      if fst pushed
      then _has_aborted (task s') = _has_aborted (task s) /\
           _has_overflown (cm s') = _has_overflown (cm s)
      else _has_aborted (task s') = true /\ _has_overflown (cm s') = true
    else
      _global_mark_stack (cm s') = _global_mark_stack (cm s) /\
      _has_aborted (task s') = _has_aborted (task s) /\
      _has_overflown (cm s') = _has_overflown (cm s).
Proof.
  intros Hq n pushed.
  rewrite (move_entries_to_global_stack_run s q Hq). fold n.
  destruct (bool_decide (0 < n)%nat);
    cbv [when_ mark_stack_push set_has_overflown set_has_aborted decrease_limits
         modify_task modify_cm modify gets mbind M_bind mret M_ret];
    cbn [cm with_queue upd_cm upd_task_queues _global_mark_stack];
    fold pushed.
  - destruct pushed as [[|] st] eqn:Hpushed; cbn [negb fst snd] in *;
      (eexists; split; [reflexivity|]; cbn;
       split; [unfold my_queue; cbn; apply lookup_insert_eq|];
       split; [by repeat split | done]).
  - eexists. split; [reflexivity|]. cbn.
    split; [unfold my_queue; cbn; apply lookup_insert_eq|].
    split; [by repeat split | done].
Qed.

(** C7. When the worker's deque [q] holds entries,
    [move_entries_to_global_stack] pops the [n = min(EntriesPerChunk, |q|)]
    most recent ones into a batch of [EntriesPerChunk] slots whose other
    slots hold the null entry, and pushes the batch as one chunk onto the
    overflow stack ([par_push_chunk]); when that push fails the global
    overflow flag and the task's abort flag are set. *)
Theorem move_entries_to_global_stack_spec (s : state) (q : list G1SemeruTaskQueueEntry) :
  my_queue s = Some q -> q ≠ [] -> (0 < EntriesPerChunk)%nat ->
  let n := Nat.min EntriesPerChunk (List.length q) in
  let batch := batch_of q in
  let pushed := par_push_chunk (_global_mark_stack (cm s)) batch in
  (0 < n <= EntriesPerChunk)%nat /\
  List.length batch = EntriesPerChunk /\
  take n batch = take n q /\
  drop n batch = replicate (EntriesPerChunk - n) null_entry /\
  exists s',
    move_entries_to_global_stack s = Done (tt, s') /\
    my_queue s' = Some (drop n q) /\
    _global_mark_stack (cm s') = snd pushed /\
    if fst pushed
    then (exists c, _chunk_list (snd pushed)
                    = mkChunk c batch :: _chunk_list (_global_mark_stack (cm s))) /\
         _has_aborted (task s') = _has_aborted (task s) /\
         _has_overflown (cm s') = _has_overflown (cm s)
    else _chunk_list (snd pushed) = _chunk_list (_global_mark_stack (cm s)) /\
         _has_aborted (task s') = true /\
         _has_overflown (cm s') = true.
Proof.
  intros Hq Hne Hepc n batch pushed.
  assert (Hn : (0 < n <= EntriesPerChunk)%nat).
  { subst n. destruct q; [done|]. simpl List.length. lia. }
  assert (Htake : List.length (take n q) = n).
  { rewrite length_take. subst n. lia. }
  split; [exact Hn|]. split; [apply batch_of_length|].
  split.
  { subst batch. unfold batch_of. fold n. rewrite take_app_le by lia.
    apply take_ge. lia. }
  split.
  { subst batch. unfold batch_of. fold n. rewrite drop_app_ge by lia.
    rewrite Htake, Nat.sub_diag. reflexivity. }
  pose proof (par_push_chunk_chunk_list (_global_mark_stack (cm s)) batch
                (batch_of_length q)) as Hchunk.
  destruct (move_entries_to_global_stack_effect s q Hq)
    as (s' & Hrun & Hq' & _ & Heff).
  fold n batch pushed in Hq', Heff, Hchunk.
  rewrite bool_decide_eq_true_2 in Heff by lia.
  destruct Heff as [Hstack Hflags].
  exists s'. split; [exact Hrun|]. split; [exact Hq'|]. split; [exact Hstack|].
  destruct pushed as [[|] st]; cbn [fst snd] in *.
  - destruct Hflags. by repeat split.
  - destruct Hflags. by repeat split.
Qed.

(** The four assertions at the head of [push], which a build with
    assertions makes of the entry. *)
Definition passes_push_assertions (e : G1SemeruTaskQueueEntry) : bool :=
  is_array_slice e
  || (is_in_g1_reserved (obj_of e) && negb (is_on_master_free_list (obj_of e))
      && negb (is_obj_ill (obj_of e)) && next_mark_bitmap_is_marked (obj_of e)).

(** [push] as the push onto the queue and the retry, when the entry passes
    the leading assertions. *)
Lemma push_run e s :
  (ASSERT = true -> passes_push_assertions e = true) ->
  push e s =
    (ok ← task_queue_push e;
     when_ (negb ok) (
       _ ← move_entries_to_global_stack;
       success ← task_queue_push e;
       assert_M success "push: invariant")) s.
Proof.
  intros Hpass. unfold push.
  assert (Hall : ASSERT = true ->
            is_array_slice e = true \/
            (is_in_g1_reserved (obj_of e) = true /\
             is_on_master_free_list (obj_of e) = false /\
             is_obj_ill (obj_of e) = false /\
             next_mark_bitmap_is_marked (obj_of e) = true)).
  { intros HA. specialize (Hpass HA). unfold passes_push_assertions in Hpass.
    apply orb_true_iff in Hpass as [?|Hpass]; [by left|right].
    repeat (apply andb_true_iff in Hpass as [Hpass ?]).
    repeat split; try done; by apply negb_true_iff. }
  rewrite (run_bind_Done (assert_M _ _) _ s s tt);
    [|apply assert_M_passes; intros HA; destruct (Hall HA) as [->|(-> & _)];
      [done | by rewrite orb_true_r]].
  rewrite (run_bind_Done (assert_M _ _) _ s s tt);
    [|apply assert_M_passes; intros HA; destruct (Hall HA) as [->|(_ & -> & _)];
      [done | by rewrite orb_true_r]].
  rewrite (run_bind_Done (assert_M _ _) _ s s tt);
    [|apply assert_M_passes; intros HA; destruct (Hall HA) as [->|(_ & _ & -> & _)];
      [done | by rewrite orb_true_r]].
  rewrite (run_bind_Done (assert_M _ _) _ s s tt);
    [|apply assert_M_passes; intros HA; destruct (Hall HA) as [->|(_ & _ & _ & ->)];
      [done | by rewrite orb_true_r]].
  reflexivity.
Qed.

(** C5. When [push] finds the worker's deque full, it moves entries to
    the global stack and pushes again, and the second push succeeds: [push]
    returns (the assertion on the retried push holds) with the entry on top
    of what the move has left of the deque.  In a build with assertions the
    entry is one that passes the assertions at the head of [push]. *)
Theorem push_retry_succeeds (s : state) (q : list G1SemeruTaskQueueEntry)
    (e : G1SemeruTaskQueueEntry) :
  (0 < max_elems)%nat -> (0 < EntriesPerChunk)%nat ->
  (ASSERT = true -> passes_push_assertions e = true) ->
  my_queue s = Some q -> List.length q = max_elems ->
  task_queue_push e s = Done (false, s) /\
  exists s1 s',
    move_entries_to_global_stack s = Done (tt, s1) /\
    task_queue_push e s1 = Done (true, s') /\
    push e s = Done (tt, s') /\
    my_queue s' = Some (e :: drop (Nat.min EntriesPerChunk (List.length q)) q).
Proof.
  intros Hmax Hepc Hpass Hq Hfull.
  assert (Hne : q ≠ []) by (intros ->; simpl in Hfull; lia).
  assert (Hfirst : task_queue_push e s = Done (false, s)).
  { rewrite (task_queue_push_run s q e Hq). destruct (decide _); [lia | done]. }
  split; [exact Hfirst|].
  destruct (move_entries_to_global_stack_effect s q Hq) as (s1 & Hmove & Hq1 & _).
  set (n := Nat.min EntriesPerChunk (List.length q)) in *.
  assert (Hn : (0 < n)%nat) by (subst n; lia).
  assert (Hsecond : task_queue_push e s1 = Done (true, with_queue s1 (e :: drop n q))).
  { rewrite (task_queue_push_run s1 _ e Hq1). rewrite length_drop.
    destruct (decide _); [done | lia]. }
  exists s1, (with_queue s1 (e :: drop n q)).
  split; [exact Hmove|]. split; [exact Hsecond|]. split.
  - rewrite (push_run e s Hpass).
    rewrite (run_bind_Done _ _ s s false Hfirst). cbn [negb when_].
    rewrite (run_bind_Done _ _ s s1 tt Hmove).
    rewrite (run_bind_Done _ _ s1 _ true Hsecond).
    by apply assert_M_true.
  - apply my_queue_with_queue.
Qed.


(** ** A program logic for the marking step *)

(** [ok C o Q]: the outcome [o] is a result that satisfies [Q], or a failure
    that [C] admits, or a run that the fuel has cut short. *)
Definition ok {A} (C : failure -> Prop) (o : outcome (A * state))
    (Q : A -> state -> Prop) : Prop :=
  match o with
  | Done (a, s') => Q a s'
  | Crash e => C e
  | OutOfFuel => True
  end.

Lemma ok_mono {A} C (o : outcome (A * state)) (Q Q' : A -> state -> Prop) :
  ok C o Q -> (forall a s, Q a s -> Q' a s) -> ok C o Q'.
Proof. destruct o as [[a s]| |]; simpl; auto. Qed.

Lemma ok_bind {A B} C (m : M A) (k : A -> M B) s Q :
  ok C (m s) (fun a s' => ok C (k a s') Q) -> ok C ((m ≫= k) s) Q.
Proof. rewrite run_bind. destruct (m s) as [[a s']| |]; simpl; auto. Qed.

Lemma ok_ret {A} C (a : A) s (Q : A -> state -> Prop) : Q a s -> ok C ((mret a : M A) s) Q.
Proof. auto. Qed.

Lemma ok_gets {A} C (f : state -> A) s (Q : A -> state -> Prop) :
  Q (f s) s -> ok C (gets f s) Q.
Proof. auto. Qed.

Lemma ok_modify C f s (Q : unit -> state -> Prop) : Q tt (f s) -> ok C (modify f s) Q.
Proof. auto. Qed.

(** A state change that keeps an invariant [I], and forgets the rest. *)
Lemma ok_modify_keeps C (I : state -> Prop) f s :
  I (f s) -> ok C (modify f s) (fun _ s' => I s').
Proof. auto. Qed.

Lemma ok_observe_keeps {A} C (I : state -> Prop) (f : nat -> A) s :
  I (upd_now s (S (now s))) -> ok C (observe f s) (fun _ s' => I s').
Proof. auto. Qed.

Lemma ok_observe {A} C (f : nat -> A) s (Q : A -> state -> Prop) :
  Q (f (now s)) (upd_now s (S (now s))) -> ok C (observe f s) Q.
Proof. auto. Qed.

Lemma ok_out_of_fuel {A} C s (Q : A -> state -> Prop) : ok C (out_of_fuel s) Q.
Proof. exact I. Qed.

Lemma ok_crash {A} (C : failure -> Prop) e s (Q : A -> state -> Prop) :
  C e -> ok C (crash e s) Q.
Proof. auto. Qed.

Lemma ok_assert_M (C : failure -> Prop) c site s (Q : unit -> state -> Prop) :
  C (AssertFailed site) -> Q tt s -> ok C (assert_M c site s) Q.
Proof. intros HC HQ. unfold assert_M, assert_. destruct (ASSERT && negb c); simpl; auto. Qed.

Lemma ok_guarantee_M (C : failure -> Prop) c site s (Q : unit -> state -> Prop) :
  C (GuaranteeFailed site) -> Q tt s -> ok C (guarantee_M c site s) Q.
Proof. intros HC HQ. unfold guarantee_M, guarantee. destruct c; simpl; auto. Qed.

Lemma ok_region_at (C : failure -> Prop) p s (Q : HeapRegion -> state -> Prop) :
  C NullDereference -> (forall r, Q r s) -> ok C (region_at p s) Q.
Proof.
  intros HC HQ. unfold region_at. destruct p as [a|]; [|exact HC].
  destruct (regions (heap s) !! a); simpl; auto.
Qed.

Lemma ok_bitmap_at (C : failure -> Prop) p s (Q : gset Z -> state -> Prop) :
  C NullDereference -> (forall b, Q b s) -> ok C (bitmap_at p s) Q.
Proof.
  intros HC HQ. unfold bitmap_at. destruct p as [a|]; [|exact HC].
  destruct (bitmaps (heap s) !! a); simpl; auto.
Qed.

Lemma ok_queue_of (C : failure -> Prop) w s
    (Q : list G1SemeruTaskQueueEntry -> state -> Prop) :
  C NullDereference ->
  (forall q, _task_queues (cm s) !! w = Some q -> Q q s) ->
  ok C (queue_of w s) Q.
Proof.
  intros HC HQ. unfold queue_of. destruct (_task_queues (cm s) !! w) eqn:E; simpl; auto.
Qed.

Lemma ok_task_queue_size (C : failure -> Prop) s (Q : Z -> state -> Prop) :
  C NullDereference ->
  (forall q, my_queue s = Some q -> Q (Z.of_nat (List.length q)) s) ->
  ok C (task_queue_size s) Q.
Proof.
  intros HC HQ. destruct (my_queue s) as [q|] eqn:Hq.
  - rewrite (task_queue_size_run s q Hq). by apply HQ.
  - unfold my_queue in Hq.
    cbv [task_queue_size queue_of gets mbind M_bind mret M_ret]. by rewrite Hq.
Qed.

Lemma ok_task_queue_pop_local (C : failure -> Prop) s
    (Q : option G1SemeruTaskQueueEntry -> state -> Prop) :
  C NullDereference ->
  (forall q, my_queue s = Some q ->
             match q with
             | [] => Q None s
             | e :: q' => Q (Some e) (with_queue s q')
             end) ->
  ok C (task_queue_pop_local s) Q.
Proof.
  intros HC HQ. destruct (my_queue s) as [q|] eqn:Hq.
  - rewrite (task_queue_pop_local_run s q Hq). specialize (HQ q eq_refl).
    by destruct q.
  - unfold my_queue in Hq.
    cbv [task_queue_pop_local queue_of gets mbind M_bind mret M_ret]. by rewrite Hq.
Qed.

(** Every failure but the assertion of [drain_global_stack]. *)
Definition not_the_drain_assertion (e : failure) : Prop :=
  e ≠ AssertFailed "drain_global_stack: invariant".

(** The worker's own queue is drained, or the task has aborted. *)
Definition drained (s : state) : Prop :=
  _has_aborted (task s) = true \/ my_queue s = Some [].

(** Between [s0] and [s] the task is the same worker, no other worker's
    queue has changed and no termination has been offered. *)
Definition others_untouched (s0 s : state) : Prop :=
  _worker_id (task s) = _worker_id (task s0) /\
  (forall w, w ≠ _worker_id (task s0) ->
             _task_queues (cm s) !! w = _task_queues (cm s0) !! w) /\
  _offered_termination (cm s) = _offered_termination (cm s0).

Lemma others_untouched_refl s : others_untouched s s.
Proof. by repeat split. Qed.

Lemma others_untouched_step s0 s s' :
  others_untouched s0 s ->
  _worker_id (task s') = _worker_id (task s) ->
  (forall w, w ≠ _worker_id (task s) ->
             _task_queues (cm s') !! w = _task_queues (cm s) !! w) ->
  _offered_termination (cm s') = _offered_termination (cm s) ->
  others_untouched s0 s'.
Proof.
  intros (Hw & Hq & Ht) Hw' Hq' Ht'. repeat split.
  - congruence.
  - intros w Hne. rewrite Hq' by congruence. by apply Hq.
  - congruence.
Qed.

Ltac solve_untouched :=
  match goal with
  | Hu : others_untouched ?s0 ?s |- others_untouched ?s0 _ =>
    solve [ exact Hu
          | apply (others_untouched_step s0 s _ Hu);
            [ reflexivity
            | cbn; intros; rewrite ?lookup_insert_ne by done; reflexivity
            | reflexivity ] ]
  | |- others_untouched ?s ?s => apply others_untouched_refl
  end.

Ltac solve_side :=
  lazymatch goal with
  | |- not_the_drain_assertion _ => unfold not_the_drain_assertion; discriminate
  | |- True => exact I
  | _ => idtac
  end.

Ltac head_of t :=
  lazymatch t with
  | ?f _ => head_of f
  | _ => t
  end.

(** One step of symbolic execution; [call] runs a function that has a lemma,
    [fin] proves the postcondition at the end. *)
Ltac ok_step call :=
  cbv beta;
  lazymatch goal with
  | |- ok _ (mbind _ _ _) _ => apply ok_bind
  | |- ok _ (mret _ _) _ => apply ok_ret
  | |- ok _ (gets _ _) _ => apply ok_gets
  | |- ok _ (out_of_fuel _) _ => apply ok_out_of_fuel
  | |- ok _ (crash _ _) _ => apply ok_crash; solve_side
  | |- ok _ (assert_M _ _ _) _ => apply ok_assert_M; [solve [solve_side] |]
  | |- ok _ (guarantee_M _ _ _) _ => apply ok_guarantee_M; [solve [solve_side] |]
  | |- ok _ (region_at _ _) _ => apply ok_region_at; [solve [solve_side] | intros ?]
  | |- ok _ (bitmap_at _ _) _ => apply ok_bitmap_at; [solve [solve_side] | intros ?]
  | |- ok _ (queue_of _ _) _ => apply ok_queue_of; [solve [solve_side] | intros ? ?]
  | |- ok _ ((if ?b then _ else _) _) _ => destruct b eqn:?
  | |- ok _ ((match ?x with _ => _ end) _) _ => destruct x eqn:?
  | |- ok _ ?o _ =>
    first [ call
          | apply ok_modify
          | apply ok_observe
          | let h := head_of o in unfold h ]
  end.

Ltac ok_run call fin :=
  repeat ok_step call;
  cbv beta;
  lazymatch goal with
  | |- ok _ _ _ => idtac
  | _ => fin
  end.

(** A call of a function for which the context or the hint database holds
    a lemma that keeps [others_untouched]. *)
Create HintDb semeru_frame.

Ltac call_untouched :=
  eapply ok_mono;
  [ solve [ eauto 2 with semeru_frame ]
  | cbv beta; intros ? ? ? ].

#[local] Hint Extern 1 (others_untouched _ _) => solve_untouched : semeru_frame.

Ltac frame_run := ok_run call_untouched ltac:(try solve_untouched).

(** *** The functions of the step keep [others_untouched] and do not fail
    the assertion of [drain_global_stack] *)

(** Once the task has aborted, the rest of the step leaves the flag set. *)
Definition aborted (s : state) : Prop := _has_aborted (task s) = true.

Ltac call_aborted :=
  eapply ok_mono;
  [ first [ apply ok_modify_keeps with (I := aborted)
          | apply ok_observe_keeps with (I := aborted) ];
    unfold aborted in *; cbn; assumption
  | cbv beta; intros ? ? ? ].

Lemma expand_ok st :
  match expand st with
  | Crash e => not_the_drain_assertion e
  | _ => True
  end.
Proof.
  unfold expand, resize, assert_. destruct (_ =? _); [done|].
  destruct (ASSERT && negb (mark_stack_is_empty st)); simpl; [discriminate|].
  destruct (ASSERT && negb _); simpl; [discriminate|].
  by destruct (mmap_allocate_ok _).
Qed.

Lemma expand_stays_aborted s :
  aborted s ->
  ok not_the_drain_assertion (on_global_mark_stack expand s) (fun _ s' => aborted s').
Proof.
  intros Hs. unfold on_global_mark_stack.
  pose proof (expand_ok (_global_mark_stack (cm s))) as He.
  by destruct (expand _).
Qed.

Lemma set_queues_empty_stays_aborted n : forall s,
  aborted s ->
  ok not_the_drain_assertion (set_queues_empty n s) (fun _ s' => aborted s').
Proof.
  induction n as [|n IH]; intros s Hs; cbn [set_queues_empty].
  - by apply ok_ret.
  - apply ok_bind. eapply ok_mono; [by apply IH|]. cbv beta. intros _ s1 Hs1.
    apply ok_bind, ok_queue_of; [discriminate|]. intros q _.
    by apply ok_modify.
Qed.

Ltac call_aborted' :=
  first [ eapply ok_mono;
          [ first [ apply expand_stays_aborted | apply set_queues_empty_stays_aborted ];
            assumption
          | cbv beta; intros ? ? ? ]
        | call_aborted ].

Lemma marking_step_aborted_stays_aborted is_serial elapsed s :
  aborted s ->
  ok not_the_drain_assertion (marking_step_aborted is_serial elapsed s)
     (fun _ s' => aborted s').
Proof. intros Hs. ok_run call_aborted' ltac:(try assumption). Qed.

Section Frame.

Variable s0 : state.

Abbreviation keeps m :=
  (forall s, others_untouched s0 s ->
             ok not_the_drain_assertion (m s) (fun _ s' => others_untouched s0 s')).

Lemma modify_frame f : forall s,
  others_untouched s0 (f s) ->
  ok not_the_drain_assertion (modify f s) (fun _ s' => others_untouched s0 s').
Proof. intros s. apply ok_modify_keeps. Qed.
#[local] Hint Resolve modify_frame : semeru_frame.

Lemma observe_frame {A} (f : nat -> A) : keeps (observe f).
Proof. intros s Hs. apply ok_observe_keeps. solve_untouched. Qed.
#[local] Hint Resolve observe_frame : semeru_frame.

Lemma move_entries_pop_frame room : forall n buffer, keeps (move_entries_pop room n buffer).
Proof.
  induction room as [|room IH]; intros n buffer s Hs; cbn [move_entries_pop]; frame_run.
Qed.
#[local] Hint Resolve move_entries_pop_frame : semeru_frame.

Lemma push_frame e : keeps (push e).
Proof. intros s Hs. frame_run. Qed.
#[local] Hint Resolve push_frame : semeru_frame.

Lemma get_entries_push_frame buffer : keeps (get_entries_push buffer).
Proof.
  induction buffer as [|e rest IH]; intros s Hs; cbn [get_entries_push]; frame_run.
Qed.
#[local] Hint Resolve get_entries_push_frame : semeru_frame.

Lemma get_entries_from_global_stack_frame : keeps get_entries_from_global_stack.
Proof. intros s Hs. frame_run. Qed.
#[local] Hint Resolve get_entries_from_global_stack_frame : semeru_frame.

Lemma mark_in_alive_bitmap_frame w obj : keeps (mark_in_alive_bitmap w obj).
Proof. intros s Hs. frame_run. Qed.
#[local] Hint Resolve mark_in_alive_bitmap_frame : semeru_frame.

Lemma deal_with_reference_frame p : keeps (deal_with_reference p).
Proof. intros s Hs. frame_run. Qed.
#[local] Hint Resolve deal_with_reference_frame : semeru_frame.

Lemma oop_iterate_frame fields : keeps (oop_iterate fields).
Proof.
  induction fields as [|p rest IH]; intros s Hs; cbn [oop_iterate]; frame_run.
Qed.
#[local] Hint Resolve oop_iterate_frame : semeru_frame.

Lemma scan_task_entry_frame e : keeps (scan_task_entry e).
Proof. intros s Hs. frame_run. Qed.
#[local] Hint Resolve scan_task_entry_frame : semeru_frame.

Lemma regular_clock_call_frame : keeps regular_clock_call.
Proof. intros s Hs. frame_run. Qed.
#[local] Hint Resolve regular_clock_call_frame : semeru_frame.

Lemma abort_marking_if_regular_check_fail_frame : keeps abort_marking_if_regular_check_fail.
Proof. intros s Hs. frame_run. Qed.
#[local] Hint Resolve abort_marking_if_regular_check_fail_frame : semeru_frame.

(** [drain_local_queue(false)] leaves the queue drained. *)
Lemma drain_local_loop_frame fuel : forall target ret s,
  others_untouched s0 s ->
  (ret = None -> my_queue s = Some []) ->
  ok not_the_drain_assertion (drain_local_loop fuel target ret s)
     (fun _ s' => others_untouched s0 s' /\ (target = 0 -> drained s')).
Proof.
  induction fuel as [|fuel IH]; intros target ret s Hs Hret;
    destruct ret as [e|]; cbn [drain_local_loop];
    try (apply ok_ret; split; [done | intros _; right; by apply Hret]).
  - apply ok_out_of_fuel.
  - apply ok_bind. eapply ok_mono; [by apply scan_task_entry_frame|].
    cbv beta. intros _ s1 Hs1.
    apply ok_bind, ok_task_queue_size; [discriminate|]. intros q Hq.
    unfold has_aborted. apply ok_bind, ok_gets.
    destruct ((Z.of_nat (List.length q) <=? target) || _has_aborted (task s1)) eqn:Hstop.
    + apply ok_ret. split; [done|]. intros ->.
      apply orb_true_iff in Hstop as [Hsz|Hab]; [right | by left].
      apply Z.leb_le in Hsz. destruct q; [done | simpl in Hsz; lia].
    + apply ok_bind, ok_task_queue_pop_local; [discriminate|]. intros q' Hq'.
      destruct q' as [|e' q']; (apply IH; [solve_untouched | done]).
Qed.

Lemma drain_local_queue_frame fuel partially s :
  others_untouched s0 s ->
  ok not_the_drain_assertion (drain_local_queue fuel partially s)
     (fun _ s' => others_untouched s0 s' /\ (partially = false -> drained s')).
Proof.
  intros Hs. unfold drain_local_queue, has_aborted.
  apply ok_bind, ok_gets. destruct (_has_aborted (task s)) eqn:Hab.
  { apply ok_ret. split; [done | by left]. }
  apply ok_bind, ok_task_queue_size; [discriminate|]. intros q Hq.
  unfold when_. destruct (_ <? _) eqn:Hsz.
  - apply ok_bind, ok_task_queue_pop_local; [discriminate|]. intros q' Hq'.
    destruct q' as [|e' q'];
      (eapply ok_mono;
       [ apply drain_local_loop_frame; [solve_untouched | done]
       | cbv beta; intros _ s' [Hs' Hd]; split; [done|]; intros ->; by apply Hd ]).
  - apply ok_ret. split; [done|]. intros ->. right.
    apply Z.ltb_ge in Hsz. destruct q; [done | simpl in Hsz; lia].
Qed.

Lemma drain_local_queue_keeps fuel partially : keeps (drain_local_queue fuel partially).
Proof.
  intros s Hs. eapply ok_mono; [by apply drain_local_queue_frame|].
  by intros _ s' [Hs' _].
Qed.
#[local] Hint Resolve drain_local_queue_keeps : semeru_frame.

Lemma drain_global_partial_loop_frame fuel :
  forall target, keeps (drain_global_partial_loop fuel target).
Proof.
  induction fuel as [|fuel IH]; intros target s Hs; cbn [drain_global_partial_loop];
    frame_run.
Qed.
#[local] Hint Resolve drain_global_partial_loop_frame : semeru_frame.

Lemma drain_global_total_loop_frame fuel : keeps (drain_global_total_loop fuel).
Proof.
  induction fuel as [|fuel IH]; intros s Hs; cbn [drain_global_total_loop]; frame_run.
Qed.
#[local] Hint Resolve drain_global_total_loop_frame : semeru_frame.

(** The assertion of [drain_global_stack] holds when the drain is partial
    or the queue is drained. *)
Lemma drain_global_stack_frame fuel partially s :
  others_untouched s0 s -> (partially = false -> drained s) ->
  ok not_the_drain_assertion (drain_global_stack fuel partially s)
     (fun _ s' => others_untouched s0 s').
Proof.
  intros Hs Hd. unfold drain_global_stack, has_aborted.
  apply ok_bind, ok_gets. destruct (_has_aborted (task s)) eqn:Hab.
  { by apply ok_ret. }
  apply ok_bind. unfold assert_eval. destruct ASSERT eqn:HA.
  - destruct partially.
    + apply ok_bind, ok_ret. unfold assert_M, assert_. rewrite andb_false_r. simpl.
      frame_run.
    + destruct (Hd eq_refl) as [Hab'|Hq]; [congruence|].
      apply ok_bind, ok_bind. rewrite (task_queue_size_run s [] Hq). simpl.
      unfold assert_M, assert_. rewrite andb_false_r. simpl. frame_run.
  - apply ok_ret. frame_run.
Qed.

Lemma drain_global_stack_partial_keeps fuel : keeps (drain_global_stack fuel true).
Proof. intros s Hs. by apply drain_global_stack_frame. Qed.
#[local] Hint Resolve drain_global_stack_partial_keeps : semeru_frame.

Lemma semeru_cm_task_do_addr_frame fuel addr : keeps (semeru_cm_task_do_addr fuel addr).
Proof. intros s Hs. frame_run. Qed.
#[local] Hint Resolve semeru_cm_task_do_addr_frame : semeru_frame.

Lemma trim_overflow_loop_frame fuel : forall q, keeps (trim_overflow_loop fuel q).
Proof.
  induction fuel as [|fuel IH]; intros q s Hs; cbn [trim_overflow_loop]; frame_run.
Qed.
#[local] Hint Resolve trim_overflow_loop_frame : semeru_frame.

Lemma trim_local_loop_frame fuel : forall q threshold, keeps (trim_local_loop fuel q threshold).
Proof.
  induction fuel as [|fuel IH]; intros q threshold s Hs; cbn [trim_local_loop]; frame_run.
Qed.
#[local] Hint Resolve trim_local_loop_frame : semeru_frame.

Lemma trim_target_object_queue_frame fuel : forall q, keeps (trim_target_object_queue fuel q).
Proof.
  induction fuel as [|fuel IH]; intros q s Hs; cbn [trim_target_object_queue]; frame_run.
Qed.
#[local] Hint Resolve trim_target_object_queue_frame : semeru_frame.

Lemma claim_region_frame w : keeps (claim_region w).
Proof. intros s Hs. frame_run. Qed.
#[local] Hint Resolve claim_region_frame : semeru_frame.

Lemma claim_loop_frame fuel : keeps (claim_loop fuel).
Proof.
  induction fuel as [|fuel IH]; intros s Hs; cbn [claim_loop]; frame_run.
Qed.
#[local] Hint Resolve claim_loop_frame : semeru_frame.

Lemma scan_humongous_region_frame fuel r : keeps (scan_humongous_region fuel r).
Proof. intros s Hs. frame_run. Qed.
#[local] Hint Resolve scan_humongous_region_frame : semeru_frame.

Lemma marking_loop_frame fuel : keeps (marking_loop fuel).
Proof.
  induction fuel as [|fuel IH]; intros s Hs; cbn [marking_loop]; frame_run.
Qed.
#[local] Hint Resolve marking_loop_frame : semeru_frame.


(** The step as a whole: it does not fail the assertion of
    [drain_global_stack], and when it ends with the task not aborted it has
    left the other workers alone. *)
Lemma do_semeru_marking_step_from fuel time_target_ms do_termination is_serial s :
  others_untouched s0 s ->
  ok not_the_drain_assertion
     (do_semeru_marking_step fuel time_target_ms do_termination is_serial s)
     (fun _ s' => _has_aborted (task s') = false -> others_untouched s0 s').
Proof.
  intros Hs. unfold do_semeru_marking_step.
  repeat (cbv beta;
          lazymatch goal with
          | |- ok _ (mbind _ (drain_local_queue _ false) _) _ => fail
          | _ => ok_step call_untouched
          end).
  all: cbv beta;
    try lazymatch goal with
        | |- ok _ _ _ => fail
        | _ => intros _; solve_untouched
        end.
  all: apply ok_bind;
    (eapply ok_mono; [apply drain_local_queue_frame; solve_untouched|]);
    cbv beta; intros _ sl [Hsl Hd];
    apply ok_bind;
    (eapply ok_mono; [by apply drain_global_stack_frame|]);
    cbv beta; intros _ sg Hsg.
  all: repeat (cbv beta;
               lazymatch goal with
               | |- ok _ ((if _ then marking_step_aborted _ _ else _) _) _ => fail
               | _ => ok_step call_untouched
               end).
  all: lazymatch goal with
    | |- ok _ ((if ?b then _ else _) _) _ => destruct b eqn:Hab
    end.
  all: try (apply ok_ret; intros _; solve_untouched).
  all: eapply ok_mono; [by apply marking_step_aborted_stays_aborted|];
    cbv beta; unfold aborted; intros _ sa Hsa; congruence.
Qed.

End Frame.

Lemma do_semeru_marking_step_frame fuel time_target_ms do_termination is_serial s :
  ok not_the_drain_assertion
     (do_semeru_marking_step fuel time_target_ms do_termination is_serial s)
     (fun _ s' => _has_aborted (task s') = false -> others_untouched s s').
Proof. apply do_semeru_marking_step_from, others_untouched_refl. Qed.


(** ** Marking and liveness: each object is counted once (C1) *)

(** The marks of bitmap [bp] and the live words that worker [w] has counted
    for region [k]. *)
Definition marks (s : state) (bp : bitmap_ptr) : gset Z :=
  default ∅ (bitmaps (heap s) !! bp).
Definition live_words (s : state) (w : nat) (k : region_ptr) : Z :=
  default 0 (_mark_stats_caches (cm s) !! (w, k)).

(** The task holds the region [r] (at [rp]) and marks in its alive bitmap
    [bp]; the region is not the continuation of a humongous object. *)
Definition marking_in (s : state) (rp : region_ptr) (r : HeapRegion) (bp : bitmap_ptr) : Prop :=
  _curr_region (task s) = Some rp /\
  regions (heap s) !! rp = Some r /\
  _alive_bitmap (task s) = Some bp /\
  alive_bitmap r = Some bp /\
  is_Some (bitmaps (heap s) !! bp) /\
  is_continues_humongous r = false.

(** The state after [obj] is marked in [bp] and counted for worker [w]. *)
Definition marked_and_counted (s : state) (bp : bitmap_ptr) (w : nat) (obj : oop) : state :=
  let s1 := upd_heap s (set_bitmaps (heap s) (<[bp := {[obj]} ∪ marks s bp]> (bitmaps (heap s)))) in
  let k := addr_to_region (heap s) obj in
  upd_cm s1 (upd_mark_stats_caches (cm s1)
               (<[(w, k) := size_t_add (live_words s w k) (obj_size obj)]>
                  (_mark_stats_caches (cm s1)))).

Lemma bitmap_at_Some s bp B :
  bitmaps (heap s) !! bp = Some B -> bitmap_at (Some bp) s = Done (B, s).
Proof. intros E. unfold bitmap_at. by rewrite E. Qed.

(** What one call of [mark_in_alive_bitmap] does. *)
Lemma mark_in_alive_bitmap_run s w obj rp r bp :
  marking_in s rp r bp -> is_in_reserved r obj = true ->
  mark_in_alive_bitmap w obj s =
    if next_top_at_mark_start r <=? obj then Done (false, s)
    else if bool_decide (obj ∈ marks s bp) then Done (false, s)
    else Done (true, marked_and_counted s bp w obj).
Proof.
  intros (Hcr & Hr & Hab & Hrb & [B HB] & Hch) Hin.
  unfold mark_in_alive_bitmap.
  rewrite run_bind, run_gets. cbn beta iota. rewrite Hcr.
  rewrite (run_bind_Done _ _ s s tt) by (by apply assert_M_true).
  rewrite (run_bind_Done _ _ s s r (region_at_Some s rp r Hr)).
  rewrite (run_bind_Done _ _ s s tt) by (by apply assert_M_true).
  unfold obj_allocated_since_next_marking.
  destruct (next_top_at_mark_start r <=? obj); [reflexivity|].
  rewrite (run_bind_Done _ _ s s tt) by (apply assert_M_true; by rewrite Hch).
  rewrite run_bind, run_gets. cbn beta iota. rewrite Hab.
  rewrite (run_bind_Done _ _ s s tt)
    by (apply assert_M_true; by apply bool_decide_eq_true_2).
  unfold par_mark. rewrite !run_bind, (bitmap_at_Some s bp B HB). cbn beta iota.
  unfold marked_and_counted, marks, live_words. rewrite HB.
  cbv [default from_option id].
  destruct (bool_decide (obj ∈ B)); reflexivity.
Qed.

(** [push] returns, and changes neither the heap nor the statistics. *)
Lemma push_effect (s : state) (q : list G1SemeruTaskQueueEntry) (e : G1SemeruTaskQueueEntry) :
  (0 < max_elems)%nat -> (0 < EntriesPerChunk)%nat ->
  (ASSERT = true -> passes_push_assertions e = true) ->
  my_queue s = Some q -> (List.length q <= max_elems)%nat ->
  exists s' q',
    push e s = Done (tt, s') /\ same_marking s s' /\
    my_queue s' = Some q' /\ (List.length q' <= max_elems)%nat.
Proof.
  intros Hmax Hepc Hpass Hq Hlen. rewrite (push_run e s Hpass).
  rewrite run_bind, (task_queue_push_run s q e Hq).
  destruct (decide (List.length q < max_elems)%nat) as [Hroom|Hfull]; cbn [negb when_].
  - exists (with_queue s (e :: q)), (e :: q).
    split; [reflexivity|]. split; [apply same_marking_with_queue|].
    split; [apply my_queue_with_queue | simpl; lia].
  - destruct (move_entries_to_global_stack_effect s q Hq) as (s1 & Hmove & Hq1 & Hsame & _).
    set (n := Nat.min EntriesPerChunk (List.length q)) in *.
    assert (Hsecond : task_queue_push e s1 = Done (true, with_queue s1 (e :: drop n q))).
    { rewrite (task_queue_push_run s1 _ e Hq1). rewrite length_drop.
      destruct (decide _); [done | lia]. }
    exists (with_queue s1 (e :: drop n q)), (e :: drop n q).
    split.
    { rewrite (run_bind_Done _ _ s s1 tt Hmove).
      rewrite (run_bind_Done _ _ s1 _ true Hsecond).
      by apply assert_M_true. }
    split; [eapply same_marking_trans; [exact Hsame | apply same_marking_with_queue]|].
    split; [apply my_queue_with_queue|].
    simpl. rewrite length_drop. lia.
Qed.

(** The words of the objects of [X] that lie in region [k]. *)
Definition words_of (h : G1SemeruCollectedHeap) (k : region_ptr) (X : gset Z) : Z :=
  set_fold (fun a acc => if decide (addr_to_region h a = k) then acc + obj_size a else acc)
    0 X.

Lemma words_of_empty h k : words_of h k ∅ = 0.
Proof. unfold words_of. apply set_fold_empty. Qed.

Lemma words_of_insert h k a X :
  a ∉ X ->
  words_of h k ({[a]} ∪ X) =
    words_of h k X + (if decide (addr_to_region h a = k) then obj_size a else 0).
Proof.
  intros Ha. unfold words_of.
  set (f := fun a acc => if decide (addr_to_region h a = k) then acc + obj_size a else acc).
  set (g := fun acc => acc + (if decide (addr_to_region h a = k) then obj_size a else 0)).
  assert (Hcomm : forall x y acc, f x (f y acc) = f y (f x acc)).
  { intros x y acc. unfold f. repeat destruct (decide _); lia. }
  rewrite (set_fold_disj_union_strong (=) f 0 {[a]} X);
    [ | solve_proper | intros x y acc _ _ _; apply Hcomm | set_solver ].
  rewrite set_fold_singleton.
  assert (Hg : f a 0 = g 0) by (unfold f, g; destruct (decide _); lia).
  rewrite Hg. apply (set_fold_comm_acc f g 0 X).
  intros x acc. unfold f, g. repeat destruct (decide _); lia.
Qed.

(** The state of a task that scans the region [r]: it holds the region and
    its alive bitmap, its own queue exists and is within its capacity, and
    the worker's counters are [size_t] values.  In a build with assertions
    the objects of the region below NTAMS are such as pass the assertions
    that [push] and [process_grey_task_entry] make of them. *)
Record scanning (s : state) (rp : region_ptr) (r : HeapRegion) (bp : bitmap_ptr) : Prop := {
  scanning_region : marking_in s rp r bp;
  scanning_queue : exists q, my_queue s = Some q /\ (List.length q <= max_elems)%nat;
  scanning_counters :
    forall k, 0 <= live_words s (_worker_id (task s)) k < size_t_modulus;
  scanning_assertions :
    ASSERT = true ->
    forall obj, is_in_reserved r obj = true -> obj < next_top_at_mark_start r ->
                passes_push_assertions (oop_entry obj) = true
}.

(** What one reference does to the marks and to the counters: [fresh] tells
    whether the referent [obj] had to be marked. *)
Record reference_effect (s s' : state) (bp : bitmap_ptr) (obj : oop) (fresh : bool) : Prop := {
  effect_worker : _worker_id (task s') = _worker_id (task s);
  effect_regions : forall a, addr_to_region (heap s') a = addr_to_region (heap s) a;
  effect_marks : marks s' bp = if fresh then {[obj]} ∪ marks s bp else marks s bp;
  effect_counted :
    forall w k,
      live_words s' w k =
        if fresh && bool_decide (w = _worker_id (task s) /\ k = addr_to_region (heap s) obj)
        then size_t_add (live_words s w k) (obj_size obj)
        else live_words s w k
}.

Lemma reference_effect_none s bp obj : reference_effect s s bp obj false.
Proof. by split. Qed.

Lemma marked_and_counted_effect s bp obj :
  reference_effect s (marked_and_counted s bp (_worker_id (task s)) obj) bp obj true.
Proof.
  split.
  - reflexivity.
  - reflexivity.
  - unfold marks at 1. cbn. by rewrite lookup_insert_eq.
  - intros w k. unfold live_words at 1. cbn.
    destruct (bool_decide _) eqn:Hd.
    + apply bool_decide_eq_true in Hd as [-> ->]. by rewrite lookup_insert_eq.
    + apply bool_decide_eq_false in Hd. rewrite lookup_insert_ne; [done|].
      intros [= <- <-]. by apply Hd.
Qed.

Lemma reference_effect_same_marking s s1 s2 bp obj fresh :
  reference_effect s s1 bp obj fresh -> same_marking s1 s2 ->
  reference_effect s s2 bp obj fresh.
Proof.
  intros [Hw Hr Hm Hc] (Hh & Hst & Hw2 & _ & _). split.
  - congruence.
  - intros a. rewrite Hh. apply Hr.
  - unfold marks in *. by rewrite Hh.
  - intros w k. unfold live_words in *. rewrite Hst. apply Hc.
Qed.

Lemma size_t_add_range a b : 0 <= size_t_add a b < size_t_modulus.
Proof. unfold size_t_add. by apply Z.mod_pos_bound. Qed.

Lemma scanning_effect s s' rp r bp obj fresh q' :
  scanning s rp r bp -> reference_effect s s' bp obj fresh ->
  _curr_region (task s') = _curr_region (task s) ->
  _alive_bitmap (task s') = _alive_bitmap (task s) ->
  regions (heap s') = regions (heap s) ->
  is_Some (bitmaps (heap s') !! bp) ->
  my_queue s' = Some q' -> (List.length q' <= max_elems)%nat ->
  scanning s' rp r bp.
Proof.
  intros [(Hcr & Hr & Hab & Hrb & HB & Hch) _ Hrange Hpass] [Hw _ _ Hc]
         Hcr' Hab' Hreg HB' Hq' Hlen.
  split.
  - repeat split; congruence || done.
  - eauto.
  - intros k. rewrite Hc, Hw. destruct (_ && _); [apply size_t_add_range | apply Hrange].
  - exact Hpass.
Qed.

(** Whether [deal_with_reference] has to mark the referent [obj]. *)
Definition to_be_marked (s : state) (r : HeapRegion) (bp : bitmap_ptr) (obj : oop) : bool :=
  negb (obj =? NULL) && is_in_reserved r obj && (obj <? next_top_at_mark_start r)
  && negb (bool_decide (obj ∈ marks s bp)).

Lemma deal_with_reference_effect s rp r bp p :
  (0 < max_elems)%nat -> (0 < EntriesPerChunk)%nat ->
  scanning s rp r bp ->
  let obj := oop_load p in
  let fresh := to_be_marked s r bp obj in
  exists s',
    deal_with_reference p s = Done (fresh, s') /\
    scanning s' rp r bp /\ reference_effect s s' bp obj fresh.
Proof.
  intros Hmax Hepc Hscan obj fresh.
  pose proof Hscan as [Hin (q & Hq & Hlen) Hrange Hpass].
  pose proof Hin as (Hcr & Hr & Hab & Hrb & HB & Hch).
  unfold deal_with_reference. fold obj. subst fresh. unfold to_be_marked.
  destruct (obj =? NULL) eqn:Hnull; cbn [negb andb].
  { exists s. split; [reflexivity|]. split; [done | apply reference_effect_none]. }
  rewrite run_bind, run_gets. cbn beta iota. rewrite Hcr.
  rewrite (run_bind_Done _ _ s s r (region_at_Some s rp r Hr)).
  destruct (is_in_reserved r obj) eqn:Hres; cbn [negb andb].
  2:{ exists s. split; [reflexivity|]. split; [done | apply reference_effect_none]. }
  unfold make_reference_alive. rewrite run_bind, run_gets. cbn beta iota.
  rewrite run_bind, (mark_in_alive_bitmap_run s _ obj rp r bp Hin Hres).
  rewrite (Z.leb_antisym obj (next_top_at_mark_start r)).
  destruct (obj <? next_top_at_mark_start r) eqn:Hlt; cbn [negb andb].
  2:{ exists s. split; [reflexivity|]. split; [done | apply reference_effect_none]. }
  destruct (decide (obj ∈ marks s bp)) as [Hmarked|Hmarked];
    [rewrite !bool_decide_eq_true_2 by done | rewrite !bool_decide_eq_false_2 by done];
    cbn [negb].
  { exists s. split; [reflexivity|]. split; [done | apply reference_effect_none]. }
  set (s1 := marked_and_counted s bp (_worker_id (task s)) obj).
  pose proof (marked_and_counted_effect s bp obj) as Heff. fold s1 in Heff.
  assert (Hq1 : my_queue s1 = Some q) by exact Hq.
  assert (HB1 : is_Some (bitmaps (heap s1) !! bp)).
  { subst s1. cbn. rewrite lookup_insert_eq. eauto. }
  destruct (is_typeArray obj) eqn:Harr.
  - exists s1. split.
    + unfold process_grey_task_entry_noscan, from_oop.
      rewrite (run_bind_Done _ _ s1 s1 tt); [reflexivity|].
      rewrite (run_bind_Done _ _ s1 s1 tt) by (by apply assert_M_true).
      apply assert_M_passes. intros HA.
      specialize (Hpass HA obj Hres ltac:(by apply Z.ltb_lt)).
      unfold passes_push_assertions in Hpass. cbn [is_array_slice orb obj_of] in *.
      by apply andb_true_iff in Hpass as [_ ->].
    + split; [|exact Heff].
      by apply (scanning_effect s s1 rp r bp obj true q Hscan Heff).
  - assert (Hpass1 : ASSERT = true -> passes_push_assertions (from_oop obj) = true).
    { intros HA. apply (Hpass HA obj Hres). by apply Z.ltb_lt. }
    destruct (push_effect s1 q (from_oop obj) Hmax Hepc Hpass1 Hq1 Hlen)
      as (s2 & q2 & Hpush & Hsame & Hq2 & Hlen2).
    exists s2. split.
    + rewrite (run_bind_Done _ _ s1 s2 tt Hpush). reflexivity.
    + pose proof (reference_effect_same_marking s s1 s2 bp obj true Heff Hsame) as Heff2.
      split; [|exact Heff2].
      destruct Hsame as (Hh & _ & _ & Hcr2 & Hab2).
      apply (scanning_effect s s2 rp r bp obj true q2 Hscan Heff2); try done.
      * by rewrite Hh.
      * by rewrite Hh.
Qed.

Lemma words_of_ext h h' k X :
  (forall a, addr_to_region h' a = addr_to_region h a) ->
  words_of h' k X = words_of h k X.
Proof.
  intros Hreg. unfold words_of, set_fold. simpl.
  induction (elements X) as [|a l IH]; [reflexivity|].
  simpl. rewrite IH, Hreg. reflexivity.
Qed.

(** The marks that [s'] has and [s] has not. *)
Definition newly_marked (s s' : state) (bp : bitmap_ptr) : gset Z :=
  marks s' bp ∖ marks s bp.

(** A run of [deal_with_reference] over the slots [fields]
    ([oop_iterate]): it returns; every new mark is a referent below NTAMS
    inside the region; and the worker's counter of each region has grown by
    the words of the newly marked objects of that region, each counted once. *)
Lemma oop_iterate_effect rp r bp fields :
  (0 < max_elems)%nat -> (0 < EntriesPerChunk)%nat ->
  forall s, scanning s rp r bp ->
  exists s',
    oop_iterate fields s = Done (tt, s') /\
    scanning s' rp r bp /\
    _worker_id (task s') = _worker_id (task s) /\
    (forall a, addr_to_region (heap s') a = addr_to_region (heap s) a) /\
    marks s bp ⊆ marks s' bp /\
    (forall a, a ∈ newly_marked s s' bp ->
               a < next_top_at_mark_start r /\ is_in_reserved r a = true /\
               exists p, p ∈ fields /\ oop_load p = a) /\
    (forall k, live_words s' (_worker_id (task s)) k =
               (live_words s (_worker_id (task s)) k
                + words_of (heap s) k (newly_marked s s' bp)) mod size_t_modulus) /\
    (forall w k, w ≠ _worker_id (task s) -> live_words s' w k = live_words s w k).
Proof.
  intros Hmax Hepc. unfold newly_marked.
  induction fields as [|p rest IH]; intros s Hscan.
  - exists s. split; [reflexivity|]. split; [done|]. split; [done|]. split; [done|].
    split; [done|]. rewrite difference_diag_L.
    split; [intros a Ha; by apply not_elem_of_empty in Ha|].
    split; [|done].
    intros k. rewrite words_of_empty, Z.add_0_r, Z.mod_small; [done|].
    apply (scanning_counters _ _ _ _ Hscan).
  - destruct (deal_with_reference_effect s rp r bp p Hmax Hepc Hscan)
      as (s1 & Hrun1 & Hscan1 & [Hw1 Hreg1 Hm1 Hc1]).
    destruct (IH s1 Hscan1) as (s' & Hrun & Hscan' & Hw' & Hreg' & Hsub & Hnew & Hcount & Hother).
    set (obj := oop_load p) in *.
    set (w := _worker_id (task s)) in *.
    exists s'. split.
    { cbn [oop_iterate]. rewrite (run_bind_Done _ _ s s1 _ Hrun1). exact Hrun. }
    split; [exact Hscan'|]. split; [congruence|].
    split; [intros a; by rewrite Hreg', Hreg1|].
    rewrite Hw1 in Hcount, Hother.
    destruct (to_be_marked s r bp obj) eqn:Hfresh.
    + (* the referent has been marked and counted *)
      unfold to_be_marked in Hfresh.
      apply andb_true_iff in Hfresh as [Hfresh Hunmarked].
      apply andb_true_iff in Hfresh as [Hfresh Hlt].
      apply andb_true_iff in Hfresh as [_ Hres].
      apply negb_true_iff, bool_decide_eq_false in Hunmarked.
      apply Z.ltb_lt in Hlt.
      assert (Hobj1 : obj ∈ marks s1 bp).
      { rewrite Hm1. apply elem_of_union_l. by apply elem_of_singleton. }
      assert (Hobj' : obj ∈ marks s' bp) by (by apply Hsub).
      assert (Hsplit : marks s' bp ∖ marks s bp = {[obj]} ∪ (marks s' bp ∖ marks s1 bp)).
      { apply set_eq. intros x.
        rewrite elem_of_union, !elem_of_difference, elem_of_singleton, Hm1.
        rewrite elem_of_union, elem_of_singleton.
        destruct (decide (x = obj)) as [->|]; tauto. }
      assert (Hnotin : obj ∉ marks s' bp ∖ marks s1 bp).
      { rewrite elem_of_difference. tauto. }
      split.
      { intros x Hx. apply Hsub. rewrite Hm1. by apply elem_of_union_r. }
      split.
      { intros a Ha. rewrite Hsplit in Ha. apply elem_of_union in Ha as [Ha|Ha].
        - apply elem_of_singleton in Ha as ->. split; [done|]. split; [done|].
          exists p. split; [apply list_elem_of_here | done].
        - destruct (Hnew a Ha) as (? & ? & p' & ? & ?). split; [done|]. split; [done|].
          exists p'. split; [by apply list_elem_of_further | done]. }
      split.
      { intros k. rewrite Hcount, Hsplit, (words_of_insert _ _ _ _ Hnotin).
        rewrite (words_of_ext (heap s) (heap s1)) by exact Hreg1.
        rewrite Hc1. cbn [andb].
        destruct (decide (addr_to_region (heap s) obj = k)) as [Hk|Hk].
        - rewrite bool_decide_eq_true_2 by done. unfold size_t_add.
          rewrite Zplus_mod_idemp_l. f_equal. lia.
        - rewrite bool_decide_eq_false_2 by (intros [_ ->]; done).
          f_equal. lia. }
      intros w' k Hne. rewrite (Hother w' k Hne), Hc1.
      rewrite bool_decide_eq_false_2 by (intros [-> _]; done).
      by rewrite andb_false_r.
    + (* nothing has been marked *)
      rewrite Hm1 in *.
      split; [exact Hsub|].
      split.
      { intros a Ha. destruct (Hnew a Ha) as (? & ? & p' & ? & ?).
        split; [done|]. split; [done|].
        exists p'. split; [by apply list_elem_of_further | done]. }
      split.
      { intros k. rewrite Hcount, Hc1. cbn [andb].
        by rewrite (words_of_ext (heap s) (heap s1)) by exact Hreg1. }
      intros w' k Hne. by rewrite (Hother w' k Hne), Hc1.
Qed.

(** C1. While a task scans a region, one call of [mark_in_alive_bitmap]
    on an object of the region returns false and leaves the state as it is
    when the object lies at or above the region's NTAMS or is already
    marked, and otherwise sets its bit and adds its size to the worker's
    counter for its region.  Over a run of [deal_with_reference] on the slots
    of an object, every new mark is a referent below NTAMS, no mark is lost,
    and each counter of the worker has grown by the words of the newly
    marked objects of its region, each object counted once however many
    slots refer to it; the counters of the other workers are as before. *)
Theorem mark_in_alive_bitmap_counts_once (s : state) (rp : region_ptr) (r : HeapRegion)
    (bp : bitmap_ptr) (fields : list HeapWord) :
  (0 < max_elems)%nat -> (0 < EntriesPerChunk)%nat ->
  scanning s rp r bp ->
  let w := _worker_id (task s) in
  (forall obj,
     is_in_reserved r obj = true ->
     mark_in_alive_bitmap w obj s =
       if next_top_at_mark_start r <=? obj then Done (false, s)
       else if bool_decide (obj ∈ marks s bp) then Done (false, s)
       else Done (true, marked_and_counted s bp w obj)) /\
  exists s',
    oop_iterate fields s = Done (tt, s') /\
    marks s bp ⊆ marks s' bp /\
    (forall a, a ∈ newly_marked s s' bp ->
               a < next_top_at_mark_start r /\ is_in_reserved r a = true /\
               exists p, p ∈ fields /\ oop_load p = a) /\
    (forall k, live_words s' w k =
               (live_words s w k + words_of (heap s) k (newly_marked s s' bp))
                 mod size_t_modulus) /\
    (forall w' k, w' ≠ w -> live_words s' w' k = live_words s w' k).
Proof.
  intros Hmax Hepc Hscan w. split.
  - intros obj Hres.
    apply (mark_in_alive_bitmap_run s w obj rp r bp (scanning_region _ _ _ _ Hscan) Hres).
  - destruct (oop_iterate_effect rp r bp fields Hmax Hepc s Hscan)
      as (s' & Hrun & _ & _ & _ & Hsub & Hnew & Hcount & Hother).
    exists s'. split; [exact Hrun|]. split; [exact Hsub|]. split; [exact Hnew|].
    split; [exact Hcount | exact Hother].
Qed.


(** ** The two total drains and the end of the step (C9, C4) *)

(** C9. [drain_local_queue(false)] leaves the worker's queue empty
    unless the task has aborted, and in such a state the assertion at the
    head of [drain_global_stack(false)] holds; the marking step, which calls
    [drain_global_stack(false)] only right after [drain_local_queue(false)],
    never fails that assertion, from any state and with any fuel. *)
Theorem total_drain_finds_queue_drained (fuel : nat) (time_target_ms : float)
    (do_termination is_serial : bool) (s : state) :
  ok not_the_drain_assertion
     (do_semeru_marking_step fuel time_target_ms do_termination is_serial s)
     (fun _ _ => True) /\
  ok not_the_drain_assertion (drain_local_queue fuel false s)
     (fun _ s1 =>
        drained s1 /\
        forall fuel',
          ok not_the_drain_assertion (drain_global_stack fuel' false s1) (fun _ _ => True)).
Proof.
  split.
  - eapply ok_mono; [apply do_semeru_marking_step_frame | done].
  - eapply ok_mono; [apply (drain_local_queue_frame s), others_untouched_refl|].
    cbv beta. intros _ s1 [Hs1 Hd]. split; [by apply Hd|].
    intros fuel'. eapply ok_mono; [by apply (drain_global_stack_frame s) | done].
Qed.

(** C4 (as amended). The stealing loop and the termination protocol are
    not part of the step: a step that ends with the task not aborted has
    taken nothing from the queue of any other worker and has offered no
    termination, and it does not read [do_termination]. *)
Theorem marking_step_neither_steals_nor_terminates (fuel : nat) (time_target_ms : float)
    (do_termination is_serial : bool) (s s' : state) :
  do_semeru_marking_step fuel time_target_ms do_termination is_serial s = Done (tt, s') ->
  _has_aborted (task s') = false ->
  others_untouched s s' /\
  do_semeru_marking_step fuel time_target_ms (negb do_termination) is_serial s
    = Done (tt, s').
Proof.
  intros Hrun Hab. split; [|exact Hrun].
  pose proof (do_semeru_marking_step_frame fuel time_target_ms do_termination is_serial s)
    as Hframe.
  rewrite Hrun in Hframe. by apply Hframe.
Qed.



(** ** The overflow mark stack *)

(** The chunks handed out so far are those with an index below [_hwm];
    each is on the chunk list or on the free list, and on one of them only;
    [_chunks_in_chunk_list] counts the chunk list. *)
Definition stack_wf (st : G1SemeruCMMarkStack) : Prop :=
  0 <= _hwm st <= _chunk_capacity st /\ _chunk_capacity st < size_t_modulus /\
  (chunk_index <$> _chunk_list st) ++ _free_list st ≡ₚ seqZ 0 (_hwm st) /\
  _chunks_in_chunk_list st = Z.of_nat (List.length (_chunk_list st)).

Lemma seqZ_snoc n : 0 <= n -> seqZ 0 (n + 1) = seqZ 0 n ++ [n].
Proof.
  intros Hn. rewrite seqZ_app by lia. f_equal.
Qed.

Lemma stack_wf_lengths st :
  stack_wf st ->
  Z.of_nat (List.length (_chunk_list st)) + Z.of_nat (List.length (_free_list st)) = _hwm st.
Proof.
  intros (Hh & _ & Hp & _). apply Permutation_length in Hp.
  rewrite length_app, length_fmap, length_seqZ in Hp. lia.
Qed.

Lemma set_empty_wf st :
  0 <= _chunk_capacity st < size_t_modulus -> stack_wf (set_empty st).
Proof. intros Hc. repeat split; simpl; lia || done. Qed.

(** What a push does to a well-formed stack: it fails on a full one and
    changes nothing, or it adds a chunk that was not on the chunk list. *)
Definition push_outcome (st : G1SemeruCMMarkStack) (ptr_arr : list G1SemeruTaskQueueEntry)
    : Prop :=
  match par_push_chunk st ptr_arr with
  | (false, st') =>
    Z.of_nat (List.length (_chunk_list st)) = _chunk_capacity st /\ st' = st
  | (true, st') =>
    Z.of_nat (List.length (_chunk_list st)) < _chunk_capacity st /\
    stack_wf st' /\
    exists c, _chunk_list st' = mkChunk c (take EntriesPerChunk ptr_arr) :: _chunk_list st /\
              c ∉ (chunk_index <$> _chunk_list st)
  end.

(** With an empty free list the chunk is the one at [_hwm], if there is
    one. *)
Lemma par_push_chunk_new_chunk st ptr_arr :
  stack_wf st -> _free_list st = [] -> push_outcome st ptr_arr.
Proof.
  intros Hwf Hfree. pose proof (stack_wf_lengths st Hwf) as Hlen.
  destruct Hwf as (Hh & Hcap & Hp & Hn).
  unfold push_outcome, par_push_chunk, remove_chunk_from_free_list. rewrite Hfree in *.
  unfold allocate_new_chunk. destruct (_chunk_capacity st <=? _hwm st) eqn:Hfull.
  - apply Z.leb_le in Hfull. simpl in Hlen. split; [lia|done].
  - apply Z.leb_gt in Hfull. cbn [_hwm upd_hwm _chunk_capacity].
    rewrite (proj2 (Z.leb_gt _ _) Hfull). simpl in Hlen.
    assert (Hadd : (_hwm st + 1) mod size_t_modulus = _hwm st + 1).
    { apply Z.mod_small. lia. }
    rewrite app_nil_r in Hp.
    split; [lia|]. split.
    + split; [simpl; unfold size_t_add; rewrite Hadd; lia|]. split; [done|]. split.
      { simpl. unfold size_t_add. rewrite Hfree, app_nil_r, Hadd.
        rewrite seqZ_snoc by lia.
        rewrite <- Permutation_cons_append. by constructor. }
      { simpl. rewrite Hn. unfold size_t_add. rewrite Z.mod_small; lia. }
    + exists (_hwm st). split; [done|].
      intros Hin. rewrite Hp in Hin.
      apply list_elem_of_lookup in Hin as [i Hi]. apply lookup_seqZ in Hi. lia.
Qed.

(** Otherwise the first chunk of the free list is used again. *)
Lemma par_push_chunk_free_chunk st ptr_arr c rest :
  stack_wf st -> _free_list st = c :: rest -> push_outcome st ptr_arr.
Proof.
  intros Hwf Hfree. pose proof (stack_wf_lengths st Hwf) as Hlen.
  destruct Hwf as (Hh & Hcap & Hp & Hn).
  unfold push_outcome, par_push_chunk, remove_chunk_from_free_list. rewrite Hfree in *.
  simpl in Hlen. split; [lia|]. split.
  - split; [done|]. split; [done|]. split.
    { simpl. rewrite <- Hp. apply Permutation_middle. }
    { simpl. rewrite Hn. unfold size_t_add. rewrite Z.mod_small; lia. }
  - exists c. split; [done|]. intros Hin.
    pose proof (NoDup_seqZ 0 (_hwm st)) as Hnd. rewrite <- Hp in Hnd.
    apply NoDup_app in Hnd as (_ & Hd & _). apply (Hd c Hin), list_elem_of_here.
Qed.

Ltac push_cases st :=
  destruct (_free_list st) eqn:?;
  [ by apply par_push_chunk_new_chunk | by eapply par_push_chunk_free_chunk ].

(** X5. On a well-formed mark stack [par_push_chunk] fails exactly when all
    [_chunk_capacity] chunks are on the chunk list, and then it changes
    nothing; otherwise the first [EntriesPerChunk] entries of the buffer go
    onto the chunk list in a chunk that was on neither list of chunks in
    use, and the stack stays well-formed. *)
Theorem par_push_chunk_fails_when_full st ptr_arr :
  stack_wf st ->
  match par_push_chunk st ptr_arr with
  | (false, st') =>
    Z.of_nat (List.length (_chunk_list st)) = _chunk_capacity st /\ st' = st
  | (true, st') =>
    Z.of_nat (List.length (_chunk_list st)) < _chunk_capacity st /\
    stack_wf st' /\
    exists c, _chunk_list st' = mkChunk c (take EntriesPerChunk ptr_arr) :: _chunk_list st /\
              c ∉ (chunk_index <$> _chunk_list st)
  end.
Proof.
  intros Hwf. change (push_outcome st ptr_arr).
  destruct (_free_list st) as [|c rest] eqn:Hfree.
  - (* no chunk to use again: a new one, unless all are in use *)
    by apply par_push_chunk_new_chunk.
  - (* a chunk from the free list *)
    by apply (par_push_chunk_free_chunk st ptr_arr c rest).
Qed.

(** X6. [par_pop_chunk] undoes [par_push_chunk]: after a push that
    succeeded on a well-formed stack, a pop returns the entries that were
    pushed and leaves the chunk list, and its count, as they were before the
    push; the chunk that carried them is then the first of the free list.
    A pop from an empty chunk list returns nothing and changes nothing. *)
Theorem par_pop_chunk_returns_last_push st ptr_arr st1 :
  stack_wf st ->
  par_push_chunk st ptr_arr = (true, st1) ->
  (exists c st2,
     par_pop_chunk st1 = (Some (take EntriesPerChunk ptr_arr), st2) /\
     _chunk_list st2 = _chunk_list st /\
     _chunks_in_chunk_list st2 = _chunks_in_chunk_list st /\
     head (_free_list st2) = Some c /\ (c ∉ (chunk_index <$> _chunk_list st)) /\
     stack_wf st2) /\
  (forall st0, _chunk_list st0 = [] -> par_pop_chunk st0 = (None, st0)).
Proof.
  intros Hwf Hpush. split.
  - assert (Hp : push_outcome st ptr_arr) by push_cases st.
    unfold push_outcome in Hp.
    rewrite Hpush in Hp. destruct Hp as (Hlt & Hwf1 & c & Hcl & Hc).
    destruct Hwf1 as (Hh1 & Hcap1 & Hp1 & Hn1).
    destruct Hwf as (Hh & Hcap & Hp & Hn).
    assert (Hsub : size_t_sub (_chunks_in_chunk_list st1) 1
                   = Z.of_nat (List.length (_chunk_list st))).
    { rewrite Hn1, Hcl. simpl List.length. unfold size_t_sub. rewrite Z.mod_small; lia. }
    unfold par_pop_chunk, remove_chunk_from_chunk_list. rewrite Hcl.
    eexists c, _. split; [reflexivity|]. cbn.
    split; [done|]. split; [by rewrite Hsub|].
    split; [done|]. split; [done|].
    split; [done|]. split; [done|]. split.
    { cbn. rewrite <- Hp1, Hcl. simpl. symmetry. apply Permutation_middle. }
    { cbn. exact Hsub. }
  - intros st0 Hnil. unfold par_pop_chunk, remove_chunk_from_chunk_list. by rewrite Hnil.
Qed.

(** ** A batch moved to the global stack and back *)

Lemma obj_of_not_null e : obj_of e ≠ NULL -> is_null e = false.
Proof. by destruct e. Qed.

(** The pushing loop of [get_entries_from_global_stack] on a buffer that
    holds the entries [es] and then ends or holds the null entry. *)
Lemma get_entries_push_run rest : forall es s q0,
  my_queue s = Some q0 ->
  (forall e, e ∈ es -> obj_of e ≠ NULL) ->
  (ASSERT = true -> forall e, e ∈ es -> is_array_slice e || is_oop (obj_of e) = true) ->
  (List.length q0 + List.length es <= max_elems)%nat ->
  head rest = None \/ head rest = Some null_entry ->
  get_entries_push (es ++ rest) s = Done (tt, with_queue s (reverse es ++ q0)).
Proof.
  induction es as [|e es IH]; intros s q0 Hq Hnn Hoop Hroom Hrest.
  - simpl. rewrite with_queue_id by done.
    destruct rest as [|r rest']; [done|]. destruct Hrest as [?|[= ->]]; done.
  - cbn [app get_entries_push].
    rewrite (obj_of_not_null e) by (apply Hnn, list_elem_of_here).
    rewrite (run_bind_Done (assert_M _ _) _ s s tt).
    2: { apply assert_M_passes. intros HA. apply (Hoop HA), list_elem_of_here. }
    rewrite run_bind, (task_queue_push_run s q0 e Hq).
    simpl List.length in Hroom.
    destruct (decide _) as [_|Hfull]; [|lia]. cbn beta iota.
    rewrite (run_bind_Done (assert_M _ _) _ _ _ tt) by (by apply assert_M_true).
    rewrite (IH (with_queue s (e :: q0)) (e :: q0)).
    + rewrite with_queue_with_queue, reverse_cons, <- (assoc_L (++)). reflexivity.
    + apply my_queue_with_queue.
    + intros e' He'. by apply Hnn, list_elem_of_further.
    + intros HA e' He'. by apply (Hoop HA), list_elem_of_further.
    + simpl. lia.
    + done.
Qed.

(** X7. A batch that [move_entries_to_global_stack] has moved to a
    well-formed overflow stack with room for a chunk comes back with
    [get_entries_from_global_stack]: both calls return, the worker's deque
    then holds the entries it held before, the [n = min(EntriesPerChunk, |q|)]
    moved ones in the reverse of their former order, and the chunk list of
    the stack is what it was; neither the abort flag, the overflow flag nor
    the marks have changed.  No moved entry is null (the copy back stops at
    a null entry), and in a build with [ASSERT] each is an array slice or an
    oop. *)
Theorem moved_entries_come_back (s : state) (q : list G1SemeruTaskQueueEntry) :
  let n := Nat.min EntriesPerChunk (List.length q) in
  let st := _global_mark_stack (cm s) in
  my_queue s = Some q -> q ≠ [] -> (0 < EntriesPerChunk)%nat ->
  (List.length q <= max_elems)%nat ->
  stack_wf st -> Z.of_nat (List.length (_chunk_list st)) < _chunk_capacity st ->
  (forall e, e ∈ take n q -> obj_of e ≠ NULL) ->
  (ASSERT = true ->
   forall e, e ∈ take n q -> is_array_slice e || is_oop (obj_of e) = true) ->
  exists s1 s2,
    move_entries_to_global_stack s = Done (tt, s1) /\
    my_queue s1 = Some (drop n q) /\
    get_entries_from_global_stack s1 = Done (true, s2) /\
    my_queue s2 = Some (reverse (take n q) ++ drop n q) /\
    _chunk_list (_global_mark_stack (cm s2)) = _chunk_list st /\
    _has_aborted (task s2) = _has_aborted (task s) /\
    _has_overflown (cm s2) = _has_overflown (cm s) /\
    heap s2 = heap s.
Proof.
  intros n st Hq Hne Hepc Hmax Hwf Hroom Hnn Hoop.
  assert (Hn : (0 < n)%nat) by (subst n; destruct q; [done | simpl; lia]).
  destruct (move_entries_to_global_stack_effect s q Hq)
    as (s1 & Hmove & Hq1 & (Hheap1 & _ & Hw1 & _) & Heff).
  fold n st in Hq1, Heff.
  rewrite bool_decide_eq_true_2 in Heff by lia.
  assert (Hpush : push_outcome st (batch_of q)) by push_cases st.
  unfold push_outcome in Hpush.
  destruct (par_push_chunk st (batch_of q)) as [[|] st1] eqn:Epush; [|lia].
  destruct Hpush as (_ & Hwf1 & c & Hcl & _).
  rewrite take_ge in Hcl by (rewrite batch_of_length; lia).
  cbn [fst snd] in Heff. destruct Heff as (Hst1 & Hab1 & Hov1).
  exists s1.
  assert (Hpop : mark_stack_pop s1 =
                 Done (Some (batch_of q),
                       upd_cm s1 (upd_global_mark_stack (cm s1)
                                    (snd (par_pop_chunk st1))))).
  { cbv [mark_stack_pop modify_cm modify gets mbind M_bind mret M_ret].
    rewrite Hst1. unfold par_pop_chunk, remove_chunk_from_chunk_list. rewrite Hcl.
    reflexivity. }
  set (s1' := upd_cm s1 (upd_global_mark_stack (cm s1) (snd (par_pop_chunk st1)))) in *.
  assert (Hq1' : my_queue s1' = Some (drop n q)) by exact Hq1.
  assert (Hbatch : take EntriesPerChunk (batch_of q)
                   = take n q ++ replicate (EntriesPerChunk - n) null_entry).
  { rewrite take_ge by (rewrite batch_of_length; lia). reflexivity. }
  assert (Hback : get_entries_push
                    (take n q ++ replicate (EntriesPerChunk - n) null_entry) s1'
                  = Done (tt, with_queue s1' (reverse (take n q) ++ drop n q))).
  { apply get_entries_push_run; try done.
    - rewrite length_drop, length_take. lia.
    - destruct (EntriesPerChunk - n)%nat; [by left | by right]. }
  eexists. split; [exact Hmove|]. split; [exact Hq1|].
  split.
  { unfold get_entries_from_global_stack.
    rewrite (run_bind_Done _ _ s1 _ _ Hpop). cbn beta iota.
    rewrite Hbatch.
    rewrite (run_bind_Done _ _ _ _ _ Hback). reflexivity. }
  cbn.
  split; [unfold my_queue; cbn; apply lookup_insert_eq|].
  split.
  { unfold par_pop_chunk, remove_chunk_from_chunk_list. by rewrite Hcl. }
  split; [done|]. split; [done|]. done.
Qed.

(** ** The claim loop *)

(** [cset_chain h f l]: from the finger [f] on, the collection set is the
    chain of the regions [l], each with its NTAMS at or above its bottom,
    and ends there (the finger after the last region is NULL). *)
Inductive cset_chain (h : G1SemeruCollectedHeap)
    : HeapWord -> list (region_ptr * HeapRegion) -> Prop :=
| cset_chain_end : cset_chain h NULL []
| cset_chain_next f rp r f' l :
    f ≠ NULL ->
    (ASSERT = true -> is_in_g1_reserved f = true) ->
    heap_region_containing h f = Some rp ->
    regions h !! rp = Some r ->
    next_finger h r = Some f' ->
    bottom r <= next_top_at_mark_start r ->
    cset_chain h f' l ->
    cset_chain h f ((rp, r) :: l).

(** A region that [claim_region] hands out: its NTAMS is above its bottom. *)
Definition claimable (x : region_ptr * HeapRegion) : bool :=
  bottom (snd x) <? next_top_at_mark_start (snd x).

(** The region held after the regions [l] have been claimed in turn. *)
Definition last_claimable (l : list (region_ptr * HeapRegion))
    (held : option region_ptr) : option region_ptr :=
  match last (List.filter claimable l) with
  | Some x => Some (fst x)
  | None => held
  end.

Lemma last_claimable_cons x l held :
  last_claimable (x :: l) held
  = last_claimable l (if claimable x then Some (fst x) else held).
Proof.
  unfold last_claimable. simpl. destruct (claimable x); [|done].
  rewrite last_cons. by destruct (last (List.filter claimable l)).
Qed.

(** The clock lets a task go on that has not aborted while no overflow is
    flagged and marking is not concurrent; only the limits change. *)
Lemma abort_marking_if_regular_check_fail_passes s :
  _has_aborted (task s) = false -> _has_overflown (cm s) = false ->
  _concurrent (cm s) = false ->
  exists t', abort_marking_if_regular_check_fail s = Done (tt, upd_task s t') /\
    _has_aborted t' = false /\ _curr_region t' = _curr_region (task s) /\
    _finger t' = _finger (task s) /\ _region_limit t' = _region_limit (task s) /\
    _worker_id t' = _worker_id (task s) /\
    _alive_bitmap t' = _alive_bitmap (task s) /\ _dest_bitmap t' = _dest_bitmap (task s).
Proof.
  intros Hab Hov Hconc.
  destruct (clock_checks_when_not_aborted s Hab) as (s1 & Hrec & _ & Hclock & _).
  specialize (Hclock Hov Hconc).
  assert (Hs1 : s1 = upd_task s (task s1) /\ _has_aborted (task s1) = false /\
                _curr_region (task s1) = _curr_region (task s) /\
                _finger (task s1) = _finger (task s) /\
                _region_limit (task s1) = _region_limit (task s) /\
                _worker_id (task s1) = _worker_id (task s) /\
                _alive_bitmap (task s1) = _alive_bitmap (task s) /\
                _dest_bitmap (task s1) = _dest_bitmap (task s)).
  { cbv [recalculate_limits modify_task modify mbind M_bind] in Hrec.
    injection Hrec as <-. by repeat split. }
  destruct Hs1 as (Hs1 & Hrest).
  exists (task s1). split; [|exact Hrest].
  unfold abort_marking_if_regular_check_fail.
  rewrite (run_bind_Done _ _ _ _ _ Hclock). by rewrite <- Hs1.
Qed.

(** One round of the claim loop on a chain that starts with [(rp, r)]. *)
Lemma claim_loop_round fuel s rp r l :
  cset_chain (heap s) (cm_finger (cm s)) ((rp, r) :: l) ->
  _has_aborted (task s) = false -> _has_overflown (cm s) = false ->
  _concurrent (cm s) = false ->
  (ASSERT = true -> _finger (task s) = NULL /\ _region_limit (task s) = NULL) ->
  exists s1,
    claim_loop (S fuel) s = claim_loop fuel s1 /\
    cset_chain (heap s1) (cm_finger (cm s1)) l /\
    heap s1 = heap s /\
    _task_queues (cm s1) = _task_queues (cm s) /\
    _global_mark_stack (cm s1) = _global_mark_stack (cm s) /\
    _has_aborted (task s1) = false /\ _has_overflown (cm s1) = false /\
    _concurrent (cm s1) = false /\
    _finger (task s1) = _finger (task s) /\ _region_limit (task s1) = _region_limit (task s) /\
    _curr_region (task s1) = (if claimable (rp, r) then Some rp else _curr_region (task s)).
Proof.
  intros Hc Hab Hov Hconc Hnull.
  inversion Hc as [|f rp' r' f' l' Hf Hres Hrp Hr He Hle Hc' Hfeq Hleq]; subst.
  cbn [claim_loop].
  rewrite (run_bind_Done has_aborted _ s s false)
    by (unfold has_aborted; by rewrite run_gets, Hab).
  rewrite (run_bind_Done out_of_memory_server_cset _ s s false).
  2: { unfold out_of_memory_server_cset. rewrite run_gets. do 2 f_equal.
       by apply Z.eqb_neq. }
  cbn [negb andb].
  rewrite (run_bind_Done (gets _) _ s s _ (run_gets _ s)).
  rewrite (run_bind_Done (assert_M _ _) _ s s tt).
  2: { apply assert_M_passes. intros HA. apply Z.eqb_eq. by apply Hnull. }
  rewrite (run_bind_Done (gets _) _ s s _ (run_gets _ s)).
  rewrite (run_bind_Done (assert_M _ _) _ s s tt).
  2: { apply assert_M_passes. intros HA. apply Z.eqb_eq. by apply Hnull. }
  rewrite (run_bind_Done (gets _) _ s s _ (run_gets _ s)).
  assert (Hclaim : claim_region (_worker_id (task s)) s
                   = Done (if claimable (rp, r) then Some rp else None, with_finger s f')).
  { change (claim_region (_worker_id (task s)) s)
      with (claim_region_from (cm_finger (cm s)) (_worker_id (task s)) s).
    rewrite (claim_region_from_claims _ _ s rp r f') by done.
    by rewrite Z.eqb_refl. }
  rewrite (run_bind_Done _ _ _ _ _ Hclaim).
  set (s0 := with_finger s f').
  assert (Hsetup : exists s2,
    when_ (bool_decide ((if claimable (rp, r) then Some rp else None) ≠ None)) (
      _ ← setup_for_region (if claimable (rp, r) then Some rp else None);
      cr ← gets (fun s => _curr_region (task s));
      assert_M (bool_decide (cr = (if claimable (rp, r) then Some rp else None)))
        "do_semeru_marking_step: invariant") s0 = Done (tt, s2) /\
    cm s2 = cm s0 /\ heap s2 = heap s /\ _has_aborted (task s2) = false /\
    _finger (task s2) = _finger (task s) /\ _region_limit (task s2) = _region_limit (task s) /\
    _curr_region (task s2) = (if claimable (rp, r) then Some rp else _curr_region (task s))).
  { destruct (claimable (rp, r)).
    - rewrite bool_decide_eq_true_2 by done. cbn [when_].
      unfold setup_for_region.
      eexists. split.
      { rewrite run_bind.
        rewrite (run_bind_Done (assert_M _ _) _ s0 s0 tt)
          by (apply assert_M_true; by apply bool_decide_eq_true_2).
        rewrite (run_bind_Done (modify_task _) _ _ _ tt) by reflexivity.
        rewrite (run_bind_Done (region_at _) _ _ _ r) by (by apply region_at_Some).
        rewrite (run_bind_Done (modify_task _) _ _ _ tt) by reflexivity.
        cbv [modify_task modify]. cbn beta iota.
        rewrite (run_bind_Done (gets _) _ _ _ _ (run_gets _ _)).
        apply assert_M_true. by apply bool_decide_eq_true_2. }
      by repeat split.
    - rewrite bool_decide_eq_false_2 by (intros Hx; by apply Hx).
      exists s0. by repeat split. }
  destruct Hsetup as (s2 & Hsetup & Hcm2 & Hheap2 & Hab2 & Hf2 & Hl2 & Hcr2).
  rewrite (run_bind_Done _ _ _ _ _ Hsetup).
  destruct (abort_marking_if_regular_check_fail_passes s2)
    as (t' & Hcheck & Hab' & Hcr' & Hf' & Hl' & _); [done | by rewrite Hcm2 | by rewrite Hcm2|].
  rewrite (run_bind_Done _ _ _ _ _ Hcheck).
  exists (upd_task s2 t'). split; [reflexivity|]. cbn.
  rewrite Hcm2, Hheap2. cbn.
  split; [exact Hc'|]. repeat split; try done; congruence.
Qed.

Lemma claim_loop_exhausted fuel s :
  cm_finger (cm s) = NULL -> claim_loop fuel s = Done (tt, s).
Proof.
  intros Hf. destruct fuel; cbn [claim_loop];
    cbv [has_aborted out_of_memory_server_cset gets mbind M_bind];
    rewrite Hf; simpl; by rewrite andb_false_r.
Qed.

(** X8. The claim loop of the marking step does not stop at the first
    region it gets: while no overflow is flagged and marking is not
    concurrent, a task that has not aborted claims every region that is left
    on the collection-set chain, one per round, and each claimed region
    replaces the one held.  With fuel for the length of the chain the loop
    returns with the cursor exhausted (the global finger is NULL) and the
    task holding the last region of the chain whose NTAMS is above its
    bottom (the region it held before, if there is none); the heap, the task
    queues and the overflow stack are untouched and the task has not
    aborted. *)
Theorem claim_loop_takes_every_region l : forall s,
  cset_chain (heap s) (cm_finger (cm s)) l ->
  _has_aborted (task s) = false -> _has_overflown (cm s) = false ->
  _concurrent (cm s) = false ->
  (ASSERT = true -> _finger (task s) = NULL /\ _region_limit (task s) = NULL) ->
  exists s',
    claim_loop (List.length l) s = Done (tt, s') /\
    cm_finger (cm s') = NULL /\
    _curr_region (task s') = last_claimable l (_curr_region (task s)) /\
    heap s' = heap s /\
    _task_queues (cm s') = _task_queues (cm s) /\
    _global_mark_stack (cm s') = _global_mark_stack (cm s) /\
    _has_aborted (task s') = false.
Proof.
  induction l as [|[rp r] l IH]; intros s Hc Hab Hov Hconc Hnull.
  - inversion Hc as [Hf|]; subst. exists s.
    split; [by apply claim_loop_exhausted|]. by repeat split.
  - destruct (claim_loop_round (List.length l) s rp r l Hc Hab Hov Hconc Hnull)
      as (s1 & E1 & Hc1 & Hh1 & Hq1 & Hst1 & Hab1 & Hov1 & Hconc1 & Hf1 & Hl1 & Hcr1).
    destruct (IH s1 Hc1 Hab1 Hov1 Hconc1) as (s' & E & Hfin & Hcr & Hh & Hq & Hst & Hab').
    { intros HA. rewrite Hf1, Hl1. by apply Hnull. }
    exists s'. split; [simpl List.length; by rewrite E1|].
    split; [done|]. split; [by rewrite Hcr, Hcr1, last_claimable_cons|].
    repeat split; congruence.
Qed.

(** ** What the functions of a marking step leave alone *)

(** [heap_grows h h']: the geometry of the heap is the same, every region
    is what it was but for its target-object queue, and every mark bitmap
    holds the marks it held. *)
Definition same_bounds (r r' : HeapRegion) : Prop :=
  r' = set_target_obj_queue r (target_obj_queue r').

Definition heap_grows (h h' : G1SemeruCollectedHeap) : Prop :=
  heap_start h' = heap_start h /\ GrainWords h' = GrainWords h /\
  (forall rp, option_Forall2 same_bounds (regions h !! rp) (regions h' !! rp)) /\
  (forall b, option_Forall2 (⊆) (bitmaps h !! b) (bitmaps h' !! b)).

Lemma same_bounds_refl r : same_bounds r r.
Proof. by destruct r. Qed.

Lemma same_bounds_trans r1 r2 r3 : same_bounds r1 r2 -> same_bounds r2 r3 -> same_bounds r1 r3.
Proof. unfold same_bounds. intros -> ->. by destruct r1. Qed.

Lemma heap_grows_refl h : heap_grows h h.
Proof.
  split; [done|]. split; [done|]. split; intros x.
  - destruct (regions h !! x); constructor. apply same_bounds_refl.
  - destruct (bitmaps h !! x); by constructor.
Qed.

Lemma heap_grows_trans h1 h2 h3 : heap_grows h1 h2 -> heap_grows h2 h3 -> heap_grows h1 h3.
Proof.
  intros (H1 & H2 & H3 & H4) (H1' & H2' & H3' & H4').
  split; [congruence|]. split; [congruence|]. split; intros x.
  - specialize (H3 x). specialize (H3' x).
    destruct H3 as [r1 r2 Hr|]; inversion H3' as [r2' r3 Hr'|]; subst; constructor.
    by eapply same_bounds_trans.
  - specialize (H4 x). specialize (H4' x).
    destruct H4 as [m1 m2 Hm|]; inversion H4' as [m2' m3 Hm'|]; subst; constructor.
    by etrans.
Qed.

(** [inert strict s0 s]: between [s0] and [s] the task is the same worker
    with the same closure, an abort flag that was set is still set, and the
    heap has only grown; when [strict], the task also holds the same region
    and the global finger has not moved. *)
Definition inert (strict : bool) (s0 s : state) : Prop :=
  _worker_id (task s) = _worker_id (task s0) /\
  _semeru_cm_oop_closure (task s) = _semeru_cm_oop_closure (task s0) /\
  (_has_aborted (task s0) = true -> _has_aborted (task s) = true) /\
  heap_grows (heap s0) (heap s) /\
  (strict = true ->
   _curr_region (task s) = _curr_region (task s0) /\ cm_finger (cm s) = cm_finger (cm s0)).

Lemma inert_refl strict s : inert strict s s.
Proof. split; [done|]. split; [done|]. split; [done|]. split; [apply heap_grows_refl | done]. Qed.

Lemma inert_step strict s0 s s' :
  inert strict s0 s ->
  _worker_id (task s') = _worker_id (task s) ->
  _semeru_cm_oop_closure (task s') = _semeru_cm_oop_closure (task s) ->
  (_has_aborted (task s) = true -> _has_aborted (task s') = true) ->
  heap_grows (heap s) (heap s') ->
  (strict = true ->
   _curr_region (task s') = _curr_region (task s) /\ cm_finger (cm s') = cm_finger (cm s)) ->
  inert strict s0 s'.
Proof.
  intros (H1 & H2 & H3 & H4 & H5) H1' H2' H3' H4' H5'.
  split; [congruence|]. split; [congruence|]. split; [auto|].
  split; [by eapply heap_grows_trans|].
  intros Hs. destruct (H5 Hs), (H5' Hs). split; congruence.
Qed.

Lemma inert_trans strict s0 s s' : inert strict s0 s -> inert strict s s' -> inert strict s0 s'.
Proof. intros H0 (H1 & H2 & H3 & H4 & H5). by apply (inert_step strict s0 s s'). Qed.

Lemma inert_weaken strict s0 s : inert strict s0 s -> inert false s0 s.
Proof.
  intros (H1 & H2 & H3 & H4 & _).
  split; [done|]. split; [done|]. split; [done|]. split; [done|]. intros [=].
Qed.

Ltac solve_inert :=
  match goal with
  | Hi : inert ?b ?s0 ?s |- inert _ _ _ =>
    solve [ exact Hi
          | apply (inert_step b s0 s _ Hi);
            [ reflexivity
            | reflexivity
            | cbn; intros; first [assumption | reflexivity]
            | apply heap_grows_refl
            | first [ intros _; split; reflexivity | intros ?; discriminate ] ] ]
  | Hi : inert true ?s0 ?s |- inert false _ _ =>
    apply inert_weaken in Hi; solve_inert
  | |- inert _ ?s ?s => apply inert_refl
  end.

(** Any failure. *)
Definition any_failure (e : failure) : Prop := True.

Ltac inert_step_tac call :=
  cbv beta;
  lazymatch goal with
  | |- ok _ (mbind _ _ _) _ => apply ok_bind
  | |- ok _ (mret _ _) _ => apply ok_ret
  | |- ok _ (gets _ _) _ => apply ok_gets
  | |- ok _ (out_of_fuel _) _ => apply ok_out_of_fuel
  | |- ok _ (crash _ _) _ => apply ok_crash; exact I
  | |- ok _ (assert_M _ _ _) _ => apply ok_assert_M; [exact I |]
  | |- ok _ (guarantee_M _ _ _) _ => apply ok_guarantee_M; [exact I |]
  | |- ok _ (region_at _ _) _ => apply ok_region_at; [exact I | intros ?]
  | |- ok _ (bitmap_at _ _) _ => apply ok_bitmap_at; [exact I | intros ?]
  | |- ok _ (queue_of _ _) _ => apply ok_queue_of; [exact I | intros ? ?]
  | |- ok _ ((if ?b then _ else _) _) _ => destruct b eqn:?
  | |- ok _ ((match ?x with _ => _ end) _) _ => destruct x eqn:?
  | |- ok _ ?o _ =>
    first [ call
          | apply ok_modify
          | apply ok_observe
          | let h := head_of o in unfold h ]
  end.

Ltac inert_run_with call fin :=
  repeat inert_step_tac call;
  cbv beta;
  lazymatch goal with
  | |- ok _ _ _ => idtac
  | _ => fin
  end.

Create HintDb semeru_inert.

#[local] Hint Extern 1 (inert _ _ _) => solve_inert : semeru_inert.

Ltac call_inert :=
  eapply ok_mono;
  [ solve [ eauto 2 with semeru_inert ]
  | cbv beta; intros ? ? ? ].

Ltac inert_run := inert_run_with call_inert ltac:(try solve_inert).

(** [moves b m]: [m] keeps [inert b]. *)
Abbreviation moves b m :=
  (forall s0 s, inert b s0 s -> ok any_failure (m s) (fun _ s' => inert b s0 s')).

Lemma par_mark_inert strict bm addr : moves strict (par_mark bm addr).
Proof.
  intros s0 s Hs. unfold par_mark, bitmap_at.
  apply ok_bind. destruct bm as [a|]; [|exact I].
  destruct (bitmaps (heap s) !! a) as [marks|] eqn:Ha; [|exact I]. simpl.
  destruct (bool_decide (addr ∈ marks)); [by apply ok_ret|].
  apply ok_bind, ok_modify, ok_ret.
  apply (inert_step strict s0 s _ Hs); try reflexivity; [done| |done].
  split; [done|]. split; [done|]. split; intros x; cbn.
  - destruct (regions (heap s) !! x); constructor. apply same_bounds_refl.
  - destruct (decide (x = a)) as [->|Hne].
    + rewrite lookup_insert_eq, Ha. constructor. set_solver.
    + rewrite lookup_insert_ne by done. destruct (bitmaps (heap s) !! x); by constructor.
Qed.
#[local] Hint Resolve par_mark_inert : semeru_inert.

Lemma set_target_queue_of_inert strict rp q : moves strict (set_target_queue_of rp q).
Proof.
  intros s0 s Hs. unfold set_target_queue_of, region_at.
  apply ok_bind. destruct rp as [a|]; [|exact I].
  destruct (regions (heap s) !! a) as [r|] eqn:Ha; [|exact I].
  cbn [ok mret M_ret]. apply ok_modify.
  apply (inert_step strict s0 s _ Hs); try reflexivity; [done| |done].
  split; [done|]. split; [done|]. split; intros x; cbn.
  - destruct (decide (x = a)) as [->|Hne].
    + rewrite lookup_insert_eq, Ha. constructor. by destruct r.
    + rewrite lookup_insert_ne by done.
      destruct (regions (heap s) !! x); constructor. apply same_bounds_refl.
  - destruct (bitmaps (heap s) !! x); by constructor.
Qed.
#[local] Hint Resolve set_target_queue_of_inert : semeru_inert.

Lemma observe_inert {A} strict (f : nat -> A) : moves strict (observe f).
Proof. intros s0 s Hs. apply ok_observe_keeps. solve_inert. Qed.
#[local] Hint Resolve observe_inert : semeru_inert.

Lemma move_entries_pop_inert strict room :
  forall n buffer, moves strict (move_entries_pop room n buffer).
Proof.
  induction room as [|room IH]; intros n buffer s0 s Hs; cbn [move_entries_pop]; inert_run.
Qed.
#[local] Hint Resolve move_entries_pop_inert : semeru_inert.

Lemma push_inert strict e : moves strict (push e).
Proof. intros s0 s Hs. inert_run. Qed.
#[local] Hint Resolve push_inert : semeru_inert.

Lemma get_entries_push_inert strict buffer : moves strict (get_entries_push buffer).
Proof.
  induction buffer as [|e rest IH]; intros s0 s Hs; cbn [get_entries_push]; inert_run.
Qed.
#[local] Hint Resolve get_entries_push_inert : semeru_inert.

(** A chunk is popped, or the overflow stack is empty and nothing changes. *)
Lemma get_entries_from_global_stack_inert strict s0 s :
  inert strict s0 s ->
  ok any_failure (get_entries_from_global_stack s)
     (fun got s' =>
        inert strict s0 s' /\
        (got = false ->
         s' = s /\ _chunk_list (_global_mark_stack (cm s)) = [])).
Proof.
  intros Hs. unfold get_entries_from_global_stack.
  apply ok_bind. unfold mark_stack_pop.
  apply ok_bind, ok_gets. unfold par_pop_chunk, remove_chunk_from_chunk_list.
  destruct (_chunk_list (_global_mark_stack (cm s))) as [|c rest] eqn:Hcl.
  - apply ok_bind, ok_modify, ok_ret, ok_ret. split; [solve_inert|].
    intros _. split; [|done].
    destruct s as [t c h n]. destruct c. reflexivity.
  - apply ok_bind, ok_modify, ok_ret.
    apply ok_bind. eapply ok_mono; [apply get_entries_push_inert; solve_inert|].
    cbv beta. intros _ s1 Hs1. inert_run. by split.
Qed.

Lemma get_entries_from_global_stack_moves strict : moves strict get_entries_from_global_stack.
Proof.
  intros s0 s Hs. eapply ok_mono; [by apply get_entries_from_global_stack_inert|].
  by intros got s' [Hs' _].
Qed.
#[local] Hint Resolve get_entries_from_global_stack_moves : semeru_inert.

Lemma mark_in_alive_bitmap_inert strict w obj : moves strict (mark_in_alive_bitmap w obj).
Proof. intros s0 s Hs. inert_run. Qed.
#[local] Hint Resolve mark_in_alive_bitmap_inert : semeru_inert.

Lemma deal_with_reference_inert strict p : moves strict (deal_with_reference p).
Proof. intros s0 s Hs. inert_run. Qed.
#[local] Hint Resolve deal_with_reference_inert : semeru_inert.

Lemma oop_iterate_inert strict fields : moves strict (oop_iterate fields).
Proof.
  induction fields as [|p rest IH]; intros s0 s Hs; cbn [oop_iterate]; inert_run.
Qed.
#[local] Hint Resolve oop_iterate_inert : semeru_inert.

Lemma scan_task_entry_inert strict e : moves strict (scan_task_entry e).
Proof. intros s0 s Hs. inert_run. Qed.
#[local] Hint Resolve scan_task_entry_inert : semeru_inert.

Lemma regular_clock_call_inert strict : moves strict regular_clock_call.
Proof. intros s0 s Hs. inert_run. Qed.
#[local] Hint Resolve regular_clock_call_inert : semeru_inert.

Lemma abort_marking_if_regular_check_fail_inert strict :
  moves strict abort_marking_if_regular_check_fail.
Proof. intros s0 s Hs. inert_run. Qed.
#[local] Hint Resolve abort_marking_if_regular_check_fail_inert : semeru_inert.

(** [drain_local_queue(false)] leaves the queue drained. *)
Lemma drain_local_loop_inert strict fuel : forall target ret s0 s,
  inert strict s0 s ->
  (ret = None -> my_queue s = Some []) ->
  ok any_failure (drain_local_loop fuel target ret s)
     (fun _ s' => inert strict s0 s' /\ (target = 0 -> drained s')).
Proof.
  induction fuel as [|fuel IH]; intros target ret s0 s Hs Hret;
    destruct ret as [e|]; cbn [drain_local_loop];
    try (apply ok_ret; split; [done | intros _; right; by apply Hret]).
  - apply ok_out_of_fuel.
  - apply ok_bind. eapply ok_mono; [by apply scan_task_entry_inert|].
    cbv beta. intros _ s1 Hs1.
    apply ok_bind, ok_task_queue_size; [exact I|]. intros q Hq.
    unfold has_aborted. apply ok_bind, ok_gets.
    destruct ((Z.of_nat (List.length q) <=? target) || _has_aborted (task s1)) eqn:Hstop.
    + apply ok_ret. split; [done|]. intros ->.
      apply orb_true_iff in Hstop as [Hsz|Hab]; [right | by left].
      apply Z.leb_le in Hsz. destruct q; [done | simpl in Hsz; lia].
    + apply ok_bind, ok_task_queue_pop_local; [exact I|]. intros q' Hq'.
      destruct q' as [|e' q']; (apply IH; [solve_inert | done]).
Qed.

Lemma drain_local_queue_inert strict fuel partially s0 s :
  inert strict s0 s ->
  ok any_failure (drain_local_queue fuel partially s)
     (fun _ s' => inert strict s0 s' /\ (partially = false -> drained s')).
Proof.
  intros Hs. unfold drain_local_queue, has_aborted.
  apply ok_bind, ok_gets. destruct (_has_aborted (task s)) eqn:Hab.
  { apply ok_ret. split; [done | by left]. }
  apply ok_bind, ok_task_queue_size; [exact I|]. intros q Hq.
  unfold when_. destruct (_ <? _) eqn:Hsz.
  - apply ok_bind, ok_task_queue_pop_local; [exact I|]. intros q' Hq'.
    destruct q' as [|e' q'];
      (eapply ok_mono;
       [ apply drain_local_loop_inert; [solve_inert | done]
       | cbv beta; intros _ s' [Hs' Hd]; split; [done|]; intros ->; by apply Hd ]).
  - apply ok_ret. split; [done|]. intros ->. right.
    apply Z.ltb_ge in Hsz. destruct q; [done | simpl in Hsz; lia].
Qed.

Lemma drain_local_queue_moves strict fuel partially :
  moves strict (drain_local_queue fuel partially).
Proof.
  intros s0 s Hs. eapply ok_mono; [by apply drain_local_queue_inert|].
  by intros _ s' [Hs' _].
Qed.
#[local] Hint Resolve drain_local_queue_moves : semeru_inert.

Lemma drain_global_partial_loop_inert strict fuel :
  forall target, moves strict (drain_global_partial_loop fuel target).
Proof.
  induction fuel as [|fuel IH]; intros target s0 s Hs; cbn [drain_global_partial_loop];
    inert_run.
Qed.
#[local] Hint Resolve drain_global_partial_loop_inert : semeru_inert.

(** The worker's queue and the chunk list of the overflow stack are both
    empty. *)
Definition all_drained (s : state) : Prop :=
  my_queue s = Some [] /\ _chunk_list (_global_mark_stack (cm s)) = [].

(** A total drain of the global stack that starts with the queue drained
    ends with the queue and the stack drained, or with the task aborted. *)
Lemma drain_global_total_loop_inert strict fuel : forall s0 s,
  inert strict s0 s -> drained s ->
  ok any_failure (drain_global_total_loop fuel s)
     (fun _ s' => inert strict s0 s' /\ (_has_aborted (task s') = true \/ all_drained s')).
Proof.
  induction fuel as [|fuel IH]; intros s0 s Hs Hd; cbn [drain_global_total_loop];
    unfold has_aborted; apply ok_bind, ok_gets;
    (destruct (_has_aborted (task s)) eqn:Hab; [apply ok_ret; split; [done | by left]|]);
    (destruct Hd as [Hd|Hd]; [congruence|]);
    apply ok_bind;
    (eapply ok_mono; [by apply get_entries_from_global_stack_inert|]);
    cbv beta; intros got s1 [Hs1 Hgot]; destruct got.
  - apply ok_out_of_fuel.
  - apply ok_ret. destruct (Hgot eq_refl) as [-> Hcl]. split; [done|]. by right.
  - apply ok_bind. eapply ok_mono; [by apply drain_local_queue_inert|].
    cbv beta. intros _ s2 [Hs2 Hd2]. apply IH; [done | by apply Hd2].
  - apply ok_ret. destruct (Hgot eq_refl) as [-> Hcl]. split; [done|]. by right.
Qed.

Lemma drain_global_total_loop_moves strict fuel s0 s :
  inert strict s0 s ->
  ok any_failure (drain_global_total_loop fuel s) (fun _ s' => inert strict s0 s').
Proof.
  revert s0 s. induction fuel as [|fuel IH]; intros s0 s Hs; cbn [drain_global_total_loop];
    inert_run.
Qed.
#[local] Hint Resolve drain_global_total_loop_moves : semeru_inert.

Lemma drain_global_stack_moves strict fuel partially :
  moves strict (drain_global_stack fuel partially).
Proof. intros s0 s Hs. unfold drain_global_stack, assert_eval. inert_run. Qed.
#[local] Hint Resolve drain_global_stack_moves : semeru_inert.

Lemma drain_global_stack_inert strict fuel s0 s :
  inert strict s0 s -> drained s ->
  ok any_failure (drain_global_stack fuel false s)
     (fun _ s' => inert strict s0 s' /\ (_has_aborted (task s') = true \/ all_drained s')).
Proof.
  intros Hs Hd. unfold drain_global_stack, has_aborted.
  apply ok_bind, ok_gets. destruct (_has_aborted (task s)) eqn:Hab.
  { apply ok_ret. split; [done | by left]. }
  apply ok_bind.
  assert (Hassert : ok any_failure
            (assert_eval (sz ← task_queue_size; mret (sz =? 0))
               "drain_global_stack: invariant" s) (fun _ s' => s' = s)).
  { unfold assert_eval. destruct ASSERT; [|by apply ok_ret].
    destruct Hd as [Hd|Hd]; [congruence|].
    apply ok_bind, ok_bind. rewrite (task_queue_size_run s [] Hd). simpl.
    by apply ok_assert_M. }
  eapply ok_mono; [exact Hassert|]. cbv beta. intros _ s' ->.
  by apply drain_global_total_loop_inert.
Qed.

Lemma semeru_cm_task_do_addr_inert strict fuel addr s0 s :
  inert strict s0 s ->
  ok any_failure (semeru_cm_task_do_addr fuel addr s)
     (fun scanned s' => inert strict s0 s' /\ (scanned = false -> _has_aborted (task s') = true)).
Proof.
  intros Hs. unfold semeru_cm_task_do_addr, assert_eval.
  inert_run_with call_inert ltac:(idtac).
  all: split; [solve_inert|]; cbn; by intros ?%negb_false_iff.
Qed.

Lemma semeru_cm_task_do_addr_moves strict fuel addr :
  moves strict (semeru_cm_task_do_addr fuel addr).
Proof.
  intros s0 s Hs. eapply ok_mono; [by apply semeru_cm_task_do_addr_inert|].
  by intros ? s' [Hs' _].
Qed.
#[local] Hint Resolve semeru_cm_task_do_addr_moves : semeru_inert.

Lemma trim_overflow_loop_inert strict fuel : forall q, moves strict (trim_overflow_loop fuel q).
Proof.
  induction fuel as [|fuel IH]; intros q s0 s Hs; cbn [trim_overflow_loop]; inert_run.
Qed.
#[local] Hint Resolve trim_overflow_loop_inert : semeru_inert.

Lemma trim_local_loop_inert strict fuel :
  forall q threshold, moves strict (trim_local_loop fuel q threshold).
Proof.
  induction fuel as [|fuel IH]; intros q threshold s0 s Hs; cbn [trim_local_loop]; inert_run.
Qed.
#[local] Hint Resolve trim_local_loop_inert : semeru_inert.

Lemma trim_target_object_queue_inert strict fuel :
  forall q, moves strict (trim_target_object_queue fuel q).
Proof.
  induction fuel as [|fuel IH]; intros q s0 s Hs; cbn [trim_target_object_queue]; inert_run.
Qed.
#[local] Hint Resolve trim_target_object_queue_inert : semeru_inert.

Lemma claim_region_inert w : moves false (claim_region w).
Proof. intros s0 s Hs. inert_run. Qed.
#[local] Hint Resolve claim_region_inert : semeru_inert.

Lemma setup_for_region_inert hr : moves false (setup_for_region hr).
Proof. intros s0 s Hs. inert_run. Qed.
#[local] Hint Resolve setup_for_region_inert : semeru_inert.

Lemma giveup_current_region_inert : moves false giveup_current_region.
Proof. intros s0 s Hs. inert_run. Qed.
#[local] Hint Resolve giveup_current_region_inert : semeru_inert.

(** The claim loop ends with the task aborted or the cursor exhausted. *)
Lemma claim_loop_inert fuel : forall s0 s,
  inert false s0 s ->
  ok any_failure (claim_loop fuel s)
     (fun _ s' => inert false s0 s' /\
                  (_has_aborted (task s') = true \/ cm_finger (cm s') = NULL)).
Proof.
  induction fuel as [|fuel IH]; intros s0 s Hs; cbn [claim_loop];
    unfold has_aborted, out_of_memory_server_cset;
    apply ok_bind, ok_gets, ok_bind, ok_gets;
    (destruct (_has_aborted (task s)) eqn:Hab;
     [apply ok_ret; split; [done | by left]|]);
    (destruct (cm_finger (cm s) =? NULL) eqn:Hout;
     [apply ok_ret; split; [done | right; by apply Z.eqb_eq]|]);
    cbn [negb andb].
  - apply ok_out_of_fuel.
  - inert_run_with call_inert ltac:(idtac).
    all: assumption.
Qed.

Lemma claim_loop_moves fuel : moves false (claim_loop fuel).
Proof.
  intros s0 s Hs. eapply ok_mono; [by apply claim_loop_inert|]. by intros _ s' [Hs' _].
Qed.
#[local] Hint Resolve claim_loop_moves : semeru_inert.

(** The humongous branch returns from the function only in a build without
    [ASSERT]. *)
Lemma scan_humongous_region_inert fuel r s0 s :
  inert false s0 s ->
  ok any_failure (scan_humongous_region fuel r s)
     (fun returned s' => inert false s0 s' /\ (returned = true -> ASSERT = false)).
Proof.
  intros Hs. unfold scan_humongous_region.
  apply ok_bind, ok_assert_M; [exact I|].
  apply ok_bind.
  eapply ok_mono with (Q := fun _ s' => s' = s).
  { destruct (is_starts_humongous r); [|by apply ok_ret].
    apply ok_bind, ok_gets. unfold is_marked. apply ok_bind, ok_bitmap_at; [exact I|].
    intros b. by apply ok_ret. }
  cbv beta. intros marked s' ->.
  apply ok_bind.
  eapply ok_mono with
    (Q := fun returned s' => inert false s0 s' /\ (returned = true -> ASSERT = false)).
  { destruct marked; [|by apply ok_ret].
    apply ok_bind. eapply ok_mono; [by apply semeru_cm_task_do_addr_inert|].
    cbv beta. intros scanned s1 [Hs1 _]. destruct scanned; [|by apply ok_ret].
    apply ok_bind. unfold assert_M, assert_. destruct ASSERT eqn:HA; simpl; [exact I|].
    by split. }
  cbv beta. intros returned s1 [Hs1 Hret]. destruct returned.
  - by apply ok_ret.
  - inert_run_with call_inert ltac:(idtac). split; [solve_inert | done].
Qed.

(** The loop of the step: it returns from the function only in a build
    without [ASSERT]; when it ends otherwise the task has aborted, or it
    holds no region and the cursor is exhausted. *)
Lemma marking_loop_inert fuel : forall s0 s,
  inert false s0 s ->
  ok any_failure (marking_loop fuel s)
     (fun returned s' =>
        inert false s0 s' /\
        (returned = true -> ASSERT = false) /\
        (returned = false ->
         _has_aborted (task s') = true \/
         (_curr_region (task s') = None /\ cm_finger (cm s') = NULL))).
Proof.
  induction fuel as [|fuel IH]; intros s0 s Hs; cbn [marking_loop]; [apply ok_out_of_fuel|].
  unfold has_aborted at 1. apply ok_bind, ok_gets, ok_bind, ok_gets, ok_bind.
  eapply ok_mono with
    (Q := fun returned s' => inert false s0 s' /\ (returned = true -> ASSERT = false)).
  { destruct (negb _ && _); [|by apply ok_ret].
    apply ok_bind, ok_region_at; [exact I|]. intros r.
    destruct (is_humongous r); [by apply scan_humongous_region_inert|].
    inert_run_with call_inert ltac:(idtac). split; [solve_inert | done]. }
  cbv beta. intros returned s1 [Hs1 Hret]. destruct returned.
  { apply ok_ret. split; [done|]. split; [done|]. intros [=]. }
  apply ok_bind. eapply ok_mono; [by apply drain_local_queue_moves|].
  cbv beta. intros _ s2 Hs2.
  apply ok_bind. eapply ok_mono; [by apply drain_global_stack_moves|].
  cbv beta. intros _ s3 Hs3.
  apply ok_bind. eapply ok_mono; [by apply claim_loop_inert|].
  cbv beta. intros _ s4 [Hs4 Hout].
  unfold has_aborted. apply ok_bind, ok_gets, ok_bind, ok_gets, ok_bind.
  eapply ok_mono with (Q := fun _ s' => s' = s4).
  { unfold when_. destruct (negb _ && _); [|by apply ok_ret].
    unfold out_of_memory_server_cset. apply ok_bind, ok_gets.
    by apply ok_assert_M. }
  cbv beta. intros _ s5 ->.
  apply ok_bind, ok_gets, ok_bind, ok_gets.
  destruct (bool_decide (_curr_region (task s4) ≠ None) && negb (_has_aborted (task s4)))
    eqn:Hagain.
  - by apply IH.
  - apply ok_ret. split; [done|]. split; [done|]. intros _.
    destruct (_has_aborted (task s4)) eqn:Hab; [by left|right].
    destruct Hout as [?|Hfin]; [done|]. split; [|done].
    rewrite andb_true_r in Hagain. apply bool_decide_eq_false_1 in Hagain.
    destruct (_curr_region (task s4)); [|done]. exfalso. by apply Hagain.
Qed.

Lemma expand_inert : moves false (on_global_mark_stack expand).
Proof.
  intros s0 s Hs. unfold on_global_mark_stack.
  destruct (expand (_global_mark_stack (cm s))); simpl; [solve_inert | exact I | exact I].
Qed.
#[local] Hint Resolve expand_inert : semeru_inert.

Lemma set_queues_empty_inert n : moves false (set_queues_empty n).
Proof.
  induction n as [|n IH]; intros s0 s Hs; cbn [set_queues_empty]; inert_run.
Qed.
#[local] Hint Resolve set_queues_empty_inert : semeru_inert.

Lemma marking_step_aborted_inert is_serial elapsed :
  moves false (marking_step_aborted is_serial elapsed).
Proof. intros s0 s Hs. inert_run. Qed.

(** The state in which the loop of the step starts: the flags and the
    timing fields of the task are set up, the closure is installed, and the
    task has aborted already when an overflow is flagged. *)
Definition loop_entry (s sa : state) : Prop :=
  heap sa = heap s /\ cm sa = cm s /\
  _semeru_cm_oop_closure (task sa) = true /\
  _has_aborted (task sa) = _has_overflown (cm s) /\
  _worker_id (task sa) = _worker_id (task s) /\
  _curr_region (task sa) = _curr_region (task s) /\
  _alive_bitmap (task sa) = _alive_bitmap (task s).

(** What the bookkeeping at the two ends of the step keeps. *)
Definition tweak (s s' : state) : Prop :=
  heap s' = heap s /\ cm s' = cm s /\
  _worker_id (task s') = _worker_id (task s) /\
  _curr_region (task s') = _curr_region (task s) /\
  _alive_bitmap (task s') = _alive_bitmap (task s).

Lemma tweak_refl s : tweak s s.
Proof. by repeat split. Qed.

Ltac solve_tweak := unfold tweak in *; cbn; intuition congruence.

(** One state change of the bookkeeping, after which the state is known by
    the invariant [Inv] only. *)
Ltac keep_modify Inv :=
  apply ok_bind;
  (eapply ok_mono;
   [ first [ apply ok_modify_keeps with (I := Inv)
           | apply ok_observe_keeps with (I := Inv) ];
     solve_tweak
   | cbv beta; intros ? ? ? ]).

Section Step.

(** What the loop is known to establish, as a property [R] of the region
    held and the global finger. *)
Variable R : option region_ptr -> HeapWord -> Prop.
Variable fuel : nat.
Variable s : state.

Hypothesis loop_post : forall sa,
  loop_entry s sa ->
  ok any_failure (marking_loop fuel sa)
     (fun returned s1 =>
        inert false sa s1 /\
        (returned = true -> ASSERT = false) /\
        (returned = false ->
         _has_aborted (task s1) = true \/ R (_curr_region (task s1)) (cm_finger (cm s1)))).

Lemma do_semeru_marking_step_from_loop time_target_ms do_termination is_serial :
  ok any_failure (do_semeru_marking_step fuel time_target_ms do_termination is_serial s)
     (fun _ s' =>
        heap_grows (heap s) (heap s') /\
        _worker_id (task s') = _worker_id (task s) /\
        (_has_aborted (task s') = false ->
         (ASSERT = false /\ _semeru_cm_oop_closure (task s') = true) \/
         (_semeru_cm_oop_closure (task s') = false /\
          R (_curr_region (task s')) (cm_finger (cm s')) /\ all_drained s'))).
Proof.
  unfold do_semeru_marking_step.
  apply ok_bind, ok_assert_M; [exact I|].
  keep_modify (tweak s).
  keep_modify (tweak s).
  apply ok_bind, ok_gets.
  keep_modify (tweak s).
  unfold clear_has_aborted, modify_task.
  keep_modify (fun sa => tweak s sa /\ _has_aborted (task sa) = false).
  unfold modify_task.
  keep_modify (fun sa => tweak s sa /\ _has_aborted (task sa) = false).
  keep_modify (fun sa => tweak s sa /\ _has_aborted (task sa) = false).
  unfold set_cm_oop_closure. apply ok_bind, ok_bind, ok_gets, ok_bind.
  cbn [negb]. apply ok_assert_M; [exact I|]. unfold modify_task.
  eapply ok_mono;
    [ apply ok_modify_keeps with
        (I := fun sa => tweak s sa /\ _has_aborted (task sa) = false /\
                        _semeru_cm_oop_closure (task sa) = true);
      solve_tweak |].
  cbv beta. intros _ sc (Htw & Hab & Hcl).
  unfold has_overflown. apply ok_bind, ok_gets. apply ok_bind.
  eapply ok_mono with (Q := fun _ sa => loop_entry s sa).
  { destruct Htw as (Hh & Hcm & Hw & Hcr & Hbm).
    unfold when_. destruct (_has_overflown (cm sc)) eqn:Hov.
    - apply ok_modify. rewrite Hcm in Hov. unfold loop_entry. cbn. by rewrite Hov.
    - apply ok_ret. rewrite Hcm in Hov. unfold loop_entry. by rewrite Hov. }
  cbv beta. intros _ sa Hsa. clear sc Htw Hab Hcl.
  apply ok_bind.
  eapply ok_mono; [by apply loop_post|].
  cbv beta. intros returned z1 (Hs1 & Hret & Hpost).
  assert (Hsa1 : heap_grows (heap s) (heap z1) /\ _worker_id (task z1) = _worker_id (task s) /\
                 _semeru_cm_oop_closure (task z1) = true).
  { destruct Hsa as (Hh & _ & Hcl & _ & Hw & _). destruct Hs1 as (Hw1 & Hcl1 & _ & Hg1 & _).
    rewrite <- Hh. split; [done|]. split; congruence. }
  destruct Hsa1 as (Hg1 & Hw1 & Hcl1).
  destruct returned.
  { apply ok_ret. split; [done|]. split; [done|]. intros _. left. split; [by apply Hret | done]. }
  unfold has_aborted at 1. apply ok_bind, ok_gets, ok_bind.
  eapply ok_mono with (Q := fun _ s' => s' = z1).
  { unfold when_. destruct (negb _); [|by apply ok_ret].
    unfold out_of_memory_server_cset. apply ok_bind, ok_gets. by apply ok_assert_M. }
  cbv beta. intros _ ? ->.
  apply ok_bind.
  eapply ok_mono; [apply (drain_local_queue_inert true _ _ z1), inert_refl|].
  cbv beta. intros _ z2 [Hs2 Hd2].
  apply ok_bind.
  eapply ok_mono; [apply (drain_global_stack_inert true _ z1); [exact Hs2 | by apply Hd2]|].
  cbv beta. intros _ z3 [Hs3 Hd3]. clear z2 Hs2 Hd2.
  destruct Hs3 as (Hw3 & _ & Hsticky3 & Hg3 & Hstrict). destruct (Hstrict eq_refl) as [Hcr3 Hfin3].
  clear Hstrict.
  unfold set_cm_oop_closure. apply ok_bind, ok_bind, ok_gets, ok_bind.
  cbn [negb]. apply ok_assert_M; [exact I|]. unfold modify_task.
  set (Inv := fun se => tweak z3 se /\ _has_aborted (task se) = _has_aborted (task z3) /\
                        _semeru_cm_oop_closure (task se) = false).
  eapply ok_mono; [apply ok_modify_keeps with (I := Inv); subst Inv; solve_tweak|].
  cbv beta. intros _ se He.
  apply ok_bind.
  eapply ok_mono; [apply ok_observe_keeps with (I := Inv); subst Inv; cbv beta in *; solve_tweak|].
  cbv beta. clear He se. intros t_end se He.
  apply ok_bind, ok_gets. apply ok_bind.
  eapply ok_mono; [apply ok_modify_keeps with (I := Inv); subst Inv; cbv beta in *; solve_tweak|].
  cbv beta. intros _ sf Hf. subst Inv. cbv beta in Hf. clear He.
  destruct Hf as ((Hh & Hcm & Hw & Hcr & _) & Hab & Hcl).
  unfold has_aborted. apply ok_bind, ok_gets.
  unfold when_. destruct (_has_aborted (task sf)) eqn:Habe.
  - eapply ok_mono; [apply marking_step_aborted_inert, inert_refl|].
    cbv beta. intros _ s' (Hw' & _ & Hsticky & Hg & _).
    split.
    { eapply heap_grows_trans; [exact Hg1|]. eapply heap_grows_trans; [exact Hg3|]. by rewrite <- Hh. }
    split; [congruence|]. intros Hno. rewrite (Hsticky Habe) in Hno. discriminate.
  - apply ok_ret.
    split; [rewrite Hh; by eapply heap_grows_trans|].
    split; [congruence|]. intros _. right. split; [done|].
    rewrite Hcr, Hcm. unfold all_drained, my_queue. rewrite Hcm, Hw.
    split.
    + destruct (Hpost eq_refl) as [Hab1|HR]; [|by rewrite Hcr3, Hfin3].
      rewrite (Hsticky3 Hab1) in Hab. congruence.
    + destruct Hd3 as [Hab3|Hdr]; [congruence | exact Hdr].
Qed.

End Step.

(** ** What a marking step establishes *)

(** X9. A marking step never clears a mark and never moves a region: from
    any state and with any fuel, when the step returns every mark bitmap
    holds the marks it held before, every region is what it was but for its
    target-object queue, and the geometry of the heap is unchanged. *)
Theorem marking_step_only_adds_marks (fuel : nat) (time_target_ms : float)
    (do_termination is_serial : bool) (s : state) :
  ok any_failure (do_semeru_marking_step fuel time_target_ms do_termination is_serial s)
     (fun _ s' => heap_grows (heap s) (heap s')).
Proof.
  eapply ok_mono.
  - apply (do_semeru_marking_step_from_loop
             (fun cr f => cr = None /\ f = NULL) fuel s).
    intros sa _. apply marking_loop_inert, inert_refl.
  - cbv beta. by intros _ s' (Hg & _).
Qed.

(** X10. A marking step that ends with the task not aborted has finished
    the marking: the closure is unset, the task holds no region, the cursor
    of the collection set is exhausted (the global finger is NULL), the
    worker's queue is empty and so is the chunk list of the overflow stack.
    The one exception is the return from inside the humongous branch, which
    leaves the closure set; a build with [ASSERT] fails an assertion there
    instead of returning. *)
Theorem marking_step_not_aborted_is_complete (fuel : nat) (time_target_ms : float)
    (do_termination is_serial : bool) (s : state) :
  ok any_failure (do_semeru_marking_step fuel time_target_ms do_termination is_serial s)
     (fun _ s' =>
        _has_aborted (task s') = false ->
        (ASSERT = false /\ _semeru_cm_oop_closure (task s') = true) \/
        (_semeru_cm_oop_closure (task s') = false /\
         _curr_region (task s') = None /\ cm_finger (cm s') = NULL /\
         my_queue s' = Some [] /\ _chunk_list (_global_mark_stack (cm s')) = [])).
Proof.
  eapply ok_mono.
  - apply (do_semeru_marking_step_from_loop
             (fun cr f => cr = None /\ f = NULL) fuel s).
    intros sa _. apply marking_loop_inert, inert_refl.
  - cbv beta. intros _ s' (_ & _ & Hpost) Hab.
    destruct (Hpost Hab) as [?|(Hcl & [Hcr Hfin] & [Hq Hst])]; [by left|right]. done.
Qed.

(** *** A task that has aborted *)

Lemma drain_local_queue_aborted fuel partially s :
  _has_aborted (task s) = true -> drain_local_queue fuel partially s = Done (tt, s).
Proof.
  intros Hab. unfold drain_local_queue, has_aborted. by rewrite run_bind, run_gets, Hab.
Qed.

Lemma drain_global_stack_aborted fuel partially s :
  _has_aborted (task s) = true -> drain_global_stack fuel partially s = Done (tt, s).
Proof.
  intros Hab. unfold drain_global_stack, has_aborted. by rewrite run_bind, run_gets, Hab.
Qed.

Lemma claim_loop_aborted fuel s :
  _has_aborted (task s) = true -> claim_loop fuel s = Done (tt, s).
Proof.
  intros Hab. destruct fuel; cbn [claim_loop];
    cbv [has_aborted out_of_memory_server_cset gets mbind M_bind]; by rewrite Hab.
Qed.

(** The rest of a round of the loop once the task has aborted: nothing is
    drained or claimed, and the loop ends. *)
Lemma marking_round_aborted fuel s :
  _has_aborted (task s) = true ->
  (_ ← drain_local_queue fuel true;
   _ ← drain_global_stack fuel true;
   _ ← claim_loop fuel;
   ab ← has_aborted;
   cr ← gets (fun s => _curr_region (task s));
   _ ← when_ (negb ab && bool_decide (cr = None)) (
         out ← out_of_memory_server_cset;
         assert_M out "do_semeru_marking_step: at this point we should be out of regions");
   ab ← has_aborted;
   cr ← gets (fun s => _curr_region (task s));
   if bool_decide (cr ≠ None) && negb ab then marking_loop fuel
   else mret false) s = Done (false, s).
Proof.
  intros Hab.
  rewrite (run_bind_Done _ _ _ _ _ (drain_local_queue_aborted fuel true s Hab)).
  rewrite (run_bind_Done _ _ _ _ _ (drain_global_stack_aborted fuel true s Hab)).
  rewrite (run_bind_Done _ _ _ _ _ (claim_loop_aborted fuel s Hab)).
  unfold has_aborted.
  rewrite (run_bind_Done (gets _) _ s s _ (run_gets _ s)). cbv beta.
  rewrite (run_bind_Done (gets _) _ s s _ (run_gets _ s)). cbv beta.
  rewrite Hab. cbn [negb andb when_].
  rewrite (run_bind_Done (mret tt) _ s s tt) by reflexivity.
  rewrite (run_bind_Done (gets _) _ s s _ (run_gets _ s)). cbv beta.
  rewrite (run_bind_Done (gets _) _ s s _ (run_gets _ s)). cbv beta.
  rewrite Hab. cbn [negb]. by rewrite andb_false_r.
Qed.

(** The loop of a task that holds the first region of a humongous object
    whose mark is set: it ends with the task aborted, or it returns from
    the function, which a build with [ASSERT] does not do. *)
Lemma marking_loop_humongous fuel sa rp r b marks :
  _has_aborted (task sa) = false ->
  _curr_region (task sa) = Some rp -> regions (heap sa) !! rp = Some r ->
  is_starts_humongous r = true ->
  _alive_bitmap (task sa) = Some b -> bitmaps (heap sa) !! b = Some marks ->
  bottom r ∈ marks ->
  ok any_failure (marking_loop fuel sa)
     (fun returned s1 =>
        inert false sa s1 /\
        (returned = true -> ASSERT = false) /\
        (returned = false -> _has_aborted (task s1) = true \/ False)).
Proof.
  intros Hab Hcr Hr Hsh Hbm Hb Hin.
  destruct fuel as [|fuel]; [apply ok_out_of_fuel|]. cbn [marking_loop].
  rewrite (run_bind_Done has_aborted _ sa sa false)
    by (unfold has_aborted; by rewrite run_gets, Hab).
  rewrite (run_bind_Done (gets _) _ sa sa _ (run_gets _ sa)). cbv beta.
  rewrite Hcr. cbn [negb andb].
  rewrite bool_decide_eq_true_2 by done.
  apply ok_bind.
  eapply ok_mono with
    (Q := fun returned s1 =>
            inert false sa s1 /\ (returned = true -> ASSERT = false) /\
            (returned = false -> _has_aborted (task s1) = true)).
  { rewrite (run_bind_Done _ _ _ _ _ (region_at_Some sa rp r Hr)).
    unfold is_humongous. rewrite Hsh. cbn [orb].
    unfold scan_humongous_region.
    apply ok_bind, ok_assert_M; [exact I|].
    rewrite Hsh.
    assert (Hmarked : (ab ← gets (fun s => _alive_bitmap (task s)); is_marked ab (bottom r)) sa
                      = Done (true, sa)).
    { rewrite (run_bind_Done (gets _) _ sa sa _ (run_gets _ sa)). rewrite Hbm.
      unfold is_marked, bitmap_at. rewrite run_bind, Hb. cbn beta iota.
      by rewrite bool_decide_eq_true_2. }
    rewrite (run_bind_Done _ _ _ _ _ Hmarked).
    apply ok_bind, ok_bind.
    eapply ok_mono; [apply (semeru_cm_task_do_addr_inert false), inert_refl|].
    cbv beta. intros scanned s1 [Hs1 Hscanned]. destruct scanned.
    - apply ok_bind. unfold assert_M, assert_. destruct ASSERT eqn:HA; simpl; [exact I|].
      split; [done|]. split; [done|]. intros [=].
    - apply ok_ret, ok_bind.
      eapply ok_mono; [apply (giveup_current_region_inert s1 s1), inert_refl|].
      cbv beta. intros _ s2 Hs2. apply ok_bind.
      eapply ok_mono; [apply (abort_marking_if_regular_check_fail_inert false s1 s2 Hs2)|].
      cbv beta. intros _ s3 Hs3. apply ok_ret.
      split; [by eapply inert_trans|]. split; [intros [=]|]. intros _.
      destruct Hs3 as (_ & _ & Hsticky3 & _). by apply Hsticky3, Hscanned. }
  cbv beta. intros returned s1 (Hs1 & Hret & Hpost). destruct returned.
  { apply ok_ret. split; [done|]. split; [done|]. intros [=]. }
  rewrite (marking_round_aborted fuel s1 (Hpost eq_refl)). simpl.
  split; [done|]. split; [intros [=]|]. intros _. left. by apply Hpost.
Qed.

(** X11. A step of a task that holds the first region of a humongous
    object whose mark is set, entered with no overflow flagged, does not
    complete: the scan of the object either aborts the task, and then the
    step ends with the task aborted, or it succeeds, and then the step
    leaves the function at once, with the closure still set; in a build with
    [ASSERT] it fails the assertion that stands before that return
    instead. *)
Theorem marking_step_on_marked_humongous (fuel : nat) (time_target_ms : float)
    (do_termination is_serial : bool) (s : state) rp r b marks :
  _has_overflown (cm s) = false ->
  _curr_region (task s) = Some rp -> regions (heap s) !! rp = Some r ->
  is_starts_humongous r = true ->
  _alive_bitmap (task s) = Some b -> bitmaps (heap s) !! b = Some marks ->
  bottom r ∈ marks ->
  ok any_failure (do_semeru_marking_step fuel time_target_ms do_termination is_serial s)
     (fun _ s' =>
        _has_aborted (task s') = true \/
        (ASSERT = false /\ _semeru_cm_oop_closure (task s') = true)).
Proof.
  intros Hov Hcr Hr Hsh Hbm Hb Hin.
  eapply ok_mono.
  - apply (do_semeru_marking_step_from_loop (fun _ _ => False) fuel s).
    intros sa (Hh & Hcm & _ & Hab & _ & Hcr' & Hbm').
    apply (marking_loop_humongous fuel sa rp r b marks); congruence.
  - cbv beta. intros _ s' (_ & _ & Hpost).
    destruct (_has_aborted (task s')) eqn:Hab; [by left|right].
    destruct (Hpost eq_refl) as [?|(_ & [] & _)]. done.
Qed.

(** ** A step entered while an overflow is flagged *)

(** [returns o Q]: the outcome [o] is a result, and it satisfies [Q]. *)
Definition returns {A} (o : outcome (A * state)) (Q : A -> state -> Prop) : Prop :=
  match o with
  | Done (a, s') => Q a s'
  | _ => False
  end.

Lemma returns_mono {A} (o : outcome (A * state)) (Q Q' : A -> state -> Prop) :
  returns o Q -> (forall a s, Q a s -> Q' a s) -> returns o Q'.
Proof. destruct o as [[a s]| |]; simpl; auto. Qed.

Lemma returns_bind {A B} (m : M A) (k : A -> M B) s Q :
  returns (m s) (fun a s' => returns (k a s') Q) -> returns ((m ≫= k) s) Q.
Proof. rewrite run_bind. destruct (m s) as [[a s']| |]; simpl; auto. Qed.

Lemma returns_ret {A} (a : A) s (Q : A -> state -> Prop) : Q a s -> returns ((mret a : M A) s) Q.
Proof. auto. Qed.

Lemma returns_gets {A} (f : state -> A) s (Q : A -> state -> Prop) :
  Q (f s) s -> returns (gets f s) Q.
Proof. auto. Qed.

Lemma returns_modify_keeps (I : state -> Prop) f s :
  I (f s) -> returns (modify f s) (fun _ s' => I s').
Proof. auto. Qed.

Lemma returns_observe_keeps {A} (I : state -> Prop) (f : nat -> A) s :
  I (upd_now s (S (now s))) -> returns (observe f s) (fun _ s' => I s').
Proof. auto. Qed.

Lemma returns_assert_M c site s (Q : unit -> state -> Prop) :
  (ASSERT = true -> c = true) -> Q tt s -> returns (assert_M c site s) Q.
Proof. intros Hc HQ. by rewrite (assert_M_passes c site s Hc). Qed.

Lemma returns_eq {A} (m : M A) s a s' (Q : A -> state -> Prop) :
  m s = Done (a, s') -> Q a s' -> returns (m s) Q.
Proof. by intros ->. Qed.

Lemma returns_Done {A} (o : outcome (A * state)) Q :
  returns o Q -> exists a s', o = Done (a, s') /\ Q a s'.
Proof. destruct o as [[a s']| |]; simpl; [eauto | done | done]. Qed.

(** The loop of a task that has aborted does nothing. *)
Lemma marking_loop_aborted fuel s :
  _has_aborted (task s) = true -> marking_loop (S fuel) s = Done (false, s).
Proof.
  intros Hab. cbn [marking_loop].
  rewrite (run_bind_Done has_aborted _ s s true)
    by (unfold has_aborted; by rewrite run_gets, Hab).
  rewrite (run_bind_Done (gets _) _ s s _ (run_gets _ s)). cbv beta.
  cbn [negb andb].
  rewrite (run_bind_Done (mret false) _ s s false) by reflexivity.
  by apply marking_round_aborted.
Qed.

(** What the step leaves of the state it was entered in, while it does its
    bookkeeping: the heap, the global marking state and the worker, with
    [ab], [cl] and [cr] the abort flag, the closure and the region held. *)
Definition bookkeeping (s : state) (ab cl : bool) (cr : option region_ptr)
    (sa : state) : Prop :=
  heap sa = heap s /\ cm sa = cm s /\
  _worker_id (task sa) = _worker_id (task s) /\
  _words_scanned (task sa) = _words_scanned (task s) /\
  _has_timed_out (task sa) = false /\
  _has_aborted (task sa) = ab /\
  _semeru_cm_oop_closure (task sa) = cl /\
  _curr_region (task sa) = cr.

Ltac solve_bookkeeping := unfold bookkeeping in *; cbn; intuition congruence.

Ltac keep_going Inv :=
  apply returns_bind;
  (eapply returns_mono;
   [ first [ apply returns_modify_keeps with (I := Inv)
           | apply returns_observe_keeps with (I := Inv) ];
     solve_bookkeeping
   | cbv beta; intros ? ? ? ]).

(** X12. A step entered while the global overflow flag is set does no
    marking.  With one unit of fuel it returns (in a build with [ASSERT],
    given a time target of at least 1 ms and a closure that is not set),
    and then the task has aborted and holds no region, its two fingers are
    NULL and the closure is unset again, while the heap (every mark and
    every target-object queue), the words scanned, the task queues, the
    overflow stack, the global finger and the overflow flag are what they
    were.  The task is not the one that restarts the marking (the step is
    serial, or marking is not concurrent, or the worker is not worker 0). *)
Theorem marking_step_under_overflow (fuel : nat) (time_target_ms : float)
    (do_termination is_serial : bool) (s : state) :
  _has_overflown (cm s) = true ->
  (ASSERT = true ->
   PrimFloat.leb 1%float time_target_ms = true /\ _semeru_cm_oop_closure (task s) = false) ->
  (is_serial = false -> _concurrent (cm s) && (_worker_id (task s) =? 0)%nat = false) ->
  exists s',
    do_semeru_marking_step (S fuel) time_target_ms do_termination is_serial s = Done (tt, s') /\
    _has_aborted (task s') = true /\
    _curr_region (task s') = None /\ _finger (task s') = NULL /\
    _region_limit (task s') = NULL /\
    _semeru_cm_oop_closure (task s') = false /\
    heap s' = heap s /\
    _words_scanned (task s') = _words_scanned (task s) /\
    _task_queues (cm s') = _task_queues (cm s) /\
    _global_mark_stack (cm s') = _global_mark_stack (cm s) /\
    cm_finger (cm s') = cm_finger (cm s) /\
    _has_overflown (cm s') = true.
Proof.
  intros Hov Hdbg Hrestart.
  set (Q := fun (_ : unit) (s' : state) =>
    _has_aborted (task s') = true /\
    _curr_region (task s') = None /\ _finger (task s') = NULL /\
    _region_limit (task s') = NULL /\
    _semeru_cm_oop_closure (task s') = false /\
    heap s' = heap s /\
    _words_scanned (task s') = _words_scanned (task s) /\
    _task_queues (cm s') = _task_queues (cm s) /\
    _global_mark_stack (cm s') = _global_mark_stack (cm s) /\
    cm_finger (cm s') = cm_finger (cm s) /\
    _has_overflown (cm s') = true).
  cut (returns (do_semeru_marking_step (S fuel) time_target_ms do_termination is_serial s) Q).
  { intros Hr. apply returns_Done in Hr as ([] & s' & E & HQ). by exists s'. }
  unfold do_semeru_marking_step.
  apply returns_bind, returns_assert_M; [intros HA; by apply Hdbg|].
  set (cl0 := _semeru_cm_oop_closure (task s)).
  set (cr0 := _curr_region (task s)).
  (* the timing fields *)
  apply returns_bind.
  eapply returns_mono with
    (Q := fun _ sa => heap sa = heap s /\ cm sa = cm s /\
                      _worker_id (task sa) = _worker_id (task s) /\
                      _words_scanned (task sa) = _words_scanned (task s) /\
                      _semeru_cm_oop_closure (task sa) = cl0 /\
                      _curr_region (task sa) = cr0).
  { by apply returns_observe_keeps. }
  cbv beta. intros t0 s1 H1.
  set (Inv0 := fun sa => heap sa = heap s /\ cm sa = cm s /\
                         _worker_id (task sa) = _worker_id (task s) /\
                         _words_scanned (task sa) = _words_scanned (task s) /\
                         _semeru_cm_oop_closure (task sa) = cl0 /\
                         _curr_region (task sa) = cr0).
  apply returns_bind.
  eapply returns_mono; [apply returns_modify_keeps with (I := Inv0); subst Inv0; cbn; tauto|].
  cbv beta. intros _ s2 H2. clear H1.
  apply returns_bind, returns_gets.
  apply returns_bind.
  eapply returns_mono; [apply returns_modify_keeps with (I := Inv0); subst Inv0; cbn in *; tauto|].
  cbv beta. intros _ s3 H3. clear H2.
  (* the flags *)
  apply returns_bind.
  eapply returns_mono;
    [apply returns_modify_keeps with (I := Inv0); subst Inv0; cbn in *; tauto|].
  cbv beta. intros _ s4 H4. clear H3.
  apply returns_bind.
  eapply returns_mono;
    [apply returns_modify_keeps with
       (I := fun sa => Inv0 sa /\ _has_timed_out (task sa) = false);
     subst Inv0; cbn in *; tauto|].
  cbv beta. intros _ s5 H5. clear H4.
  apply returns_bind.
  eapply returns_mono;
    [apply returns_modify_keeps with
       (I := fun sa => Inv0 sa /\ _has_timed_out (task sa) = false);
     subst Inv0; cbn in *; tauto|].
  cbv beta. intros _ s6 [H6 Hto6]. clear H5. subst Inv0. cbv beta in H6.
  destruct H6 as (Hh6 & Hcm6 & Hw6 & Hws6 & Hcl6 & Hcr6).
  (* the closure *)
  unfold set_cm_oop_closure at 1.
  apply returns_bind, returns_bind, returns_gets, returns_bind.
  cbn [negb]. apply returns_assert_M.
  { intros HA. apply negb_true_iff. rewrite Hcl6. by apply Hdbg. }
  eapply returns_mono;
    [apply returns_modify_keeps with
       (I := fun sa => heap sa = heap s /\ cm sa = cm s /\
                       _worker_id (task sa) = _worker_id (task s) /\
                       _words_scanned (task sa) = _words_scanned (task s) /\
                       _has_timed_out (task sa) = false /\
                       _semeru_cm_oop_closure (task sa) = true /\
                       _curr_region (task sa) = cr0);
     cbn; tauto|].
  cbv beta. intros _ s7 (Hh7 & Hcm7 & Hw7 & Hws7 & Hto7 & Hcl7 & Hcr7).
  clear s6 Hh6 Hcm6 Hw6 Hws6 Hcl6 Hcr6 Hto6.
  (* the overflow *)
  unfold has_overflown. apply returns_bind, returns_gets.
  rewrite Hcm7, Hov. cbn [when_].
  apply returns_bind.
  eapply returns_mono;
    [apply returns_modify_keeps with (I := bookkeeping s true true cr0); solve_bookkeeping|].
  cbv beta. intros _ s8 H8. clear s7 Hh7 Hcm7 Hw7 Hws7 Hto7 Hcl7 Hcr7.
  assert (Hab8 : _has_aborted (task s8) = true) by (unfold bookkeeping in H8; tauto).
  (* the loop and the drains *)
  apply returns_bind. eapply returns_eq; [by apply marking_loop_aborted|].
  cbv beta iota.
  unfold has_aborted at 1. apply returns_bind, returns_gets. rewrite Hab8. cbn [negb when_].
  apply returns_bind, returns_ret.
  apply returns_bind. eapply returns_eq; [by apply drain_local_queue_aborted|].
  apply returns_bind. eapply returns_eq; [by apply drain_global_stack_aborted|].
  unfold set_cm_oop_closure.
  apply returns_bind, returns_bind, returns_gets, returns_bind.
  cbn [negb]. apply returns_assert_M; [intros _; unfold bookkeeping in H8; tauto|].
  eapply returns_mono;
    [apply returns_modify_keeps with (I := bookkeeping s true false cr0); solve_bookkeeping|].
  cbv beta. intros _ s9 H9. clear s8 H8 Hab8.
  keep_going (bookkeeping s true false cr0).
  apply returns_bind, returns_gets.
  keep_going (bookkeeping s true false cr0).
  unfold has_aborted. apply returns_bind, returns_gets.
  match goal with Hb : bookkeeping _ _ _ _ ?sx |- returns (when_ (_has_aborted (task ?sx)) _ _) _ =>
    destruct Hb as (Hh & Hcm & Hw & Hws & Hto & Hab & Hcl & Hcr); rewrite Hab
  end.
  cbn [when_].
  (* the end of a step that has aborted *)
  unfold marking_step_aborted.
  apply returns_bind, returns_gets. rewrite Hto. cbn [when_].
  apply returns_bind, returns_ret.
  unfold has_overflown. apply returns_bind, returns_gets. rewrite Hcm, Hov. cbn [when_].
  apply returns_bind, returns_gets. rewrite Hw.
  set (Inv1 := fun sa => heap sa = heap s /\
                 _words_scanned (task sa) = _words_scanned (task s) /\
                 _worker_id (task sa) = _worker_id (task s) /\
                 _has_aborted (task sa) = true /\
                 _semeru_cm_oop_closure (task sa) = false /\
                 _task_queues (cm sa) = _task_queues (cm s) /\
                 _global_mark_stack (cm sa) = _global_mark_stack (cm s) /\
                 cm_finger (cm sa) = cm_finger (cm s) /\
                 _has_overflown (cm sa) = true /\
                 _concurrent (cm sa) = _concurrent (cm s)).
  apply returns_bind.
  eapply returns_mono with (Q := fun _ sa => Inv1 sa).
  { destruct is_serial; cbn [negb when_]; [apply returns_ret|].
    - subst Inv1. cbv beta. rewrite Hh, Hcm. tauto.
    - unfold enter_first_sync_barrier. apply returns_bind, returns_gets.
      cbn [barrier_enter]. apply returns_bind.
      eapply returns_mono;
        [apply returns_modify_keeps with (I := Inv1); subst Inv1; cbn; rewrite Hh, Hcm; tauto|].
      cbv beta. intros _ sb Hsb. by destruct (negb (negb _)); apply returns_ret. }
  cbv beta. intros _ sb Hsb.
  unfold clear_region_fields.
  apply returns_bind, returns_bind.
  eapply returns_mono;
    [apply returns_modify_keeps with
       (I := fun sa => Inv1 sa /\ _curr_region (task sa) = None);
     subst Inv1; cbn in *; tauto|].
  cbv beta. intros _ sc Hsc. clear sb Hsb.
  apply returns_bind.
  eapply returns_mono;
    [apply returns_modify_keeps with
       (I := fun sa => Inv1 sa /\ _curr_region (task sa) = None /\ _finger (task sa) = NULL);
     subst Inv1; cbn in *; tauto|].
  cbv beta. intros _ sd Hsd. clear sc Hsc.
  set (Inv2 := fun sa => Inv1 sa /\ _curr_region (task sa) = None /\ _finger (task sa) = NULL /\
                         _region_limit (task sa) = NULL).
  eapply returns_mono;
    [apply returns_modify_keeps with (I := Inv2); subst Inv2 Inv1; cbn in *; tauto|].
  cbv beta. intros _ se Hse. clear sd Hsd.
  unfold flush_mark_stats_cache. apply returns_bind, returns_bind, returns_gets.
  eapply returns_mono;
    [apply returns_modify_keeps with (I := Inv2); subst Inv2 Inv1; cbn in *; tauto|].
  cbv beta. intros _ sg Hsg. clear se Hse.
  assert (Hfin : forall sx, Inv2 sx -> Q tt sx).
  { intros sx. subst Inv2 Inv1 Q. cbv beta. tauto. }
  destruct is_serial; cbn [negb when_]; [by apply returns_ret, Hfin|].
  unfold concurrent. apply returns_bind, returns_gets.
  assert (Hno' : _concurrent (cm sg) && (_worker_id (task s) =? 0)%nat = false).
  { subst Inv2 Inv1. cbv beta in Hsg.
    destruct Hsg as ((_ & _ & _ & _ & _ & _ & _ & _ & _ & Hconc) & _).
    rewrite Hconc. by apply Hrestart. }
  apply returns_bind.
  rewrite Hno'. cbn [when_]. apply returns_ret.
  unfold enter_second_sync_barrier. apply returns_bind, returns_gets.
  cbn [barrier_enter].
  eapply returns_mono;
    [apply returns_modify_keeps with (I := Inv2); subst Inv2 Inv1; cbn in *; tauto|].
  cbv beta. intros [] sh Hsh. by apply Hfin.
Qed.

(** ** Restarting the marking after an overflow *)

Lemma set_queues_empty_run n : forall s,
  (forall i, (i < n)%nat -> is_Some (_task_queues (cm s) !! i)) ->
  exists qs,
    set_queues_empty n s = Done (tt, upd_cm s (upd_task_queues (cm s) qs)) /\
    (forall i, (i < n)%nat -> qs !! i = Some []) /\
    (forall i, (n <= i)%nat -> qs !! i = _task_queues (cm s) !! i).
Proof.
  induction n as [|n IH]; intros s Hq.
  - exists (_task_queues (cm s)). split; [|split; [lia | done]].
    destruct s as [t c h k]. by destruct c.
  - destruct (IH s) as (qs & E & Hlt & Hge); [intros i Hi; apply Hq; lia|].
    destruct (Hq n) as [q Hn]; [lia|].
    exists (<[n := []]> qs). split; [|split].
    + cbn [set_queues_empty]. rewrite (run_bind_Done _ _ _ _ _ E).
      assert (Hqn : queue_of n (upd_cm s (upd_task_queues (cm s) qs))
                    = Done (q, upd_cm s (upd_task_queues (cm s) qs))).
      { unfold queue_of. cbn. rewrite (Hge n) by lia. by rewrite Hn. }
      rewrite (run_bind_Done _ _ _ _ _ Hqn). reflexivity.
    + intros i Hi. destruct (decide (i = n)) as [->|Hne].
      * apply lookup_insert_eq.
      * rewrite lookup_insert_ne by done. apply Hlt. lia.
    + intros i Hi. rewrite lookup_insert_ne by lia. apply Hge. lia.
Qed.

(** X13. [reset_marking_for_restart] returns when each of the
    [_max_num_tasks] tasks has a queue, and leaves the marking ready to
    start again: the queue of every task is empty, the overflow stack is
    empty (no chunk on either list, [_hwm] 0) with a capacity that is the
    old one or, after an overflow, the doubled one capped by the maximum,
    the overflow flag is clear and the global finger is at the start of the
    heap.  The heap, with every mark set so far, and the task are not
    touched; the shared live-word counters are zeroed after an overflow and
    untouched otherwise. *)
Theorem reset_marking_for_restart_starts_over (s : state) :
  (forall i, (i < _max_num_tasks (cm s))%nat -> is_Some (_task_queues (cm s) !! i)) ->
  exists s',
    reset_marking_for_restart s = Done (tt, s') /\
    (forall i, (i < _max_num_tasks (cm s))%nat -> _task_queues (cm s') !! i = Some []) /\
    (forall i, (_max_num_tasks (cm s) <= i)%nat ->
               _task_queues (cm s') !! i = _task_queues (cm s) !! i) /\
    (let st := _global_mark_stack (cm s) in
     let st' := _global_mark_stack (cm s') in
     _chunk_list st' = [] /\ _free_list st' = [] /\ _hwm st' = 0 /\
     _chunks_in_chunk_list st' = 0 /\
     _max_chunk_capacity st' = _max_chunk_capacity st /\
     (_chunk_capacity st' = _chunk_capacity st \/
      (_has_overflown (cm s) = true /\
       _chunk_capacity st' = Z.min (size_t_mul (_chunk_capacity st) 2) (_max_chunk_capacity st)))) /\
    _has_overflown (cm s') = false /\
    cm_finger (cm s') = heap_start (heap s) /\
    heap s' = heap s /\ task s' = task s /\
    _region_mark_stats (cm s')
      = (if _has_overflown (cm s) then (fun _ => 0) <$> _region_mark_stats (cm s)
         else _region_mark_stats (cm s)).
Proof.
  intros Hq. unfold reset_marking_for_restart.
  rewrite (run_bind_Done (modify_cm _) _ s _ tt) by reflexivity.
  set (s1 := upd_cm s _).
  unfold has_overflown.
  rewrite (run_bind_Done (gets _) _ s1 s1 _ (run_gets _ s1)). cbv beta.
  change (_has_overflown (cm s1)) with (_has_overflown (cm s)).
  set (st := _global_mark_stack (cm s)).
  assert (Hexp : exists st',
    expand (set_empty st) = Done st' /\
    _chunk_list st' = [] /\ _free_list st' = [] /\ _hwm st' = 0 /\
    _chunks_in_chunk_list st' = 0 /\ _max_chunk_capacity st' = _max_chunk_capacity st /\
    (_chunk_capacity st' = _chunk_capacity st \/
     _chunk_capacity st' = Z.min (size_t_mul (_chunk_capacity st) 2) (_max_chunk_capacity st))).
  { unfold expand, resize. cbn [_chunk_capacity _max_chunk_capacity set_empty].
    destruct (_chunk_capacity st =? _max_chunk_capacity st).
    { eexists. split; [reflexivity|]. cbn. tauto. }
    unfold assert_. cbn [mark_stack_is_empty _chunk_list negb].
    rewrite andb_false_r. cbn [mbind outcome_bind].
    rewrite (proj2 (Z.leb_le _ _) (Z.le_min_r _ _)). cbn [negb].
    rewrite andb_false_r. cbn [mbind outcome_bind].
    destruct (mmap_allocate_ok _); eexists; (split; [reflexivity|]); cbn; tauto. }
  destruct Hexp as (st' & Hexp & Hcl & Hfl & Hhwm & Hn & Hmax & Hcap).
  destruct (_has_overflown (cm s)) eqn:Hov; cbn [when_].
  - assert (Hon : on_global_mark_stack expand s1
                  = Done (tt, upd_cm s1 (upd_global_mark_stack (cm s1) st'))).
    { unfold on_global_mark_stack. subst s1. cbn. fold st. by rewrite Hexp. }
    rewrite run_bind, (run_bind_Done _ _ _ _ _ Hon).
    cbv [modify_cm modify clear_has_overflown gets mbind M_bind]. cbn beta iota.
    set (s2 := upd_cm _ _).
    destruct (set_queues_empty_run (_max_num_tasks (cm s)) s2 Hq) as (qs & E & Hlt & Hge).
    change (_max_num_tasks (cm s2)) with (_max_num_tasks (cm s)).
    rewrite E. eexists. split; [reflexivity|]. cbn.
    split; [exact Hlt|]. split; [exact Hge|].
    split; [|done]. repeat (split; [done|]). destruct Hcap as [?|?]; [by left | by right].
  - cbv [modify_cm modify clear_has_overflown gets mbind M_bind mret M_ret]. cbn beta iota.
    set (s2 := upd_cm _ _).
    destruct (set_queues_empty_run (_max_num_tasks (cm s)) s2 Hq) as (qs & E & Hlt & Hge).
    change (_max_num_tasks (cm s2)) with (_max_num_tasks (cm s)).
    rewrite E. eexists. split; [reflexivity|]. cbn.
    split; [exact Hlt|]. split; [exact Hge|].
    split; [|done]. repeat (split; [done|]). by left.
Qed.

End Program.


(** ** Scenarios *)

(** A build with assertions, task queues of two entries, chunks of four,
    objects of two words; heap regions are 1000 words each, from address
    1000. *)
#[local] Instance scenario_setting : Setting := {|
  ASSERT := true;
  EntriesPerChunk := 4;
  max_elems := 2;
  target_queue_max_elems := 4;
  GCDrainStackTargetSize := 64;
  words_scanned_period := 12288;
  refs_reached_period := 1024;
  obj_size := fun _ => 2;
  obj_ref_fields := fun _ => [];
  oop_load := fun p => if p =? 52 then 1900 else if (50 <=? p) && (p <? 52) then 1100 else 0;
  is_typeArray := fun _ => false;
  should_be_sliced := fun _ => false;
  os_elapsedVTime := fun _ => 0%float;
  sts_should_yield := fun _ => false;
  satb_process_completed_buffers := fun _ => false;
  get_new_prediction := fun _ => 0%float;
  mmap_allocate_ok := fun _ => true;
  is_oop := fun _ => true;
  is_in_g1_reserved := fun obj => (1000 <=? obj) && (obj <? 3000);
  is_on_master_free_list := fun _ => false;
  is_obj_ill := fun _ => false;
  next_mark_bitmap_is_marked := fun _ => true;
  mark_stack_size := fun st => _chunks_in_chunk_list st * 4;
  partial_mark_stack_size_target := fun st => _chunk_capacity st / 3
|}.

(** Region 0 is a normal region with NTAMS 1200, followed in the collection
    set by region 1, which starts a humongous object that is not marked. *)
Definition scenario_region0 : HeapRegion :=
  mkHeapRegion 0 1000 2000 1500 1200 (Some 0%nat) (Some 1%nat) (Some 1%nat) false false
    (mkTargetObjQueue [] []).
Definition scenario_region1 : HeapRegion :=
  mkHeapRegion 1 2000 3000 2500 2500 (Some 2%nat) (Some 3%nat) None true false
    (mkTargetObjQueue [] []).
Definition scenario_heap : G1SemeruCollectedHeap :=
  mkHeap (<[0%nat := scenario_region0]> (<[1%nat := scenario_region1]> ∅))
         (<[0%nat := ∅]> (<[2%nat := ∅]> ∅)) 1000 1000.

Definition scenario_stack : G1SemeruCMMarkStack := mkMarkStack 8 4 [] 0 [] 0.
Definition scenario_barrier : WorkGangBarrierSync := mkBarrier 2 0 false.

(** The marker with the finger at [finger], worker 0's queue [q0], and one
    entry in the queue of worker 1. *)
Definition scenario_cm (finger : HeapWord) (concurrent : bool)
    (q0 : list G1SemeruTaskQueueEntry) : G1SemeruConcurrentMark :=
  mkCM finger false false concurrent scenario_stack
    (<[0%nat := q0]> (<[1%nat := [oop_entry 2700]]> ∅)) 2 0
    scenario_barrier scenario_barrier ∅ ∅.

(** The task of worker 0, holding the region [cr] with alive bitmap [ab]. *)
Definition scenario_task (cr : option region_ptr) (ab : option bitmap_ptr) (aborted : bool)
    : G1SemeruCMTask :=
  mkTask 0 cr ab None 0 0 0 0 0 0 0 0 aborted false false 0%float 0%float 0 false [] [].

Definition result_state {A} (o : outcome (A * state)) (otherwise : state) : state :=
  match o with
  | Done (_, s') => s'
  | _ => otherwise
  end.

(** *** A step that claims the last region of the collection set *)

Definition scenario_step_start : state :=
  mkState (scenario_task None None false) (scenario_cm 2000 true []) scenario_heap 0.
Definition scenario_step_end : state :=
  result_state (do_semeru_marking_step 8 10%float true false scenario_step_start)
    scenario_step_start.

Example scenario_step_runs :
  do_semeru_marking_step 8 10%float true false scenario_step_start
    = Done (tt, scenario_step_end).
Proof. vm_compute. reflexivity. Qed.

(** C4, refuted as stated: the step above is not serial, is asked to
    terminate, and ends with the task not aborted; yet the entry in worker
    1's queue is still there for a steal to take, and no termination has
    been offered. *)
Definition stolen_out_and_terminated (s s' : state) : bool :=
  match try_stealing (_worker_id (task s')) s' with
  | Done (None, _) => true
  | _ => false
  end
  && (_offered_termination (cm s) <? _offered_termination (cm s')).

Lemma marking_step_leaves_work_to_steal :
  do_semeru_marking_step 8 10%float true false scenario_step_start
    = Done (tt, scenario_step_end) /\
  _has_aborted (task scenario_step_end) = false /\
  _task_queues (cm scenario_step_end) !! 1%nat = Some [oop_entry 2700] /\
  fst <$> (match try_stealing 0 scenario_step_end with
           | Done r => Some r
           | _ => None
           end) = Some (Some (oop_entry 2700)) /\
  _offered_termination (cm scenario_step_end) = 0 /\
  stolen_out_and_terminated scenario_step_start scenario_step_end = false.
Proof. vm_compute. repeat split; reflexivity. Qed.

Lemma marking_step_neither_steals_nor_terminates_witness :
  others_untouched scenario_step_start scenario_step_end /\
  do_semeru_marking_step 8 10%float false false scenario_step_start
    = Done (tt, scenario_step_end).
Proof.
  apply (marking_step_neither_steals_nor_terminates 8 10%float true false
           scenario_step_start scenario_step_end).
  - vm_compute. reflexivity.
  - vm_compute. reflexivity.
Defined.

(** *** The clock call of a task that has aborted *)

Definition scenario_aborted : state :=
  mkState (scenario_task None None true) (scenario_cm 0 false []) scenario_heap 0.

(** C6, refuted as stated: the task has aborted, nothing has overflown
    and the phase is not concurrent; the call returns false, and the limits
    are as they were. *)
Lemma regular_clock_call_of_aborted_task :
  _has_aborted (task scenario_aborted) = true /\
  _has_overflown (cm scenario_aborted) = false /\
  _concurrent (cm scenario_aborted) = false /\
  regular_clock_call scenario_aborted = Done (false, scenario_aborted) /\
  _words_scanned_limit (task scenario_aborted) = 0 /\
  match recalculate_limits scenario_aborted with
  | Done (_, s1) => Some (_words_scanned_limit (task s1))
  | _ => None
  end = Some 12288.
Proof. vm_compute. repeat split; reflexivity. Qed.

(** The same state with the flag clear: the limits are recalculated and,
    the phase not being concurrent, the call returns true. *)
Example scenario_clock_not_concurrent :
  match regular_clock_call
          (mkState (scenario_task None None false) (scenario_cm 0 false []) scenario_heap 0) with
  | Done (r, s1) => Some (r, _words_scanned_limit (task s1), now s1)
  | _ => None
  end = Some (true, 12288, 0%nat).
Proof. vm_compute. reflexivity. Qed.

(** *** Claims along the collection set *)

Definition scenario_claim_start : state :=
  mkState (scenario_task None None false) (scenario_cm 1000 true []) scenario_heap 0.
Definition scenario_claim_end : state :=
  result_state (claim_regions [0; 1; 0]%nat scenario_claim_start) scenario_claim_start.

(** The first claim takes region 0 and moves the finger to the bottom of
    region 1; the second takes region 1, the last, and leaves the finger
    NULL; the third finds the cursor exhausted. *)
Example scenario_claims :
  match (r1 ← claim_region 0%nat; f1 ← gets (fun s => cm_finger (cm s));
         r2 ← claim_region 1%nat; f2 ← gets (fun s => cm_finger (cm s));
         r3 ← claim_region 0%nat; f3 ← gets (fun s => cm_finger (cm s));
         mret [(r1, f1); (r2, f2); (r3, f3)]) scenario_claim_start with
  | Done (l, _) => l
  | _ => []
  end = [(Some 0%nat, 2000); (Some 1%nat, 0); (None, 0)].
Proof. vm_compute. reflexivity. Qed.

Lemma scenario_claim_distance :
  cset_distance (heap scenario_claim_start) (cm_finger (cm scenario_claim_start)) 2.
Proof.
  apply (cset_next _ 1000 0%nat scenario_region0 2000 1); try (vm_compute; congruence).
  apply (cset_next _ 2000 1%nat scenario_region1 0 0); try (vm_compute; congruence).
  constructor.
Defined.

Lemma finger_is_monotone_witness :
  claim_regions [0; 1; 0]%nat scenario_claim_start = Done ([2000; 0; 0], scenario_claim_end) /\
  heap scenario_claim_end = heap scenario_claim_start /\
  exists ds, Forall2 (cset_distance (heap scenario_claim_start)) [2000; 0; 0] ds /\
             steps_down 2 ds.
Proof.
  assert (Hrun : claim_regions [0; 1; 0]%nat scenario_claim_start
                 = Done ([2000; 0; 0], scenario_claim_end)) by (vm_compute; reflexivity).
  split; [exact Hrun|].
  exact (finger_is_monotone [0; 1; 0]%nat scenario_claim_start 2 [2000; 0; 0]
           scenario_claim_end scenario_claim_distance Hrun).
Defined.

(** *** A push onto a full queue *)

Definition scenario_full : state :=
  mkState (scenario_task (Some 0%nat) (Some 0%nat) false)
          (scenario_cm 0 true [oop_entry 1102; oop_entry 1100]) scenario_heap 0.

Lemma push_retry_succeeds_witness :
  task_queue_push (oop_entry 1104) scenario_full = Done (false, scenario_full) /\
  exists s', push (oop_entry 1104) scenario_full = Done (tt, s') /\
             my_queue s' = Some [oop_entry 1104].
Proof.
  destruct (push_retry_succeeds scenario_full [oop_entry 1102; oop_entry 1100]
              (oop_entry 1104))
    as (Hfirst & s1 & s' & _ & _ & Hpush & Hq);
    [vm_compute; lia | vm_compute; lia | reflexivity | reflexivity | reflexivity |].
  split; [exact Hfirst|]. exists s'. split; [exact Hpush | exact Hq].
Defined.

Lemma move_entries_to_global_stack_spec_witness :
  exists s', move_entries_to_global_stack scenario_full = Done (tt, s') /\
             my_queue s' = Some [] /\
             exists c, _chunk_list (_global_mark_stack (cm s'))
                       = [mkChunk c [oop_entry 1102; oop_entry 1100; null_entry; null_entry]].
Proof.
  destruct (move_entries_to_global_stack_spec scenario_full
              [oop_entry 1102; oop_entry 1100])
    as (_ & _ & _ & _ & s' & Hrun & Hq & Hstack & Hpushed);
    [reflexivity | discriminate | vm_compute; lia |].
  exists s'. split; [exact Hrun|]. split; [exact Hq|].
  rewrite Hstack. destruct Hpushed as [[c Hc] _]. exists c. exact Hc.
Defined.

(** *** Three slots, two of them referring to the same object *)

Definition scenario_scan : state :=
  mkState (scenario_task (Some 0%nat) (Some 0%nat) false) (scenario_cm 2000 true [])
          scenario_heap 0.

Lemma scenario_scanning : scanning scenario_scan 0%nat scenario_region0 0%nat.
Proof.
  split.
  - repeat split; try reflexivity. by exists ∅.
  - exists []. split; [reflexivity | vm_compute; lia].
  - intros k. unfold live_words. cbn. rewrite lookup_empty. done.
  - intros _ obj Hres _. unfold passes_push_assertions. cbn.
    unfold is_in_reserved in Hres. cbn in Hres.
    apply andb_true_iff in Hres as [Hlo Hhi].
    apply Z.leb_le in Hlo. apply Z.ltb_lt in Hhi.
    rewrite !andb_true_r. apply andb_true_iff.
    split; [apply Z.leb_le | apply Z.ltb_lt]; lia.
Defined.

Lemma mark_in_alive_bitmap_counts_once_witness :
  exists s', oop_iterate [50; 51; 52] scenario_scan = Done (tt, s') /\
             (forall a, a ∈ newly_marked scenario_scan s' 0%nat -> a < 1200) /\
             forall k, live_words s' 0%nat k =
                       (live_words scenario_scan 0%nat k
                        + words_of scenario_heap k (newly_marked scenario_scan s' 0%nat))
                         mod size_t_modulus.
Proof.
  destruct (mark_in_alive_bitmap_counts_once scenario_scan 0%nat scenario_region0 0%nat
              [50; 51; 52])
    as (_ & s' & Hrun & _ & Hnew & Hcount & _);
    [vm_compute; lia | vm_compute; lia | exact scenario_scanning |].
  exists s'. split; [exact Hrun|]. split; [|exact Hcount].
  intros a Ha. by destruct (Hnew a Ha).
Defined.

(** The run marks the object at 1100 once and counts its two words once;
    the object at 1900 lies above NTAMS and is not marked. *)
Example scenario_scan_counts :
  match oop_iterate [50; 51; 52] scenario_scan with
  | Done (_, s') => Some (elements (marks s' 0%nat), live_words s' 0%nat 0%nat)
  | _ => None
  end = Some ([1100], 2).
Proof. vm_compute. reflexivity. Qed.

(** *** The total drains *)

(** With two entries in the queue, [drain_global_stack(false)] on its own
    fails its assertion; after [drain_local_queue(false)] the queue is empty
    and the assertion holds. *)
Example scenario_total_drain_alone :
  drain_global_stack 4 false scenario_full
    = Crash (AssertFailed "drain_global_stack: invariant").
Proof. vm_compute. reflexivity. Qed.

Example scenario_total_drain_in_order :
  match (_ ← drain_local_queue 4 false; drain_global_stack 4 false) scenario_full with
  | Done (_, s') => my_queue s' = Some [] /\ _has_aborted (task s') = false
  | _ => False
  end.
Proof. vm_compute. split; reflexivity. Qed.


(** *** The overflow stack filled and emptied *)

Lemma scenario_stack_wf : stack_wf scenario_stack.
Proof.
  split; [split; by vm_compute|]. split; [by vm_compute|]. split; [|reflexivity].
  vm_compute. constructor.
Qed.

(** Witness of [par_push_chunk_fails_when_full]: a push onto the empty stack
    of four chunks. *)
Lemma par_push_chunk_fails_when_full_witness :
  stack_wf scenario_stack /\
  match par_push_chunk scenario_stack [oop_entry 1100] with
  | (false, st') =>
    Z.of_nat (List.length (_chunk_list scenario_stack)) = _chunk_capacity scenario_stack /\
    st' = scenario_stack
  | (true, st') =>
    Z.of_nat (List.length (_chunk_list scenario_stack)) < _chunk_capacity scenario_stack /\
    stack_wf st' /\
    exists c, _chunk_list st'
              = mkChunk c (take EntriesPerChunk [oop_entry 1100]) :: _chunk_list scenario_stack /\
              c ∉ (chunk_index <$> _chunk_list scenario_stack)
  end.
Proof.
  split; [exact scenario_stack_wf|].
  exact (par_push_chunk_fails_when_full scenario_stack [oop_entry 1100] scenario_stack_wf).
Defined.

(** Four pushes fill the stack; the fifth fails and changes nothing; a pop
    then returns the entries of the fourth. *)
Fixpoint scenario_pushes (n : nat) (st : G1SemeruCMMarkStack) : G1SemeruCMMarkStack :=
  match n with
  | O => st
  | S n' => snd (par_push_chunk (scenario_pushes n' st) [oop_entry (1100 + Z.of_nat n')])
  end.

Example scenario_stack_fills_up :
  let full := scenario_pushes 4 scenario_stack in
  chunk_index <$> _chunk_list full = [3; 2; 1; 0] /\
  par_push_chunk full [oop_entry 1200] = (false, full) /\
  fst (par_pop_chunk full) = Some [oop_entry 1103].
Proof. vm_compute. done. Qed.

(** Witness of [par_pop_chunk_returns_last_push]. *)
Lemma par_pop_chunk_returns_last_push_witness :
  exists st2,
    par_pop_chunk (snd (par_push_chunk scenario_stack [oop_entry 1100]))
      = (Some [oop_entry 1100], st2) /\
    _chunk_list st2 = [].
Proof.
  destruct (par_pop_chunk_returns_last_push scenario_stack [oop_entry 1100]
              (snd (par_push_chunk scenario_stack [oop_entry 1100]))
              scenario_stack_wf eq_refl)
    as [(c & st2 & Hpop & Hcl & _) _].
  exists st2. split; [exact Hpop | exact Hcl].
Defined.

(** Witness of [moved_entries_come_back]: the two entries of the full queue
    go to the overflow stack and come back in the other order. *)
Lemma moved_entries_come_back_witness :
  exists s1 s2,
    move_entries_to_global_stack scenario_full = Done (tt, s1) /\
    get_entries_from_global_stack s1 = Done (true, s2) /\
    my_queue s2 = Some [oop_entry 1100; oop_entry 1102].
Proof.
  destruct (moved_entries_come_back scenario_full [oop_entry 1102; oop_entry 1100])
    as (s1 & s2 & Hmove & _ & Hget & Hq & _).
  - reflexivity.
  - discriminate.
  - vm_compute. lia.
  - vm_compute. lia.
  - exact scenario_stack_wf.
  - by vm_compute.
  - intros e He. change (take _ _) with [oop_entry 1102; oop_entry 1100] in He.
    apply elem_of_cons in He as [->|He]; [by vm_compute|].
    apply elem_of_cons in He as [->|He]; [by vm_compute|].
    by apply elem_of_nil in He.
  - intros _ e _. change (is_oop (obj_of e)) with true. apply orb_true_r.
  - exists s1, s2. split; [exact Hmove|]. split; [exact Hget | exact Hq].
Defined.

(** *** The claim loop on the two regions of the collection set *)

Definition scenario_remark_start : state :=
  mkState (scenario_task None None false) (scenario_cm 1000 false []) scenario_heap 0.

Lemma scenario_remark_chain :
  cset_chain (heap scenario_remark_start) (cm_finger (cm scenario_remark_start))
    [(0%nat, scenario_region0); (1%nat, scenario_region1)].
Proof.
  apply (cset_chain_next _ 1000 0%nat scenario_region0 2000); try (vm_compute; congruence).
  apply (cset_chain_next _ 2000 1%nat scenario_region1 0); try (vm_compute; congruence).
  constructor.
Qed.

(** Witness of [claim_loop_takes_every_region]: both regions are claimed,
    and the task is left with region 1; region 0, claimed first, is held by
    nobody. *)
Lemma claim_loop_takes_every_region_witness :
  exists s',
    claim_loop 2 scenario_remark_start = Done (tt, s') /\
    cm_finger (cm s') = NULL /\ _curr_region (task s') = Some 1%nat.
Proof.
  destruct (claim_loop_takes_every_region
              [(0%nat, scenario_region0); (1%nat, scenario_region1)]
              scenario_remark_start scenario_remark_chain eq_refl eq_refl eq_refl
              (fun _ => conj eq_refl eq_refl))
    as (s' & Hrun & Hfin & Hcr & _).
  exists s'. split; [exact Hrun|]. split; [exact Hfin | exact Hcr].
Defined.

(** *** A step that starts on a marked humongous object *)

Definition scenario_heap_marked : G1SemeruCollectedHeap :=
  set_bitmaps scenario_heap (<[2%nat := {[2000]}]> (bitmaps scenario_heap)).
Definition scenario_humongous : state :=
  mkState (scenario_task (Some 1%nat) (Some 2%nat) false) (scenario_cm 0 false [])
          scenario_heap_marked 0.

(** The same build without assertions. *)
Definition scenario_product_setting : Setting := {|
  ASSERT := false;
  EntriesPerChunk := 4;
  max_elems := 2;
  target_queue_max_elems := 4;
  GCDrainStackTargetSize := 64;
  words_scanned_period := 12288;
  refs_reached_period := 1024;
  obj_size := fun _ => 2;
  obj_ref_fields := fun _ => [];
  oop_load := fun p => if p =? 52 then 1900 else if (50 <=? p) && (p <? 52) then 1100 else 0;
  is_typeArray := fun _ => false;
  should_be_sliced := fun _ => false;
  os_elapsedVTime := fun _ => 0%float;
  sts_should_yield := fun _ => false;
  satb_process_completed_buffers := fun _ => false;
  get_new_prediction := fun _ => 0%float;
  mmap_allocate_ok := fun _ => true;
  is_oop := fun _ => true;
  is_in_g1_reserved := fun obj => (1000 <=? obj) && (obj <? 3000);
  is_on_master_free_list := fun _ => false;
  is_obj_ill := fun _ => false;
  next_mark_bitmap_is_marked := fun _ => true;
  mark_stack_size := fun st => _chunks_in_chunk_list st * 4;
  partial_mark_stack_size_target := fun st => _chunk_capacity st / 3
|}.

(** Witness of [marking_step_on_marked_humongous], in the build without
    assertions. *)
Lemma marking_step_on_marked_humongous_witness :
  ok any_failure
     (@do_semeru_marking_step scenario_product_setting 8 10%float true false scenario_humongous)
     (fun _ s' =>
        _has_aborted (task s') = true \/
        (@ASSERT scenario_product_setting = false /\ _semeru_cm_oop_closure (task s') = true)).
Proof.
  apply (@marking_step_on_marked_humongous scenario_product_setting 8 10%float true false
           scenario_humongous 1%nat scenario_region1 2%nat {[2000]}); reflexivity.
Defined.

(** There the object is scanned and the step returns at once: the task has
    not aborted, still holds the region and its closure is still set. *)
Example scenario_humongous_returns_early :
  match @do_semeru_marking_step scenario_product_setting 8 10%float true false
          scenario_humongous with
  | Done (_, s') =>
    _has_aborted (task s') = false /\ _semeru_cm_oop_closure (task s') = true /\
    _curr_region (task s') = Some 1%nat /\ _words_scanned (task s') = 2
  | _ => False
  end.
Proof. vm_compute. done. Qed.

(** With [ASSERT], the step fails the assertion that follows the scan. *)
Example scenario_humongous_fails :
  do_semeru_marking_step 8 10%float true false scenario_humongous
    = Crash (AssertFailed "do_semeru_marking_step: process humongous Region error").
Proof. vm_compute. reflexivity. Qed.

(** *** A step entered under overflow, and the restart *)

Definition scenario_overflown : state :=
  mkState (scenario_task (Some 0%nat) (Some 0%nat) false)
          (upd_has_overflown (scenario_cm 2000 false [oop_entry 1100]) true)
          scenario_heap 0.

(** Witness of [marking_step_under_overflow]: a serial step; the entry in
    the queue is not scanned. *)
Lemma marking_step_under_overflow_witness :
  exists s',
    do_semeru_marking_step 1 10%float true true scenario_overflown = Done (tt, s') /\
    _has_aborted (task s') = true /\ _curr_region (task s') = None /\
    heap s' = heap scenario_overflown /\
    _task_queues (cm s') = _task_queues (cm scenario_overflown).
Proof.
  destruct (marking_step_under_overflow 0 10%float true true scenario_overflown eq_refl
              (fun _ => conj eq_refl eq_refl) (fun E => ltac:(discriminate E)))
    as (s' & Hrun & Hab & Hcr & _ & _ & _ & Hheap & _ & Hq & _).
  exists s'. split; [exact Hrun|]. split; [exact Hab|]. split; [exact Hcr|].
  split; [exact Hheap | exact Hq].
Defined.

(** Witness of [reset_marking_for_restart_starts_over]: both queues are
    emptied and the finger goes back to the start of the heap. *)
Lemma reset_marking_for_restart_starts_over_witness :
  exists s',
    reset_marking_for_restart scenario_overflown = Done (tt, s') /\
    _task_queues (cm s') !! 0%nat = Some [] /\ _task_queues (cm s') !! 1%nat = Some [] /\
    _has_overflown (cm s') = false /\ cm_finger (cm s') = 1000.
Proof.
  destruct (reset_marking_for_restart_starts_over scenario_overflown)
    as (s' & Hrun & Hlt & _ & _ & Hov & Hfin & _).
  - intros i Hi. change (_max_num_tasks (cm scenario_overflown)) with 2%nat in Hi.
    destruct i as [|[|i]]; [by eexists | by eexists | lia].
  - exists s'. split; [exact Hrun|].
    split; [apply Hlt; vm_compute; lia|]. split; [apply Hlt; vm_compute; lia|].
    split; [exact Hov | exact Hfin].
Defined.

(** The restart doubles the capacity of the overflow stack. *)
Example scenario_restart_expands :
  match reset_marking_for_restart scenario_overflown with
  | Done (_, s') => _chunk_capacity (_global_mark_stack (cm s')) = 8
  | _ => False
  end.
Proof. vm_compute. reflexivity. Qed.


End MarkingSpec.
